(** * ore-winrate-analyzer: state codec, EV estimator, posterior estimator, ranker, analyzers

    A shallow embedding of the computational core of the repository.

    The model comes first:

    - [JSArray]    : the array operations the scripts rely on (holes,
                     writes past the end, [map], [reduce], [slice], the
                     stable [sort]);
    - [Codec]      : read-round.js ([le64], [decodeBoard], [decodeRound],
                     [u64leBytesFromBigInt], [isAll],
                     [winningSquareFromSlotHash], [getArg], the countdown
                     and the walk of [--recent] of its main function) and
                     the unchecked decoders of ev-picks.js;
    - [Lamports]   : [formatLamports] of read-round.js;
    - [EvPicks]    : ev-picks.js ([evForSquare], the per-square loop of
                     [main] and its ranking of the EVs);
    - [SmartPicks] : smart-picks.js ([dirichletTimeDecayedPriors], [topN],
                     [main]);
    - [Analyzer]   : probability-analyzer.js ([getRecentWinnerRank],
                     [calculateProbabilities] and its cache) and
                     advanced-analyzer.js ([calculateRiskLevel],
                     [calculatePoolEfficiency], [getSmartBettingAdvice],
                     [calculateOptimalAllocation]).

    The properties follow, module by module ([Binary64Props],
    [JSArrayProps], [CodecProps], [EvPicksProps], [SmartPicksProps],
    [SmartPicks64], then [CodecLayout], [EvPicksOrder], [SmartPicksHistory],
    [SmartPicksMain], [LamportsProps], [AnalyzerProps], [Analyzer64]).

    JavaScript [BigInt] values are integers of [Z].  [Number] values are kept
    abstract behind the interface [JSNumber], which is instantiated twice:
    with IEEE-754 binary64 (the kernel's primitive floats, so that a trace of
    the model is bit for bit the trace of the script) and with exact extended
    rationals (for properties of order and structure).  What the scripts
    compute with numbers is stated on binary64: [Binary64] reads a finite
    number as the rational it stands for, [Binary64Props] derives from the
    specification of the primitive floats that [+], [-], [*] and [/] are
    within a relative distance [2^-53] of the exact result, and
    [SmartPicks64] and [Analyzer64] follow the estimator and the analyzers
    through their roundings. *)

From Stdlib Require Import ZArith QArith Qround Qabs Qpower List Bool Lia Lra Psatz.
From Stdlib Require Import Permutation Sorted.
From Stdlib Require Import Strings.Byte.
From Stdlib Require Strings.String.
From Stdlib Require Import Floats.PrimFloat Numbers.Cyclic.Int63.Uint63.
From Stdlib Require Import Floats.SpecFloat Floats.FloatOps Floats.FloatAxioms.
Import ListNotations.

Set Warnings "-inexact-float".

Local Open Scope Z_scope.

(** ** Exceptions and the error monad

    Every function of the scripts either returns a value or throws.  The
    scripts define no error classes of their own: what is thrown is a plain
    [Error] with a message, or one of the engine's own exceptions. *)

Inductive exn : Type :=
| RoundDataTooShort   (* [throw new Error('Round data too short')] *)
| BoardDataTooShort   (* [throw new Error('Board data too short')] *)
| RangeErrorBounds    (* DataView read outside the bounds of the view *)
| RangeErrorDivZero   (* BigInt division by zero *)
| TypeErrorMixBigInt  (* BigInt arithmetic on [undefined] *)
| TypeErrorBigIntToNumber. (* [ToNumber] of a BigInt *)

Inductive result (A : Type) : Type :=
| Ok (a : A)
| Throw (e : exn).

Arguments Ok {A} a.
Arguments Throw {A} e.

Definition bind {A B : Type} (m : result A) (k : A -> result B) : result B :=
  match m with
  | Ok a => k a
  | Throw e => Throw e
  end.

Notation "x <- m ;; k" := (bind m (fun x => k))
  (at level 61, m at next level, right associativity).

Definition succeeds {A : Type} (m : result A) : Prop := exists a, m = Ok a.

(** ** JavaScript arrays

    An array is the list of its slots; [None] is a hole (an index below
    [length] that holds no element). *)

Module JSArray.

Definition t (A : Type) : Type := list (option A).

(** Array indices are the integers [0 .. 2^32 - 2]; any other key names an
    ordinary property, which [reduce], [map] and [sort] never visit. *)
Definition is_array_index (k : Z) : bool := (0 <=? k) && (k <=? 4294967294).

Fixpoint set_nth {A : Type} (l : list A) (i : nat) (x : A) : list A :=
  match l, i with
  | [], _ => []
  | _ :: l', O => x :: l'
  | y :: l', S i' => y :: set_nth l' i' x
  end.

(** [arr[k] = f(arr[k])], as the compound assignments [arr[k] += c] and
    [arr[k] *= c] perform it: [f] receives [None] when [arr[k]] is
    [undefined]; writing past the end lengthens the array and leaves holes
    in between. *)
Definition update {A : Type} (arr : t A) (k : Z) (f : option A -> A) : t A :=
  if is_array_index k then
    let i := Z.to_nat k in
    let v := f (nth i arr None) in
    if (i <? length arr)%nat then set_nth arr i (Some v)
    else arr ++ repeat None (i - length arr) ++ [Some v]
  else arr.

(** [arr.map(f)]: holes stay holes. *)
Definition map {A B : Type} (f : A -> B) (arr : t A) : t B :=
  List.map (option_map f) arr.

(** [arr.map((x, i) => f(x, i))]. *)
Definition mapi {A B : Type} (f : A -> nat -> B) (arr : t A) : t B :=
  List.map (fun ix => option_map (fun x => f x (fst ix)) (snd ix))
           (combine (seq 0 (length arr)) arr).

(** [arr.reduce(f, init)]: holes are skipped. *)
Definition reduce {A B : Type} (f : B -> A -> B) (init : B) (arr : t A) : B :=
  fold_left (fun acc x => match x with Some v => f acc v | None => acc end) arr init.

Fixpoint elements {A : Type} (arr : t A) : list A :=
  match arr with
  | [] => []
  | Some x :: arr' => x :: elements arr'
  | None :: arr' => elements arr'
  end.

(** [arr.slice(0, n)]. *)
Definition slice0 {A : Type} (l : list A) (n : Z) : list A :=
  if n <? 0 then firstn (Z.to_nat (Z.max (Z.of_nat (length l) + n) 0)) l
  else firstn (Z.to_nat n) l.

(** [Array.prototype.sort] is a stable sort (ECMAScript 2019), so for a
    consistent comparator its result is the one of any stable sort; this is
    insertion from the right.  [after x y] renders [comparefn(x, y) > 0]:
    [x] has to come after [y]. *)
Fixpoint insert {A : Type} (after : A -> A -> bool) (x : A) (l : list A) : list A :=
  match l with
  | [] => [x]
  | y :: l' => if after x y then y :: insert after x l' else x :: l
  end.

Definition sort_list {A : Type} (after : A -> A -> bool) (l : list A) : list A :=
  fold_right (insert after) [] l.

(** Sorting an array with holes: the elements in order, then the holes. *)
Definition sort {A : Type} (after : A -> A -> bool) (arr : t A) : t A :=
  let xs := elements arr in
  List.map Some (sort_list after xs) ++ repeat None (length arr - length xs).

Definition dense {A : Type} (l : list A) : t A := List.map Some l.

(** The same sort for a comparator that may throw: the exception leaves the
    sort at the first comparison. *)
Fixpoint insertM {A : Type} (after : A -> A -> result bool) (x : A) (l : list A)
  : result (list A) :=
  match l with
  | [] => Ok [x]
  | y :: l' =>
      b <- after x y ;;
      if b then (r <- insertM after x l' ;; Ok (y :: r)) else Ok (x :: l)
  end.

Fixpoint sort_listM {A : Type} (after : A -> A -> result bool) (l : list A)
  : result (list A) :=
  match l with
  | [] => Ok []
  | x :: l' => s <- sort_listM after l' ;; insertM after x s
  end.

End JSArray.

(** ** State codec *)

Module Codec.

(** A Node [Buffer] (a [Uint8Array]) is its sequence of bytes. *)
Definition Buffer : Type := list byte.

Definition byte_val (b : byte) : Z := Z.of_N (Byte.to_N b).

(** [buf.subarray(start)] and [buf.subarray(start, end)] for in-range or
    overlong bounds: both ends are clamped to the length of the buffer. *)
Definition subarray_from (buf : Buffer) (start : nat) : Buffer := skipn start buf.

Definition subarray (buf : Buffer) (start stop : nat) : Buffer :=
  firstn (stop - start) (skipn start buf).

(** The little-endian value of a run of bytes. *)
Fixpoint le_value (bs : list byte) : Z :=
  match bs with
  | [] => 0
  | b :: rest => byte_val b + 256 * le_value rest
  end.

(** [new DataView(...).getBigUint64(offset, true)]: a [RangeError] when the
    eight bytes do not lie inside the view, their little-endian value
    otherwise. *)
Definition getBigUint64 (buf : Buffer) (offset : nat) : result Z :=
  if (offset + 8 <=? length buf)%nat
  then Ok (le_value (firstn 8 (skipn offset buf)))
  else Throw RangeErrorBounds.

Definition le64 (buf : Buffer) (offset : nat) : result Z := getBigUint64 buf offset.

Record BoardState : Type := {
  round_id : Z;
  start_slot : Z;
  end_slot : Z
}.

(** [decodeBoard] of read-round.js. *)
Definition decodeBoard (accData : Buffer) : result BoardState :=
  if (length accData <? 8 + 24)%nat then Throw BoardDataTooShort
  else
    let data := subarray_from accData 8 in
    round_id <- le64 data 0 ;;
    start_slot <- le64 data 8 ;;
    end_slot <- le64 data 16 ;;
    Ok {| round_id := round_id; start_slot := start_slot; end_slot := end_slot |}.

(** [new PublicKey(bytes)] of the Solana client library, for a byte array:
    the constructor rejects only inputs whose numeric value needs more than
    32 bytes, so it accepts every sub-array of at most 32 bytes that the
    decoder hands to it. *)
Record PublicKey : Type := { key_bytes : list byte }.

Definition new_PublicKey (bs : Buffer) : PublicKey := {| key_bytes := bs |}.

Record RoundState : Type := {
  id : Z;
  deployed : list Z;
  slot_hash : Buffer;
  count : list Z;
  expires_at : Z;
  motherlode : Z;
  rent_payer : PublicKey;
  top_miner : PublicKey;
  top_miner_reward : Z;
  total_deployed : Z;
  total_vaulted : Z;
  total_winnings : Z
}.

(** [for (let i = 0; i < n; i++) { xs.push(le64(data, o)); o += 8; }]:
    the values pushed and the offset after the loop. *)
Fixpoint read_u64s (data : Buffer) (n : nat) (o : nat) : result (list Z * nat) :=
  match n with
  | O => Ok ([], o)
  | S n' =>
      v <- le64 data o ;;
      r <- read_u64s data n' (o + 8) ;;
      Ok (v :: fst r, snd r)
  end.

(** The body shared by both [decodeRound]s, after the discriminator has been
    skipped: the reads in source order, threading the offset [o]. *)
Definition decodeRoundBody (data : Buffer) : result RoundState :=
  let o := 0%nat in
  id <- le64 data o ;; let o := (o + 8)%nat in
  dep <- read_u64s data 25 o ;; let deployed := fst dep in let o := snd dep in
  let slot_hash := subarray data o (o + 32) in let o := (o + 32)%nat in
  cnt <- read_u64s data 25 o ;; let count := fst cnt in let o := snd cnt in
  expires_at <- le64 data o ;; let o := (o + 8)%nat in
  motherlode <- le64 data o ;; let o := (o + 8)%nat in
  let rent_payer := new_PublicKey (subarray data o (o + 32)) in let o := (o + 32)%nat in
  let top_miner := new_PublicKey (subarray data o (o + 32)) in let o := (o + 32)%nat in
  top_miner_reward <- le64 data o ;; let o := (o + 8)%nat in
  total_deployed <- le64 data o ;; let o := (o + 8)%nat in
  total_vaulted <- le64 data o ;; let o := (o + 8)%nat in
  total_winnings <- le64 data o ;;
  Ok {| id := id; deployed := deployed; slot_hash := slot_hash; count := count;
        expires_at := expires_at; motherlode := motherlode;
        rent_payer := rent_payer; top_miner := top_miner;
        top_miner_reward := top_miner_reward; total_deployed := total_deployed;
        total_vaulted := total_vaulted; total_winnings := total_winnings |}.

(** [decodeRound] of read-round.js: the only explicit length test is the one
    for the 8-byte discriminator. *)
Definition decodeRound (accData : Buffer) : result RoundState :=
  if (length accData <? 8)%nat then Throw RoundDataTooShort
  else decodeRoundBody (subarray_from accData 8).

(** What [decodeRound] of ev-picks.js returns: [{ id, deployed, count,
    total_deployed }]. *)
Record RoundSummary : Type := {
  sum_id : Z;
  sum_deployed : list Z;
  sum_count : list Z;
  sum_total_deployed : Z
}.

(** [decodeRound] of ev-picks.js: the same reads with no length test. *)
Definition decodeRound_ev (accData : Buffer) : result RoundSummary :=
  r <- decodeRoundBody (subarray_from accData 8) ;;
  Ok {| sum_id := id r; sum_deployed := deployed r; sum_count := count r;
        sum_total_deployed := total_deployed r |}.

(** The tagged outcome [{ status: 'unavailable' }], [{ status: 'refund' }],
    [{ status: 'ok', index }]. *)
Inductive WinningSquare : Type :=
| Unavailable
| Refund
| Resolved (index : Z).

Definition isAll (buf : Buffer) (value : Z) : bool :=
  forallb (fun b => byte_val b =? value) buf.

(** [winningSquareFromSlotHash]: BigInt [^] is [Z.lxor], BigInt [%] is the
    truncating remainder [Z.rem]. *)
Definition winningSquareFromSlotHash (slotHashBuf : Buffer) : result WinningSquare :=
  if negb (length slotHashBuf =? 32)%nat then Ok Unavailable
  else if isAll slotHashBuf 0 then Ok Unavailable
  else if isAll slotHashBuf 255 then Ok Refund
  else
    r1 <- getBigUint64 slotHashBuf 0 ;;
    r2 <- getBigUint64 slotHashBuf 8 ;;
    r3 <- getBigUint64 slotHashBuf 16 ;;
    r4 <- getBigUint64 slotHashBuf 24 ;;
    let r := Z.lxor (Z.lxor (Z.lxor r1 r2) r3) r4 in
    let idx := Z.rem r 25 in
    Ok (Resolved idx).

(** The bytes [decodeRound] consumes, field by field in source order: the
    discriminator, [id], 25 [deployed], [slot_hash], 25 [count],
    [expires_at] and [motherlode], two addresses, and the four trailing
    counters. *)
Definition round_layout_size : nat := 8 + 8 + 25 * 8 + 32 + 25 * 8 + 8 * 2 + 32 * 2 + 8 * 4.

(** The spec's words for the four words of a slot hash: the little-endian
    unsigned 64-bit word made of the eight bytes from [offset] on, the byte
    at [offset + i] weighing [256 ^ i].  It is written out byte by byte and
    shares nothing with the reader [getBigUint64] above. *)
Definition byte_at (buf : Buffer) (i : nat) : Z := byte_val (nth i buf x00).

Definition little_endian_word (buf : Buffer) (offset : nat) : Z :=
  byte_at buf offset
  + byte_at buf (offset + 1) * 2 ^ 8
  + byte_at buf (offset + 2) * 2 ^ 16
  + byte_at buf (offset + 3) * 2 ^ 24
  + byte_at buf (offset + 4) * 2 ^ 32
  + byte_at buf (offset + 5) * 2 ^ 40
  + byte_at buf (offset + 6) * 2 ^ 48
  + byte_at buf (offset + 7) * 2 ^ 56.

(** A slot hash with bytes of every weight set in each of its four words. *)
Definition sample_hash : Buffer :=
  [ x9c; x4e; x01; xf3; x27; xb8; x5a; xd0;
    x11; x7f; xe2; x08; x93; x6d; xc4; x3b;
    xa5; x00; x58; xfe; x76; x19; x8a; x42;
    x67; xd9; x30; xbc; x05; xe1; x4a; x96 ].

(** A buffer of 498 zero bytes. *)
Definition buffer_498 : Buffer := repeat x00 498.

(** [decodeBoard] of ev-picks.js: the same three reads with no length
    test. *)
Definition decodeBoard_ev (accData : Buffer) : result BoardState :=
  let data := subarray_from accData 8 in
  round_id <- le64 data 0 ;;
  start_slot <- le64 data 8 ;;
  end_slot <- le64 data 16 ;;
  Ok {| round_id := round_id; start_slot := start_slot; end_slot := end_slot |}.

(** The byte with the given value (values from 256 on give [x00]; no caller
    passes one). *)
Definition byte_of (v : Z) : byte :=
  match Byte.of_N (Z.to_N v) with
  | Some b => b
  | None => x00
  end.

(** The [n] low bytes of [x], the least significant first. *)
Fixpoint le_bytes (n : nat) (x : Z) : list byte :=
  match n with
  | O => []
  | S n' => byte_of (x mod 256) :: le_bytes n' (x / 256)
  end.

(** [u64leBytesFromBigInt(x)]: [Buffer.alloc(8)] filled by
    [writeBigUInt64LE], which throws a [RangeError] for a value outside
    [0, 2^64); [None] stands for that exception. *)
Definition u64leBytesFromBigInt (x : Z) : option Buffer :=
  if (0 <=? x) && (x <? 2 ^ 64) then Some (le_bytes 8 x) else None.

(** The unsigned 64-bit word at a byte offset of a buffer. *)
Definition word_at (buf : Buffer) (offset : nat) : Z :=
  le_value (firstn 8 (skipn offset buf)).

(** The round account field by field, each at its byte offset in the
    account data: the table the decoder is to follow. *)
Definition round_at_offsets (accData : Buffer) : RoundState :=
  {| id := word_at accData 8;
     deployed := List.map (fun i => word_at accData (16 + 8 * i)) (seq 0 25);
     slot_hash := firstn 32 (skipn 216 accData);
     count := List.map (fun i => word_at accData (248 + 8 * i)) (seq 0 25);
     expires_at := word_at accData 448;
     motherlode := word_at accData 456;
     rent_payer := new_PublicKey (firstn 32 (skipn 464 accData));
     top_miner := new_PublicKey (firstn 32 (skipn 496 accData));
     top_miner_reward := word_at accData 528;
     total_deployed := word_at accData 536;
     total_vaulted := word_at accData 544;
     total_winnings := word_at accData 552 |}.

Definition board_at_offsets (accData : Buffer) : BoardState :=
  {| round_id := word_at accData 8;
     start_slot := word_at accData 16;
     end_slot := word_at accData 24 |}.

(** The fields of the body, relative to the end of the discriminator. *)
Definition body_at_offsets (data : Buffer) : RoundState :=
  {| id := word_at data 0;
     deployed := List.map (fun i => word_at data (8 + 8 * i)) (seq 0 25);
     slot_hash := subarray data 208 240;
     count := List.map (fun i => word_at data (240 + 8 * i)) (seq 0 25);
     expires_at := word_at data 440;
     motherlode := word_at data 448;
     rent_payer := new_PublicKey (subarray data 456 488);
     top_miner := new_PublicKey (subarray data 488 520);
     top_miner_reward := word_at data 520;
     total_deployed := word_at data 528;
     total_vaulted := word_at data 536;
     total_winnings := word_at data 544 |}.

(** ** The countdowns of [main]

    [U64_MAX] marks a deadline that is not set. *)
Definition U64_MAX : Z := 2 ^ 64 - 1.

(** What [main] prints as "Time to round end" and "Time to checkpoint
    expiry": minutes, seconds and slots. *)
Record Countdown : Type := { mins : Z; secs : Z; slots : Z }.

(** [const remain = deadline > currentSlot ? deadline - currentSlot : 0n;
     const mins = remain / 150n;
     const secs = ((remain % 150n) * 60n) / 150n], guarded by
    [deadline !== U64_MAX]; [None] when the guard fails. *)
Definition countdown (deadline currentSlot : Z) : option Countdown :=
  if deadline =? U64_MAX then None
  else
    let remain := if deadline >? currentSlot then deadline - currentSlot else 0 in
    let mins := Z.quot remain 150 in
    let secs := Z.quot (Z.rem remain 150 * 60) 150 in
    Some {| mins := mins; secs := secs; slots := remain |}.

(** ** The walk of [--recent]

    [getAccountInfo] stands for [PublicKey.findProgramAddressSync] on the
    seeds [SEED_ROUND] and the eight bytes of the round id, followed by
    [connection.getAccountInfo]: the data of the account found under that
    seed, [None] when there is no such account. *)

(** The entries [{ id, square }] and [{ id, square: null, status }]; the id
    is kept as a number. *)
Record RecentEntry : Type := { recent_id : Z; recent_square : WinningSquare }.

(** [const r = decodeRound(acc.data);
     const w = winningSquareFromSlotHash(r.slot_hash)] and the entry pushed
    for them. *)
Definition round_entry (data : Buffer) : result RecentEntry :=
  r <- decodeRound data ;;
  w <- winningSquareFromSlotHash (slot_hash r) ;;
  Ok {| recent_id := id r; recent_square := w |}.

(** How the walk ends: with its list of results, with the [RangeError] of
    [writeBigUInt64LE] in [findRoundPda], or with what decoding a round
    threw. *)
Inductive WalkResult : Type :=
| Walked (results : list RecentEntry)
| SeedRangeError
| RoundThrow (e : exn).

Section RecentWalk.

Variable getAccountInfo : Buffer -> option Buffer.

(** [while (results.length < want && cur >= 0n) { ... }], by the number of
    results still wanted. *)
Fixpoint recent_loop (wanted : nat) (cur : Z) : WalkResult :=
  match wanted with
  | O => Walked []
  | S wanted' =>
      if cur <? 0 then Walked []
      else
        match u64leBytesFromBigInt cur with
        | None => SeedRangeError
        | Some seed =>
            match getAccountInfo seed with
            | None => Walked []
            | Some data =>
                match round_entry data with
                | Throw e => RoundThrow e
                | Ok entry =>
                    if cur =? 0 then Walked [entry]
                    else
                      match recent_loop wanted' (cur - 1) with
                      | Walked rest => Walked (entry :: rest)
                      | stopped => stopped
                      end
                end
            end
        end
  end.

(** [let cur = roundId > 0n ? roundId - 1n : 0n] and the loop. *)
Definition recentWinners (roundId : Z) (want : nat) : WalkResult :=
  let cur := if roundId >? 0 then roundId - 1 else 0 in
  recent_loop want cur.

End RecentWalk.

(** Accounts for a walk: under every seed that starts with byte 1 or 2 an
    account of 560 bytes, and none elsewhere. *)
Definition sample_accounts (seed : Buffer) : option Buffer :=
  match seed with
  | x01 :: _ => Some (repeat x01 560)
  | x02 :: _ => Some (repeat x01 560)
  | _ => None
  end.

(** ** Command-line arguments *)

(** [argv.indexOf(name)]. *)
Fixpoint indexOf (name : String.string) (argv : list String.string) : option nat :=
  match argv with
  | [] => None
  | s :: argv' =>
      if String.eqb s name then Some O
      else option_map S (indexOf name argv')
  end.

(** [getArg(name, def)] of read-round.js and ev-picks.js, on a given
    [process.argv]; a value of [None] is the [null] or [undefined] a caller
    passes as default. *)
Definition getArg (argv : list String.string) (name : String.string)
  (def : option String.string) : option String.string :=
  match indexOf name argv with
  | Some i => if (i + 1 <? length argv)%nat then nth_error argv (i + 1) else def
  | None => def
  end.

End Codec.

(** ** Amounts in print *)

Module Lamports.

Import Ascii.

(** A string as the list of its characters. *)
Definition JSString : Type := list ascii.

Definition digit (d : Z) : ascii := ascii_of_nat (48 + Z.to_nat d).

(** The decimal digits of a number that is not negative, the most
    significant first, put in front of [acc]. *)
Fixpoint digits_of (fuel : nat) (n : Z) (acc : JSString) : JSString :=
  match fuel with
  | O => acc
  | S fuel' =>
      let acc' := digit (n mod 10) :: acc in
      if n / 10 =? 0 then acc' else digits_of fuel' (n / 10) acc'
  end.

(** [BigInt.prototype.toString()]: the decimal digits with no leading zero,
    after a minus sign for a negative value.  A number has no more decimal
    digits than binary ones, which bounds the recursion. *)
Definition BigInt_toString (n : Z) : JSString :=
  if n <? 0 then "-"%char :: digits_of (S (Z.to_nat (Z.log2 (- n)))) (- n) []
  else digits_of (S (Z.to_nat (Z.log2 n))) n [].

(** [s.padStart(targetLength, c)] for a pad string of one character. *)
Definition padStart (s : JSString) (targetLength : nat) (c : ascii) : JSString :=
  repeat c (targetLength - length s) ++ s.

(** [formatLamports(bi)]; BigInt [/] and [%] truncate toward zero. *)
Definition formatLamports (bi : Z) : JSString :=
  let LAMPORTS_PER_SOL := 1000000000 in
  let whole := Z.quot bi LAMPORTS_PER_SOL in
  let frac := padStart (BigInt_toString (Z.rem bi LAMPORTS_PER_SOL)) 9 "0"%char in
  BigInt_toString whole ++ "."%char :: frac.

(** Reading a string of decimal digits back, from the value [v] of the
    digits already read. *)
Definition digit_value (c : ascii) : Z := Z.of_nat (nat_of_ascii c) - 48.

Definition is_digit (c : ascii) : Prop := 0 <= digit_value c <= 9.

Fixpoint read_digits (s : JSString) (v : Z) : Z :=
  match s with
  | [] => v
  | c :: s' => read_digits s' (10 * v + digit_value c)
  end.

End Lamports.

(** ** Expected-value estimator *)

Module EvPicks.

(** BigInt [x / y]: a [RangeError] on a zero divisor, the quotient truncated
    toward zero otherwise. *)
Definition bigint_div (x y : Z) : result Z :=
  if y =? 0 then Throw RangeErrorDivZero else Ok (Z.quot x y).

(** The object [{ S_win, EV }]. *)
Record EvResult : Type := { S_win : Z; EV : Z }.

(** [evForSquare(deployed, total, aLamports)]. *)
Definition evForSquare (deployed total aLamports : Z) : result EvResult :=
  let N := 25 in
  let a := aLamports in
  let totalNew := total + a in
  let depNew := deployed + a in
  base <- bigint_div (a * 99) 100 ;;
  let pot := totalNew - depNew in
  let shareNumer := pot * a * 891 in
  share <- bigint_div shareNumer (depNew * 1000) ;;
  let S_win := base + share in
  q <- bigint_div S_win N ;;
  let EV := (- a) + q in
  Ok {| S_win := S_win; EV := EV |}.

(** The entries [{ idx0, idx1, EV }] that [main] collects. *)
Record EvEntry : Type := { idx0 : nat; idx1 : nat; entry_EV : Z }.

(** One turn of the loop of [main]: [round.deployed[i]] is [undefined] past
    the end of the array, and [undefined + a] is a [TypeError]. *)
Definition evEntry (deployed : list Z) (total betLamports : Z) (i : nat) : result EvEntry :=
  match nth_error deployed i with
  | Some d =>
      r <- evForSquare d total betLamports ;;
      Ok {| idx0 := i; idx1 := i + 1; entry_EV := EV r |}
  | None => Throw TypeErrorMixBigInt
  end.

(** [for (let i = start; i < start + n; i++) results.push(body(i))]. *)
Fixpoint for_range {A : Type} (body : nat -> result A) (start n : nat) : result (list A) :=
  match n with
  | O => Ok []
  | S n' =>
      x <- body start ;;
      xs <- for_range body (S start) n' ;;
      Ok (x :: xs)
  end.

(** The EV vector that [main] builds from a decoded round:
    [for (let i = 0; i < 25; i++) ... evForSquare(round.deployed[i],
    round.total_deployed, betLamports)]. *)
Definition estimateEV (deployed : list Z) (total betLamports : Z) : result (list EvEntry) :=
  for_range (evEntry deployed total betLamports) 0 25.

(** [results.sort((a, b) => Number(b.EV - a.EV))]: the comparator is positive
    exactly when the BigInt difference is, [Number] keeping the sign. *)
Definition ev_ranks_after (a b : EvEntry) : bool := entry_EV b - entry_EV a >? 0.

Definition rankEV (results : list EvEntry) : list EvEntry :=
  JSArray.sort_list ev_ranks_after results.

(** The three entries [main] prints: [results[0]], [results[1]],
    [results[2]] after the sort. *)
Definition top3 (results : list EvEntry) : list EvEntry := firstn 3 (rankEV results).

(** The order of the EV ranking: descending by EV, ascending by square index
    among equal EVs. *)
Definition ev_ranked_before (x y : EvEntry) : Prop :=
  entry_EV y < entry_EV x \/ (entry_EV y = entry_EV x /\ (idx0 x < idx0 y)%nat).

(** The payout share as the specification words it, in rational arithmetic:
    [floor(0.99 * a) + floor((totalNew - depNew) * a * 0.891 / depNew)]. *)
Definition S_win_spec (d T a : Z) : Z :=
  let totalNew := T + a in
  let depNew := d + a in
  (Qfloor ((99 # 100) * inject_Z a)
   + Qfloor (inject_Z (totalNew - depNew) * inject_Z a * (891 # 1000) / inject_Z depNew))%Z.

(** [EV_i = -a + S_win / 25], the division being the floor division. *)
Definition EV_spec (d T a : Z) : Z := - a + S_win_spec d T a / 25.

Fixpoint sumZ (l : list Z) : Z :=
  match l with
  | [] => 0
  | d :: l' => d + sumZ l'
  end.

(** The value [evForSquare] returns when the one variable divisor is not
    zero, in the truncating arithmetic of BigInt. *)
Definition ev_value (d T a : Z) : EvResult :=
  let S := Z.quot (a * 99) 100 + Z.quot ((T + a - (d + a)) * a * 891) ((d + a) * 1000) in
  {| S_win := S; EV := - a + Z.quot S 25 |}.

(** The vector [main] is to build, entry by entry, from the specification's
    formula. *)
Definition ev_entries_spec (deployed : list Z) (T a : Z) : list EvEntry :=
  map (fun i => {| idx0 := i; idx1 := i + 1;
                   entry_EV := EV_spec (nth i deployed 0) T a |})
      (seq 0 25).

End EvPicks.

(** ** JavaScript numbers

    The operations of [Number] that smart-picks.js uses. *)

Class JSNumber (num : Type) : Type := {
  num_of_nat : nat -> num;        (* integer literals and loop counters *)
  num_0_6 : num;                  (* the literal [0.6] *)
  num_0_8 : num;                  (* the literal [0.8] *)
  num_NaN : num;                  (* what arithmetic on [undefined] yields *)
  num_add : num -> num -> num;
  num_sub : num -> num -> num;
  num_mul : num -> num -> num;
  num_div : num -> num -> num;
  num_neg : num -> num;
  num_gt : num -> num -> bool     (* [x > y], false when an operand is NaN *)
}.

(** *** IEEE-754 binary64 *)

#[export] Instance float_JSNumber : JSNumber float := {
  num_of_nat n := PrimFloat.of_uint63 (Uint63.of_Z (Z.of_nat n));
  num_0_6 := 0.6%float;
  num_0_8 := 0.8%float;
  num_NaN := PrimFloat.nan;
  num_add := PrimFloat.add;
  num_sub := PrimFloat.sub;
  num_mul := PrimFloat.mul;
  num_div := PrimFloat.div;
  num_neg := PrimFloat.opp;
  num_gt x y := PrimFloat.ltb y x
}.

(** [Math.pow] where ECMAScript fixes its value exactly: NaN for a NaN
    exponent and 1 for an exponent of +0 or -0.  Elsewhere the result is an
    implementation-approximated value; this stand-in answers NaN there, and
    the binary64 traces below call it with the exponent [-0] only. *)
Definition Math_pow_fixed (base exponent : float) : float :=
  if PrimFloat.eqb exponent 0%float then 1%float else PrimFloat.nan.

(** *** Exact extended rationals

    Binary64 without rounding, overflow or underflow: a rational, an
    infinity or NaN.  Zero carries no sign; a division by zero takes the
    divisor as [+0], which is the only zero divisor the estimator can
    produce (its denominators are sums that start from [+0]). *)

Inductive xrat : Type :=
| Fin (q : Q)
| PInf
| NInf
| XNaN.

Definition inf_of_sign (c : comparison) : xrat :=
  match c with Gt => PInf | Lt => NInf | Eq => XNaN end.

Definition xadd (a b : xrat) : xrat :=
  match a, b with
  | XNaN, _ | _, XNaN => XNaN
  | Fin p, Fin q => Fin (p + q)
  | PInf, NInf | NInf, PInf => XNaN
  | PInf, _ | _, PInf => PInf
  | NInf, _ | _, NInf => NInf
  end.

Definition xneg (a : xrat) : xrat :=
  match a with
  | Fin q => Fin (- q)
  | PInf => NInf
  | NInf => PInf
  | XNaN => XNaN
  end.

Definition xsub (a b : xrat) : xrat := xadd a (xneg b).

Definition xmul (a b : xrat) : xrat :=
  match a, b with
  | XNaN, _ | _, XNaN => XNaN
  | Fin p, Fin q => Fin (p * q)
  | Fin p, PInf | PInf, Fin p => inf_of_sign (p ?= 0)%Q
  | Fin p, NInf | NInf, Fin p => inf_of_sign (0 ?= p)%Q
  | PInf, PInf | NInf, NInf => PInf
  | PInf, NInf | NInf, PInf => NInf
  end.

Definition xdiv (a b : xrat) : xrat :=
  match a, b with
  | XNaN, _ | _, XNaN => XNaN
  | Fin p, Fin q =>
      if Qeq_bool q 0 then inf_of_sign (p ?= 0)%Q else Fin (p / q)
  | Fin _, PInf | Fin _, NInf => Fin 0
  | PInf, Fin q => if Qle_bool 0 q then PInf else NInf
  | NInf, Fin q => if Qle_bool 0 q then NInf else PInf
  | PInf, PInf | PInf, NInf | NInf, PInf | NInf, NInf => XNaN
  end.

Definition xgt (a b : xrat) : bool :=
  match a, b with
  | Fin p, Fin q => negb (Qle_bool p q)
  | PInf, Fin _ | PInf, NInf | Fin _, NInf => true
  | _, _ => false
  end.

#[export] Instance xrat_JSNumber : JSNumber xrat := {
  num_of_nat n := Fin (inject_Z (Z.of_nat n));
  num_0_6 := Fin (6 # 10);
  num_0_8 := Fin (8 # 10);
  num_NaN := XNaN;
  num_add := xadd;
  num_sub := xsub;
  num_mul := xmul;
  num_div := xdiv;
  num_neg := xneg;
  num_gt := xgt
}.

(** *** The value of a binary64 number

    The kernel's primitive floats come with their specification
    ([Prim2SF], and one equation per operation relating it to the
    parameterised IEEE-754 operations of [SpecFloat]).  The definitions
    below read a finite number as the rational it stands for, so that
    what the scripts compute can be compared with exact arithmetic. *)

Module Binary64.

(** Powers of two, as rationals. *)
Definition pow2 (e : Z) : Q := Qpower 2 e.

(** The rational a finite binary number stands for (0 for the others). *)
Definition SF2Q (x : spec_float) : Q :=
  match x with
  | S754_finite s m e =>
      ((if s then - inject_Z (Zpos m) else inject_Z (Zpos m)) * pow2 e)%Q
  | _ => 0%Q
  end.

Definition F2Q (x : float) : Q := SF2Q (Prim2SF x).

(** The real [v] lies in the interval from [m * 2^e] to [(m + 1) * 2^e]
    where the location says. *)
Definition inbetween (m e : Z) (l : location) (v : Q) : Prop :=
  match l with
  | loc_Exact => (v == inject_Z m * pow2 e)%Q
  | loc_Inexact Lt =>
      (inject_Z m * pow2 e < v)%Q /\ (v < (inject_Z m + (1 # 2)) * pow2 e)%Q
  | loc_Inexact Eq => (v == (inject_Z m + (1 # 2)) * pow2 e)%Q
  | loc_Inexact Gt =>
      ((inject_Z m + (1 # 2)) * pow2 e < v)%Q /\ (v < (inject_Z m + 1) * pow2 e)%Q
  end.

(** The unit roundoff of binary64, [2^-53]. *)
Definition u : Q := pow2 (-53).

(** A positive finite number. *)
Definition pfinite (x : float) : Prop :=
  exists (m : positive) (e : Z), Prim2SF x = S754_finite false m e.

(** The number [+0]. *)
Definition pzero (x : float) : Prop := Prim2SF x = S754_zero false.

(** A positive finite number whose value lies between two rationals. *)
Definition within (lo hi : Q) (x : float) : Prop :=
  pfinite x /\ (lo <= F2Q x)%Q /\ (F2Q x <= hi)%Q.

(** Whether the conversion of the integer [n] to binary64 is the positive
    finite number of value [n]. *)
Definition exact_nat (n : nat) : bool :=
  match Prim2SF (of_uint63 (of_Z (Z.of_nat n))) with
  | S754_finite false m e => Qeq_bool (inject_Z (Zpos m) * pow2 e) (inject_Z (Z.of_nat n))
  | _ => false
  end.

End Binary64.

(** ** Posterior estimator and ranker *)

Module SmartPicks.

(** The [blockNumber] of a history entry as [Number.isInteger] sees it: an
    integer-valued number, or anything else ([undefined], a string, a
    fraction, NaN). *)
Inductive BlockNumber : Type :=
| IntVal (k : Z)
| NonInt.

Record WinnerRecord : Type := { round : Z; blockNumber : BlockNumber }.

(** [sorted[i]?.blockNumber]. *)
Definition blockNumber_at (sorted : list WinnerRecord) (i : nat) : BlockNumber :=
  match nth_error sorted i with
  | Some e => blockNumber e
  | None => NonInt
  end.

(** [[...winners].sort((a, b) => b.round - a.round).slice(0, maxRounds)]. *)
Definition window (winners : list WinnerRecord) (maxRounds : Z) : list WinnerRecord :=
  JSArray.slice0
    (JSArray.sort_list (fun a b => round b - round a >? 0) winners) maxRounds.

Section Estimator.

Context {num : Type} {NUM : JSNumber num}.

(** [Math.pow], whose value the language leaves implementation-approximated. *)
Variable Math_pow : num -> num -> num.

(** The [options] object; an absent field is [None]. *)
Record Options : Type := {
  opt_alpha : option num;
  opt_halfLife : option num;
  opt_maxRounds : option Z
}.

Definition no_options : Options :=
  {| opt_alpha := None; opt_halfLife := None; opt_maxRounds := None |}.

(** [x ?? d]. *)
Definition nullish {A : Type} (x : option A) (d : A) : A :=
  match x with Some v => v | None => d end.

Definition N : nat := 25.

(** [sorted.map((_, i) => Math.pow(2, -i / halfLife))]. *)
Definition weights_of (sorted : list WinnerRecord) (halfLife : num) : list num :=
  List.map (fun i => Math_pow (num_of_nat 2) (num_div (num_neg (num_of_nat i)) halfLife))
           (seq 0 (length sorted)).

(** [undefined + c] and [undefined * c] are NaN. *)
Definition compound (op : num -> num -> num) (c : num) (x : option num) : num :=
  match x with Some v => op v c | None => num_NaN end.

(** The counting loop: [if (Number.isInteger(idx0) && idx0 >= 0 && idx0 < N)
    counts[idx0] += weights[i]]. *)
Fixpoint count_loop (sorted : list WinnerRecord) (weights : list num)
  (counts : JSArray.t num) : JSArray.t num :=
  match sorted, weights with
  | e :: sorted', w :: weights' =>
      let counts' :=
        match blockNumber e with
        | IntVal idx0 =>
            if (0 <=? idx0) && (idx0 <? Z.of_nat N)
            then JSArray.update counts idx0 (compound num_add w)
            else counts
        | NonInt => counts
        end in
      count_loop sorted' weights' counts'
  | _, _ => counts
  end.

(** Steps up to the posterior mean
    [p_k = (alpha + w_k) / (N * alpha + sum_w)]. *)
Definition posteriorMean (sorted : list WinnerRecord) (alpha halfLife : num) : JSArray.t num :=
  let weights := weights_of sorted halfLife in
  let counts := count_loop sorted weights (repeat (Some (num_of_nat 0)) N) in
  let sumW := JSArray.reduce num_add (num_of_nat 0) counts in
  JSArray.map
    (fun w => num_div (num_add alpha w) (num_add (num_mul (num_of_nat N) alpha) sumW))
    counts.

(** [if (Number.isInteger(idx)) probs[idx] *= c]: no test of the range. *)
Definition penalise (idx : BlockNumber) (c : num) (probs : JSArray.t num) : JSArray.t num :=
  match idx with
  | IntVal k => JSArray.update probs k (compound num_mul c)
  | NonInt => probs
  end.

(** The anti-streak stage. *)
Definition antiStreak (sorted : list WinnerRecord) (probs : JSArray.t num) : JSArray.t num :=
  let recentIdx0 := blockNumber_at sorted 0 in
  let prevIdx0 := blockNumber_at sorted 1 in
  penalise prevIdx0 num_0_8 (penalise recentIdx0 num_0_6 probs).

(** [s = probs.reduce(...); probs.map((p) => (s > 0 ? p / s : 1 / N))]. *)
Definition renormalize (probs : JSArray.t num) : JSArray.t num :=
  let s := JSArray.reduce num_add (num_of_nat 0) probs in
  JSArray.map
    (fun p => if num_gt s (num_of_nat 0) then num_div p s
              else num_div (num_of_nat 1) (num_of_nat N))
    probs.

(** [dirichletTimeDecayedPriors(winners, options)]. *)
Definition dirichletTimeDecayedPriors (winners : list WinnerRecord) (options : Options)
  : JSArray.t num :=
  let alpha := nullish (opt_alpha options) (num_of_nat 1) in
  let halfLife := nullish (opt_halfLife options) (num_of_nat 10) in
  let maxRounds := nullish (opt_maxRounds options) 30 in
  let sorted := window winners maxRounds in
  let probs := posteriorMean sorted alpha halfLife in
  let probs := antiStreak sorted probs in
  renormalize probs.

(** The same computation with the multiplier for the most recent round left
    out: what the output "would be without the penalty". *)
Definition withoutRecentPenalty (winners : list WinnerRecord) (options : Options)
  : JSArray.t num :=
  let alpha := nullish (opt_alpha options) (num_of_nat 1) in
  let halfLife := nullish (opt_halfLife options) (num_of_nat 10) in
  let maxRounds := nullish (opt_maxRounds options) 30 in
  let sorted := window winners maxRounds in
  let probs := posteriorMean sorted alpha halfLife in
  let probs := penalise (blockNumber_at sorted 1) num_0_8 probs in
  renormalize probs.

(** The objects [{ index0, index1, p }]. *)
Record Pick : Type := { index0 : nat; index1 : nat; p : num }.

(** [comparefn(a, b) > 0] for [(a, b) => b.p - a.p]. *)
Definition ranks_after (a b : Pick) : bool :=
  num_gt (num_sub (p b) (p a)) (num_of_nat 0).

(** [topN(probs, n)]. *)
Definition topN (probs : JSArray.t num) (n : Z) : JSArray.t Pick :=
  let arr := JSArray.mapi (fun p i => {| index0 := i; index1 := i + 1; p := p |}) probs in
  let arr := JSArray.sort ranks_after arr in
  JSArray.slice0 arr n.

(** The sum of the elements, as [reduce((a, b) => a + b, 0)] computes it. *)
Definition total (probs : JSArray.t num) : num :=
  JSArray.reduce num_add (num_of_nat 0) probs.

(** The common value of the 25 entries on the empty history, as the script
    computes it from [alpha]. *)
Definition empty_history_entry (alpha : num) : num :=
  let zero := num_of_nat 0 in
  let sumW := JSArray.reduce num_add zero (repeat (Some zero) N) in
  let p0 := num_div (num_add alpha zero) (num_add (num_mul (num_of_nat N) alpha) sumW) in
  let s := JSArray.reduce num_add zero (repeat (Some p0) N) in
  if num_gt s zero then num_div p0 s else num_div (num_of_nat 1) (num_of_nat N).

End Estimator.

Arguments Options : clear implicits.
Arguments Pick : clear implicits.
Arguments no_options {num}.

(** The options [main] passes: [{ alpha: 1.0, halfLife: 10, maxRounds: 30 }]. *)
Definition main_options {num : Type} {NUM : JSNumber num} : Options num :=
  {| opt_alpha := Some (num_of_nat 1);
     opt_halfLife := Some (num_of_nat 10);
     opt_maxRounds := Some 30 |}.

(** What [main] computes from the array it has loaded: nothing on an empty
    array (it prints that there is no data and exits), and otherwise the
    picks it prints. *)
Definition main {num : Type} {NUM : JSNumber num} (Math_pow : num -> num -> num)
  (winners : list WinnerRecord) : option (JSArray.t (Pick num)) :=
  match winners with
  | [] => None
  | _ :: _ =>
      let probs := dirichletTimeDecayedPriors Math_pow winners main_options in
      let picks := topN probs 3 in
      Some picks
  end.

(** The order of the window: the later round first. *)
Definition newer (x y : WinnerRecord) : Prop := round y < round x.

(** [topN] on an array of BigInt values, such as the EVs of ev-picks.js.
    The comparator [(a, b) => b.p - a.p] then returns a BigInt, and [sort]
    converts what a comparator returns with [ToNumber], which throws a
    [TypeError] on a BigInt. *)
Definition bigint_ranks_after (a b : Pick Z) : result bool :=
  let difference := p b - p a in
  Throw TypeErrorBigIntToNumber.

Definition topN_bigint (evs : list Z) (n : Z) : result (list (Pick Z)) :=
  let arr := List.map (fun ix => {| index0 := fst ix; index1 := fst ix + 1; p := snd ix |})
                      (combine (seq 0 (length evs)) evs) in
  arr <- JSArray.sort_listM bigint_ranks_after arr ;;
  Ok (JSArray.slice0 arr n).

(** A history of one round, won by the given [blockNumber]. *)
Definition one_round (b : BlockNumber) : list WinnerRecord :=
  [ {| round := 1; blockNumber := b |} ].

(** The estimator on binary64 numbers with the default options, [Math.pow]
    being [Math_pow_fixed]: the run of the script on a history whose window
    counts at most one entry, where the only weight read is [2 ^ -0]. *)
Definition priors64 (winners : list WinnerRecord) : JSArray.t float :=
  dirichletTimeDecayedPriors Math_pow_fixed winners no_options.

(** The options [{ maxRounds: 1 }], in binary64. *)
Definition window_of_one : Options float :=
  {| opt_alpha := None; opt_halfLife := None; opt_maxRounds := Some 1 |}.

(** An entry made to contribute nothing while it keeps its place in the
    window: its block number is replaced by a value that is no integer. *)
Definition neutralise (e : WinnerRecord) : WinnerRecord :=
  match blockNumber e with
  | IntVal k =>
      if (0 <=? k) && (k <? 25) then e
      else {| round := round e; blockNumber := NonInt |}
  | NonInt => e
  end.

Definition fin_array (l : list Q) : JSArray.t xrat :=
  List.map (fun q => Some (Fin q)) l.

Fixpoint sumQ (l : list Q) : Q :=
  match l with
  | [] => 0
  | x :: l' => x + sumQ l'
  end.

(** In exact arithmetic a power of two with a finite exponent is a positive
    number. *)
Definition pow_positive (pow : xrat -> xrat -> xrat) : Prop :=
  forall e : Q, exists q : Q, pow (Fin (inject_Z 2)) (Fin e) = Fin q /\ (0 < q)%Q.

(** Powers of two for the history of a single round: the only weight is
    [2 ^ (-0 / 10) = 1]. *)
Definition pow_one (base exponent : xrat) : xrat := Fin 1.

(** [l[i] *= c] on rationals. *)
Definition scale (l : list Q) (i : nat) (c : Q) : list Q :=
  JSArray.set_nth l i (nth i l 0 * c)%Q.

(** The block number does not make [probs[idx] *= c] write past the 25
    squares: it is no integer, or lies below 25, or is no array index. *)
Definition no_stray_write (b : BlockNumber) : Prop :=
  match b with
  | IntVal k => k < 25 \/ 4294967294 < k
  | NonInt => True
  end.

(** The penalty stage on 25 rationals. *)
Definition pen (b : BlockNumber) (c : Q) (l : list Q) : list Q :=
  match b with
  | IntVal k => if (0 <=? k) && (k <? 25) then scale l (Z.to_nat k) c else l
  | NonInt => l
  end.

(** The entries of a vector of finite numbers, paired with their square
    indices from [start] on. *)
Fixpoint indexed_from (start : nat) (v : list Q) : list (Pick xrat) :=
  match v with
  | [] => []
  | q :: v' => {| index0 := start; index1 := start + 1; p := Fin q |}
               :: indexed_from (S start) v'
  end.

(** The order of the ranking: descending by value, and ascending by square
    index among equal values. *)
Definition ranked_before (x y : Pick xrat) : Prop :=
  exists qx qy : Q,
    p x = Fin qx /\ p y = Fin qy /\
    ((qy < qx)%Q \/ ((qy == qx)%Q /\ (index0 x < index0 y)%nat)).

Definition finite_pick (x : Pick xrat) : Prop := exists q : Q, p x = Fin q.

Definition lower_index (x y : Pick xrat) : Prop := (index0 x < index0 y)%nat.

(** *** The estimator in binary64 *)

(** What is asked of [Math.pow] in binary64: the weight of each of the
    first [n] places of the window is a positive finite number between
    [2^-10] and 2.  (The exact weights [2^(-i/halfLife)] lie between 0 and
    1, and the first is exactly 1.) *)
Definition weights_within (pow : float -> float -> float) (halfLife : float) (n : nat)
  : Prop :=
  forall i : nat, (i < n)%nat ->
    Binary64.within (1 # 1024) 2
           (pow (num_of_nat 2) (num_div (num_neg (num_of_nat i)) halfLife)).

(** A count after [j] additions: still [+0], or at most [4 * j]. *)
Definition count_ok (j : nat) (c : float) : Prop :=
  Binary64.pzero c \/ Binary64.within (1 # 1024) (4 * inject_Z (Z.of_nat j)) c.

(** The penalty stage on 25 binary64 numbers. *)
Definition pen64 (b : BlockNumber) (c : float) (l : list float) : list float :=
  match b with
  | IntVal k =>
      if (0 <=? k) && (k <? 25)
      then JSArray.set_nth l (Z.to_nat k) (nth (Z.to_nat k) l 0%float * c)%float
      else l
  | NonInt => l
  end.

(** An entry of the estimator's arrays: a positive finite number that,
    times the common denominator [D], lies between [c * A] and
    [2 * (A + 120)], where [A] is the value of [alpha]. *)
Definition entry_ok (A D c : Q) (y : float) : Prop :=
  Binary64.pfinite y /\ (c * A <= Binary64.F2Q y * D)%Q /\ (Binary64.F2Q y * D <= 2 * (A + 120))%Q.

(** The options [{ halfLife: Infinity }]: every exponent [-i / halfLife] is
    [-0] and every weight is [2 ^ -0 = 1], the value ECMAScript fixes. *)
Definition no_decay : Options float :=
  {| opt_alpha := None; opt_halfLife := Some infinity; opt_maxRounds := None |}.

(** Three rounds: square 7 won the first, square 5 the two latest. *)
Definition three_rounds : list WinnerRecord :=
  [ {| round := 1; blockNumber := IntVal 7 |};
    {| round := 2; blockNumber := IntVal 5 |};
    {| round := 3; blockNumber := IntVal 5 |} ].

(** The options [{ alpha: 1e-30 }]. *)
Definition tiny_alpha : Options float :=
  {| opt_alpha := Some 1e-30%float; opt_halfLife := None; opt_maxRounds := None |}.

End SmartPicks.

(** ** The analyzers

    probability-analyzer.js and advanced-analyzer.js, on a history whose
    records carry integers: the round and the block number, counted from 1
    in these two files. *)

Module Analyzer.

Record Winner : Type := { w_round : Z; w_blockNumber : Z }.

(** [[...this.winners].sort((a, b) => b.round - a.round)]. *)
Definition sortedWinners (winners : list Winner) : list Winner :=
  JSArray.sort_list (fun a b => w_round b - w_round a >? 0) winners.

(** The loop of [getRecentWinnerRank]:
    [for (let i = 0; i < Math.min(15, sortedWinners.length); i++)
       if (sortedWinners[i].blockNumber === blockNumber) ranks.push(-(i + 1))]. *)
Definition rank_loop (sorted : list Winner) (blockNumber : Z) : list Z :=
  fold_left
    (fun ranks i =>
       match nth_error sorted i with
       | Some w =>
           if w_blockNumber w =? blockNumber
           then ranks ++ [- (Z.of_nat i + 1)]
           else ranks
       | None => ranks
       end)
    (seq 0 (Nat.min 15 (length sorted))) [].

(** [getRecentWinnerRank(blockNumber)]; [None] is [null]. *)
Definition getRecentWinnerRank (winners : list Winner) (blockNumber : Z) : option (list Z) :=
  if (length winners =? 0)%nat then None
  else
    let sorted := sortedWinners winners in
    let ranks := rank_loop sorted blockNumber in
    if (0 <? length ranks)%nat then Some ranks else None.

Inductive Risk : Type := LOW | MEDIUM | HIGH | EXTREME.

Definition Risk_eqb (a b : Risk) : bool :=
  match a, b with
  | LOW, LOW | MEDIUM, MEDIUM | HIGH, HIGH | EXTREME, EXTREME => true
  | _, _ => false
  end.

(** What the allocation says of an amount: the template of the text and the
    number it prints. *)
Inductive Reason (num : Type) : Type :=
| HighEfficiency (efficiency : num)      (* primary pick *)
| NeverWonBonus (efficiency : num)       (* block with no recent win *)
| Contrarian (participants : num).       (* least crowded block *)

Arguments HighEfficiency {num}.
Arguments NeverWonBonus {num}.
Arguments Contrarian {num}.

Section Numbers.

Context {num : Type} {NUM : JSNumber num}.

(** A decimal literal [n / d].  The division of two integers that binary64
    holds exactly is correctly rounded, as the reading of a literal is, so
    the quotient is the literal's value. *)
Definition decimal (n d : nat) : num := num_div (num_of_nat n) (num_of_nat d).

(** A number is falsy when it is zero or NaN: when it is neither above nor
    below zero. *)
Definition truthy (x : num) : bool :=
  num_gt x (num_of_nat 0) || num_gt (num_of_nat 0) x.

(** [x || d] for a field that holds a number or is missing. *)
Definition or_default (x : option num) (d : num) : num :=
  match x with
  | Some v => if truthy v then v else d
  | None => d
  end.

Definition baseWeight : num := num_of_nat 1.
Definition participantThreshold : num := num_of_nat 100.
Definition amountThreshold : num := decimal 25 100.

(** [calculateRiskLevel(blockNumber, participants, amount)]. *)
Definition calculateRiskLevel (winners : list Winner) (blockNumber : Z)
  (participants amount : num) : Risk :=
  let winnerRanks := getRecentWinnerRank winners blockNumber in
  if match winnerRanks with
     | Some ranks => existsb (fun r => r =? -1) ranks
     | None => false
     end then EXTREME
  else if match winnerRanks with
          | Some ranks => existsb (fun r => r >=? -3) ranks
          | None => false
          end then HIGH
  else if num_gt participants participantThreshold then MEDIUM
  else if num_gt amount amountThreshold then MEDIUM
  else LOW.

(** An element of [blocks]: an object whose fields may be missing. *)
Record Block : Type := { participants : option num; amount : option num }.

(** The objects [calculatePoolEfficiency] builds. *)
Record Efficiency : Type := {
  eff_blockNumber : Z;
  eff_participants : num;
  eff_amount : num;
  eff_efficiency : num;
  eff_expectedReward : num;
  eff_riskLevel : Risk
}.

(** The body of the loop of [calculatePoolEfficiency] for a block that is
    there. *)
Definition efficiency_of (winners : list Winner) (i : nat) (block : Block) : Efficiency :=
  let participants := or_default (participants block) (num_of_nat 100) in
  let amount := or_default (amount block) (decimal 4 100) in
  let expectedOtherInvestment := num_mul (num_mul participants amount) (num_of_nat 24) in
  let expectedReward := num_div expectedOtherInvestment participants in
  let efficiency_ratio := num_div expectedReward amount in
  {| eff_blockNumber := Z.of_nat i + 1;
     eff_participants := participants;
     eff_amount := amount;
     eff_efficiency := efficiency_ratio;
     eff_expectedReward := expectedReward;
     eff_riskLevel := calculateRiskLevel winners (Z.of_nat i + 1) participants amount |}.

(** [for (let i = 0; i < 25; i++) { const block = blocks[i];
      if (!block) continue; ... efficiency[i] = {...} }]: a block that is
    missing leaves a hole when a later one is there. *)
Definition efficiency_step (winners : list Winner) (blocks : list (option Block))
  (efficiency : JSArray.t Efficiency) (i : nat) : JSArray.t Efficiency :=
  match nth i blocks None with
  | Some block =>
      JSArray.update efficiency (Z.of_nat i) (fun _ => efficiency_of winners i block)
  | None => efficiency
  end.

Definition efficiency_loop (winners : list Winner) (blocks : list (option Block))
  : JSArray.t Efficiency :=
  fold_left (efficiency_step winners blocks) (seq 0 25) [].

(** [calculatePoolEfficiency(blocks)]. *)
Definition calculatePoolEfficiency (winners : list Winner) (blocks : list (option Block))
  : JSArray.t Efficiency :=
  JSArray.sort
    (fun a b => num_gt (num_sub (eff_efficiency b) (eff_efficiency a)) (num_of_nat 0))
    (efficiency_loop winners blocks).

(** [efficiency.find(e => e.blockNumber === i)].  [find] visits a hole as
    [undefined], and reading [blockNumber] of [undefined] is a
    [TypeError]. *)
Inductive Found : Type :=
| FoundAt (e : Efficiency)
| NotFound
| TypeErrorUndefined.

Fixpoint find_block (arr : JSArray.t Efficiency) (i : Z) : Found :=
  match arr with
  | [] => NotFound
  | Some e :: arr' => if eff_blockNumber e =? i then FoundAt e else find_block arr' i
  | None :: _ => TypeErrorUndefined
  end.

(** The loop over the blocks 1 to 25 that collects the ones with no recent
    win; [None] when [find] throws. *)
Fixpoint neverWon_loop (winners : list Winner) (efficiency : JSArray.t Efficiency)
  (blockNumbers : list Z) (neverWonBlocks : list Efficiency) : option (list Efficiency) :=
  match blockNumbers with
  | [] => Some neverWonBlocks
  | i :: rest =>
      match getRecentWinnerRank winners i with
      | Some _ => neverWon_loop winners efficiency rest neverWonBlocks
      | None =>
          match find_block efficiency i with
          | FoundAt e => neverWon_loop winners efficiency rest (neverWonBlocks ++ [e])
          | NotFound => neverWon_loop winners efficiency rest neverWonBlocks
          | TypeErrorUndefined => None
          end
      end
  end.

Record Analysis : Type := {
  avgEfficiency : num;
  bestEfficiency : option Efficiency;
  totalParticipants : num
}.

Record Advice : Type := {
  primary : list Efficiency;
  neverWon : list Efficiency;
  contrarian : list Efficiency;
  analysis : Analysis
}.

(** The block numbers the loop of [getSmartBettingAdvice] runs through. *)
Definition blockNumbers : list Z := List.map (fun i => Z.of_nat i) (seq 1 25).

(** [getSmartBettingAdvice] from the efficiency array on; [None] when it
    throws the [TypeError]. *)
Definition advice_of (winners : list Winner) (efficiency : JSArray.t Efficiency)
  : option Advice :=
  let safeBets :=
    firstn 3
      (filter (fun e => Risk_eqb (eff_riskLevel e) LOW
                        && num_gt (eff_efficiency e) (decimal 12 10)
                        && num_gt participantThreshold (eff_participants e))
              (JSArray.elements efficiency)) in
  match neverWon_loop winners efficiency blockNumbers [] with
  | None => None
  | Some neverWonBlocks =>
      let lowParticipation :=
        firstn 2
          (JSArray.sort_list
             (fun a b => num_gt (num_sub (eff_participants a) (eff_participants b))
                                (num_of_nat 0))
             (filter (fun e => negb (Risk_eqb (eff_riskLevel e) EXTREME))
                     (JSArray.elements efficiency))) in
      Some {| primary := safeBets;
              neverWon := firstn 2 neverWonBlocks;
              contrarian := lowParticipation;
              analysis :=
                {| avgEfficiency :=
                     num_div
                       (JSArray.reduce (fun sum e => num_add sum (eff_efficiency e))
                                       (num_of_nat 0) efficiency)
                       (num_of_nat (length efficiency));
                   bestEfficiency := nth 0 efficiency None;
                   totalParticipants :=
                     JSArray.reduce (fun sum e => num_add sum (eff_participants e))
                                    (num_of_nat 0) efficiency |} |}
  end.

(** [getSmartBettingAdvice(blocks)]. *)
Definition getSmartBettingAdvice (winners : list Winner) (blocks : list (option Block))
  : option Advice :=
  let efficiency := calculatePoolEfficiency winners blocks in
  advice_of winners efficiency.

(** The objects [{ blockNumber, amount, reason }]. *)
Record Allocation : Type := {
  alloc_blockNumber : Z;
  alloc_amount : num;
  alloc_reason : Reason num
}.

(** [calculateOptimalAllocation(totalBudget, recommendations)]. *)
Definition calculateOptimalAllocation (totalBudget : num) (recommendations : Advice)
  : list Allocation :=
  let allocation := [] in
  let remaining := totalBudget in
  let primaryBudget := num_mul totalBudget num_0_6 in
  let '(allocation, remaining) :=
    if (0 <? length (primary recommendations))%nat then
      let perPrimary := num_div primaryBudget (num_of_nat (length (primary recommendations))) in
      (allocation ++
         List.map (fun rec => {| alloc_blockNumber := eff_blockNumber rec;
                                 alloc_amount := perPrimary;
                                 alloc_reason := HighEfficiency (eff_efficiency rec) |})
                  (primary recommendations),
       num_sub remaining primaryBudget)
    else (allocation, remaining) in
  let neverWonBudget := num_mul totalBudget (decimal 25 100) in
  let '(allocation, remaining) :=
    if (0 <? length (neverWon recommendations))%nat then
      let perNeverWon := num_div neverWonBudget (num_of_nat (length (neverWon recommendations))) in
      (allocation ++
         List.map (fun rec => {| alloc_blockNumber := eff_blockNumber rec;
                                 alloc_amount := perNeverWon;
                                 alloc_reason := NeverWonBonus (eff_efficiency rec) |})
                  (neverWon recommendations),
       num_sub remaining neverWonBudget)
    else (allocation, remaining) in
  if (0 <? length (contrarian recommendations))%nat && num_gt remaining (num_of_nat 0) then
    let perContrarian := num_div remaining (num_of_nat (length (contrarian recommendations))) in
    allocation ++
      List.map (fun rec => {| alloc_blockNumber := eff_blockNumber rec;
                              alloc_amount := perContrarian;
                              alloc_reason := Contrarian (eff_participants rec) |})
               (contrarian recommendations)
  else allocation.

(** The sum of the amounts of an allocation. *)
Definition total_allocated (allocation : list Allocation) : num :=
  fold_left (fun sum alloc => num_add sum (alloc_amount alloc)) allocation (num_of_nat 0).

(** What [displayAdvancedAnalysis(blocks, totalBudget)] returns.  On its
    way it prints [advice.analysis.bestEfficiency.blockNumber], which is a
    [TypeError] when there is no best block; [None] stands for that one and
    for the one of [getSmartBettingAdvice]. *)
Definition displayAdvancedAnalysis (winners : list Winner) (blocks : list (option Block))
  (totalBudget : num) : option (list Allocation) :=
  match getSmartBettingAdvice winners blocks with
  | Some advice =>
      let allocation := calculateOptimalAllocation totalBudget advice in
      match bestEfficiency (analysis advice) with
      | Some _ => Some allocation
      | None => None
      end
  | None => None
  end.

(** *** The probabilities *)

(** The state of a [WinProbabilityAnalyzer].  [lastCalculationHash] is the
    JSON text of the strings [blockNumber-round] of the first 25 records;
    the decimal texts of two integers joined by a hyphen determine both
    integers, so the list of the pairs stands for the text. *)
Record State : Type := {
  winners : list Winner;
  probabilities : list num;
  lastCalculationHash : option (list (Z * Z))
}.

(** The fields the constructor sets. *)
Definition new_analyzer : State :=
  {| winners := [];
     probabilities := repeat (num_of_nat 0) 25;
     lastCalculationHash := None |}.

(** What [loadWinnerHistory] leaves in [this.winners]. *)
Definition with_winners (st : State) (loaded : list Winner) : State :=
  {| winners := loaded;
     probabilities := probabilities st;
     lastCalculationHash := lastCalculationHash st |}.

Definition hash_of (ws : list Winner) : list (Z * Z) :=
  List.map (fun w => (w_blockNumber w, w_round w)) (firstn 25 ws).

Definition hash_eqb (a b : list (Z * Z)) : bool :=
  (length a =? length b)%nat
  && forallb (fun xy => (fst (fst xy) =? fst (snd xy)) && (snd (fst xy) =? snd (snd xy)))
             (combine a b).

(** [recent.forEach((winner) => { const blockIndex = winner.blockNumber - 1;
      if (blockIndex >= 0 && blockIndex < 25) frequency[blockIndex]++; })]
    on [new Array(25).fill(0)]. *)
Definition frequency (recent : list Winner) : list nat :=
  fold_left
    (fun freq winner =>
       let blockIndex := w_blockNumber winner - 1 in
       if (0 <=? blockIndex) && (blockIndex <? 25)
       then JSArray.set_nth freq (Z.to_nat blockIndex) (S (nth (Z.to_nat blockIndex) freq O))
       else freq)
    recent (repeat O 25).

(** [let mostRecentPosition = -1; for (let i = 0; i < recent.length; i++)
      if (recent[i].blockNumber - 1 === blockIndex) { mostRecentPosition = i; break; }],
    the search starting at position [i]. *)
Fixpoint mostRecentPosition_from (recent : list Winner) (blockIndex : Z) (i : Z) : Z :=
  match recent with
  | [] => -1
  | w :: recent' =>
      if w_blockNumber w - 1 =? blockIndex then i
      else mostRecentPosition_from recent' blockIndex (i + 1)
  end.

Definition mostRecentPosition (recent : list Winner) (blockIndex : Z) : Z :=
  mostRecentPosition_from recent blockIndex 0.

(** The weight one turn of the main loop assigns to [blockIndex]. *)
Definition weight (recent15Frequency recent25Frequency : list nat)
  (recent25Winners : list Winner) (blockIndex : nat) : num :=
  let count15 := nth blockIndex recent15Frequency O in
  let count25 := nth blockIndex recent25Frequency O in
  if (count25 =? 0)%nat then num_of_nat 1
  else
    let mostRecentPosition := mostRecentPosition recent25Winners (Z.of_nat blockIndex) in
    if mostRecentPosition =? 0 then decimal 1 100
    else if mostRecentPosition <=? 2 then
      (if (2 <=? count15)%nat then decimal 2 100 else decimal 5 100)
    else if mostRecentPosition <=? 5 then
      (if (2 <=? count15)%nat then decimal 3 100 else decimal 15 100)
    else if mostRecentPosition <=? 10 then
      (if (2 <=? count15)%nat then decimal 1 10 else decimal 35 100)
    else if mostRecentPosition <=? 15 then
      (if (2 <=? count15)%nat then decimal 15 100 else decimal 5 10)
    else
      (if (2 <=? count15)%nat then decimal 2 10 else decimal 7 10).

(** The main loop, [for (let blockIndex = 0; blockIndex < 25; blockIndex++)
    this.probabilities[blockIndex] = ...], on the array filled with
    [baseWeight]. *)
Definition weights (ws : list Winner) : list num :=
  let sortedWinners := sortedWinners ws in
  let recent15Winners := JSArray.slice0 sortedWinners 15 in
  let recent25Winners := JSArray.slice0 sortedWinners 25 in
  let recent15Frequency := frequency recent15Winners in
  let recent25Frequency := frequency recent25Winners in
  fold_left
    (fun probabilities blockIndex =>
       JSArray.set_nth probabilities blockIndex
         (weight recent15Frequency recent25Frequency recent25Winners blockIndex))
    (seq 0 25) (repeat baseWeight 25).

(** [totalWeight = probabilities.reduce((sum, prob) => sum + prob, 0);
     if (totalWeight > 0) probabilities = probabilities.map(prob => prob / totalWeight)]. *)
Definition normalize (probabilities : list num) : list num :=
  let totalWeight := fold_left num_add probabilities (num_of_nat 0) in
  if num_gt totalWeight (num_of_nat 0)
  then List.map (fun prob => num_div prob totalWeight) probabilities
  else probabilities.

(** [calculateProbabilities()]. *)
Definition calculateProbabilities (st : State) : State :=
  let currentHash := hash_of (winners st) in
  if match lastCalculationHash st with
     | Some h => hash_eqb h currentHash
     | None => false
     end
     && existsb (fun p => num_gt p (num_of_nat 0)) (probabilities st)
  then st
  else
    {| winners := winners st;
       probabilities :=
         if (length (winners st) =? 0)%nat
         then List.map (fun _ => num_div (num_of_nat 1) (num_of_nat 25))
                       (repeat baseWeight 25)
         else normalize (weights (winners st));
       lastCalculationHash := Some currentHash |}.

(** [getRecommendations(topN)], what it returns: the objects
    [{ blockNumber, probability, index }] are the picks
    [{ index1, p, index0 }] of [topN] in smart-picks.js, built, sorted by
    [(a, b) => b.probability - a.probability] and sliced the same way. *)
Definition getRecommendations (st : State) (topN : Z) : JSArray.t (SmartPicks.Pick num) :=
  let indexed :=
    JSArray.mapi
      (fun prob index =>
         {| SmartPicks.index0 := index; SmartPicks.index1 := index + 1;
            SmartPicks.p := prob |})
      (JSArray.dense (probabilities st)) in
  let indexed := JSArray.sort SmartPicks.ranks_after indexed in
  JSArray.slice0 indexed topN.

(** The object [getBlockAnalysis] returns. *)
Record BlockAnalysis : Type := {
  winCount : nat;
  winPositions : list Z;
  lastWinRound : Z;
  neverWon_block : bool;
  isRepeater : bool;
  recentRepeater : bool;
  roundsSinceWin : Z
}.

(** [recent.map((w, i) => w.blockNumber === blockNumber ? i : -1)
          .filter(pos => pos >= 0)], the indices counted from [start]. *)
Fixpoint positions_from (recent : list Winner) (blockNumber : Z) (start : Z) : list Z :=
  match recent with
  | [] => []
  | w :: recent' =>
      let pos := if w_blockNumber w =? blockNumber then start else -1 in
      if pos >=? 0 then pos :: positions_from recent' blockNumber (start + 1)
      else positions_from recent' blockNumber (start + 1)
  end.

(** [getBlockAnalysis(blockNumber)]; [None] is [null]. *)
Definition getBlockAnalysis (ws : list Winner) (blockNumber : Z) : option BlockAnalysis :=
  if (length ws =? 0)%nat then None
  else
    let sortedWinners := sortedWinners ws in
    let recent25Winners := JSArray.slice0 sortedWinners 25 in
    let winCount :=
      length (filter (fun w => w_blockNumber w =? blockNumber) recent25Winners) in
    let winPositions := positions_from recent25Winners blockNumber 0 in
    let lastWinRound :=
      if (0 <? length winPositions)%nat then nth 0 winPositions (-1) else -1 in
    let neverWon := (winCount =? 0)%nat in
    let isRepeater := (1 <? winCount)%nat in
    let recentRepeater := (lastWinRound =? 0) && (1 <? length winPositions)%nat in
    Some {| winCount := winCount;
            winPositions := winPositions;
            lastWinRound := lastWinRound;
            neverWon_block := neverWon;
            isRepeater := isRepeater;
            recentRepeater := recentRepeater;
            roundsSinceWin := if lastWinRound >=? 0 then lastWinRound else 25 |}.

End Numbers.

Arguments Block : clear implicits.
Arguments Efficiency : clear implicits.
Arguments Analysis : clear implicits.
Arguments Advice : clear implicits.
Arguments Allocation : clear implicits.
Arguments State : clear implicits.

(** A file of 25 records, the rounds 1 to 25 all won by block 1, and a
    record of round 26, won by block 2, appended to it. *)
Definition sample_history : list Winner :=
  List.map (fun i => {| w_round := Z.of_nat i; w_blockNumber := 1 |}) (seq 1 25).

Definition sample_appended : list Winner := [ {| w_round := 26; w_blockNumber := 2 |} ].

(** A history of two rounds, and the pools of the first three blocks. *)
Definition two_rounds : list Winner :=
  [ {| w_round := 1; w_blockNumber := 9 |}; {| w_round := 2; w_blockNumber := 2 |} ].

Definition three_blocks : list (option (Block xrat)) :=
  [ Some {| participants := Some (Fin 7); amount := Some (Fin (1 # 2)) |};
    Some {| participants := None; amount := None |};
    Some {| participants := Some (Fin 120); amount := Some (Fin 3) |} ].

(** Whether the record at position [i] of the history sorted by round, the
    latest first, is a win of [blockNumber]. *)
Definition won_at (winners : list Winner) (blockNumber : Z) (i : nat) : bool :=
  match nth_error (sortedWinners winners) i with
  | Some w => w_blockNumber w =? blockNumber
  | None => false
  end.

(** The block at index [i] of [blocks] is there. *)
Definition present {num : Type} (blocks : list (option (Block num))) (i : nat) : bool :=
  match nth i blocks None with
  | Some _ => true
  | None => false
  end.

(** *** The analyzers in binary64 *)

(** The range of the amounts the binary64 analysis takes: [2^-100] to
    [2^100]. *)
Definition L100 : Q := 1 # 1267650600228229401496703205376.
Definition H100 : Q := 1267650600228229401496703205376.

(** A field of a block as the binary64 analysis takes it: missing, falsy
    (zero or NaN), or a positive finite number in that range. *)
Definition field_ok (x : option float) : Prop :=
  match x with
  | None => True
  | Some v => truthy v = false \/ Binary64.within L100 H100 v
  end.

(** Four blocks of a pool whose efficiencies differ in binary64:
    7 participants with 0.5 SOL, 3 with 0.1, 10 with 0.07, and an empty
    block, for which the defaults stand in. *)
Definition uneven_blocks : list (option (Block float)) :=
  [ Some {| participants := Some (num_of_nat 7); amount := Some (decimal 5 10) |};
    Some {| participants := Some (num_of_nat 3); amount := Some (decimal 1 10) |};
    Some {| participants := Some (num_of_nat 10); amount := Some (decimal 7 100) |};
    Some {| participants := Some (num_of_nat 0); amount := None |} ].

(** The amounts of an allocation, as rationals. *)
Definition amounts (allocation : list (Allocation float)) : list Q :=
  List.map (fun a => Binary64.F2Q (alloc_amount a)) allocation.

(** A budget of 0.3 SOL. *)
Definition small_budget : float := decimal 3 10.

(** An advice of three primary picks, two that never won and two
    contrarian ones. *)
Definition pick (n : Z) : Efficiency float :=
  {| eff_blockNumber := n; eff_participants := num_of_nat 7; eff_amount := num_of_nat 1;
     eff_efficiency := num_of_nat 24; eff_expectedReward := num_of_nat 24; eff_riskLevel := LOW |}.

Definition full_advice : Advice float :=
  {| primary := [pick 3; pick 4; pick 5];
     neverWon := [pick 8; pick 9];
     contrarian := [pick 3; pick 11];
     analysis := {| avgEfficiency := num_of_nat 24; bestEfficiency := Some (pick 3);
                    totalParticipants := num_of_nat 35 |} |}.

End Analyzer.

(** * Binary64 arithmetic

    What the operations of binary64 do to the values of positive finite
    numbers, derived from the specification of the primitive floats: each
    of [+], [-], [*] and [/] returns a number within a relative distance
    [u = 2^-53] of the exact result, and [<] is the order of the values. *)

Module Binary64Props.

Import Binary64.

Lemma pow2_pos (e : Z) : (0 < pow2 e)%Q.
Proof. apply Qpower_0_lt. reflexivity. Qed.

Lemma pow2_add (a b : Z) : (pow2 (a + b) == pow2 a * pow2 b)%Q.
Proof. apply Qpower_plus. intros H. discriminate H. Qed.

Lemma pow2_succ (e : Z) : (pow2 (e + 1) == 2 * pow2 e)%Q.
Proof. rewrite pow2_add. change (pow2 1) with 2%Q. ring. Qed.

Lemma pow2_Z (k : Z) : 0 <= k -> (pow2 k == inject_Z (2 ^ k))%Q.
Proof. intros H. unfold pow2. rewrite Zpower_Qpower by exact H. reflexivity. Qed.

Lemma pow2_le (a b : Z) : a <= b -> (pow2 a <= pow2 b)%Q.
Proof.
  intros H. replace b with (a + (b - a)) by lia. rewrite pow2_add.
  rewrite (pow2_Z (b - a)) by lia.
  assert (1 <= inject_Z (2 ^ (b - a)))%Q as H1.
  { change 1%Q with (inject_Z 1). rewrite <- Zle_Qle.
    pose proof (Z.pow_pos_nonneg 2 (b - a)). lia. }
  pose proof (pow2_pos a). nra.
Qed.

Lemma pow2_lt (a b : Z) : a < b -> (pow2 a < pow2 b)%Q.
Proof.
  intros H. replace b with (a + (b - a)) by lia. rewrite pow2_add.
  rewrite (pow2_Z (b - a)) by lia.
  assert (2 <= inject_Z (2 ^ (b - a)))%Q as H1.
  { change 2%Q with (inject_Z 2). rewrite <- Zle_Qle.
    replace (b - a) with (Z.succ (b - a - 1)) by lia.
    rewrite Z.pow_succ_r by lia.
    pose proof (Z.pow_pos_nonneg 2 (b - a - 1)). lia. }
  pose proof (pow2_pos a). nra.
Qed.

Lemma pow2_lt_inv (a b : Z) : (pow2 a < pow2 b)%Q -> a < b.
Proof.
  intros H. destruct (Z.lt_ge_cases a b) as [Hlt|Hge]; [exact Hlt|].
  pose proof (pow2_le b a Hge). lra.
Qed.

(** ** Digits *)

Lemma digits2_pos_bounds (m : positive) :
  2 ^ (Zpos (digits2_pos m) - 1) <= Zpos m < 2 ^ Zpos (digits2_pos m).
Proof.
  induction m as [m IH|m IH|]; cbn [digits2_pos].
  - rewrite Pos2Z.inj_succ.
    replace (Z.succ (Zpos (digits2_pos m)) - 1) with (Z.succ (Zpos (digits2_pos m) - 1)) by lia.
    rewrite !Z.pow_succ_r by lia. lia.
  - rewrite Pos2Z.inj_succ.
    replace (Z.succ (Zpos (digits2_pos m)) - 1) with (Z.succ (Zpos (digits2_pos m) - 1)) by lia.
    rewrite !Z.pow_succ_r by lia. lia.
  - cbn. lia.
Qed.

Lemma digits2_pos_unique (m : positive) (d : Z) :
  2 ^ (d - 1) <= Zpos m < 2 ^ d -> 1 <= d -> Zpos (digits2_pos m) = d.
Proof.
  intros [Hlo Hhi] Hd. pose proof (digits2_pos_bounds m) as [Blo Bhi].
  set (k := Zpos (digits2_pos m)) in *. assert (1 <= k) by (subst k; lia).
  destruct (Z.lt_trichotomy k d) as [Hlt|[Heq|Hgt]]; [|exact Heq|].
  - assert (2 ^ k <= 2 ^ (d - 1)) by (apply Z.pow_le_mono_r; lia). lia.
  - assert (2 ^ d <= 2 ^ (k - 1)) by (apply Z.pow_le_mono_r; lia). lia.
Qed.

Lemma digits2_pos_ge (m : positive) (d : Z) :
  2 ^ (d - 1) <= Zpos m -> 1 <= d -> d <= Zpos (digits2_pos m).
Proof.
  intros Hlo Hd. pose proof (digits2_pos_bounds m) as [Blo Bhi].
  set (k := Zpos (digits2_pos m)) in *.
  destruct (Z.le_gt_cases d k) as [Hle|Hgt]; [exact Hle|].
  assert (2 ^ k <= 2 ^ (d - 1)) by (apply Z.pow_le_mono_r; lia). lia.
Qed.

(** ** Locations *)

Lemma inbetween_bounds (m e : Z) (l : location) (v : Q) :
  inbetween m e l v ->
  (inject_Z m * pow2 e <= v)%Q /\ (v < (inject_Z m + 1) * pow2 e)%Q.
Proof.
  pose proof (pow2_pos e) as Hw.
  destruct l as [|[| |]]; cbn; intros H.
  - rewrite H. split; lra.
  - rewrite H. split; lra.
  - destruct H. split; lra.
  - destruct H. split; lra.
Qed.

Lemma inbetween_ext (m e : Z) (l : location) (v v' : Q) :
  (v == v')%Q -> inbetween m e l v -> inbetween m e l v'.
Proof.
  intros E. destruct l as [|[| |]]; cbn; rewrite E; trivial.
Qed.

Lemma inject_Z_xO (p : positive) : (inject_Z (Zpos p~0) == 2 * inject_Z (Zpos p))%Q.
Proof. rewrite Pos2Z.inj_xO, inject_Z_mult. reflexivity. Qed.

Lemma inject_Z_xI (p : positive) : (inject_Z (Zpos p~1) == 2 * inject_Z (Zpos p) + 1)%Q.
Proof. rewrite Pos2Z.inj_xI, inject_Z_plus, inject_Z_mult. reflexivity. Qed.

Lemma shr_1_inbetween (mrs : shr_record) (e : Z) (v : Q) :
  0 <= shr_m mrs ->
  inbetween (shr_m mrs) e (loc_of_shr_record mrs) v ->
  0 <= shr_m (shr_1 mrs) /\
  inbetween (shr_m (shr_1 mrs)) (e + 1) (loc_of_shr_record (shr_1 mrs)) v.
Proof.
  pose proof (pow2_pos e) as Hw. pose proof (pow2_succ e) as Hs.
  destruct mrs as [m r s]. cbn [shr_m]. intros Hm.
  destruct m as [|p|p]; [| |lia].
  - destruct r, s; cbn; intros H; (split; [lia|]); rewrite ?Hs;
      change (inject_Z 0) with 0%Q in *; try lra.
  - destruct p as [p|p|]; destruct r, s; cbn [shr_1 shr_m loc_of_shr_record orb inbetween];
      rewrite ?inject_Z_xO, ?inject_Z_xI, ?Hs; change (inject_Z 1) with 1%Q;
      change (inject_Z 0) with 0%Q; intros H; (split; [lia|]);
      try (set (a := inject_Z (Zpos p)) in * ); try lra.
Qed.

Lemma iter_shr_1_inbetween (n : positive) (mrs : shr_record) (e : Z) (v : Q) :
  0 <= shr_m mrs ->
  inbetween (shr_m mrs) e (loc_of_shr_record mrs) v ->
  0 <= shr_m (iter_pos shr_1 n mrs) /\
  inbetween (shr_m (iter_pos shr_1 n mrs)) (e + Zpos n)
            (loc_of_shr_record (iter_pos shr_1 n mrs)) v.
Proof.
  revert mrs e. induction n as [n IH|n IH|]; intros mrs e Hm Hv; cbn [iter_pos].
  - destruct (shr_1_inbetween mrs e v Hm Hv) as [Hm1 Hv1].
    destruct (IH _ _ Hm1 Hv1) as [Hm2 Hv2].
    destruct (IH _ _ Hm2 Hv2) as [Hm3 Hv3].
    split; [exact Hm3|].
    replace (e + Zpos n~1) with (e + 1 + Zpos n + Zpos n) by lia. exact Hv3.
  - destruct (IH _ _ Hm Hv) as [Hm2 Hv2].
    destruct (IH _ _ Hm2 Hv2) as [Hm3 Hv3].
    split; [exact Hm3|].
    replace (e + Zpos n~0) with (e + Zpos n + Zpos n) by lia. exact Hv3.
  - apply shr_1_inbetween; assumption.
Qed.

Lemma loc_of_shr_record_of_loc (m : Z) (l : location) :
  loc_of_shr_record (shr_record_of_loc m l) = l /\
  shr_m (shr_record_of_loc m l) = m.
Proof. destruct l as [|[| |]]; split; reflexivity. Qed.

(** Shifting right by [n] binary places keeps the real in sight. *)
Lemma shr_inbetween (m e n : Z) (l : location) (v : Q) :
  0 <= m -> 0 <= n -> inbetween m e l v ->
  let '(mrs, e') := shr (shr_record_of_loc m l) e n in
  e' = e + n /\ 0 <= shr_m mrs /\ inbetween (shr_m mrs) e' (loc_of_shr_record mrs) v.
Proof.
  intros Hm Hn Hv. destruct (loc_of_shr_record_of_loc m l) as [El Em].
  destruct n as [|n|n]; [| |lia]; cbn [shr].
  - rewrite El, Em. split; [lia|]. split; assumption.
  - split; [reflexivity|]. apply iter_shr_1_inbetween; rewrite ?El, Em; assumption.
Qed.

(** Rounding to nearest, ties to even, moves by at most half a unit. *)
Lemma round_nearest_even_near (m e : Z) (l : location) (v : Q) :
  inbetween m e l v ->
  (round_nearest_even m l = m \/ round_nearest_even m l = m + 1) /\
  (Qabs (inject_Z (round_nearest_even m l) * pow2 e - v) <= (1 # 2) * pow2 e)%Q.
Proof.
  pose proof (pow2_pos e) as Hw. intros Hv.
  assert (inject_Z (m + 1) == inject_Z m + 1)%Q as E1
    by (rewrite inject_Z_plus; reflexivity).
  destruct l as [|[| |]]; cbn [round_nearest_even inbetween] in *.
  - split; [now left|]. apply Qabs_Qle_condition. rewrite Hv. split; lra.
  - destruct (Z.even m).
    + split; [now left|]. apply Qabs_Qle_condition. rewrite Hv. split; lra.
    + split; [now right|]. apply Qabs_Qle_condition. rewrite Hv, E1. split; lra.
  - split; [now left|]. apply Qabs_Qle_condition. destruct Hv. split; lra.
  - split; [now right|]. apply Qabs_Qle_condition. rewrite E1. destruct Hv. split; lra.
Qed.

Lemma Qmult_pos_cancel_lt (a b w : Q) : (0 < w)%Q -> (a * w < b * w)%Q -> (a < b)%Q.
Proof. intros Hw H. now apply (Qmult_lt_r a b w Hw). Qed.

Lemma Qmult_pos_cancel_le (a b w : Q) : (0 < w)%Q -> (a * w <= b * w)%Q -> (a <= b)%Q.
Proof. intros Hw H. now apply (Qmult_le_r a b w Hw). Qed.

(** The core of every operation: from a positive mantissa of at least 53
    digits with a location, for a real in the normal range, the result is
    a finite number within a relative distance [u] of the real. *)
Lemma binary_round_aux_correct (s : bool) (m : positive) (e : Z) (l : location) (v : Q) :
  inbetween (Zpos m) e l v ->
  prec <= Zpos (digits2_pos m) ->
  (pow2 (-1022) <= v)%Q -> (v < pow2 1023)%Q ->
  exists (m' : positive) (e' : Z),
    binary_round_aux prec emax s (Zpos m) e l = S754_finite s m' e' /\
    (Qabs (inject_Z (Zpos m') * pow2 e' - v) <= u * v)%Q.
Proof.
  intros Hv Hd Hlo Hhi.
  pose proof (digits2_pos_bounds m) as [Blo Bhi].
  set (d := Zpos (digits2_pos m)) in *.
  destruct (inbetween_bounds _ _ _ _ Hv) as [Vlo Vhi].
  pose proof (pow2_pos e) as Hw.
  (* the real lies between 2^(d-1+e) and 2^(d+e) *)
  assert (pow2 (d - 1 + e) <= v)%Q as Vlo'.
  { rewrite pow2_add, (pow2_Z (d - 1)) by lia.
    assert (inject_Z (2 ^ (d - 1)) <= inject_Z (Zpos m))%Q by (rewrite <- Zle_Qle; exact Blo).
    nra. }
  assert (v < pow2 (d + e))%Q as Vhi'.
  { rewrite pow2_add, (pow2_Z d) by lia.
    assert (inject_Z (Zpos m) + 1 <= inject_Z (2 ^ d))%Q.
    { change 1%Q with (inject_Z 1). rewrite <- inject_Z_plus, <- Zle_Qle. lia. }
    nra. }
  assert (-1022 < d + e) as Hnormal.
  { apply pow2_lt_inv. lra. }
  assert (d - 1 + e < 1023) as Hfit.
  { apply pow2_lt_inv. lra. }
  unfold binary_round_aux, shr_fexp.
  change (Zdigits2 (Zpos m)) with d.
  assert (fexp prec emax (d + e) = d + e - prec) as ->.
  { unfold fexp, SpecFloat.emin, emax, prec in *. lia. }
  set (n := d + e - prec - e).
  assert (0 <= n) as Hn by (subst n; lia).
  pose proof (shr_inbetween (Zpos m) e n l v ltac:(lia) Hn Hv) as Hshr.
  destruct (shr (shr_record_of_loc (Zpos m) l) e n) as [mrs e1].
  destruct Hshr as (He1 & Hm1 & Hv1).
  set (m1 := shr_m mrs) in *. set (l1 := loc_of_shr_record mrs) in *.
  assert (e1 = d + e - prec) as He1' by (subst n; lia).
  destruct (inbetween_bounds _ _ _ _ Hv1) as [V1lo V1hi].
  pose proof (pow2_pos e1) as Hw1.
  (* the shifted mantissa has exactly 53 digits *)
  assert (2 ^ 52 <= m1 < 2 ^ 53) as Hm1b.
  { split.
    - assert (pow2 (d - 1 + e) == inject_Z (2 ^ 52) * pow2 e1)%Q as E.
      { replace (d - 1 + e) with (52 + e1) by (unfold prec in *; lia).
        rewrite pow2_add, (pow2_Z 52) by lia. reflexivity. }
      assert (inject_Z (2 ^ 52) < inject_Z m1 + 1)%Q as H.
      { apply (Qmult_pos_cancel_lt _ _ (pow2 e1) Hw1). rewrite <- E. lra. }
      change 1%Q with (inject_Z 1) in H. rewrite <- inject_Z_plus, <- Zlt_Qlt in H. lia.
    - assert (pow2 (d + e) == inject_Z (2 ^ 53) * pow2 e1)%Q as E.
      { replace (d + e) with (53 + e1) by (unfold prec in *; lia).
        rewrite pow2_add, (pow2_Z 53) by lia. reflexivity. }
      assert (inject_Z m1 < inject_Z (2 ^ 53))%Q as H.
      { apply (Qmult_pos_cancel_lt _ _ (pow2 e1) Hw1). rewrite <- E. lra. }
      rewrite <- Zlt_Qlt in H. exact H. }
  destruct (round_nearest_even_near m1 e1 l1 v Hv1) as [Hround Hnear].
  set (m2 := round_nearest_even m1 l1) in *.
  (* the half unit is at most [u] times the real *)
  assert ((1 # 2) * pow2 e1 <= u * v)%Q as Hhalf.
  { assert (inject_Z (2 ^ 52) <= inject_Z m1)%Q as H by (rewrite <- Zle_Qle; lia).
    assert (u * inject_Z (2 ^ 52) == 1 # 2)%Q as Eu by reflexivity.
    assert (inject_Z (2 ^ 52) * pow2 e1 <= v)%Q as H' by nra.
    assert (0 < u)%Q as Hu by apply pow2_pos.
    assert (u * (inject_Z (2 ^ 52) * pow2 e1) <= u * v)%Q as H''
      by (apply Qmult_le_l; assumption).
    rewrite Qmult_assoc, Eu in H''. exact H''. }
  assert (2 ^ 52 <= m2 <= 2 ^ 53) as Hm2b by lia.
  destruct m2 as [|p2|p2] eqn:Em2; [lia| |lia].
  destruct (Z.eq_dec (Zpos p2) (2 ^ 53)) as [Etop|Hlt].
  - (* the rounding carried into a 54th digit *)
    assert (Zpos (digits2_pos p2) = 54) as Ed2
      by (apply digits2_pos_unique; [rewrite Etop; cbn; lia | lia]).
    cbn [Zdigits2]. rewrite Ed2.
    assert (fexp prec emax (54 + e1) - e1 = 1) as ->.
    { unfold fexp, SpecFloat.emin, emax, prec in *. lia. }
    assert (p2 = 4503599627370496~0)%positive as -> by (cbn in Etop; lia).
    cbn [shr shr_record_of_loc iter_pos shr_1 shr_m].
    assert ((e1 + 1 <=? emax - prec) = true) as ->
      by (apply Z.leb_le; unfold emax, prec in *; lia).
    eexists _, _. split; [reflexivity|].
    assert (inject_Z (Zpos 4503599627370496) * pow2 (e1 + 1)
            == inject_Z (Zpos 4503599627370496~0) * pow2 e1)%Q as ->.
    { rewrite pow2_succ, inject_Z_xO. ring. }
    eapply Qle_trans; [exact Hnear | exact Hhalf].
  - assert (Zpos (digits2_pos p2) = 53) as Ed2
      by (apply digits2_pos_unique; [change (53 - 1) with 52; lia | lia]).
    cbn [Zdigits2]. rewrite Ed2.
    assert (fexp prec emax (53 + e1) - e1 = 0) as ->.
    { unfold fexp, SpecFloat.emin, emax, prec in *. lia. }
    cbn [shr shr_record_of_loc shr_m].
    assert ((e1 <=? emax - prec) = true) as ->
      by (apply Z.leb_le; unfold emax, prec in *; lia).
    eexists _, _. split; [reflexivity|].
    eapply Qle_trans; [exact Hnear | exact Hhalf].
Qed.

(** ** Valid numbers *)

Lemma valid_finite (x : float) (s : bool) (m : positive) (e : Z) :
  Prim2SF x = S754_finite s m e ->
  fexp prec emax (Zpos (digits2_pos m) + e) = e /\ e <= emax - prec.
Proof.
  intros E. pose proof (Prim2SF_valid x) as Hv. rewrite E in Hv.
  cbn [SpecFloat.valid_binary] in Hv. unfold bounded, canonical_mantissa in Hv.
  apply andb_prop in Hv. destruct Hv as [H1 H2].
  apply Z.eqb_eq in H1. apply Z.leb_le in H2. split; assumption.
Qed.

(** A valid number in the normal range has a mantissa of exactly 53
    digits. *)
Lemma normal_digits (x : float) (s : bool) (m : positive) (e : Z) :
  Prim2SF x = S754_finite s m e ->
  (pow2 (-1022) <= inject_Z (Zpos m) * pow2 e)%Q ->
  Zpos (digits2_pos m) = 53.
Proof.
  intros E Hlo. destruct (valid_finite x s m e E) as [Hc He].
  pose proof (digits2_pos_bounds m) as [Blo Bhi].
  set (d := Zpos (digits2_pos m)) in *.
  unfold fexp, SpecFloat.emin, emax, prec in Hc.
  destruct (Z.le_gt_cases (-1074) (d + e - 53)) as [Hn|Hs]; [lia|].
  exfalso.
  assert (e = -1074) as -> by lia.
  assert (d <= 52) as Hd by lia.
  assert (Zpos m < 2 ^ 52) as Hm.
  { assert (2 ^ d <= 2 ^ 52) by (apply Z.pow_le_mono_r; lia). lia. }
  assert (inject_Z (Zpos m) < inject_Z (2 ^ 52))%Q as Hq by (rewrite <- Zlt_Qlt; exact Hm).
  assert (pow2 (-1022) == inject_Z (2 ^ 52) * pow2 (-1074))%Q as Ep.
  { change (-1022) with (52 + -1074). rewrite pow2_add, (pow2_Z 52) by lia. reflexivity. }
  pose proof (pow2_pos (-1074)). nra.
Qed.

(** The exponent of a normal number, from a bound on its value. *)
Lemma normal_exponent (m : positive) (e lo hi : Z) :
  Zpos (digits2_pos m) = 53 ->
  (pow2 lo <= inject_Z (Zpos m) * pow2 e)%Q ->
  (inject_Z (Zpos m) * pow2 e <= pow2 hi)%Q ->
  lo - 52 <= e <= hi - 52.
Proof.
  intros Hd Hlo Hhi. pose proof (digits2_pos_bounds m) as [Blo Bhi].
  rewrite Hd in Blo, Bhi. change (53 - 1) with 52 in Blo.
  pose proof (pow2_pos e) as Hw.
  assert (pow2 lo < pow2 (53 + e))%Q as H1.
  { rewrite pow2_add, (pow2_Z 53) by lia.
    assert (inject_Z (Zpos m) < inject_Z (2 ^ 53))%Q by (rewrite <- Zlt_Qlt; exact Bhi).
    nra. }
  assert (pow2 (52 + e) <= pow2 hi)%Q as H2.
  { rewrite pow2_add, (pow2_Z 52) by lia.
    assert (inject_Z (2 ^ 52) <= inject_Z (Zpos m))%Q by (rewrite <- Zle_Qle; exact Blo).
    nra. }
  apply pow2_lt_inv in H1.
  assert (52 + e <= hi).
  { destruct (Z.le_gt_cases (52 + e) hi) as [H|H]; [exact H|].
    pose proof (pow2_lt hi (52 + e) H). lra. }
  lia.
Qed.

(** ** Positive numbers *)

Lemma pfinite_pos (x : float) : pfinite x -> (0 < F2Q x)%Q.
Proof.
  intros (m & e & E). unfold F2Q. rewrite E. cbn [SF2Q].
  pose proof (pow2_pos e).
  assert (0 < inject_Z (Zpos m))%Q by (change 0%Q with (inject_Z 0); rewrite <- Zlt_Qlt; lia).
  nra.
Qed.

(** *** Multiplication *)

Theorem mul_correct (x y : float) :
  pfinite x -> pfinite y ->
  (pow2 (-1022) <= F2Q x)%Q ->
  (pow2 (-1022) <= F2Q x * F2Q y)%Q -> (F2Q x * F2Q y < pow2 1023)%Q ->
  pfinite (x * y)%float /\
  (Qabs (F2Q (x * y)%float - F2Q x * F2Q y) <= u * (F2Q x * F2Q y))%Q.
Proof.
  intros (mx & ex & Ex) (my & ey & Ey) Hx Hlo Hhi.
  pose proof (mul_spec x y) as Espec.
  unfold F2Q in *. rewrite Espec. rewrite Ex, Ey in *. cbn [SF2Q] in *.
  pose proof (normal_digits x false mx ex Ex Hx) as Hdx.
  unfold pfinite. rewrite Espec. clear Espec.
  unfold SF64mul. cbn [SFmul xorb].
  assert ((inject_Z (Zpos mx) * pow2 ex) * (inject_Z (Zpos my) * pow2 ey)
          == inject_Z (Zpos (mx * my)) * pow2 (ex + ey))%Q as Ev.
  { rewrite Pos2Z.inj_mul, inject_Z_mult, pow2_add. ring. }
  rewrite Ev in *.
  destruct (binary_round_aux_correct false (mx * my) (ex + ey) loc_Exact
              (inject_Z (Zpos (mx * my)) * pow2 (ex + ey))) as (m' & e' & E & Hnear).
  - cbn. reflexivity.
  - apply digits2_pos_ge; [|unfold prec; lia].
    pose proof (digits2_pos_bounds mx) as [Blo _]. rewrite Hdx in Blo.
    unfold prec. change (53 - 1) with 52 in *. nia.
  - exact Hlo.
  - exact Hhi.
  - rewrite E. cbn [SF2Q]. split; [now exists m', e' | exact Hnear].
Qed.

(** *** Addition *)

Lemma iter_xO (m d : positive) : Zpos (Pos.iter xO m d) = Zpos m * 2 ^ Zpos d.
Proof.
  revert m. induction d as [|d IH] using Pos.peano_ind; intros m.
  - cbn. lia.
  - rewrite Pos.iter_succ, Pos2Z.inj_xO, IH, Pos2Z.inj_succ, Z.pow_succ_r by lia. ring.
Qed.

Lemma shl_align_value (m : positive) (e e' : Z) :
  e' <= e ->
  (inject_Z (Zpos (fst (shl_align m e e'))) * pow2 e' == inject_Z (Zpos m) * pow2 e)%Q.
Proof.
  intros H. unfold shl_align.
  destruct (e' - e) as [|p|p] eqn:Ed; cbn [fst]; [| lia |].
  - replace e' with e by lia. reflexivity.
  - rewrite iter_xO, inject_Z_mult, <- (pow2_Z (Zpos p)) by lia.
    replace e with (Zpos p + e') by lia. rewrite pow2_add. ring.
Qed.

Lemma shl_align_ge (m : positive) (e e' : Z) :
  Zpos m <= Zpos (fst (shl_align m e e')).
Proof.
  unfold shl_align. destruct (e' - e) as [|p|p]; cbn [fst]; try lia.
  rewrite iter_xO. pose proof (Z.pow_pos_nonneg 2 (Zpos p)). nia.
Qed.

Theorem add_correct (x y : float) :
  pfinite x -> pfinite y ->
  (pow2 (-1022) <= F2Q x)%Q -> (F2Q x + F2Q y < pow2 1023)%Q ->
  pfinite (x + y)%float /\
  (Qabs (F2Q (x + y)%float - (F2Q x + F2Q y)) <= u * (F2Q x + F2Q y))%Q.
Proof.
  intros (mx & ex & Ex) (my & ey & Ey) Hx Hhi.
  pose proof (pfinite_pos y (ex_intro _ my (ex_intro _ ey Ey))) as Hypos.
  pose proof (add_spec x y) as Espec.
  unfold F2Q in *. rewrite Espec. rewrite Ex, Ey in *. cbn [SF2Q] in *.
  pose proof (normal_digits x false mx ex Ex Hx) as Hdx.
  unfold pfinite. rewrite Espec. clear Espec.
  unfold SF64add. cbn [SFadd cond_Zopp].
  set (ez := Z.min ex ey).
  pose proof (shl_align_value mx ex ez ltac:(subst ez; lia)) as Vx.
  pose proof (shl_align_value my ey ez ltac:(subst ez; lia)) as Vy.
  pose proof (shl_align_ge mx ex ez) as Gx.
  set (ax := fst (shl_align mx ex ez)) in *.
  set (ay := fst (shl_align my ey ez)) in *.
  change (Zpos ax + Zpos ay) with (Zpos (ax + ay)).
  cbn [binary_normalize]. unfold binary_round.
  assert ((inject_Z (Zpos mx) * pow2 ex) + (inject_Z (Zpos my) * pow2 ey)
          == inject_Z (Zpos (ax + ay)) * pow2 ez)%Q as Ev.
  { rewrite <- Vx, <- Vy, Pos2Z.inj_add, inject_Z_plus. ring. }
  rewrite Ev in *.
  assert (prec <= Zpos (digits2_pos (ax + ay))) as Hd.
  { apply digits2_pos_ge; [|unfold prec; lia].
    pose proof (digits2_pos_bounds mx) as [Blo _]. rewrite Hdx in Blo.
    unfold prec. change (53 - 1) with 52 in *. lia. }
  assert (shl_align (ax + ay) ez (fexp prec emax (Zpos (digits2_pos (ax + ay)) + ez))
          = ((ax + ay)%positive, ez)) as ->.
  { unfold shl_align.
    assert (0 <= fexp prec emax (Zpos (digits2_pos (ax + ay)) + ez) - ez) as H
      by (unfold fexp, SpecFloat.emin, emax, prec in *; lia).
    destruct (fexp prec emax (Zpos (digits2_pos (ax + ay)) + ez) - ez); [reflexivity..|lia]. }
  destruct (binary_round_aux_correct false (ax + ay) ez loc_Exact
              (inject_Z (Zpos (ax + ay)) * pow2 ez)) as (m' & e' & E & Hnear).
  - cbn. reflexivity.
  - exact Hd.
  - lra.
  - exact Hhi.
  - rewrite E. cbn [SF2Q]. split; [now exists m', e' | exact Hnear].
Qed.

(** *** Subtraction

    A difference is normalised before it is rounded: a mantissa that lost
    digits to cancellation is shifted left until it has 53 again. *)

Lemma binary_round_correct (s : bool) (m : positive) (e : Z) :
  (pow2 (-1022) <= inject_Z (Zpos m) * pow2 e)%Q ->
  (inject_Z (Zpos m) * pow2 e < pow2 1023)%Q ->
  exists (m' : positive) (e' : Z),
    binary_round prec emax s m e = S754_finite s m' e' /\
    (Qabs (inject_Z (Zpos m') * pow2 e' - inject_Z (Zpos m) * pow2 e)
     <= u * (inject_Z (Zpos m) * pow2 e))%Q.
Proof.
  intros Hlo Hhi. unfold binary_round.
  pose proof (digits2_pos_bounds m) as [Blo Bhi].
  set (d := Zpos (digits2_pos m)) in *.
  assert (-1022 < d + e) as Hde.
  { apply pow2_lt_inv. eapply Qle_lt_trans; [exact Hlo|].
    rewrite pow2_add. apply Qmult_lt_compat_r; [apply pow2_pos|].
    rewrite pow2_Z by (subst d; lia). rewrite <- Zlt_Qlt. exact Bhi. }
  assert (fexp prec emax (d + e) = d + e - 53) as ->
    by (unfold fexp, SpecFloat.emin, emax, prec; lia).
  unfold shl_align.
  destruct (d + e - 53 - e) as [|p|p] eqn:Ed.
  - apply binary_round_aux_correct; try assumption.
    + cbn. reflexivity.
    + fold d. unfold prec. lia.
  - apply binary_round_aux_correct; try assumption.
    + cbn. reflexivity.
    + fold d. unfold prec. lia.
  - assert (inject_Z (Zpos (Pos.iter xO m p)) * pow2 (d + e - 53)
            == inject_Z (Zpos m) * pow2 e)%Q as Ev.
    { rewrite iter_xO, inject_Z_mult, <- (pow2_Z (Zpos p)) by lia.
      replace e with (Zpos p + (d + e - 53)) at 2 by lia. rewrite pow2_add. ring. }
    destruct (binary_round_aux_correct s (Pos.iter xO m p) (d + e - 53) loc_Exact
                (inject_Z (Zpos m) * pow2 e)) as (m' & e' & E & Hnear);
      try assumption.
    + cbn. symmetry. exact Ev.
    + apply digits2_pos_ge; [|unfold prec; lia].
      rewrite iter_xO. unfold prec. change (53 - 1) with 52.
      replace 52 with ((d - 1) + Zpos p) by lia.
      rewrite Z.pow_add_r by (subst d; lia).
      apply Z.mul_le_mono_nonneg_r; [apply Z.pow_nonneg; lia | exact Blo].
    + now exists m', e'.
Qed.

Theorem sub_correct (x y : float) :
  pfinite x -> pfinite y ->
  (pow2 (-1022) <= F2Q x - F2Q y)%Q -> (F2Q x < pow2 1023)%Q ->
  pfinite (x - y)%float /\
  (Qabs (F2Q (x - y)%float - (F2Q x - F2Q y)) <= u * (F2Q x - F2Q y))%Q.
Proof.
  intros (mx & ex & Ex) (my & ey & Ey) Hlo Hhi.
  pose proof (pfinite_pos y (ex_intro _ my (ex_intro _ ey Ey))) as Hypos.
  pose proof (sub_spec x y) as Espec.
  unfold F2Q in *. rewrite Espec. rewrite Ex, Ey in *. cbn [SF2Q] in *.
  unfold pfinite. rewrite Espec. clear Espec.
  unfold SF64sub. cbn [SFsub cond_Zopp].
  set (ez := Z.min ex ey).
  pose proof (shl_align_value mx ex ez ltac:(subst ez; lia)) as Vx.
  pose proof (shl_align_value my ey ez ltac:(subst ez; lia)) as Vy.
  set (ax := fst (shl_align mx ex ez)) in *.
  set (ay := fst (shl_align my ey ez)) in *.
  assert ((inject_Z (Zpos mx) * pow2 ex) - (inject_Z (Zpos my) * pow2 ey)
          == inject_Z (Zpos ax - Zpos ay) * pow2 ez)%Q as Ev.
  { rewrite <- Vx, <- Vy. unfold Z.sub. rewrite inject_Z_plus, inject_Z_opp. ring. }
  pose proof (pow2_pos ez) as Hez. pose proof (pow2_pos (-1022)) as Hmin.
  destruct (Zpos ax - Zpos ay) as [|m|m] eqn:Ed.
  - exfalso. change (inject_Z 0) with 0%Q in Ev. lra.
  - cbn [binary_normalize].
    destruct (binary_round_correct false m ez) as (m' & e' & E & Hnear).
    + rewrite <- Ev. exact Hlo.
    + rewrite <- Ev. lra.
    + rewrite E. cbn [SF2Q]. split; [now exists m', e'|].
      rewrite Ev. exact Hnear.
  - exfalso.
    assert (inject_Z (Zneg m) < 0)%Q by (change 0%Q with (inject_Z 0); rewrite <- Zlt_Qlt; lia).
    assert (inject_Z (Z.neg m) * pow2 ez < 0)%Q by nra. lra.
Qed.

(** *** Small integers *)

Lemma of_nat_exact (n : nat) :
  (1 <= n <= 25)%nat ->
  pfinite (of_uint63 (of_Z (Z.of_nat n))) /\
  (F2Q (of_uint63 (of_Z (Z.of_nat n))) == inject_Z (Z.of_nat n))%Q.
Proof.
  intros Hn.
  assert (forallb exact_nat (seq 1 25) = true) as Hall by (vm_compute; reflexivity).
  rewrite forallb_forall in Hall. specialize (Hall n ltac:(apply in_seq; lia)).
  unfold exact_nat in Hall. unfold pfinite, F2Q.
  destruct (Prim2SF (of_uint63 (of_Z (Z.of_nat n)))) as [| | |[|] m e]; try discriminate.
  split; [now exists m, e|]. cbn [SF2Q]. now apply Qeq_bool_iff.
Qed.

(** *** Division *)

Lemma new_location_inbetween (q r d e : Z) :
  0 <= r < d ->
  inbetween q e (new_location d r) ((inject_Z q + inject_Z r / inject_Z d) * pow2 e).
Proof.
  intros Hr. pose proof (pow2_pos e) as Hw.
  assert (0 < inject_Z d)%Q as Hd
    by (change 0%Q with (inject_Z 0); rewrite <- Zlt_Qlt; lia).
  set (f := (inject_Z r / inject_Z d)%Q).
  assert (f * inject_Z d == inject_Z r)%Q as Ef by (subst f; field; lra).
  assert (r = 0 -> (f == 0)%Q) as F0.
  { intros ->. subst f. unfold Qdiv. change (inject_Z 0) with 0%Q. ring. }
  assert (forall c : Q, (c * inject_Z d < inject_Z r -> c < f)%Q) as Fgt.
  { intros c H. apply (Qmult_pos_cancel_lt _ _ (inject_Z d) Hd). lra. }
  assert (forall c : Q, (inject_Z r < c * inject_Z d -> f < c)%Q) as Flt.
  { intros c H. apply (Qmult_pos_cancel_lt _ _ (inject_Z d) Hd). lra. }
  assert (forall a b : Z, a < b -> (inject_Z a < inject_Z b)%Q) as Zlt
    by (intros a b H; rewrite <- Zlt_Qlt; exact H).
  assert (inject_Z (2 * r) == 2 * inject_Z r)%Q as E2 by (rewrite inject_Z_mult; reflexivity).
  assert (r <> 0 -> (0 < f)%Q) as Fpos.
  { intros N0. apply Fgt.
    pose proof (Zlt 0 r ltac:(lia)) as H. change (inject_Z 0) with 0%Q in H. lra. }
  assert (f < 1)%Q as F1 by (apply Flt; pose proof (Zlt r d ltac:(lia)); lra).
  unfold new_location, new_location_even, new_location_odd.
  destruct (Z.even d) eqn:Even; cbv beta; destruct (Z.eqb_spec r 0) as [E0|N0].
  - cbn [inbetween]. rewrite (F0 E0). ring.
  - specialize (Fpos N0).
    destruct (Z.compare_spec (2 * r) d) as [E|L|G]; cbn [inbetween].
    + assert (f == 1 # 2)%Q as ->; [|ring].
      apply (Qmult_inj_r _ _ (inject_Z d)); [lra|].
      rewrite Ef, <- E, E2. ring.
    + assert (f < 1 # 2)%Q by (apply Flt; pose proof (Zlt _ _ L); lra).
      split; nra.
    + assert (1 # 2 < f)%Q by (apply Fgt; pose proof (Zlt _ _ G); lra).
      split; nra.
  - cbn [inbetween]. rewrite (F0 E0). ring.
  - specialize (Fpos N0).
    assert (2 * r <> d) as Hodd.
    { intros E. rewrite <- E, Z.even_mul in Even. discriminate Even. }
    destruct (Z.compare_spec (2 * r + 1) d) as [E|L|G]; cbn [inbetween].
    + assert (f < 1 # 2)%Q by (apply Flt; pose proof (Zlt (2 * r) d ltac:(lia)); lra).
      split; nra.
    + assert (f < 1 # 2)%Q by (apply Flt; pose proof (Zlt (2 * r) d ltac:(lia)); lra).
      split; nra.
    + assert (1 # 2 < f)%Q by (apply Fgt; pose proof (Zlt d (2 * r) ltac:(lia)); lra).
      split; nra.
Qed.

Theorem div_correct (x y : float) :
  pfinite x -> pfinite y ->
  (pow2 (-500) <= F2Q x)%Q -> (F2Q x <= pow2 500)%Q ->
  (pow2 (-500) <= F2Q y)%Q -> (F2Q y <= pow2 500)%Q ->
  pfinite (x / y)%float /\
  (Qabs (F2Q (x / y)%float - F2Q x / F2Q y) <= u * (F2Q x / F2Q y))%Q.
Proof.
  intros (mx & ex & Ex) (my & ey & Ey) Hxlo Hxhi Hylo Hyhi.
  pose proof (div_spec x y) as Espec.
  unfold F2Q in *. rewrite Espec. rewrite Ex, Ey in *. cbn [SF2Q] in *.
  unfold pfinite. rewrite Espec. clear Espec.
  assert (pow2 (-1022) <= pow2 (-500))%Q as P1 by (apply pow2_le; lia).
  pose proof (normal_digits x false mx ex Ex ltac:(lra)) as Hdx.
  pose proof (normal_digits y false my ey Ey ltac:(lra)) as Hdy.
  pose proof (normal_exponent mx ex (-500) 500 Hdx Hxlo Hxhi) as Hex.
  pose proof (normal_exponent my ey (-500) 500 Hdy Hylo Hyhi) as Hey.
  pose proof (digits2_pos_bounds mx) as [Bxlo Bxhi]. rewrite Hdx in Bxlo, Bxhi.
  pose proof (digits2_pos_bounds my) as [Bylo Byhi]. rewrite Hdy in Bylo, Byhi.
  change (53 - 1) with 52 in *.
  unfold SF64div. cbn [SFdiv xorb]. unfold SFdiv_core_binary.
  cbn [Zdigits2]. rewrite Hdx, Hdy.
  assert (Z.min (fexp prec emax (53 + ex - (53 + ey))) (ex - ey) = ex - ey - 53) as ->.
  { unfold fexp, SpecFloat.emin, emax, prec. lia. }
  replace (ex - ey - (ex - ey - 53)) with 53 by lia.
  rewrite Z.shiftl_mul_pow2 by lia.
  pose proof (Z_div_mod (Zpos mx * 2 ^ 53) (Zpos my) ltac:(lia)) as Hdiv.
  destruct (Z.div_eucl (Zpos mx * 2 ^ 53) (Zpos my)) as [q r].
  destruct Hdiv as [Eq Hr].
  set (e' := ex - ey - 53).
  assert (2 ^ 52 <= q) as Hq by nia.
  destruct q as [|q|q]; [lia| |lia].
  pose proof (pow2_pos ex) as Hwx. pose proof (pow2_pos ey) as Hwy.
  assert (0 < inject_Z (Zpos my))%Q as Hmy
    by (change 0%Q with (inject_Z 0); rewrite <- Zlt_Qlt; lia).
  assert ((inject_Z (Zpos mx) * pow2 ex) / (inject_Z (Zpos my) * pow2 ey)
          == (inject_Z (Zpos q) + inject_Z r / inject_Z (Zpos my)) * pow2 e')%Q as Ev.
  { assert (pow2 ex == pow2 53 * pow2 e' * pow2 ey)%Q as ->.
    { rewrite <- !pow2_add. subst e'. replace (53 + (ex - ey - 53) + ey) with ex by lia.
      reflexivity. }
    assert (inject_Z (Zpos mx) * pow2 53
            == inject_Z (Zpos my) * inject_Z (Zpos q) + inject_Z r)%Q as Em.
    { rewrite (pow2_Z 53) by lia. rewrite <- !inject_Z_mult, <- inject_Z_plus, Eq.
      reflexivity. }
    transitivity ((inject_Z (Zpos mx) * pow2 53) * pow2 e' / inject_Z (Zpos my))%Q.
    - field. split; lra.
    - rewrite Em. field. lra. }
  set (v := ((inject_Z (Zpos mx) * pow2 ex) / (inject_Z (Zpos my) * pow2 ey))%Q) in *.
  assert (0 < inject_Z (Zpos my) * pow2 ey)%Q as Hypos by nra.
  assert (pow2 (-1000) <= v)%Q as Vlo.
  { subst v. apply Qle_shift_div_l; [exact Hypos|].
    assert (pow2 (-1000) * (inject_Z (Zpos my) * pow2 ey) <= pow2 (-1000) * pow2 500)%Q as H
      by (apply Qmult_le_l; [apply pow2_pos | exact Hyhi]).
    rewrite <- pow2_add in H. change (-1000 + 500) with (-500) in H. lra. }
  assert (v <= pow2 1000)%Q as Vhi.
  { subst v. apply Qle_shift_div_r; [exact Hypos|].
    assert (pow2 1000 * pow2 (-500) <= pow2 1000 * (inject_Z (Zpos my) * pow2 ey))%Q as H
      by (apply Qmult_le_l; [apply pow2_pos | exact Hylo]).
    rewrite <- pow2_add in H. change (1000 + -500) with 500 in H. lra. }
  destruct (binary_round_aux_correct false q e' (new_location (Zpos my) r) v)
    as (m' & e'' & E & Hnear).
  - apply (inbetween_ext _ _ _ _ v (Qeq_sym _ _ Ev)). apply new_location_inbetween. exact Hr.
  - apply digits2_pos_ge; [unfold prec; change (53 - 1) with 52; lia | unfold prec; lia].
  - assert (pow2 (-1022) <= pow2 (-1000))%Q by (apply pow2_le; lia). lra.
  - assert (pow2 1000 < pow2 1023)%Q by (apply pow2_lt; lia). lra.
  - rewrite E. cbn [SF2Q]. split; [now exists m', e'' | exact Hnear].
Qed.

(** *** Two-sided form of the error bound *)

Lemma u_bounds : (0 < u)%Q /\ (u <= 1 # 1000000)%Q.
Proof. split; [apply pow2_pos | unfold u; vm_compute; discriminate]. Qed.

Lemma near_bounds (r v : Q) :
  (Qabs (r - v) <= u * v)%Q -> ((1 - u) * v <= r)%Q /\ (r <= (1 + u) * v)%Q.
Proof. intros H. apply Qabs_Qle_condition in H. destruct H. split; lra. Qed.

Lemma add_zero_l (x y : float) : pzero x -> pfinite y -> (x + y)%float = y.
Proof.
  intros Ex (m & e & Ey). apply Prim2SF_inj. rewrite add_spec.
  unfold pzero in Ex. rewrite Ex, Ey. reflexivity.
Qed.

Lemma add_zero_r (x y : float) : pfinite x -> pzero y -> (x + y)%float = x.
Proof.
  intros (m & e & Ex) Ey. apply Prim2SF_inj. rewrite add_spec.
  unfold pzero in Ey. rewrite Ex, Ey. reflexivity.
Qed.

Lemma add_zero_zero (x y : float) : pzero x -> pzero y -> pzero (x + y)%float.
Proof.
  unfold pzero. intros Ex Ey. rewrite add_spec, Ex, Ey. reflexivity.
Qed.

Lemma F2Q_zero (x : float) : pzero x -> F2Q x = 0%Q.
Proof. unfold pzero, F2Q. intros ->. reflexivity. Qed.

(** *** Comparison *)

Lemma ltb_zero (x z : float) : pzero z -> pfinite x -> PrimFloat.ltb z x = true.
Proof.
  intros Ez (m & e & Ex). rewrite ltb_spec. unfold pzero in Ez. rewrite Ez, Ex. reflexivity.
Qed.

Lemma ltb_zero_zero (x z : float) : pzero z -> pzero x -> PrimFloat.ltb z x = false.
Proof.
  unfold pzero. intros Ez Ex. rewrite ltb_spec, Ez, Ex. reflexivity.
Qed.

Lemma canonical_lt (m1 m2 : positive) (e1 e2 : Z) :
  fexp prec emax (Zpos (digits2_pos m1) + e1) = e1 ->
  fexp prec emax (Zpos (digits2_pos m2) + e2) = e2 ->
  e1 < e2 ->
  (inject_Z (Zpos m1) * pow2 e1 < inject_Z (Zpos m2) * pow2 e2)%Q.
Proof.
  intros C1 C2 He.
  pose proof (digits2_pos_bounds m1) as [_ B1].
  pose proof (digits2_pos_bounds m2) as [B2 _].
  set (d1 := Zpos (digits2_pos m1)) in *. set (d2 := Zpos (digits2_pos m2)) in *.
  assert (1 <= d1) by (subst d1; lia). assert (1 <= d2) by (subst d2; lia).
  unfold fexp, SpecFloat.emin, emax, prec in C1, C2.
  assert (d2 = 53) as Hd2 by lia. assert (d1 <= 53) as Hd1 by lia.
  rewrite Hd2 in B2. change (53 - 1) with 52 in B2.
  assert (Zpos m1 < 2 ^ 53) as B1'.
  { assert (2 ^ d1 <= 2 ^ 53) by (apply Z.pow_le_mono_r; lia). lia. }
  assert (inject_Z (Zpos m1) < inject_Z (2 ^ 53))%Q as Q1 by (rewrite <- Zlt_Qlt; exact B1').
  assert (inject_Z (2 ^ 52) <= inject_Z (Zpos m2))%Q as Q2 by (rewrite <- Zle_Qle; exact B2).
  assert (pow2 (53 + e1) <= pow2 (52 + e2))%Q as Hp by (apply pow2_le; lia).
  rewrite !pow2_add, (pow2_Z 53), (pow2_Z 52) in Hp by lia.
  pose proof (pow2_pos e1). pose proof (pow2_pos e2). nra.
Qed.

Lemma compare_cont_Eq (m1 m2 : positive) : Pos.compare_cont Eq m1 m2 = (m1 ?= m2)%positive.
Proof. reflexivity. Qed.

(** [x < y] on positive finite numbers is the order of their values. *)
Theorem ltb_correct (x y : float) :
  pfinite x -> pfinite y ->
  (PrimFloat.ltb x y = true <-> (F2Q x < F2Q y)%Q).
Proof.
  intros (m1 & e1 & Ex) (m2 & e2 & Ey).
  destruct (valid_finite x false m1 e1 Ex) as [C1 _].
  destruct (valid_finite y false m2 e2 Ey) as [C2 _].
  rewrite ltb_spec. unfold F2Q. rewrite Ex, Ey. cbn [SF2Q].
  unfold SFltb. cbn [SFcompare].
  pose proof (pow2_pos e1) as W1. pose proof (pow2_pos e2) as W2.
  destruct (Z.compare_spec e1 e2) as [E|L|G].
  - subst e2. rewrite compare_cont_Eq.
    destruct (Pos.compare_spec m1 m2) as [Em|Lm|Gm].
    + subst m2. split; [discriminate | intros H; lra].
    + split; [intros _|reflexivity].
      assert (inject_Z (Zpos m1) < inject_Z (Zpos m2))%Q by (rewrite <- Zlt_Qlt; lia). nra.
    + split; [discriminate|]. intros H.
      assert (inject_Z (Zpos m2) < inject_Z (Zpos m1))%Q by (rewrite <- Zlt_Qlt; lia). nra.
  - split; [intros _|reflexivity]. now apply canonical_lt.
  - split; [discriminate|]. intros H.
    pose proof (canonical_lt m2 m1 e2 e1 C2 C1 G). lra.
Qed.

End Binary64Props.

(** * Properties of the array model *)

Module JSArrayProps.

Lemma map_repeat {A B : Type} (f : A -> B) (v : A) (n : nat) :
  JSArray.map f (repeat (Some v) n) = repeat (Some (f v)) n.
Proof.
  induction n as [|n IH]; [reflexivity|]. cbn. f_equal. exact IH.
Qed.

Lemma length_set_nth {A : Type} (l : list A) (i : nat) (x : A) :
  length (JSArray.set_nth l i x) = length l.
Proof.
  revert i. induction l as [|y l IH]; intros i; [reflexivity|].
  destruct i; cbn; [reflexivity | now rewrite IH].
Qed.

Lemma nth_set_nth_same {A : Type} (l : list A) (i : nat) (x d : A) :
  (i < length l)%nat -> nth i (JSArray.set_nth l i x) d = x.
Proof.
  revert i. induction l as [|y l IH]; intros i Hi; cbn in Hi; [lia|].
  destruct i; cbn; [reflexivity | apply IH; lia].
Qed.

Lemma nth_set_nth_other {A : Type} (l : list A) (i j : nat) (x d : A) :
  i <> j -> nth j (JSArray.set_nth l i x) d = nth j l d.
Proof.
  revert i j. induction l as [|y l IH]; intros i j Hij; [reflexivity|].
  destruct i, j; cbn; try reflexivity; try congruence.
  apply IH. congruence.
Qed.

Lemma Forall_set_nth {A : Type} (P : A -> Prop) (l : list A) (i : nat) (x : A) :
  Forall P l -> P x -> Forall P (JSArray.set_nth l i x).
Proof.
  intros Hl Hx. revert i. induction Hl as [|y l Hy Hl IH]; intros i; [constructor|].
  destruct i; cbn; constructor; auto.
Qed.

(** A key that is no array index leaves the elements alone. *)
Lemma update_not_index {A : Type} (arr : JSArray.t A) (k : Z) (f : option A -> A) :
  k < 0 \/ 4294967294 < k -> JSArray.update arr k f = arr.
Proof.
  intros Hk. unfold JSArray.update, JSArray.is_array_index.
  destruct (Z.leb_spec 0 k), (Z.leb_spec k 4294967294); cbn [andb]; try reflexivity. lia.
Qed.

Lemma elements_dense {A : Type} (l : list A) : JSArray.elements (JSArray.dense l) = l.
Proof.
  induction l as [|x l IH]; [reflexivity|].
  cbn [JSArray.dense List.map JSArray.elements]. f_equal. exact IH.
Qed.

Lemma length_dense {A : Type} (l : list A) : length (JSArray.dense l) = length l.
Proof. apply length_map. Qed.

(** ** The stable sort *)

Section StableSort.

Context {A : Type}.
Variable after : A -> A -> bool.

Lemma insert_perm (x : A) (l : list A) :
  Permutation (JSArray.insert after x l) (x :: l).
Proof.
  induction l as [|y l IH]; cbn; [reflexivity|].
  destruct (after x y); [|reflexivity].
  rewrite IH. apply perm_swap.
Qed.

Lemma sort_list_perm (l : list A) : Permutation (JSArray.sort_list after l) l.
Proof.
  induction l as [|x l IH]; cbn; [reflexivity|].
  rewrite insert_perm. now constructor.
Qed.

(** [earlier] is the order of the input, [before] the order wanted of the
    output; [good] singles out the elements the comparator orders
    consistently. *)
Variable good : A -> Prop.
Variables earlier before : A -> A -> Prop.

Hypothesis before_trans :
  forall x y z, good x -> good y -> good z -> before x y -> before y z -> before x z.
Hypothesis after_true :
  forall x y, good x -> good y -> after x y = true -> before y x.
Hypothesis after_false :
  forall x y, good x -> good y -> earlier x y -> after x y = false -> before x y.

Lemma insert_sorted (x : A) (l : list A) :
  good x -> Forall good l -> Forall (earlier x) l ->
  StronglySorted before l -> StronglySorted before (JSArray.insert after x l).
Proof.
  intros Hx Hgood Hearly Hsorted.
  induction Hsorted as [|y l Hsorted IH Hy]; cbn.
  - repeat constructor.
  - inversion Hgood as [|? ? Hgy Hgl]; subst.
    inversion Hearly as [|? ? Hey Hel]; subst.
    destruct (after x y) eqn:E.
    + constructor; [now apply IH|].
      apply (Permutation_Forall (Permutation_sym (insert_perm x l))).
      constructor; [now apply after_true | exact Hy].
    + constructor; [now constructor|].
      assert (before x y) as Hxy by now apply after_false.
      constructor; [exact Hxy|].
      rewrite Forall_forall in *. intros z Hz.
      apply (before_trans x y z); auto.
Qed.

Lemma sort_list_sorted (l : list A) :
  Forall good l -> StronglySorted earlier l ->
  StronglySorted before (JSArray.sort_list after l).
Proof.
  intros Hgood Hsorted.
  induction Hsorted as [|x l Hsorted IH Hx]; cbn; [constructor|].
  inversion Hgood as [|? ? Hgx Hgl]; subst.
  apply insert_sorted.
  - exact Hgx.
  - apply (Permutation_Forall (Permutation_sym (sort_list_perm l))). exact Hgl.
  - apply (Permutation_Forall (Permutation_sym (sort_list_perm l))). exact Hx.
  - now apply IH.
Qed.

End StableSort.

End JSArrayProps.

(** * Properties of the state codec *)

Module CodecProps.

Import Codec.

Lemma byte_val_range (b : byte) : 0 <= byte_val b < 256.
Proof.
  unfold byte_val. pose proof (Byte.to_N_bounded b) as Hb.
  split; [apply N2Z.is_nonneg | lia].
Qed.

Lemma byte_val_inj (b c : byte) : byte_val b = byte_val c -> b = c.
Proof.
  unfold byte_val. intros H. apply N2Z.inj in H.
  assert (Some b = Some c) as E.
  { now rewrite <- (Byte.of_to_N b), <- (Byte.of_to_N c), H. }
  now injection E.
Qed.

Lemma le_value_range (bs : list byte) : 0 <= le_value bs < 256 ^ Z.of_nat (length bs).
Proof.
  induction bs as [|b bs IH].
  - simpl. lia.
  - cbn [le_value length]. rewrite Nat2Z.inj_succ, Z.pow_succ_r by lia.
    pose proof (byte_val_range b). lia.
Qed.

(** A successful 64-bit read yields an unsigned 64-bit value. *)
Lemma getBigUint64_range (buf : Buffer) (o : nat) (r : Z) :
  getBigUint64 buf o = Ok r -> 0 <= r < 2 ^ 64.
Proof.
  unfold getBigUint64. destruct (Nat.leb_spec (o + 8) (length buf)) as [Hle|Hlt]; [|discriminate].
  intros E. injection E as <-.
  pose proof (le_value_range (firstn 8 (skipn o buf))) as Hr.
  rewrite length_firstn, length_skipn in Hr.
  replace (Nat.min 8 (length buf - o)) with 8%nat in Hr by lia.
  change (256 ^ Z.of_nat 8) with (2 ^ 64) in Hr. exact Hr.
Qed.

Lemma getBigUint64_inside (buf : Buffer) (o : nat) :
  (o + 8 <= length buf)%nat -> getBigUint64 buf o = Ok (le_value (firstn 8 (skipn o buf))).
Proof.
  intros H. unfold getBigUint64. destruct (Nat.leb_spec (o + 8) (length buf)); [reflexivity | lia].
Qed.

Lemma getBigUint64_outside (buf : Buffer) (o : nat) :
  (length buf < o + 8)%nat -> getBigUint64 buf o = Throw RangeErrorBounds.
Proof.
  intros H. unfold getBigUint64. destruct (Nat.leb_spec (o + 8) (length buf)); [lia | reflexivity].
Qed.

Lemma isAll_Forall (buf : Buffer) (c : byte) :
  isAll buf (byte_val c) = true <-> Forall (fun b => b = c) buf.
Proof.
  unfold isAll. rewrite forallb_forall, Forall_forall.
  split; intros H b Hb; specialize (H b Hb).
  - apply Z.eqb_eq in H. now apply byte_val_inj.
  - subst b. apply Z.eqb_refl.
Qed.

Lemma isAll_not_Forall (buf : Buffer) (c : byte) :
  isAll buf (byte_val c) = false <-> ~ Forall (fun b => b = c) buf.
Proof.
  rewrite <- isAll_Forall. destruct (isAll buf (byte_val c)); split; intros H; congruence.
Qed.

(** ** The winning square *)

(** The reader returns the word the spec describes. *)
Lemma skipn_nth_cons (buf : Buffer) (o : nat) :
  (o < length buf)%nat -> skipn o buf = nth o buf x00 :: skipn (S o) buf.
Proof.
  revert o. induction buf as [|b buf IH]; intros o H; cbn in H; [lia|].
  destruct o as [|o]; [reflexivity|]. cbn [skipn nth]. apply IH. lia.
Qed.

Lemma getBigUint64_word (buf : Buffer) (o : nat) :
  (o + 8 <= length buf)%nat -> getBigUint64 buf o = Ok (little_endian_word buf o).
Proof.
  intros H. rewrite getBigUint64_inside by exact H. f_equal.
  rewrite (skipn_nth_cons buf o) by lia.
  rewrite (skipn_nth_cons buf (S o)) by lia.
  rewrite (skipn_nth_cons buf (S (S o))) by lia.
  rewrite (skipn_nth_cons buf (S (S (S o)))) by lia.
  rewrite (skipn_nth_cons buf (S (S (S (S o))))) by lia.
  rewrite (skipn_nth_cons buf (S (S (S (S (S o)))))) by lia.
  rewrite (skipn_nth_cons buf (S (S (S (S (S (S o))))))) by lia.
  rewrite (skipn_nth_cons buf (S (S (S (S (S (S (S o)))))))) by lia.
  cbn [firstn le_value]. unfold little_endian_word, byte_at.
  replace (o + 1)%nat with (S o) by lia.
  replace (o + 2)%nat with (S (S o)) by lia.
  replace (o + 3)%nat with (S (S (S o))) by lia.
  replace (o + 4)%nat with (S (S (S (S o)))) by lia.
  replace (o + 5)%nat with (S (S (S (S (S o))))) by lia.
  replace (o + 6)%nat with (S (S (S (S (S (S o)))))) by lia.
  replace (o + 7)%nat with (S (S (S (S (S (S (S o))))))) by lia.
  ring.
Qed.

Lemma little_endian_word_range (buf : Buffer) (o : nat) :
  0 <= little_endian_word buf o < 2 ^ 64.
Proof.
  unfold little_endian_word, byte_at.
  pose proof (byte_val_range (nth o buf x00)).
  pose proof (byte_val_range (nth (o + 1) buf x00)).
  pose proof (byte_val_range (nth (o + 2) buf x00)).
  pose proof (byte_val_range (nth (o + 3) buf x00)).
  pose proof (byte_val_range (nth (o + 4) buf x00)).
  pose proof (byte_val_range (nth (o + 5) buf x00)).
  pose proof (byte_val_range (nth (o + 6) buf x00)).
  pose proof (byte_val_range (nth (o + 7) buf x00)).
  lia.
Qed.

(** C1. For every 32-byte [slot_hash] the derivation returns a tagged result:
    [Unavailable] when all 32 bytes are zero, [Refund] when all 32 bytes are
    [0xFF], and otherwise [Resolved index] with
    [index = (r1 XOR r2 XOR r3 XOR r4) mod 25], where [r1 .. r4] are the four
    little-endian unsigned 64-bit words of the buffer, each written out from
    its eight bytes (the byte at position [i] of a word weighs [256 ^ i]);
    the index lies in [0, 24]. *)
Theorem winningSquare_tagged (buf : Buffer) :
  length buf = 32%nat ->
  let r1 := little_endian_word buf 0 in
  let r2 := little_endian_word buf 8 in
  let r3 := little_endian_word buf 16 in
  let r4 := little_endian_word buf 24 in
  let index := (Z.lxor (Z.lxor (Z.lxor r1 r2) r3) r4) mod 25 in
  (0 <= index <= 24) /\
  (Forall (fun b => b = x00) buf ->
     winningSquareFromSlotHash buf = Ok Unavailable) /\
  (Forall (fun b => b = xff) buf ->
     winningSquareFromSlotHash buf = Ok Refund) /\
  (~ Forall (fun b => b = x00) buf -> ~ Forall (fun b => b = xff) buf ->
     winningSquareFromSlotHash buf = Ok (Resolved index)).
Proof.
  intros Hlen r1 r2 r3 r4 index.
  assert (0 <= index <= 24) as Hindex.
  { pose proof (Z.mod_pos_bound (Z.lxor (Z.lxor (Z.lxor r1 r2) r3) r4) 25).
    subst index. lia. }
  split; [exact Hindex|].
  split; [|split].
  - intros Hz. unfold winningSquareFromSlotHash.
    rewrite Hlen. cbn [Nat.eqb negb].
    change 0 with (byte_val x00).
    apply isAll_Forall in Hz. now rewrite Hz.
  - intros Hf. unfold winningSquareFromSlotHash.
    rewrite Hlen. cbn [Nat.eqb negb].
    assert (isAll buf 0 = false) as Hnz.
    { change 0 with (byte_val x00). apply isAll_not_Forall. intros Hz.
      destruct buf as [|b buf]; [discriminate|].
      inversion Hz; inversion Hf; congruence. }
    rewrite Hnz. change 255 with (byte_val xff).
    apply isAll_Forall in Hf. now rewrite Hf.
  - intros Hnz Hnf. unfold winningSquareFromSlotHash.
    rewrite Hlen. cbn [Nat.eqb negb].
    apply isAll_not_Forall in Hnz, Hnf.
    change (byte_val x00) with 0 in Hnz. change (byte_val xff) with 255 in Hnf.
    rewrite Hnz, Hnf.
    rewrite !getBigUint64_word by (rewrite Hlen; lia).
    cbn [bind]. fold r1 r2 r3 r4.
    rewrite Z.rem_mod_nonneg; [reflexivity | | lia].
    pose proof (little_endian_word_range buf 0).
    pose proof (little_endian_word_range buf 8).
    pose proof (little_endian_word_range buf 16).
    pose proof (little_endian_word_range buf 24).
    subst r1 r2 r3 r4.
    repeat (apply Z.lxor_nonneg; split; intros _); lia.
Qed.

(** The sample hash: its words are [0xd05ab827f3014e9c],
    [0x3bc46d9308e27f11], [0x428a1976fe5800a5] and [0x964ae105bc30d967],
    their XOR is [0x3f5e2dc7b98be84f], and the square is 16. *)
Lemma winningSquare_tagged_witness :
  length sample_hash = 32%nat /\
  little_endian_word sample_hash 0 = 0xd05ab827f3014e9c /\
  little_endian_word sample_hash 8 = 0x3bc46d9308e27f11 /\
  little_endian_word sample_hash 16 = 0x428a1976fe5800a5 /\
  little_endian_word sample_hash 24 = 0x964ae105bc30d967 /\
  winningSquareFromSlotHash sample_hash = Ok (Resolved 16).
Proof.
  split; [reflexivity|]. repeat (split; [vm_compute; reflexivity|]).
  destruct (winningSquare_tagged sample_hash eq_refl) as (_ & _ & _ & Hres).
  apply Hres; intros H; inversion H; discriminate.
Defined.

(** ** The layout of a round account *)

Lemma read_u64s_inside (data : Buffer) (n o : nat) :
  (o + 8 * n <= length data)%nat ->
  exists vs, read_u64s data n o = Ok (vs, (o + 8 * n)%nat) /\ length vs = n.
Proof.
  revert o. induction n as [|n IH]; intros o H.
  - exists []. cbn. now rewrite Nat.add_0_r.
  - cbn [read_u64s]. unfold le64. rewrite getBigUint64_inside by lia. cbn [bind].
    destruct (IH (o + 8)%nat ltac:(lia)) as (vs & E & L). rewrite E. cbn [bind fst snd].
    eexists. split; [do 2 f_equal; lia | cbn; now rewrite L].
Qed.

Lemma read_u64s_outside (data : Buffer) (n o : nat) :
  (0 < n)%nat -> (length data < o + 8 * n)%nat ->
  read_u64s data n o = Throw RangeErrorBounds.
Proof.
  revert o. induction n as [|n IH]; intros o Hn H; [lia|].
  cbn [read_u64s]. unfold le64.
  destruct (Nat.leb_spec (o + 8) (length data)) as [Hin|Hout].
  - rewrite getBigUint64_inside by lia. cbn [bind]. rewrite IH by lia. reflexivity.
  - now rewrite getBigUint64_outside by lia.
Qed.

(** One step of a decode trace: either the next read lies outside the data
    and the whole decode throws, or it succeeds and the trace goes on. *)
Ltac read_step data :=
  match goal with
  | |- context [le64 data ?o] =>
      unfold le64 at 1;
      destruct (Nat.leb_spec (o + 8) (length data));
      [ rewrite (getBigUint64_inside data o) by lia; cbn [bind]
      | first [ exfalso; lia | rewrite (getBigUint64_outside data o) by lia; reflexivity ] ]
  | |- context [read_u64s data ?n ?o] =>
      destruct (Nat.leb_spec (o + 8 * n) (length data));
      [ let vs := fresh "vs" in let E := fresh "E" in
        destruct (read_u64s_inside data n o ltac:(lia)) as (vs & E & _);
        rewrite E; cbn [bind fst snd]
      | first [ exfalso; lia | rewrite (read_u64s_outside data n o) by lia; reflexivity ] ]
  end.

Lemma decodeRoundBody_short (data : Buffer) :
  (length data < 552)%nat -> decodeRoundBody data = Throw RangeErrorBounds.
Proof.
  intros H. unfold decodeRoundBody. cbn zeta.
  repeat read_step data. lia.
Qed.

Lemma decodeRoundBody_long (data : Buffer) :
  (552 <= length data)%nat -> succeeds (decodeRoundBody data).
Proof.
  intros H.
  assert (forall e, decodeRoundBody data <> Throw e) as Hne.
  { intros e. unfold decodeRoundBody. cbn zeta.
    repeat read_step data. discriminate. }
  unfold succeeds. destruct (decodeRoundBody data) as [r|e]; [now exists r|].
  now destruct (Hne e).
Qed.

(** C4, as the code has it.  [decodeRound] fails on every buffer shorter than
    the fixed layout, which is 560 bytes long (not 498): with the script's
    own "Round data too short" error below 8 bytes, and with the view's
    out-of-bounds [RangeError] from 8 to 559 bytes; neither carries a
    length.  On every buffer of at least 560 bytes it succeeds.  The
    unchecked decoder of ev-picks.js fails (out of bounds) and succeeds on
    the same lengths. *)
Theorem decodeRound_layout (accData : Buffer) :
  round_layout_size = 560%nat /\
  ((length accData < 8)%nat -> decodeRound accData = Throw RoundDataTooShort) /\
  ((8 <= length accData < 560)%nat -> decodeRound accData = Throw RangeErrorBounds) /\
  ((560 <= length accData)%nat -> succeeds (decodeRound accData)) /\
  ((length accData < 560)%nat -> decodeRound_ev accData = Throw RangeErrorBounds) /\
  ((560 <= length accData)%nat -> succeeds (decodeRound_ev accData)).
Proof.
  assert (length (subarray_from accData 8) = (length accData - 8)%nat) as Hlen
    by apply length_skipn.
  split; [reflexivity|].
  unfold decodeRound, decodeRound_ev.
  repeat split; intros H.
  - destruct (Nat.ltb_spec (length accData) 8); [reflexivity | lia].
  - destruct (Nat.ltb_spec (length accData) 8); [lia|].
    apply decodeRoundBody_short. lia.
  - destruct (Nat.ltb_spec (length accData) 8); [lia|].
    apply decodeRoundBody_long. lia.
  - rewrite decodeRoundBody_short by lia. reflexivity.
  - destruct (decodeRoundBody_long (subarray_from accData 8)) as (r & E); [lia|].
    rewrite E. cbn [bind]. eexists. reflexivity.
Qed.

(** C4, counterexample: a buffer of 498 bytes, the minimum length the
    specification gives, does not decode. *)
Lemma decodeRound_498_throws :
  length buffer_498 = 498%nat /\
  decodeRound buffer_498 = Throw RangeErrorBounds /\
  ~ succeeds (decodeRound buffer_498).
Proof.
  assert (decodeRound buffer_498 = Throw RangeErrorBounds) as E by (vm_compute; reflexivity).
  split; [reflexivity|]. split; [exact E|].
  intros (r & Hr). rewrite E in Hr. discriminate.
Qed.

(** A buffer of exactly 560 bytes decodes; one byte fewer does not. *)
Lemma decodeRound_layout_witness :
  succeeds (decodeRound (repeat x01 560)) /\
  decodeRound (repeat x01 559) = Throw RangeErrorBounds.
Proof.
  split.
  - apply (decodeRound_layout (repeat x01 560)). rewrite repeat_length. lia.
  - apply (decodeRound_layout (repeat x01 559)). rewrite repeat_length. lia.
Defined.

End CodecProps.

(** * Properties of the expected-value estimator *)

Module EvPicksProps.

Import EvPicks JSArrayProps.

Lemma bigint_div_nonzero (x y : Z) : y <> 0 -> bigint_div x y = Ok (Z.quot x y).
Proof.
  intros H. unfold bigint_div. destruct (Z.eqb_spec y 0); [contradiction | reflexivity].
Qed.

Lemma evForSquare_nonzero (d T a : Z) :
  d + a <> 0 -> evForSquare d T a = Ok (ev_value d T a).
Proof.
  intros H. unfold evForSquare, ev_value. cbn zeta.
  rewrite !bigint_div_nonzero by lia. reflexivity.
Qed.

Lemma evForSquare_zero (d T a : Z) :
  d + a = 0 -> evForSquare d T a = Throw RangeErrorDivZero.
Proof.
  intros H. unfold evForSquare. cbn zeta.
  rewrite bigint_div_nonzero by lia. cbn [bind].
  rewrite H. reflexivity.
Qed.

Lemma evForSquare_throws_iff (d T a : Z) (e : exn) :
  evForSquare d T a = Throw e <-> d + a = 0 /\ e = RangeErrorDivZero.
Proof.
  destruct (Z.eq_dec (d + a) 0) as [Hz|Hnz].
  - rewrite (evForSquare_zero d T a Hz). split.
    + intros E. injection E as <-. now split.
    + intros [_ ->]. reflexivity.
  - rewrite (evForSquare_nonzero d T a Hnz). split; [discriminate | intros [Hz _]; contradiction].
Qed.

Lemma evForSquare_succeeds_iff (d T a : Z) :
  succeeds (evForSquare d T a) <-> d + a <> 0.
Proof.
  unfold succeeds. destruct (Z.eq_dec (d + a) 0) as [Hz|Hnz].
  - rewrite (evForSquare_zero d T a Hz). split; [intros (r & E); discriminate | contradiction].
  - rewrite (evForSquare_nonzero d T a Hnz). split; [trivial | intros _; now eexists].
Qed.

(** *** The loop of [main] *)

Lemma for_range_ok {A : Type} (body : nat -> result A) (g : nat -> A) (n start : nat) :
  (forall i, (start <= i < start + n)%nat -> body i = Ok (g i)) ->
  for_range body start n = Ok (map g (seq start n)).
Proof.
  revert start. induction n as [|n IH]; intros start H; [reflexivity|].
  cbn [for_range seq map]. rewrite H by lia. cbn [bind].
  rewrite IH by (intros i Hi; apply H; lia). reflexivity.
Qed.

Lemma for_range_succeeds_inv {A : Type} (body : nat -> result A) (n start : nat) :
  succeeds (for_range body start n) ->
  forall i, (start <= i < start + n)%nat -> succeeds (body i).
Proof.
  revert start. induction n as [|n IH]; intros start (xs & E) i Hi; [lia|].
  cbn [for_range] in E.
  destruct (body start) as [x|e] eqn:Ex; [|discriminate]. cbn [bind] in E.
  destruct (for_range body (S start) n) as [ys|e] eqn:Ey; [|discriminate].
  destruct (Nat.eq_dec i start) as [->|Hne].
  - rewrite Ex. now exists x.
  - apply (IH (S start)); [rewrite Ey; now exists ys | lia].
Qed.

Lemma sumZ_nonneg (l : list Z) : Forall (fun d => 0 <= d) l -> 0 <= sumZ l.
Proof.
  induction 1 as [|d l Hd _ IH]; cbn; lia.
Qed.

Lemma sumZ_ge_nth (l : list Z) (i : nat) (d : Z) :
  Forall (fun d => 0 <= d) l -> nth_error l i = Some d -> d <= sumZ l.
Proof.
  intros Hl. revert i. induction Hl as [|x l Hx Hl IH]; intros i Hi.
  - destruct i; discriminate.
  - destruct i as [|i]; cbn in *.
    + injection Hi as ->. pose proof (sumZ_nonneg l Hl). lia.
    + specialize (IH i Hi). lia.
Qed.

(** *** Floors *)

Lemma Qfloor_fee (a : Z) : Qfloor ((99 # 100) * inject_Z a) = (a * 99) / 100.
Proof.
  unfold Qfloor, Qmult, inject_Z. cbn [Qnum Qden].
  f_equal. lia.
Qed.

Lemma Qfloor_share (pot a depNew : Z) :
  0 < depNew ->
  Qfloor (inject_Z pot * inject_Z a * (891 # 1000) / inject_Z depNew)
  = (pot * a * 891) / (depNew * 1000).
Proof.
  intros Hpos. destruct depNew as [|q|q]; try lia.
  assert (inject_Z pot * inject_Z a * (891 # 1000) / inject_Z (Z.pos q)
          == (pot * a * 891) # (q * 1000))%Q as E.
  { unfold Qeq, Qdiv, Qmult, Qinv, inject_Z. cbn [Qnum Qden].
    rewrite !Pos2Z.inj_mul. ring. }
  rewrite E. unfold Qfloor. now rewrite Pos2Z.inj_mul.
Qed.

(** ** Exactness *)

Lemma evForSquare_floor (d T a : Z) :
  0 < a -> 0 <= d -> d <= T ->
  evForSquare d T a = Ok {| S_win := S_win_spec d T a; EV := EV_spec d T a |}.
Proof.
  intros Ha Hd HT.
  rewrite evForSquare_nonzero by lia.
  unfold ev_value, EV_spec, S_win_spec. cbn zeta.
  rewrite Qfloor_fee, Qfloor_share by lia.
  assert (0 <= (T + a - (d + a)) * a * 891) as Hnum by nia.
  rewrite (Z.quot_div_nonneg (a * 99) 100) by lia.
  rewrite (Z.quot_div_nonneg ((T + a - (d + a)) * a * 891)) by lia.
  rewrite Z.quot_div_nonneg; [reflexivity | | lia].
  apply Z.add_nonneg_nonneg; apply Z.div_pos; lia.
Qed.

(** C2. For a stake [a > 0] and 25 nonnegative deployed amounts with total
    [T], the estimator returns for every square exactly
    [S_win = floor(0.99 a) + floor((totalNew - depNew) a 0.891 / depNew)] and
    [EV = -a + floor(S_win / 25)], with [totalNew = T + a] and
    [depNew = d_i + a]; the arithmetic is the unbounded integer arithmetic of
    BigInt, so nothing overflows. *)
Theorem estimateEV_exact (deployed : list Z) (T a : Z) :
  0 < a ->
  length deployed = 25%nat ->
  Forall (fun d => 0 <= d) deployed ->
  T = sumZ deployed ->
  (forall i d, nth_error deployed i = Some d ->
     evForSquare d T a = Ok {| S_win := S_win_spec d T a; EV := EV_spec d T a |}) /\
  estimateEV deployed T a = Ok (ev_entries_spec deployed T a).
Proof.
  intros Ha Hlen Hnn HT.
  assert (forall i d, nth_error deployed i = Some d ->
            evForSquare d T a = Ok {| S_win := S_win_spec d T a; EV := EV_spec d T a |})
    as Hsq.
  { intros i d Hi. apply evForSquare_floor; [exact Ha | | ].
    - rewrite Forall_forall in Hnn. apply Hnn. eapply nth_error_In. exact Hi.
    - subst T. eapply sumZ_ge_nth; eassumption. }
  split; [exact Hsq|].
  unfold estimateEV, ev_entries_spec. apply for_range_ok.
  intros i Hi. unfold evEntry.
  destruct (nth_error deployed i) as [d|] eqn:Ei.
  - rewrite (Hsq i d Ei). cbn [bind EV].
    now rewrite (nth_error_nth deployed i 0 Ei).
  - apply nth_error_None in Ei. lia.
Qed.

Lemma repeat_nonneg (n : nat) : Forall (fun d => 0 <= d) (repeat 0 n).
Proof.
  apply Forall_forall. intros x Hx. apply repeat_spec in Hx. lia.
Qed.

(** An empty board and a stake of 100: every square gets the same value. *)
Lemma estimateEV_exact_witness :
  estimateEV (repeat 0 25) 0 100 = Ok (ev_entries_spec (repeat 0 25) 0 100).
Proof.
  apply (estimateEV_exact (repeat 0 25) 0 100).
  - lia.
  - reflexivity.
  - apply repeat_nonneg.
  - reflexivity.
Defined.

(** The hypothesis that the total covers the square matters: BigInt division
    truncates toward zero, so a total below the square's own amount gives a
    share of [0] where the floor is [-1]. *)
Remark evForSquare_truncates_below_total :
  evForSquare 10 0 1 = Ok {| S_win := 0; EV := -1 |} /\ S_win_spec 10 0 1 = -1.
Proof. split; reflexivity. Qed.

(** ** Failures *)

Lemma estimateEV_succeeds_iff (deployed : list Z) (T a : Z) :
  succeeds (estimateEV deployed T a) <->
  (25 <= length deployed)%nat /\ forall i, (i < 25)%nat -> nth i deployed 0 + a <> 0.
Proof.
  unfold estimateEV. split.
  - intros Hs.
    assert (forall i, (i < 25)%nat -> succeeds (evEntry deployed T a i)) as Hi.
    { intros i Hi. apply (for_range_succeeds_inv _ 25 0 Hs). lia. }
    assert (25 <= length deployed)%nat as Hlen.
    { destruct (Hi 24%nat ltac:(lia)) as (r & E). unfold evEntry in E.
      destruct (nth_error deployed 24) eqn:E24; [|discriminate].
      assert (nth_error deployed 24 <> None) as Hn by congruence.
      apply nth_error_Some in Hn. lia. }
    split; [exact Hlen|].
    intros i Hlt Hz. destruct (Hi i Hlt) as (r & E). unfold evEntry in E.
    destruct (nth_error deployed i) as [d|] eqn:Ei; [|discriminate].
    rewrite (nth_error_nth deployed i 0 Ei) in Hz.
    rewrite (evForSquare_zero d T a Hz) in E. discriminate.
  - intros [Hlen Hnz].
    rewrite (for_range_ok _
      (fun i => {| idx0 := i; idx1 := i + 1;
                   entry_EV := EV (ev_value (nth i deployed 0) T a) |})).
    + now eexists.
    + intros i Hi. unfold evEntry.
      destruct (nth_error deployed i) as [d|] eqn:Ei.
      * rewrite (nth_error_nth deployed i 0 Ei) in *.
        pose proof (Hnz i ltac:(lia)) as Hd.
        rewrite (nth_error_nth deployed i 0 Ei) in Hd.
        rewrite (evForSquare_nonzero d T a Hd). reflexivity.
      * apply nth_error_None in Ei. lia.
Qed.

(** C5, as the code has it.  The estimator validates neither the stake nor
    the deployed sequence.  For one square it throws exactly when
    [d_i + a = 0], and what it throws is the engine's division-by-zero
    [RangeError]; every other call returns a value, whatever the signs of
    [a] and [d_i].  Over a sequence it succeeds exactly when the squares
    0..24 are all present and none has [d_i + a = 0]; entries past index 24
    are never read.  In particular it does not fail for [a > 0] and 25
    nonnegative entries. *)
Theorem estimateEV_no_validation (deployed : list Z) (d T a : Z) :
  (forall e, evForSquare d T a = Throw e <-> d + a = 0 /\ e = RangeErrorDivZero) /\
  (succeeds (evForSquare d T a) <-> d + a <> 0) /\
  (succeeds (estimateEV deployed T a) <->
     (25 <= length deployed)%nat /\
     forall i, (i < 25)%nat -> nth i deployed 0 + a <> 0) /\
  (0 < a -> length deployed = 25%nat -> Forall (fun d => 0 <= d) deployed ->
     succeeds (estimateEV deployed T a)).
Proof.
  split; [intros e; apply evForSquare_throws_iff|].
  split; [apply evForSquare_succeeds_iff|].
  split; [apply estimateEV_succeeds_iff|].
  intros Ha Hlen Hnn. apply estimateEV_succeeds_iff. split; [lia|].
  intros i Hi.
  assert (0 <= nth i deployed 0); [|lia].
  rewrite Forall_forall in Hnn. apply Hnn. apply nth_In. lia.
Qed.

(** C5, counterexample: a stake of zero, a negative stake, a sequence of 26
    entries and a negative entry are all accepted. *)
Lemma estimateEV_accepts_invalid_input :
  evForSquare 5 125 0 = Ok {| S_win := 0; EV := 0 |} /\
  succeeds (estimateEV (repeat 5 25) 125 0) /\
  succeeds (estimateEV (repeat 5 25) 125 (-1)) /\
  succeeds (estimateEV (repeat 0 26) 0 100) /\
  succeeds (estimateEV (-7 :: repeat 0 24) (-7) 100).
Proof.
  split; [reflexivity|].
  repeat split; eexists; vm_compute; reflexivity.
Qed.

Lemma estimateEV_no_validation_witness :
  succeeds (estimateEV (repeat 0 25) 0 100).
Proof.
  apply (estimateEV_no_validation (repeat 0 25) 0 0 100).
  - lia.
  - reflexivity.
  - apply repeat_nonneg.
Defined.

(** C10, as the code has it.  For a nonnegative deployed amount [d_i] and a
    stake [a > 0] every divisor of the computation ([100],
    [(d_i + a) * 1000] and [25]) is nonzero, so the computation returns.
    The division by zero is reached exactly when [a = - d_i]: among the
    nonnegative stakes only for [a = 0] and [d_i = 0], but also for a
    negative stake that cancels the deployed amount. *)
Theorem evForSquare_divisors (d T a : Z) :
  0 <= d ->
  (0 < a -> 0 < d + a /\ (d + a) * 1000 <> 0 /\ succeeds (evForSquare d T a)) /\
  (evForSquare d T a = Throw RangeErrorDivZero <-> a = - d) /\
  (0 <= a -> (evForSquare d T a = Throw RangeErrorDivZero <-> a = 0 /\ d = 0)).
Proof.
  intros Hd.
  pose proof (evForSquare_throws_iff d T a RangeErrorDivZero) as Hiff.
  split; [|split].
  - intros Ha. split; [lia|]. split; [lia|].
    apply evForSquare_succeeds_iff. lia.
  - split.
    + intros E. apply Hiff in E. lia.
    + intros ->. apply Hiff. split; [lia | reflexivity].
  - intros Ha. split.
    + intros E. apply Hiff in E. lia.
    + intros [-> ->]. reflexivity.
Qed.

(** C10, counterexample: with a deployed amount of 5 and a stake of -5 the
    divisor [(d_i + a) * 1000] is zero although neither amount is. *)
Lemma evForSquare_divides_by_zero_negative_stake :
  evForSquare 5 0 (-5) = Throw RangeErrorDivZero /\ -5 <> 0 /\ 5 <> 0.
Proof. repeat split; discriminate. Qed.

Lemma evForSquare_divisors_witness :
  succeeds (evForSquare 3 10 100) /\
  (evForSquare 0 0 0 = Throw RangeErrorDivZero <-> 0 = 0 /\ 0 = 0).
Proof.
  split.
  - apply (evForSquare_divisors 3 10 100); lia.
  - apply (evForSquare_divisors 0 0 0); lia.
Defined.

(** ** The ranking of the EVs *)

Lemma for_range_ascending (body : nat -> result EvEntry) (n start : nat) (xs : list EvEntry) :
  (forall i x, body i = Ok x -> idx0 x = i) ->
  for_range body start n = Ok xs ->
  StronglySorted (fun x y => (idx0 x < idx0 y)%nat) xs /\
  Forall (fun x => (start <= idx0 x)%nat) xs.
Proof.
  intros Hidx. revert start xs. induction n as [|n IH]; intros start xs E; cbn in E.
  - injection E as <-. split; constructor.
  - destruct (body start) as [x|e] eqn:Ex; [|discriminate]. cbn [bind] in E.
    destruct (for_range body (S start) n) as [ys|e] eqn:Ey; [|discriminate].
    injection E as <-. destruct (IH (S start) ys Ey) as [Hs Hb].
    apply Hidx in Ex. split; constructor.
    + exact Hs.
    + eapply Forall_impl; [|exact Hb]. cbn. intros; lia.
    + lia.
    + eapply Forall_impl; [|exact Hb]. cbn. intros; lia.
Qed.

Lemma estimateEV_ascending (deployed : list Z) (T a : Z) (results : list EvEntry) :
  estimateEV deployed T a = Ok results ->
  StronglySorted (fun x y => (idx0 x < idx0 y)%nat) results.
Proof.
  intros E. apply (for_range_ascending (evEntry deployed T a) 25 0 results); [|exact E].
  intros i x Hx. unfold evEntry in Hx.
  destruct (nth_error deployed i); [|discriminate].
  destruct (evForSquare z T a); [|discriminate].
  cbn [bind] in Hx. injection Hx as <-. reflexivity.
Qed.

(** The sort of [main] ranks entries that come in ascending square order by
    descending EV, a tie going to the smaller square index. *)
Lemma rankEV_ranked (results : list EvEntry) :
  StronglySorted (fun x y => (idx0 x < idx0 y)%nat) results ->
  Permutation (rankEV results) results /\
  StronglySorted ev_ranked_before (rankEV results).
Proof.
  intros Hasc. split; [apply sort_list_perm|].
  apply (sort_list_sorted ev_ranks_after (fun _ => True)
           (fun x y => (idx0 x < idx0 y)%nat) ev_ranked_before).
  - unfold ev_ranked_before. intros x y z _ _ _ Hxy Hyz. lia.
  - unfold ev_ranked_before, ev_ranks_after. intros x y _ _ H.
    apply Z.gtb_lt in H. lia.
  - unfold ev_ranked_before, ev_ranks_after. intros x y _ _ Hidx H.
    destruct (Z.gtb_spec (entry_EV y - entry_EV x) 0); [discriminate | lia].
  - apply Forall_forall. trivial.
  - exact Hasc.
Qed.

End EvPicksProps.

(** * Properties of the posterior estimator and of the ranker *)

Module SmartPicksProps.

Import SmartPicks JSArrayProps.

(** ** Traces in binary64 *)

(** C3, failing input.  The anti-streak stage tests [Number.isInteger]
    only, where the counting loop also tests [0 <= idx0 < N].  For a history
    whose most recent entry carries the block number 30, [probs[30] *= 0.6]
    writes NaN past the end of the array: the sum is NaN, the renormalization
    falls back to [1 / N] for every element, and the result has 31 slots, of
    which 26 hold [0.04]; its elements sum to [1.04]. *)
Theorem priors64_out_of_range_index :
  priors64 (one_round (IntVal 30))
  = repeat (Some 0.04%float) 25 ++ repeat None 5 ++ [Some 0.04%float] /\
  length (priors64 (one_round (IntVal 30))) = 31%nat /\
  total (priors64 (one_round (IntVal 30))) = 1.0400000000000003%float /\
  PrimFloat.ltb (1 + 0.000000001)%float (total (priors64 (one_round (IntVal 30)))) = true.
Proof. repeat split; vm_compute; reflexivity. Qed.

(** C8, failing input (the defect is the one of C3).  A most recent entry
    with the block number 25 is not ignored: the result differs, in length
    and in every element, from the result on the history in which that
    entry contributes nothing. *)
Theorem priors64_out_of_range_not_ignored :
  priors64 (one_round (IntVal 25)) = repeat (Some 0.04%float) 26 /\
  priors64 (map neutralise (one_round (IntVal 25)))
  = repeat (Some 0.039999999999999994%float) 25 /\
  priors64 (one_round (IntVal 25)) <> priors64 (map neutralise (one_round (IntVal 25))).
Proof.
  assert (priors64 (one_round (IntVal 25)) = repeat (Some 0.04%float) 26) as E1
    by (vm_compute; reflexivity).
  assert (priors64 (map neutralise (one_round (IntVal 25)))
          = repeat (Some 0.039999999999999994%float) 25) as E2
    by (vm_compute; reflexivity).
  split; [exact E1|]. split; [exact E2|].
  rewrite E1, E2. intros E. apply (f_equal (@length _)) in E. discriminate.
Qed.

(** C6, counterexample: on the empty history with the default options every
    entry is [0.039999999999999994], the binary64 number just below
    [1 / 25 = 0.04]: the 25 terms [0.04] add up to [1.0000000000000002]. *)
Lemma priors64_empty_history_rounds :
  priors64 [] = repeat (Some 0.039999999999999994%float) 25 /\
  (1 / 25)%float = 0.04%float /\
  PrimFloat.eqb 0.039999999999999994%float (1 / 25)%float = false /\
  total (repeat (Some 0.04%float) 25) = 1.0000000000000002%float.
Proof. repeat split; vm_compute; reflexivity. Qed.

(** C7, counterexample.  Square 5 won the only round of the history: its
    output is [0.0476...], and with that win removed the history is empty
    and the output is [0.0399...], which is lower, not higher.  The same
    with a window of one round that stays full: after square 7 in round 1,
    square 5 wins round 2; without that win the window holds round 1 and the
    output for square 5 is [0.0396...]. *)
Lemma priors64_recent_win_not_lower :
  nth 5 (priors64 (one_round (IntVal 5))) None = Some 0.047619047619047644%float /\
  nth 5 (priors64 []) None = Some 0.039999999999999994%float /\
  PrimFloat.ltb 0.047619047619047644%float 0.039999999999999994%float = false /\
  nth 5 (dirichletTimeDecayedPriors Math_pow_fixed
           [ {| round := 1; blockNumber := IntVal 7 |};
             {| round := 2; blockNumber := IntVal 5 |} ] window_of_one) None
  = Some 0.047619047619047644%float /\
  nth 5 (dirichletTimeDecayedPriors Math_pow_fixed
           [ {| round := 1; blockNumber := IntVal 7 |} ] window_of_one) None
  = Some 0.039682539682539701%float /\
  PrimFloat.ltb 0.047619047619047644%float 0.039682539682539701%float = false.
Proof. repeat split; vm_compute; reflexivity. Qed.

(** ** The empty history *)

Lemma window_nil (maxRounds : Z) : window [] maxRounds = [].
Proof.
  unfold window, JSArray.slice0. cbn [JSArray.sort_list fold_right length].
  destruct (maxRounds <? 0); apply firstn_nil.
Qed.

Section EmptyHistory.

Context {num : Type} {NUM : JSNumber num}.
Variable Math_pow : num -> num -> num.

(** With no entry in the window neither multiplier is applied. *)
Lemma antiStreak_nil (probs : JSArray.t num) : antiStreak [] probs = probs.
Proof. reflexivity. Qed.

Lemma priors_nil (options : Options num) :
  dirichletTimeDecayedPriors Math_pow [] options
  = repeat (Some (empty_history_entry (nullish (opt_alpha options) (num_of_nat 1)))) 25.
Proof.
  unfold dirichletTimeDecayedPriors. cbn zeta. rewrite window_nil.
  rewrite antiStreak_nil.
  unfold posteriorMean, renormalize. cbn zeta.
  cbn [weights_of length seq List.map count_loop].
  rewrite !map_repeat. reflexivity.
Qed.

End EmptyHistory.

(** *** In exact arithmetic *)

Lemma reduce_repeat_Fin (x i : Q) (n : nat) :
  exists t : Q,
    JSArray.reduce xadd (Fin i) (repeat (Some (Fin x)) n) = Fin t /\
    (t == i + inject_Z (Z.of_nat n) * x)%Q.
Proof.
  revert i. induction n as [|n IH]; intros i.
  - exists i. split; [reflexivity|]. cbn. ring.
  - destruct (IH (i + x)%Q) as (t & E & Ht).
    exists t. split; [exact E|].
    rewrite Ht, Nat2Z.inj_succ. unfold Z.succ. rewrite inject_Z_plus. ring.
Qed.

Lemma reduce_repeat_NaN (i : xrat) (n : nat) :
  JSArray.reduce xadd i (repeat (Some XNaN) (S n)) = XNaN.
Proof.
  cbn. assert (xadd i XNaN = XNaN) as -> by (destruct i; reflexivity).
  induction n as [|n IH]; [reflexivity | exact IH].
Qed.

(** On the empty history the posterior mean is a rational or NaN, never an
    infinity. *)
Lemma empty_history_mean (alpha : xrat) (W : Q) :
  (W == 0)%Q ->
  (exists x, xdiv (xadd alpha (Fin (inject_Z 0)))
                  (xadd (xmul (Fin (inject_Z 25)) alpha) (Fin W)) = Fin x) \/
  xdiv (xadd alpha (Fin (inject_Z 0)))
       (xadd (xmul (Fin (inject_Z 25)) alpha) (Fin W)) = XNaN.
Proof.
  intros HW. destruct alpha as [a| | |]; cbn; try (right; reflexivity).
  destruct (Qeq_bool (inject_Z 25 * a + W) 0) eqn:Ez.
  - right. apply Qeq_bool_iff in Ez.
    assert (a + inject_Z 0 == 0)%Q as Ha.
    { rewrite HW in Ez. change (inject_Z 0) with 0%Q.
      assert (inject_Z 25 == 25)%Q as E25 by reflexivity.
      rewrite E25 in Ez. lra. }
    apply Qeq_alt in Ha. now rewrite Ha.
  - left. eexists. reflexivity.
Qed.

Lemma empty_history_entry_exact (alpha : xrat) :
  exists q : Q, empty_history_entry alpha = Fin q /\ (q == 1 # 25)%Q.
Proof.
  unfold empty_history_entry. cbn zeta.
  change (@num_of_nat xrat _ 0) with (Fin (inject_Z 0)).
  change (@num_of_nat xrat _ 1) with (Fin (inject_Z 1)).
  change (@num_of_nat xrat _ N) with (Fin (inject_Z 25)).
  change (@num_add xrat _) with xadd. change (@num_mul xrat _) with xmul.
  change (@num_div xrat _) with xdiv. change (@num_gt xrat _) with xgt.
  destruct (reduce_repeat_Fin (inject_Z 0) (inject_Z 0) N) as (W & -> & HW).
  assert (W == 0)%Q as HW0 by (rewrite HW; reflexivity).
  assert (exists q, xdiv (Fin (inject_Z 1)) (Fin (inject_Z 25)) = Fin q /\ (q == 1 # 25)%Q)
    as Hfallback.
  { eexists. split; [reflexivity|]. reflexivity. }
  destruct (empty_history_mean alpha W HW0) as [(x & ->) | ->].
  - destruct (reduce_repeat_Fin x (inject_Z 0) N) as (s & -> & Hs).
    change (inject_Z (Z.of_nat N)) with (inject_Z 25) in Hs.
    assert (s == 25 * x)%Q as Hs' by (rewrite Hs; unfold inject_Z; ring).
    cbn [xgt xdiv].
    destruct (Qle_bool s (inject_Z 0)) eqn:Ele; cbn [negb]; [exact Hfallback|].
    assert (0 < s)%Q as Hpos.
    { destruct (Qlt_le_dec 0 s) as [H|H]; [exact H|].
      apply Qle_bool_iff in H. change (inject_Z 0) with 0%Q in Ele. congruence. }
    assert (Qeq_bool s 0 = false) as ->.
    { destruct (Qeq_bool s 0) eqn:E; [|reflexivity].
      apply Qeq_bool_iff in E. lra. }
    eexists. split; [reflexivity|].
    rewrite Hs'. field. lra.
  - change N with (S 24). rewrite reduce_repeat_NaN. exact Hfallback.
Qed.

(** C6, as the code has it.  On the empty history no anti-streak multiplier
    is applied and the 25 entries are one and the same number, whatever the
    options and whatever the arithmetic.  In exact arithmetic that number is
    [1 / 25] for every [alpha] (finite or not, zero included); in binary64 it
    is [1 / 25] up to rounding, and for the default [alpha] it is the number
    just below [0.04]. *)
Theorem priors_empty_history :
  (forall (num : Type) (NUM : JSNumber num) (pow : num -> num -> num)
          (options : Options num),
     (forall probs : JSArray.t num, antiStreak [] probs = probs) /\
     exists v : num, dirichletTimeDecayedPriors pow [] options = repeat (Some v) 25) /\
  (forall (pow : xrat -> xrat -> xrat) (options : Options xrat),
     exists q : Q,
       (q == 1 # 25)%Q /\
       dirichletTimeDecayedPriors pow [] options = repeat (Some (Fin q)) 25) /\
  dirichletTimeDecayedPriors Math_pow_fixed [] (@no_options float)
  = repeat (Some (PrimFloat.next_down (1 / 25)%float)) 25.
Proof.
  split; [|split].
  - intros num NUM pow options. split; [intros probs; apply antiStreak_nil|].
    eexists. apply priors_nil.
  - intros pow options.
    destruct (empty_history_entry_exact (nullish (opt_alpha options) (num_of_nat 1)))
      as (q & E & Hq).
    exists q. split; [exact Hq|]. rewrite priors_nil, E. reflexivity.
  - vm_compute. reflexivity.
Qed.

(** ** Arrays of rationals

    On arrays whose elements are all finite the estimator computes with
    rationals; [fin_array] embeds a list of rationals as such an array. *)

Ltac xrat_ops :=
  cbn [num_add num_sub num_mul num_div num_neg num_gt num_of_nat num_NaN
       num_0_6 num_0_8 xrat_JSNumber] in *.

Lemma length_fin_array (l : list Q) : length (fin_array l) = length l.
Proof. apply length_map. Qed.

Lemma nth_fin_array (l : list Q) (i : nat) :
  (i < length l)%nat -> nth i (fin_array l) None = Some (Fin (nth i l 0%Q)).
Proof.
  revert i. induction l as [|x l IH]; intros i Hi; cbn in Hi; [lia|].
  destruct i as [|i]; [reflexivity|]. cbn. apply IH. lia.
Qed.

Lemma reduce_fin (l : list Q) (i : Q) :
  JSArray.reduce xadd (Fin i) (fin_array l) = Fin (fold_left Qplus l i).
Proof.
  revert i. induction l as [|x l IH]; intros i; [reflexivity|].
  cbn. apply IH.
Qed.

Lemma fold_left_sumQ (l : list Q) (i : Q) : (fold_left Qplus l i == i + sumQ l)%Q.
Proof.
  revert i. induction l as [|x l IH]; intros i; cbn.
  - ring.
  - rewrite IH. ring.
Qed.

Lemma map_fin (f : xrat -> xrat) (g : Q -> Q) (l : list Q) :
  (forall q, In q l -> f (Fin q) = Fin (g q)) ->
  JSArray.map f (fin_array l) = fin_array (List.map g l).
Proof.
  induction l as [|x l IH]; intros H; [reflexivity|].
  cbn. rewrite H by now left. f_equal. apply IH. intros q Hq. apply H. now right.
Qed.

Lemma sumQ_set_nth (l : list Q) (i : nat) (v : Q) :
  (i < length l)%nat ->
  (sumQ (JSArray.set_nth l i v) == sumQ l - nth i l 0 + v)%Q.
Proof.
  revert i. induction l as [|y l IH]; intros i Hi; cbn in Hi; [lia|].
  destruct i as [|i]; cbn.
  - ring.
  - rewrite IH by lia. ring.
Qed.

Lemma fin_array_set_nth (l : list Q) (i : nat) (v : Q) :
  JSArray.set_nth (fin_array l) i (Some (Fin v)) = fin_array (JSArray.set_nth l i v).
Proof.
  revert i. induction l as [|y l IH]; intros i; [reflexivity|].
  destruct i; cbn; [reflexivity | now rewrite IH].
Qed.

(** A compound assignment inside the array stays inside the rationals. *)
Lemma update_fin (op : xrat -> xrat -> xrat) (opq : Q -> Q -> Q) (l : list Q)
  (k : Z) (c : Q) :
  (forall v, op (Fin v) (Fin c) = Fin (opq v c)) ->
  0 <= k < Z.of_nat (length l) -> k <= 4294967294 ->
  JSArray.update (fin_array l) k (compound op (Fin c))
  = fin_array (JSArray.set_nth l (Z.to_nat k) (opq (nth (Z.to_nat k) l 0%Q) c)).
Proof.
  intros Hop Hk Hmax. unfold JSArray.update, JSArray.is_array_index.
  replace (0 <=? k) with true by (symmetry; apply Z.leb_le; lia).
  replace (k <=? 4294967294) with true by (symmetry; apply Z.leb_le; lia).
  cbn [andb]. rewrite length_fin_array.
  replace (Z.to_nat k <? length l)%nat with true by (symmetry; apply Nat.ltb_lt; lia).
  rewrite nth_fin_array by lia. cbn [compound].
  rewrite Hop. apply fin_array_set_nth.
Qed.

Lemma Forall_nth_Q (P : Q -> Prop) (l : list Q) (i : nat) :
  Forall P l -> (i < length l)%nat -> P (nth i l 0%Q).
Proof.
  intros Hl Hi. rewrite Forall_forall in Hl. apply Hl. now apply nth_In.
Qed.

(** ** The posterior mean in exact arithmetic *)

Lemma sumQ_nonneg (l : list Q) : Forall (fun q => 0 <= q)%Q l -> (0 <= sumQ l)%Q.
Proof.
  induction 1 as [|x l Hx _ IH]; cbn; lra.
Qed.

Lemma sumQ_pos (l : list Q) : Forall (fun q => 0 < q)%Q l -> l <> [] -> (0 < sumQ l)%Q.
Proof.
  intros Hl Hne. destruct Hl as [|x l Hx Hl]; [congruence|].
  cbn. assert (0 <= sumQ l)%Q; [|lra].
  apply sumQ_nonneg. eapply Forall_impl; [|exact Hl]. cbn. intros; lra.
Qed.

Lemma weights_fin (pow : xrat -> xrat -> xrat) (sorted : list WinnerRecord) (h : Q) :
  pow_positive pow -> ~ (h == 0)%Q ->
  exists wq : list Q,
    weights_of pow sorted (Fin h) = List.map Fin wq /\
    Forall (fun q => 0 < q)%Q wq.
Proof.
  intros Hpow Hh. unfold weights_of.
  assert (forall i : nat, exists q : Q,
            pow (num_of_nat 2) (num_div (num_neg (num_of_nat i)) (Fin h)) = Fin q /\
            (0 < q)%Q) as Hw.
  { intros i. xrat_ops. cbn [xneg xdiv].
    assert (Qeq_bool h 0 = false) as ->.
    { destruct (Qeq_bool h 0) eqn:Ez; [|reflexivity].
      apply Qeq_bool_iff in Ez. contradiction. }
    apply Hpow. }
  generalize (seq 0 (length sorted)) as idxs.
  induction idxs as [|i idxs (wq & E & Hwq)].
  - exists []. split; [reflexivity | constructor].
  - destruct (Hw i) as (q & Eq & Hq).
    exists (q :: wq). split.
    + cbn [List.map]. rewrite Eq. f_equal. exact E.
    + now constructor.
Qed.

Lemma count_loop_fin (sorted : list WinnerRecord) (wq cs : list Q) :
  Forall (fun q => 0 < q)%Q wq ->
  Forall (fun q => 0 <= q)%Q cs -> length cs = 25%nat ->
  exists cs' : list Q,
    count_loop sorted (List.map Fin wq) (fin_array cs) = fin_array cs' /\
    Forall (fun q => 0 <= q)%Q cs' /\ length cs' = 25%nat.
Proof.
  revert wq cs. induction sorted as [|e sorted IH]; intros wq cs Hwq Hcs Hlen.
  - exists cs. now repeat split.
  - destruct Hwq as [|w wq Hw Hwq].
    + exists cs. now repeat split.
    + cbn [count_loop List.map].
      destruct (blockNumber e) as [idx0|]; [|now apply IH].
      destruct ((0 <=? idx0) && (idx0 <? Z.of_nat N)) eqn:Erange; [|now apply IH].
      apply andb_prop in Erange. destruct Erange as [H0 H25].
      apply Z.leb_le in H0. apply Z.ltb_lt in H25. change (Z.of_nat N) with 25 in H25.
      xrat_ops.
      rewrite (update_fin xadd Qplus cs idx0 w) by (try reflexivity; lia).
      apply IH; [exact Hwq | | now rewrite length_set_nth].
      apply Forall_set_nth; [exact Hcs|].
      pose proof (Forall_nth_Q _ cs (Z.to_nat idx0) Hcs ltac:(lia)) as Hn.
      cbn in Hn. lra.
Qed.

Lemma repeat_fin (q : Q) (n : nat) : repeat (Some (Fin q)) n = fin_array (repeat q n).
Proof.
  induction n as [|n IH]; [reflexivity|]. cbn. now rewrite IH.
Qed.

(** For a positive [alpha] and a nonzero half-life the posterior mean is an
    array of 25 positive rationals. *)
Lemma posteriorMean_fin (pow : xrat -> xrat -> xrat) (sorted : list WinnerRecord) (a h : Q) :
  pow_positive pow -> (0 < a)%Q -> ~ (h == 0)%Q ->
  exists P : list Q,
    posteriorMean pow sorted (Fin a) (Fin h) = fin_array P /\
    Forall (fun q => 0 < q)%Q P /\ length P = 25%nat.
Proof.
  intros Hpow Ha Hh. unfold posteriorMean. cbn zeta.
  destruct (weights_fin pow sorted h Hpow Hh) as (wq & -> & Hwq).
  xrat_ops. change (Z.of_nat 0) with 0. rewrite repeat_fin.
  destruct (count_loop_fin sorted wq (repeat (inject_Z 0) N) Hwq) as (cs & -> & Hcs & Hlen).
  { apply Forall_forall. intros x Hx. apply repeat_spec in Hx. subst x. apply Qle_refl. }
  { apply repeat_length. }
  rewrite reduce_fin.
  pose proof (fold_left_sumQ cs (inject_Z 0)) as HW.
  pose proof (sumQ_nonneg cs Hcs) as HWnn.
  set (W := fold_left Qplus cs (inject_Z 0)) in *.
  assert (0 <= W)%Q as HW0 by (rewrite HW; change (inject_Z 0) with 0%Q; lra).
  assert (0 < inject_Z (Z.of_nat N) * a + W)%Q as Hden.
  { change (inject_Z (Z.of_nat N)) with 25%Q. lra. }
  exists (List.map (fun w => (a + w) / (inject_Z (Z.of_nat N) * a + W))%Q cs).
  split; [|split].
  - apply map_fin. intros q _. cbn [xadd xmul xdiv].
    assert (Qeq_bool (inject_Z (Z.of_nat N) * a + W) 0 = false) as ->; [|reflexivity].
    destruct (Qeq_bool _ 0) eqn:Ez; [|reflexivity]. apply Qeq_bool_iff in Ez. lra.
  - apply Forall_forall. intros p Hp. apply in_map_iff in Hp.
    destruct Hp as (w & <- & Hw).
    rewrite Forall_forall in Hcs. specialize (Hcs w Hw). cbn in Hcs.
    apply Qlt_shift_div_l; [exact Hden | lra].
  - now rewrite length_map.
Qed.

(** Renormalizing positive rationals divides each by their sum. *)
Lemma renormalize_fin (Y : list Q) :
  Forall (fun q => 0 < q)%Q Y -> Y <> [] ->
  renormalize (fin_array Y)
  = fin_array (List.map (fun p => p / fold_left Qplus Y (inject_Z 0))%Q Y).
Proof.
  intros HY Hne. unfold renormalize. cbn zeta. xrat_ops.
  change (Z.of_nat 0) with 0. rewrite reduce_fin.
  pose proof (fold_left_sumQ Y (inject_Z 0)) as HS.
  pose proof (sumQ_pos Y HY Hne) as Hpos.
  set (S := fold_left Qplus Y (inject_Z 0)) in *.
  assert (0 < S)%Q as HS0 by (rewrite HS; change (inject_Z 0) with 0%Q; lra).
  apply map_fin. intros q _. cbn [xgt xdiv].
  assert (Qle_bool S (inject_Z 0) = false) as ->.
  { destruct (Qle_bool S (inject_Z 0)) eqn:E; [|reflexivity].
    apply Qle_bool_iff in E. change (inject_Z 0) with 0%Q in E. lra. }
  assert (Qeq_bool S 0 = false) as ->; [|reflexivity].
  destruct (Qeq_bool S 0) eqn:E; [|reflexivity]. apply Qeq_bool_iff in E. lra.
Qed.

(** ** The anti-streak multiplier *)

Lemma penalise_fin (b : BlockNumber) (c : Q) (l : list Q) :
  length l = 25%nat -> no_stray_write b ->
  penalise b (Fin c) (fin_array l) = fin_array (pen b c l).
Proof.
  intros Hlen Hb. destruct b as [k|]; [|reflexivity].
  cbn [penalise pen]. xrat_ops.
  destruct (Z.leb_spec 0 k) as [H0|H0], (Z.ltb_spec k 25) as [H25|H25]; cbn [andb].
  - apply (update_fin xmul Qmult); [reflexivity | lia | lia].
  - cbn in Hb. apply update_not_index. lia.
  - apply update_not_index. lia.
  - apply update_not_index. lia.
Qed.

Lemma length_scale (l : list Q) (i : nat) (c : Q) : length (scale l i c) = length l.
Proof. apply length_set_nth. Qed.

Lemma length_pen (b : BlockNumber) (c : Q) (l : list Q) : length (pen b c l) = length l.
Proof.
  destruct b as [k|]; [|reflexivity]. cbn.
  destruct ((0 <=? k) && (k <? 25)); [apply length_scale | reflexivity].
Qed.

Lemma scale_pos (l : list Q) (i : nat) (c : Q) :
  (0 < c)%Q -> (i < length l)%nat ->
  Forall (fun q => 0 < q)%Q l -> Forall (fun q => 0 < q)%Q (scale l i c).
Proof.
  intros Hc Hi Hl. apply Forall_set_nth; [exact Hl|].
  pose proof (Forall_nth_Q _ l i Hl Hi) as Hn. cbn in Hn.
  apply Qmult_lt_0_compat; assumption.
Qed.

Lemma pen_pos (b : BlockNumber) (c : Q) (l : list Q) :
  (0 < c)%Q -> length l = 25%nat ->
  Forall (fun q => 0 < q)%Q l -> Forall (fun q => 0 < q)%Q (pen b c l).
Proof.
  intros Hc Hlen Hl. destruct b as [k|]; [|exact Hl]. cbn.
  destruct (Z.leb_spec 0 k), (Z.ltb_spec k 25); cbn [andb]; try exact Hl.
  apply scale_pos; [exact Hc | lia | exact Hl].
Qed.

Lemma nth_map_Q (g : Q -> Q) (l : list Q) (i : nat) :
  (i < length l)%nat -> nth i (List.map g l) 0%Q = g (nth i l 0%Q).
Proof.
  intros Hi. rewrite (nth_indep _ 0%Q (g 0%Q)) by now rewrite length_map.
  apply map_nth.
Qed.

(** The same history in exact arithmetic: the recent winner gets [1 / 21],
    against [1 / 25] on the history without that win. *)
Remark recent_win_exact_values :
  exists x : Q,
    nth 5 (dirichletTimeDecayedPriors pow_one (one_round (IntVal 5)) no_options) None
    = Some (Fin x) /\ (x == 1 # 21)%Q /\ (1 # 25 < 1 # 21)%Q.
Proof.
  eexists. split; [vm_compute; reflexivity|]. split; reflexivity.
Qed.

(** ** The ranker *)

Lemma ranked_before_trans (x y z : Pick xrat) :
  finite_pick x -> finite_pick y -> finite_pick z ->
  ranked_before x y -> ranked_before y z -> ranked_before x z.
Proof.
  intros _ _ _ (qx & qy & Ex & Ey & Hxy) (qy' & qz & Ey' & Ez & Hyz).
  rewrite Ey in Ey'. injection Ey' as <-.
  exists qx, qz. repeat split; try assumption.
  destruct Hxy as [Hxy|[Hxy Ixy]], Hyz as [Hyz|[Hyz Iyz]].
  - left. lra.
  - left. lra.
  - left. lra.
  - right. split; [lra | lia].
Qed.

Lemma ranks_after_true (x y : Pick xrat) :
  finite_pick x -> finite_pick y -> ranks_after x y = true -> ranked_before y x.
Proof.
  intros (qx & Ex) (qy & Ey) H. unfold ranks_after in H. xrat_ops.
  rewrite Ex, Ey in H. cbn [xsub xneg xadd xgt] in H.
  exists qy, qx. repeat split; try assumption. left.
  destruct (Qle_bool (qy + - qx) (inject_Z (Z.of_nat 0))) eqn:E; [discriminate|].
  destruct (Qlt_le_dec qx qy) as [Hlt|Hle]; [exact Hlt|].
  assert (qy + - qx <= inject_Z (Z.of_nat 0))%Q as Hc.
  { change (inject_Z (Z.of_nat 0)) with 0%Q. lra. }
  apply Qle_bool_iff in Hc. congruence.
Qed.

Lemma ranks_after_false (x y : Pick xrat) :
  finite_pick x -> finite_pick y -> lower_index x y ->
  ranks_after x y = false -> ranked_before x y.
Proof.
  intros (qx & Ex) (qy & Ey) Hidx H. unfold ranks_after in H. xrat_ops.
  rewrite Ex, Ey in H. cbn [xsub xneg xadd xgt] in H.
  exists qx, qy. repeat split; try assumption.
  destruct (Qle_bool (qy + - qx) (inject_Z (Z.of_nat 0))) eqn:E; [|discriminate].
  apply Qle_bool_iff in E. change (inject_Z (Z.of_nat 0)) with 0%Q in E.
  destruct (Qlt_le_dec qy qx) as [Hlt|Hle]; [left; exact Hlt|].
  right. split; [lra | exact Hidx].
Qed.

Lemma indexed_from_finite (start : nat) (v : list Q) :
  Forall finite_pick (indexed_from start v).
Proof.
  revert start. induction v as [|q v IH]; intros start; cbn; constructor.
  - now exists q.
  - apply IH.
Qed.

Lemma indexed_from_lower_bound (start : nat) (v : list Q) :
  Forall (fun x => (start <= index0 x)%nat) (indexed_from start v).
Proof.
  revert start. induction v as [|q v IH]; intros start; cbn; constructor.
  - cbn. lia.
  - eapply Forall_impl; [|apply IH]. cbn. intros; lia.
Qed.

Lemma indexed_from_sorted (start : nat) (v : list Q) :
  StronglySorted lower_index (indexed_from start v).
Proof.
  revert start. induction v as [|q v IH]; intros start; cbn; constructor.
  - apply IH.
  - eapply Forall_impl; [|apply indexed_from_lower_bound].
    unfold lower_index. cbn. intros; lia.
Qed.

Lemma mapi_indexed (v : list Q) (start : nat) :
  List.map
    (fun ix : nat * option xrat =>
       option_map (fun x => {| index0 := fst ix; index1 := fst ix + 1; p := x |}) (snd ix))
    (combine (seq start (length v)) (fin_array v))
  = JSArray.dense (indexed_from start v).
Proof.
  revert start. induction v as [|q v IH]; intros start; [reflexivity|].
  cbn. f_equal. apply IH.
Qed.

Lemma length_indexed_from (start : nat) (v : list Q) :
  length (indexed_from start v) = length v.
Proof.
  revert start. induction v as [|q v IH]; intros start; [reflexivity|].
  cbn. now rewrite IH.
Qed.

(** For a vector of finite values and [n] not above its length, [topN]
    returns [n] pairs of a square index and its value that head the ranking
    of all the pairs: together with the pairs left out they are a
    permutation of the vector's pairs, sorted descending by value, an entry
    of equal value and smaller index coming first. *)
Lemma topN_finite_ranked (v : list Q) (n : nat) :
  (n <= length v)%nat ->
  exists picks rest : list (Pick xrat),
    topN (fin_array v) (Z.of_nat n) = JSArray.dense picks /\
    length picks = n /\
    Permutation (picks ++ rest) (indexed_from 0 v) /\
    StronglySorted ranked_before (picks ++ rest).
Proof.
  intros Hn. unfold topN. cbn zeta.
  unfold JSArray.mapi. rewrite length_fin_array, mapi_indexed.
  unfold JSArray.sort. rewrite elements_dense, length_dense, Nat.sub_diag.
  cbn [repeat]. rewrite app_nil_r.
  set (ranking := JSArray.sort_list ranks_after (indexed_from 0 v)).
  assert (length ranking = length v) as Hlen.
  { subst ranking. rewrite (Permutation_length (sort_list_perm _ _)).
    apply length_indexed_from. }
  exists (firstn n ranking), (skipn n ranking).
  split; [|split; [|split]].
  - unfold JSArray.slice0, JSArray.dense.
    destruct (Z.ltb_spec (Z.of_nat n) 0); [lia|].
    rewrite Nat2Z.id. apply firstn_map.
  - rewrite length_firstn. lia.
  - rewrite firstn_skipn. apply sort_list_perm.
  - rewrite firstn_skipn.
    apply (sort_list_sorted ranks_after finite_pick lower_index ranked_before).
    + exact ranked_before_trans.
    + exact ranks_after_true.
    + exact ranks_after_false.
    + apply indexed_from_finite.
    + apply indexed_from_sorted.
Qed.

Lemma sort_listM_throws {A : Type} (after : A -> A -> result bool) (e : exn) (l : list A) :
  (forall x y, after x y = Throw e) -> (2 <= length l)%nat ->
  JSArray.sort_listM after l = Throw e.
Proof.
  intros Hafter. induction l as [|x l IH]; intros Hlen; cbn in Hlen; [lia|].
  cbn [JSArray.sort_listM].
  destruct l as [|y [|z l]].
  - cbn in Hlen. lia.
  - cbn. now rewrite Hafter.
  - rewrite IH by (cbn; lia). reflexivity.
Qed.

(** C9, as the code has it.  For every vector of finite Numbers, which is
    what a probability vector is, and every [n] not above its length, [topN]
    returns the [n] pairs of a square index and its value that head the
    ranking: descending by value, an entry of equal value and smaller index
    first; the result is determined by the vector.  The EVs of this
    repository are BigInts: on a vector of two or more of them [topN] throws
    a [TypeError], and the EV script ranks its entries with a sort of its
    own, which obeys the same order. *)
Theorem ranking_order :
  (forall (v : list Q) (n : nat),
     (n <= length v)%nat ->
     exists picks rest : list (Pick xrat),
       topN (fin_array v) (Z.of_nat n) = JSArray.dense picks /\
       length picks = n /\
       Permutation (picks ++ rest) (indexed_from 0 v) /\
       StronglySorted ranked_before (picks ++ rest)) /\
  (forall (evs : list Z) (n : Z),
     (2 <= length evs)%nat -> topN_bigint evs n = Throw TypeErrorBigIntToNumber) /\
  (forall (deployed : list Z) (T a : Z) (results : list EvPicks.EvEntry),
     EvPicks.estimateEV deployed T a = Ok results ->
     Permutation (EvPicks.rankEV results) results /\
     StronglySorted EvPicks.ev_ranked_before (EvPicks.rankEV results)).
Proof.
  split; [exact topN_finite_ranked|]. split.
  - intros evs n Hlen. unfold topN_bigint. cbn zeta.
    rewrite (sort_listM_throws bigint_ranks_after TypeErrorBigIntToNumber);
      [reflexivity | reflexivity |].
    now rewrite length_map, length_combine, length_seq, Nat.min_id.
  - intros deployed T a results E.
    apply EvPicksProps.rankEV_ranked. eapply EvPicksProps.estimateEV_ascending. exact E.
Qed.

(** Three squares of equal value and one above them: the tie is broken by
    the index. *)
Lemma ranking_order_witness :
  exists picks rest : list (Pick xrat),
    topN (fin_array [1 # 25; 1 # 25; 1 # 21; 1 # 25]%Q) (Z.of_nat 3) = JSArray.dense picks /\
    length picks = 3%nat /\
    Permutation (picks ++ rest) (indexed_from 0 [1 # 25; 1 # 25; 1 # 21; 1 # 25]%Q) /\
    StronglySorted ranked_before (picks ++ rest).
Proof.
  apply (proj1 ranking_order [1 # 25; 1 # 25; 1 # 21; 1 # 25]%Q 3%nat). cbn. lia.
Defined.

(** C9, counterexample: [topN] applied to the EV vector [[3n, 5n]] throws. *)
Lemma topN_throws_on_bigint_vector :
  topN_bigint [3; 5] 1 = Throw TypeErrorBigIntToNumber.
Proof. reflexivity. Qed.

Example topN_tie_broken_by_index :
  topN (fin_array [1 # 25; 1 # 25; 1 # 21; 1 # 25]%Q) 3
  = JSArray.dense [ {| index0 := 2; index1 := 3; p := Fin (1 # 21) |};
                    {| index0 := 0; index1 := 1; p := Fin (1 # 25) |};
                    {| index0 := 1; index1 := 2; p := Fin (1 # 25) |} ].
Proof. reflexivity. Qed.

(** ** Entries that are ignored *)

Lemma round_neutralise (e : WinnerRecord) : round (neutralise e) = round e.
Proof.
  unfold neutralise. destruct (blockNumber e) as [k|]; [|reflexivity].
  destruct ((0 <=? k) && (k <? 25)); reflexivity.
Qed.

Lemma insert_map {A B : Type} (f : A -> B) (after : A -> A -> bool) (after' : B -> B -> bool)
  (x : A) (l : list A) :
  (forall x y, after' (f x) (f y) = after x y) ->
  JSArray.insert after' (f x) (List.map f l) = List.map f (JSArray.insert after x l).
Proof.
  intros H. induction l as [|y l IH]; [reflexivity|].
  cbn. rewrite H. destruct (after x y); [|reflexivity].
  cbn. now rewrite IH.
Qed.

Lemma sort_list_map {A B : Type} (f : A -> B) (after : A -> A -> bool)
  (after' : B -> B -> bool) (l : list A) :
  (forall x y, after' (f x) (f y) = after x y) ->
  JSArray.sort_list after' (List.map f l) = List.map f (JSArray.sort_list after l).
Proof.
  intros H. unfold JSArray.sort_list.
  induction l as [|x l IH]; [reflexivity|].
  cbn [List.map fold_right]. rewrite IH. now apply insert_map.
Qed.

Lemma slice0_map {A B : Type} (f : A -> B) (l : list A) (n : Z) :
  JSArray.slice0 (List.map f l) n = List.map f (JSArray.slice0 l n).
Proof.
  unfold JSArray.slice0. rewrite length_map.
  destruct (n <? 0); apply firstn_map.
Qed.

Lemma window_neutralise (winners : list WinnerRecord) (maxRounds : Z) :
  window (List.map neutralise winners) maxRounds
  = List.map neutralise (window winners maxRounds).
Proof.
  unfold window. rewrite <- slice0_map. f_equal.
  apply sort_list_map. intros x y. now rewrite !round_neutralise.
Qed.

Lemma blockNumber_at_map (f : WinnerRecord -> WinnerRecord) (l : list WinnerRecord) (i : nat) :
  blockNumber_at (List.map f l) i
  = match nth_error l i with
    | Some e => blockNumber (f e)
    | None => NonInt
    end.
Proof.
  unfold blockNumber_at. rewrite nth_error_map. now destruct (nth_error l i).
Qed.

Section Ignored.

Context {num : Type} {NUM : JSNumber num}.
Variable Math_pow : num -> num -> num.

Lemma count_loop_neutralise (sorted : list WinnerRecord) (weights : list num)
  (counts : JSArray.t num) :
  count_loop (List.map neutralise sorted) weights counts = count_loop sorted weights counts.
Proof.
  revert weights counts. induction sorted as [|e sorted IH]; intros weights counts;
    [reflexivity|].
  destruct weights as [|w weights]; [reflexivity|].
  cbn [List.map count_loop]. rewrite IH. f_equal.
  unfold neutralise. destruct (blockNumber e) as [k|] eqn:Ek; [|now rewrite Ek].
  change (Z.of_nat N) with 25.
  destruct ((0 <=? k) && (k <? 25)) eqn:Er; [now rewrite Ek, Er | reflexivity].
Qed.

Lemma posteriorMean_neutralise (sorted : list WinnerRecord) (alpha halfLife : num) :
  posteriorMean Math_pow (List.map neutralise sorted) alpha halfLife
  = posteriorMean Math_pow sorted alpha halfLife.
Proof.
  unfold posteriorMean, weights_of. cbn zeta.
  now rewrite length_map, count_loop_neutralise.
Qed.

Lemma penalise_neutralise (sorted : list WinnerRecord) (i : nat) (c : num)
  (probs : JSArray.t num) :
  no_stray_write (blockNumber_at sorted i) ->
  penalise (blockNumber_at (List.map neutralise sorted) i) c probs
  = penalise (blockNumber_at sorted i) c probs.
Proof.
  rewrite blockNumber_at_map. unfold blockNumber_at.
  destruct (nth_error sorted i) as [e|]; [|reflexivity].
  unfold neutralise. destruct (blockNumber e) as [k|] eqn:Ek; [|now rewrite Ek].
  intros Hk. cbn in Hk.
  destruct (Z.leb_spec 0 k), (Z.ltb_spec k 25); cbn [andb]; try (now rewrite Ek).
  - cbn [penalise blockNumber]. symmetry. apply update_not_index. lia.
  - cbn [penalise blockNumber]. symmetry. apply update_not_index. lia.
  - cbn [penalise blockNumber]. symmetry. apply update_not_index. lia.
Qed.

(** Tolerance, in any arithmetic.  As long as neither of the two most recent
    entries of the window writes past the 25 squares, entries whose block
    number lies outside [0, 24] have no effect at any stage: the result is
    the one for the history in which they keep their place and contribute
    nothing. *)
Theorem out_of_range_ignored (winners : list WinnerRecord) (options : Options num) :
  no_stray_write (blockNumber_at (window winners (nullish (opt_maxRounds options) 30)) 0) ->
  no_stray_write (blockNumber_at (window winners (nullish (opt_maxRounds options) 30)) 1) ->
  dirichletTimeDecayedPriors Math_pow (List.map neutralise winners) options
  = dirichletTimeDecayedPriors Math_pow winners options.
Proof.
  intros Hrecent Hprev.
  unfold dirichletTimeDecayedPriors, antiStreak. cbn zeta.
  rewrite window_neutralise, posteriorMean_neutralise.
  now rewrite !penalise_neutralise.
Qed.

End Ignored.

(** A negative block number and one that is no array index, in binary64. *)
Lemma out_of_range_ignored_witness :
  priors64 (List.map neutralise
              [ {| round := 2; blockNumber := IntVal (-1) |};
                {| round := 1; blockNumber := IntVal 4294967295 |} ])
  = priors64 [ {| round := 2; blockNumber := IntVal (-1) |};
               {| round := 1; blockNumber := IntVal 4294967295 |} ].
Proof.
  apply (out_of_range_ignored Math_pow_fixed
           [ {| round := 2; blockNumber := IntVal (-1) |};
             {| round := 1; blockNumber := IntVal 4294967295 |} ] no_options).
  - vm_compute. left. reflexivity.
  - vm_compute. right. reflexivity.
Defined.

End SmartPicksProps.

(** * The posterior estimator in binary64

    The estimator as the script runs it, on IEEE-754 binary64 numbers:
    every intermediate result is followed through its roundings. *)

Module SmartPicks64.

Import SmartPicks JSArrayProps Binary64 Binary64Props.

(** ** Dense arrays *)

Lemma nth_dense {A : Type} (l : list A) (i : nat) (d : A) :
  (i < length l)%nat -> nth i (JSArray.dense l) None = Some (nth i l d).
Proof.
  revert i. induction l as [|x l IH]; intros i Hi; cbn in Hi; [lia|].
  destruct i as [|i]; [reflexivity|]. cbn. apply IH. lia.
Qed.

Lemma dense_set_nth {A : Type} (l : list A) (i : nat) (v : A) :
  JSArray.set_nth (JSArray.dense l) i (Some v) = JSArray.dense (JSArray.set_nth l i v).
Proof.
  revert i. induction l as [|y l IH]; intros i; [reflexivity|].
  destruct i; cbn; [reflexivity | f_equal; apply IH].
Qed.

Lemma update_dense {A : Type} (l : list A) (k : Z) (f : option A -> A) (d : A) :
  0 <= k < Z.of_nat (length l) -> k <= 4294967294 ->
  JSArray.update (JSArray.dense l) k f
  = JSArray.dense (JSArray.set_nth l (Z.to_nat k) (f (Some (nth (Z.to_nat k) l d)))).
Proof.
  intros Hk Hmax. unfold JSArray.update, JSArray.is_array_index.
  replace (0 <=? k) with true by (symmetry; apply Z.leb_le; lia).
  replace (k <=? 4294967294) with true by (symmetry; apply Z.leb_le; lia).
  cbn [andb]. rewrite length_dense.
  replace (Z.to_nat k <? length l)%nat with true by (symmetry; apply Nat.ltb_lt; lia).
  rewrite (nth_dense l _ d) by lia. apply dense_set_nth.
Qed.

Lemma map_dense {A B : Type} (f : A -> B) (l : list A) :
  JSArray.map f (JSArray.dense l) = JSArray.dense (List.map f l).
Proof.
  unfold JSArray.map, JSArray.dense. rewrite !List.map_map. reflexivity.
Qed.

Lemma reduce_dense {A B : Type} (f : B -> A -> B) (l : list A) (i : B) :
  JSArray.reduce f i (JSArray.dense l) = fold_left f l i.
Proof.
  unfold JSArray.reduce. revert i. induction l as [|x l IH]; intros i; [reflexivity|].
  cbn. apply IH.
Qed.

Lemma repeat_dense {A : Type} (x : A) (n : nat) :
  repeat (Some x) n = JSArray.dense (repeat x n).
Proof. induction n as [|n IH]; [reflexivity|]. cbn. now rewrite IH. Qed.

Lemma nth_set_nth {A : Type} (l : list A) (i j : nat) (v d : A) :
  (i < length l)%nat ->
  nth j (JSArray.set_nth l i v) d = if (i =? j)%nat then v else nth j l d.
Proof.
  revert i j. induction l as [|y l IH]; intros i j Hi; cbn in Hi; [lia|].
  destruct i as [|i], j as [|j]; cbn; try reflexivity.
  apply IH. lia.
Qed.

Lemma Forall_nth_in {A : Type} (P : A -> Prop) (l : list A) (i : nat) (d : A) :
  Forall P l -> (i < length l)%nat -> P (nth i l d).
Proof. intros Hl Hi. rewrite Forall_forall in Hl. apply Hl. now apply nth_In. Qed.


(** ** Sums of binary64 numbers *)

Lemma step_lo (u t sa vy acc acc' : Q) :
  (0 <= u)%Q -> (u <= 1)%Q -> (0 <= t)%Q -> (t <= 1)%Q -> (0 <= sa)%Q -> (0 <= vy)%Q ->
  ((1 - t) * sa <= acc)%Q -> ((1 - u) * (acc + vy) <= acc')%Q ->
  ((1 - (t + u)) * (sa + vy) <= acc')%Q.
Proof.
  intros Hu0 Hu1 Ht0 Ht1 Hsa Hvy Hacc Hacc'.
  assert (0 <= (1 - u) * (acc - (1 - t) * sa))%Q by (apply Qmult_le_0_compat; lra).
  assert (0 <= (1 - u) * (t * vy))%Q
    by (apply Qmult_le_0_compat; [lra | apply Qmult_le_0_compat; lra]).
  assert (0 <= (t * u) * (sa + vy))%Q
    by (apply Qmult_le_0_compat; [apply Qmult_le_0_compat; lra | lra]).
  nra.
Qed.

Lemma step_hi (u t sa vy acc acc' : Q) :
  (0 <= u)%Q -> (0 <= t)%Q -> (2 * t <= 1)%Q -> (0 <= sa)%Q -> (0 <= vy)%Q ->
  (acc <= (1 + 2 * t) * sa)%Q -> (acc' <= (1 + u) * (acc + vy))%Q ->
  (acc' <= (1 + 2 * (t + u)) * (sa + vy))%Q.
Proof.
  intros Hu0 Ht0 Ht1 Hsa Hvy Hacc Hacc'.
  assert (0 <= (1 + u) * ((1 + 2 * t) * sa - acc))%Q by (apply Qmult_le_0_compat; lra).
  assert (0 <= (1 + u) * (2 * t * vy))%Q
    by (apply Qmult_le_0_compat; [lra | apply Qmult_le_0_compat; lra]).
  assert (0 <= (u * (1 - 2 * t)) * (sa + vy))%Q
    by (apply Qmult_le_0_compat; [apply Qmult_le_0_compat; lra | lra]).
  nra.
Qed.

Lemma sumQ_map_nonneg (lo hi : Q) (ys : list float) :
  (0 <= lo)%Q -> Forall (within lo hi) ys -> (0 <= sumQ (List.map F2Q ys))%Q.
Proof.
  intros Hlo H. induction H as [|y ys (_ & Hy & _) _ IH]; cbn; [lra|]. lra.
Qed.

(** Adding up [ys] from an accumulator that is within [i] roundings of the
    exact sum [sa] of what it holds gives a number within [i + length ys]
    roundings of the exact total. *)
Lemma fold_add_bounds (lo hi : Q) (ys : list float) :
  (pow2 (-400) <= lo)%Q ->
  Forall (within lo hi) ys ->
  forall (acc : float) (sa : Q) (i : nat),
    pfinite acc ->
    (lo <= sa)%Q ->
    ((1 - inject_Z (Z.of_nat i) * u) * sa <= F2Q acc)%Q ->
    (F2Q acc <= (1 + 2 * (inject_Z (Z.of_nat i) * u)) * sa)%Q ->
    (i + length ys <= 1000)%nat ->
    (sa + sumQ (List.map F2Q ys) <= pow2 400)%Q ->
    pfinite (fold_left PrimFloat.add ys acc) /\
    ((1 - inject_Z (Z.of_nat (i + length ys)) * u) * (sa + sumQ (List.map F2Q ys))
     <= F2Q (fold_left PrimFloat.add ys acc))%Q /\
    (F2Q (fold_left PrimFloat.add ys acc)
     <= (1 + 2 * (inject_Z (Z.of_nat (i + length ys)) * u)) * (sa + sumQ (List.map F2Q ys)))%Q.
Proof.
  intros Hlo Hys. destruct u_bounds as [Hu0 Hu1].
  assert (0 < pow2 (-400))%Q as Hp by apply pow2_pos.
  induction Hys as [|y ys Hy Hys IH]; intros acc sa i Hacc Hsa Hlower Hupper Hn Htot.
  - cbn [fold_left length List.map sumQ] in *. rewrite Nat.add_0_r.
    split; [exact Hacc|]. split.
    + assert ((1 - inject_Z (Z.of_nat i) * u) * (sa + 0)
              == (1 - inject_Z (Z.of_nat i) * u) * sa)%Q as -> by ring. exact Hlower.
    + assert ((1 + 2 * (inject_Z (Z.of_nat i) * u)) * (sa + 0)
              == (1 + 2 * (inject_Z (Z.of_nat i) * u)) * sa)%Q as -> by ring. exact Hupper.
  - cbn [fold_left length List.map sumQ] in *.
    destruct Hy as (Hyfin & Hylo & Hyhi).
    pose proof (sumQ_map_nonneg lo hi ys ltac:(lra) Hys) as Hrest.
    set (t := (inject_Z (Z.of_nat i) * u)%Q) in *.
    assert (0 <= t)%Q as Ht0.
    { subst t. apply Qmult_le_0_compat; [|lra].
      change 0%Q with (inject_Z 0). rewrite <- Zle_Qle. lia. }
    assert (t <= 1 # 1000)%Q as Ht1.
    { subst t. assert (inject_Z (Z.of_nat i) <= 1000)%Q as Hi.
      { change 1000%Q with (inject_Z 1000). rewrite <- Zle_Qle. lia. }
      assert (0 <= inject_Z (Z.of_nat i))%Q
        by (change 0%Q with (inject_Z 0); rewrite <- Zle_Qle; lia).
      nra. }
    assert ((1 # 2) * sa <= F2Q acc)%Q as Hacc_lo by nra.
    assert (F2Q acc <= 2 * sa)%Q as Hacc_hi by nra.
    destruct (add_correct acc y Hacc Hyfin) as [Hfin Hnear].
    { assert (pow2 (-1022) <= (1 # 2) * pow2 (-400))%Q
        by (change ((1 # 2) * pow2 (-400))%Q with (pow2 (-1) * pow2 (-400))%Q;
            rewrite <- pow2_add; apply pow2_le; lia).
      nra. }
    { assert (2 * pow2 400 < pow2 1023)%Q
        by (change (2 * pow2 400)%Q with (pow2 1 * pow2 400)%Q;
            rewrite <- pow2_add; apply pow2_lt; lia).
      nra. }
    apply near_bounds in Hnear. destruct Hnear as [Nlo Nhi].
    specialize (IH (acc + y)%float (sa + F2Q y)%Q (S i) Hfin).
    assert (inject_Z (Z.of_nat (S i)) * u == t + u)%Q as ES.
    { subst t. rewrite Nat2Z.inj_succ. unfold Z.succ. rewrite inject_Z_plus.
      change (inject_Z 1) with 1%Q. ring. }
    replace (i + S (length ys))%nat with (S i + length ys)%nat by lia.
    assert (sa + (F2Q y + sumQ (List.map F2Q ys))
            == sa + F2Q y + sumQ (List.map F2Q ys))%Q as -> by ring.
    apply IH.
    + lra.
    + rewrite ES. apply (step_lo u t sa (F2Q y) (F2Q acc)); lra.
    + rewrite ES. apply (step_hi u t sa (F2Q y) (F2Q acc)); lra.
    + lia.
    + lra.
Qed.

Lemma sum_from_zero (lo hi : Q) (ys : list float) (z : float) :
  pzero z -> (pow2 (-400) <= lo)%Q ->
  Forall (within lo hi) ys -> ys <> [] -> (length ys <= 1000)%nat ->
  (sumQ (List.map F2Q ys) <= pow2 400)%Q ->
  pfinite (fold_left PrimFloat.add ys z) /\
  ((1 - inject_Z (Z.of_nat (length ys)) * u) * sumQ (List.map F2Q ys)
   <= F2Q (fold_left PrimFloat.add ys z))%Q /\
  (F2Q (fold_left PrimFloat.add ys z)
   <= (1 + 2 * (inject_Z (Z.of_nat (length ys)) * u)) * sumQ (List.map F2Q ys))%Q.
Proof.
  intros Hz Hlo Hys Hne Hlen Htot. destruct u_bounds as [Hu0 Hu1].
  destruct Hys as [|y ys Hy Hys]; [congruence|].
  cbn [fold_left length List.map sumQ] in *.
  destruct Hy as (Hyfin & Hylo & Hyhi).
  rewrite (add_zero_l z y Hz Hyfin).
  pose proof (pfinite_pos y Hyfin) as Hypos.
  change (S (length ys)) with (1 + length ys)%nat.
  apply (fold_add_bounds lo hi ys Hlo Hys y (F2Q y) 1 Hyfin Hylo).
  - change (inject_Z (Z.of_nat 1)) with 1%Q. nra.
  - change (inject_Z (Z.of_nat 1)) with 1%Q. nra.
  - lia.
  - exact Htot.
Qed.

(** ** Constants *)

Lemma zero_pzero : pzero (@num_of_nat float _ 0).
Proof. reflexivity. Qed.

Lemma c25_value : pfinite (@num_of_nat float _ 25) /\ (F2Q (@num_of_nat float _ 25) == 25)%Q.
Proof. split; [eexists _, _; reflexivity | reflexivity]. Qed.

Lemma c6_value : within (599 # 1000) (6 # 10) (@num_0_6 float _).
Proof.
  split; [eexists _, _; reflexivity|]. split; vm_compute; discriminate.
Qed.

Lemma c8_value : within (8 # 10) (801 # 1000) (@num_0_8 float _).
Proof.
  split; [eexists _, _; reflexivity|]. split; vm_compute; discriminate.
Qed.

(** ** The counting loop *)

Lemma weights_of_within (pow : float -> float -> float) (sorted : list WinnerRecord)
  (h : float) :
  weights_within pow h (length sorted) ->
  Forall (within (1 # 1024) 2) (weights_of pow sorted h).
Proof.
  intros H. unfold weights_of. apply Forall_forall. intros w Hw.
  apply in_map_iff in Hw. destruct Hw as (i & <- & Hi).
  apply in_seq in Hi. apply H. lia.
Qed.

Lemma count_ok_mono (j j' : nat) (c : float) :
  (j <= j')%nat -> count_ok j c -> count_ok j' c.
Proof.
  intros Hj [Hz|(Hf & Hlo & Hhi)]; [now left|]. right. split; [exact Hf|]. split; [exact Hlo|].
  assert (inject_Z (Z.of_nat j) <= inject_Z (Z.of_nat j'))%Q by (rewrite <- Zle_Qle; lia).
  lra.
Qed.

Lemma count_add (j : nat) (c w : float) :
  (j <= 1000)%nat -> count_ok j c -> within (1 # 1024) 2 w ->
  count_ok (S j) (c + w)%float.
Proof.
  intros Hj Hc (Hwf & Hwlo & Hwhi). destruct u_bounds as [Hu0 Hu1].
  assert (inject_Z (Z.of_nat (S j)) == inject_Z (Z.of_nat j) + 1)%Q as ES.
  { rewrite Nat2Z.inj_succ. unfold Z.succ. rewrite inject_Z_plus. reflexivity. }
  assert (0 <= inject_Z (Z.of_nat j))%Q as Hj0
    by (change 0%Q with (inject_Z 0); rewrite <- Zle_Qle; lia).
  assert (inject_Z (Z.of_nat j) <= 1000)%Q as Hj1
    by (change 1000%Q with (inject_Z 1000); rewrite <- Zle_Qle; lia).
  right. destruct Hc as [Hz|(Hcf & Hclo & Hchi)].
  - rewrite (add_zero_l c w Hz Hwf). split; [exact Hwf|]. split; [exact Hwlo|].
    rewrite ES. lra.
  - destruct (add_correct c w Hcf Hwf) as [Hf Hnear].
    + assert (pow2 (-1022) <= 1 # 1024)%Q by (vm_compute; discriminate). lra.
    + assert (4 * 1000 + 2 < pow2 1023)%Q by (vm_compute; reflexivity). lra.
    + apply near_bounds in Hnear. destruct Hnear as [Nlo Nhi].
      split; [exact Hf|]. rewrite ES. split; nra.
Qed.

Lemma count_loop64 (sorted : list WinnerRecord) :
  forall (ws cs : list float) (j : nat),
    Forall (within (1 # 1024) 2) ws ->
    Forall (count_ok j) cs -> length cs = 25%nat -> (j + length ws <= 1000)%nat ->
    exists cs' : list float,
      count_loop sorted ws (JSArray.dense cs) = JSArray.dense cs' /\
      Forall (count_ok (j + length ws)) cs' /\ length cs' = 25%nat.
Proof.
  induction sorted as [|e sorted IH]; intros ws cs j Hws Hcs Hlen Hj.
  - exists cs. split; [reflexivity|]. split; [|exact Hlen].
    eapply Forall_impl; [|exact Hcs]. intros c. apply count_ok_mono. lia.
  - destruct Hws as [|w ws Hw Hws].
    + exists cs. split; [reflexivity|]. split; [|exact Hlen].
      eapply Forall_impl; [|exact Hcs]. intros c. apply count_ok_mono. lia.
    + cbn [count_loop length].
      replace (j + S (length ws))%nat with (S j + length ws)%nat by lia.
      assert (Forall (count_ok (S j)) cs) as Hcs'.
      { eapply Forall_impl; [|exact Hcs]. intros c. apply count_ok_mono. lia. }
      destruct (blockNumber e) as [idx0|];
        [|apply IH; [exact Hws | exact Hcs' | exact Hlen | cbn [length] in Hj; lia]].
      destruct ((0 <=? idx0) && (idx0 <? Z.of_nat N)) eqn:Erange;
        [|apply IH; [exact Hws | exact Hcs' | exact Hlen | cbn [length] in Hj; lia]].
      apply andb_prop in Erange. destruct Erange as [H0 H25].
      apply Z.leb_le in H0. apply Z.ltb_lt in H25. change (Z.of_nat N) with 25 in H25.
      rewrite (update_dense cs idx0 _ 0%float) by lia.
      cbn [compound]. change (@num_add float _) with PrimFloat.add.
      apply IH.
      * exact Hws.
      * apply Forall_set_nth; [exact Hcs'|].
        apply count_add; [cbn [length] in Hj; lia | | exact Hw].
        apply Forall_nth_in; [exact Hcs | lia].
      * now rewrite length_set_nth.
      * cbn [length] in Hj. lia.
Qed.

(** The sum of the counts. *)
Lemma sum_counts (cs : list float) :
  forall (acc : float) (i : nat),
    Forall (count_ok 30) cs -> (i + length cs <= 1000)%nat ->
    pzero acc \/ within (1 # 1024) (121 * inject_Z (Z.of_nat i)) acc ->
    pzero (fold_left PrimFloat.add cs acc) \/
    within (1 # 1024) (121 * inject_Z (Z.of_nat (i + length cs)))
           (fold_left PrimFloat.add cs acc).
Proof.
  destruct u_bounds as [Hu0 Hu1].
  induction cs as [|c cs IH]; intros acc i Hcs Hi Hacc.
  - cbn. rewrite Nat.add_0_r. exact Hacc.
  - cbn [fold_left length]. replace (i + S (length cs))%nat with (S i + length cs)%nat by lia.
    inversion Hcs as [|c' cs' Hc Hcs']; subst.
    assert (inject_Z (Z.of_nat (S i)) == inject_Z (Z.of_nat i) + 1)%Q as ES.
    { rewrite Nat2Z.inj_succ. unfold Z.succ. rewrite inject_Z_plus. reflexivity. }
    assert (0 <= inject_Z (Z.of_nat i))%Q as Hi0
      by (change 0%Q with (inject_Z 0); rewrite <- Zle_Qle; lia).
    assert (inject_Z (Z.of_nat i) <= 1000)%Q as Hi1
      by (change 1000%Q with (inject_Z 1000); rewrite <- Zle_Qle; cbn [length] in Hi; lia).
    apply IH; [exact Hcs' | cbn [length] in Hi; lia|].
    unfold count_ok in Hc. change (inject_Z (Z.of_nat 30)) with 30%Q in Hc.
    destruct Hacc as [Hz|(Haf & Halo & Hahi)], Hc as [Hcz|(Hcf & Hclo & Hchi)].
    + left. now apply add_zero_zero.
    + right. rewrite (add_zero_l acc c Hz Hcf). split; [exact Hcf|]. split; [exact Hclo|].
      rewrite ES. lra.
    + right. rewrite (add_zero_r acc c Haf Hcz).
      split; [exact Haf|]. split; [exact Halo|]. rewrite ES. lra.
    + right. destruct (add_correct acc c Haf Hcf) as [Hf Hnear].
      * assert (pow2 (-1022) <= 1 # 1024)%Q by (vm_compute; discriminate). lra.
      * assert (121 * 1000 + 120 < pow2 1023)%Q by (vm_compute; reflexivity). lra.
      * apply near_bounds in Hnear. destruct Hnear as [Nlo Nhi].
        split; [exact Hf|]. rewrite ES. split; nra.
Qed.

(** ** The posterior mean *)

Lemma pow2_1022_small : (pow2 (-1022) <= 1 # 1048576)%Q.
Proof. vm_compute. discriminate. Qed.

Lemma pow2_500_small : (pow2 (-500) <= 1 # 1048576)%Q /\ (1048576 <= pow2 500)%Q.
Proof. split; vm_compute; discriminate. Qed.

Lemma pow2_1023_big : (1048576 < pow2 1023)%Q.
Proof. vm_compute. reflexivity. Qed.

(** For an [alpha] between [2^-10] and [2^10] and a window of at most 30
    rounds, the posterior mean is an array of 25 positive finite numbers,
    each the rounded quotient of [alpha] plus a count by one and the same
    denominator [D]. *)
Lemma posteriorMean64 (pow : float -> float -> float) (sorted : list WinnerRecord)
  (alpha h : float) :
  within (1 # 1024) 1024 alpha ->
  (length sorted <= 30)%nat ->
  weights_within pow h (length sorted) ->
  exists (P : list float) (D : Q),
    posteriorMean pow sorted alpha h = JSArray.dense P /\ length P = 25%nat /\
    (1 # 64 <= D)%Q /\ (D <= 65536)%Q /\
    Forall (fun p => pfinite p /\
                     ((1 # 2) * F2Q alpha <= F2Q p * D)%Q /\
                     (F2Q p * D <= 2 * (F2Q alpha + 120))%Q) P.
Proof.
  intros (Haf & Halo & Hahi) Hlen Hpow. destruct u_bounds as [Hu0 Hu1].
  pose proof pow2_1022_small as S1022. destruct pow2_500_small as [S500 B500].
  pose proof pow2_1023_big as B1023.
  unfold posteriorMean. cbn zeta.
  pose proof (weights_of_within pow sorted h Hpow) as Hws.
  assert (length (weights_of pow sorted h) = length sorted) as Hwlen
    by (unfold weights_of; now rewrite length_map, length_seq).
  rewrite repeat_dense.
  destruct (count_loop64 sorted (weights_of pow sorted h) (repeat (num_of_nat 0) N) 0 Hws)
    as (cs & -> & Hcs & Hcslen).
  { apply Forall_forall. intros c Hc. apply repeat_spec in Hc. subst c. left. exact zero_pzero. }
  { apply repeat_length. }
  { lia. }
  assert (Forall (count_ok 30) cs) as Hcs30.
  { eapply Forall_impl; [|exact Hcs]. intros c. apply count_ok_mono. lia. }
  rewrite reduce_dense, map_dense.
  change (@num_add float _) with PrimFloat.add.
  change (@num_mul float _) with PrimFloat.mul.
  change (@num_div float _) with PrimFloat.div.
  pose proof (sum_counts cs (num_of_nat 0) 0 Hcs30 ltac:(lia) (or_introl zero_pzero)) as HsumW.
  set (sumW := fold_left PrimFloat.add cs (num_of_nat 0)) in *.
  rewrite Hcslen in HsumW. change (inject_Z (Z.of_nat (0 + 25))) with 25%Q in HsumW.
  destruct c25_value as [H25f H25v].
  destruct (mul_correct (num_of_nat N) alpha H25f Haf) as [HNAf HNAnear].
  { change (@num_of_nat float _ N) with (@num_of_nat float _ 25). rewrite H25v. lra. }
  { change (@num_of_nat float _ N) with (@num_of_nat float _ 25). rewrite H25v. lra. }
  { change (@num_of_nat float _ N) with (@num_of_nat float _ 25). rewrite H25v. lra. }
  apply near_bounds in HNAnear.
  change (@num_of_nat float _ N) with (@num_of_nat float _ 25) in *.
  rewrite H25v in HNAnear. destruct HNAnear as [NAlo NAhi].
  set (NA := (num_of_nat 25 * alpha)%float) in *.
  set (den := (NA + sumW)%float).
  assert (pfinite den /\ ((1 - u) * F2Q NA <= F2Q den)%Q /\
          (F2Q den <= (1 + u) * (F2Q NA + 3025))%Q) as (Hdenf & Hdenlo & Hdenhi).
  { subst den. destruct HsumW as [Hz|(Hsf & Hslo & Hshi)].
    - rewrite (add_zero_r NA sumW HNAf Hz). split; [exact HNAf|]. split; nra.
    - destruct (add_correct NA sumW HNAf Hsf) as [Hf Hnear]; [nra | nra |].
      apply near_bounds in Hnear. destruct Hnear. split; [exact Hf|]. split; nra. }
  set (D := F2Q den) in *. set (A := F2Q alpha) in *.
  assert (1 # 64 <= D)%Q as HDlo by nra.
  assert (D <= 65536)%Q as HDhi by nra.
  exists (List.map (fun w => ((alpha + w) / den)%float) cs), D.
  split; [reflexivity|]. split; [now rewrite length_map|].
  split; [exact HDlo|]. split; [exact HDhi|].
  apply Forall_forall. intros p Hp. apply in_map_iff in Hp. destruct Hp as (c & <- & Hc).
  rewrite Forall_forall in Hcs30. specialize (Hcs30 c Hc). unfold count_ok in Hcs30.
  change (inject_Z (Z.of_nat 30)) with 30%Q in Hcs30.
  assert (pfinite (alpha + c)%float /\ ((1 - u) * A <= F2Q (alpha + c)%float)%Q /\
          (F2Q (alpha + c)%float <= (1 + u) * (A + 120))%Q) as (Hnf & Hnlo & Hnhi).
  { destruct Hcs30 as [Hz|(Hcf & Hclo & Hchi)].
    - rewrite (add_zero_r alpha c Haf Hz). split; [exact Haf|]. fold A. split; nra.
    - destruct (add_correct alpha c Haf Hcf) as [Hf Hnear]; [fold A; nra | fold A; nra |].
      apply near_bounds in Hnear. fold A in Hnear. destruct Hnear. split; [exact Hf|]. split; nra. }
  set (a := F2Q (alpha + c)%float) in *.
  destruct (div_correct (alpha + c)%float den Hnf Hdenf) as [Hpf Hnear].
  { fold a. nra. } { fold a. nra. } { fold D. nra. } { fold D. nra. }
  apply near_bounds in Hnear. fold a D in Hnear.
  assert ((a / D) * D == a)%Q as Eq by (field; lra).
  set (q := (a / D)%Q) in *. destruct Hnear as [Plo Phi].
  split; [exact Hpf|]. split; nra.
Qed.

(** ** The anti-streak stage *)

Lemma penalise64 (b : BlockNumber) (c : float) (l : list float) :
  length l = 25%nat -> no_stray_write b ->
  penalise b c (JSArray.dense l) = JSArray.dense (pen64 b c l).
Proof.
  intros Hlen Hb. destruct b as [k|]; [|reflexivity].
  cbn [penalise pen64].
  destruct (Z.leb_spec 0 k) as [H0|H0], (Z.ltb_spec k 25) as [H25|H25]; cbn [andb].
  - rewrite (update_dense l k _ 0%float) by lia. reflexivity.
  - cbn in Hb. apply update_not_index. lia.
  - apply update_not_index. lia.
  - apply update_not_index. lia.
Qed.

Lemma set_nth_twice {A : Type} (l : list A) (i : nat) (x y : A) :
  JSArray.set_nth (JSArray.set_nth l i x) i y = JSArray.set_nth l i y.
Proof.
  revert i. induction l as [|z l IH]; intros i; [reflexivity|].
  destruct i; cbn; [reflexivity | now rewrite IH].
Qed.

Lemma set_nth_swap {A : Type} (l : list A) (i j : nat) (x y : A) :
  i <> j ->
  JSArray.set_nth (JSArray.set_nth l i x) j y = JSArray.set_nth (JSArray.set_nth l j y) i x.
Proof.
  revert i j. induction l as [|z l IH]; intros i j Hij; [reflexivity|].
  destruct i, j; cbn; try reflexivity; [congruence|]. f_equal. apply IH. congruence.
Qed.

Lemma length_pen64 (b : BlockNumber) (c : float) (l : list float) :
  length (pen64 b c l) = length l.
Proof.
  destruct b as [k|]; [|reflexivity]. cbn.
  destruct ((0 <=? k) && (k <? 25)); [apply length_set_nth | reflexivity].
Qed.

(** The two penalised arrays differ at the square of the latest winner
    only. *)
Lemma pen64_after_recent (prev : BlockNumber) (P : list float) (i : nat) (c6 c8 : float) :
  length P = 25%nat -> (i < 25)%nat ->
  let Y0 := pen64 prev c8 P in
  let Y1 := pen64 prev c8 (JSArray.set_nth P i (nth i P 0 * c6)%float) in
  Y1 = JSArray.set_nth Y0 i (nth i Y1 0%float) /\
  ((nth i Y0 0%float = nth i P 0%float /\
    nth i Y1 0%float = (nth i P 0 * c6)%float) \/
   (nth i Y0 0%float = (nth i P 0 * c8)%float /\
    nth i Y1 0%float = (nth i P 0 * c6 * c8)%float)) /\
  (forall j : nat, (j < 25)%nat ->
     nth j Y0 0%float = nth j P 0%float \/ nth j Y0 0%float = (nth j P 0 * c8)%float).
Proof.
  intros Hlen Hi. cbn zeta.
  set (P1 := JSArray.set_nth P i (nth i P 0 * c6)%float).
  assert (length P1 = 25%nat) as Hlen1 by (subst P1; now rewrite length_set_nth).
  assert (nth i P1 0%float = (nth i P 0 * c6)%float) as E1
    by (subst P1; apply nth_set_nth_same; lia).
  assert (P1 = JSArray.set_nth P i (nth i P1 0%float)) as EP1 by (rewrite E1; reflexivity).
  destruct prev as [k|]; cbn [pen64].
  2:{ split; [exact EP1|]. split; [left; split; [reflexivity | exact E1] | intros; now left]. }
  destruct ((0 <=? k) && (k <? 25)) eqn:Erange.
  2:{ split; [exact EP1|]. split; [left; split; [reflexivity | exact E1] | intros; now left]. }
  apply andb_prop in Erange. destruct Erange as [H0 H25].
  apply Z.leb_le in H0. apply Z.ltb_lt in H25.
  set (kk := Z.to_nat k). assert (kk < 25)%nat as Hkk by (subst kk; lia).
  destruct (Nat.eq_dec kk i) as [->|Hne].
  - assert (JSArray.set_nth P1 i (nth i P1 0 * c8)%float
            = JSArray.set_nth P i (nth i P 0 * c6 * c8)%float) as ->.
    { rewrite E1. unfold P1. apply set_nth_twice. }
    rewrite !nth_set_nth_same by lia.
    split; [now rewrite set_nth_twice|].
    split; [right; split; reflexivity|].
    intros j Hj. rewrite nth_set_nth by lia.
    destruct (Nat.eqb_spec i j) as [->|]; [now right | now left].
  - assert (nth kk P1 0%float = nth kk P 0%float) as Ek
      by (subst P1; apply nth_set_nth_other; congruence).
    assert (JSArray.set_nth P1 kk (nth kk P1 0 * c8)%float
            = JSArray.set_nth (JSArray.set_nth P kk (nth kk P 0 * c8)%float) i
                              (nth i P 0 * c6)%float) as ->.
    { rewrite Ek. unfold P1. apply set_nth_swap. congruence. }
    rewrite (nth_set_nth_same (JSArray.set_nth P kk _) i) by (rewrite length_set_nth; lia).
    rewrite (nth_set_nth_other P kk i) by exact Hne.
    split; [reflexivity|].
    split; [left; split; reflexivity|].
    intros j Hj. rewrite nth_set_nth by lia.
    destruct (Nat.eqb_spec kk j) as [->|]; [now right | now left].
Qed.

Lemma entry_ok_weaken (A D c c' : Q) (y : float) :
  (0 <= A)%Q -> (c' <= c)%Q -> entry_ok A D c y -> entry_ok A D c' y.
Proof.
  intros HA Hc (Hf & Hlo & Hhi). split; [exact Hf|]. split; [nra | exact Hhi].
Qed.

Lemma entry_range (A D c : Q) (y : float) :
  (1 # 1024 <= A)%Q -> (A <= 1024)%Q -> (1 # 64 <= D)%Q -> (D <= 65536)%Q ->
  (1 # 5 <= c)%Q -> entry_ok A D c y ->
  within (1 # 1099511627776) 1099511627776 y.
Proof.
  intros HA0 HA1 HD0 HD1 Hc (Hf & Hlo & Hhi).
  pose proof (pfinite_pos y Hf) as Hpos.
  split; [exact Hf|]. split; nra.
Qed.

(** Multiplying an entry by a constant between 1/2 and 1. *)
Lemma scale_near (p c : float) (clo chi : Q) :
  within (1 # 1099511627776) 1099511627776 p ->
  within clo chi c -> (1 # 2 <= clo)%Q -> (chi <= 1)%Q ->
  pfinite (p * c)%float /\
  ((1 - u) * (clo * F2Q p) <= F2Q (p * c)%float)%Q /\
  (F2Q (p * c)%float <= (1 + u) * (chi * F2Q p))%Q.
Proof.
  intros (Hpf & Hplo & Hphi) (Hcf & Hclo & Hchi) Hlo Hhi.
  destruct u_bounds as [Hu0 Hu1]. pose proof pow2_1022_small as S1022.
  pose proof pow2_1023_big as B1023.
  assert (pow2 (-1022) <= 1 # 2199023255552)%Q as S' by (vm_compute; discriminate).
  assert (1099511627776 < pow2 1023)%Q as B' by (vm_compute; reflexivity).
  destruct (mul_correct p c Hpf Hcf) as [Hf Hnear]; [lra | nra | nra |].
  apply near_bounds in Hnear. destruct Hnear as [Nlo Nhi].
  pose proof (pfinite_pos p Hpf) as Hpos.
  assert (0 <= (1 - u) * (F2Q p * (F2Q c - clo)))%Q
    by (apply Qmult_le_0_compat; [lra | apply Qmult_le_0_compat; lra]).
  assert (0 <= (1 + u) * (F2Q p * (chi - F2Q c)))%Q
    by (apply Qmult_le_0_compat; [lra | apply Qmult_le_0_compat; lra]).
  split; [exact Hf|]. split; nra.
Qed.

Lemma entry_scale (A D c clo chi : Q) (p k : float) :
  (1 # 1024 <= A)%Q -> (A <= 1024)%Q -> (1 # 64 <= D)%Q -> (D <= 65536)%Q ->
  (1 # 5 <= c)%Q -> entry_ok A D c p ->
  within clo chi k -> (1 # 2 <= clo)%Q -> (chi <= 99 # 100)%Q ->
  entry_ok A D ((99 # 100) * clo * c) (p * k)%float /\
  ((99 # 100) * clo * F2Q p <= F2Q (p * k)%float)%Q /\
  (F2Q (p * k)%float <= (101 # 100) * chi * F2Q p)%Q.
Proof.
  intros HA0 HA1 HD0 HD1 Hc Hp Hk Hlo Hhi. destruct u_bounds as [Hu0 Hu1].
  pose proof (entry_range A D c p HA0 HA1 HD0 HD1 Hc Hp) as Hr.
  destruct (scale_near p k clo chi Hr Hk Hlo ltac:(lra)) as (Hf & Nlo & Nhi).
  destruct Hp as (Hpf & Hplo & Hphi). pose proof (pfinite_pos p Hpf) as Hpos.
  assert ((99 # 100) * clo * F2Q p <= F2Q (p * k)%float)%Q as Vlo.
  { assert (0 <= ((1 - u) - (99 # 100)) * (clo * F2Q p))%Q
      by (apply Qmult_le_0_compat; nra).
    nra. }
  assert (F2Q (p * k)%float <= (101 # 100) * chi * F2Q p)%Q as Vhi.
  { assert (0 <= ((101 # 100) - (1 + u)) * (chi * F2Q p))%Q
      by (apply Qmult_le_0_compat; nra).
    nra. }
  split; [|split; assumption].
  split; [exact Hf|]. split.
  - assert (0 <= ((99 # 100) * clo) * (F2Q p * D - c * A))%Q
      by (apply Qmult_le_0_compat; lra).
    assert (0 <= D)%Q by lra.
    assert ((99 # 100) * clo * F2Q p * D <= F2Q (p * k)%float * D)%Q
      by (apply Qmult_le_compat_r; assumption).
    lra.
  - assert (0 <= D)%Q by lra.
    assert (F2Q (p * k)%float * D <= (101 # 100) * chi * F2Q p * D)%Q
      by (apply Qmult_le_compat_r; assumption).
    assert (0 <= (1 - (101 # 100) * chi) * (F2Q p * D))%Q
      by (apply Qmult_le_0_compat; nra).
    nra.
Qed.

(** ** The share of the latest winner *)

Lemma u_tiny : (u <= 1 # 1000000000000)%Q.
Proof. unfold u. vm_compute. discriminate. Qed.

Lemma Qmult_le_l_weak (x y z : Q) : (0 <= z)%Q -> (x <= y)%Q -> (z * x <= z * y)%Q.
Proof.
  intros Hz Hxy. assert (0 <= z * (y - x))%Q by (apply Qmult_le_0_compat; lra). lra.
Qed.

(** Whatever the roundings, scaling one term of a sum by about 0.6 lowers
    its share of the sum, as long as the other terms are not negligible. *)
Lemma share_lowered_rounded (e a b T S0 S1 x y : Q) :
  (0 <= e)%Q -> (e <= 1 # 1000000000000)%Q ->
  (0 < a)%Q -> (a <= (63 # 100) * b)%Q -> ((3 # 100000) * b <= T)%Q ->
  (0 < S0)%Q -> (0 < S1)%Q ->
  (S0 <= (1 + 50 * e) * (T + b))%Q -> ((1 - 25 * e) * (T + a) <= S1)%Q ->
  (x <= (1 + e) * (a / S1))%Q -> ((1 - e) * (b / S0) <= y)%Q ->
  (x < y)%Q.
Proof.
  intros He0 He1 Ha Hab HT HS0 HS1 HS0b HS1b Hx Hy.
  assert (0 < b)%Q as Hb by lra.
  assert (0 < T)%Q as HTpos by lra.
  set (bT := (b * T)%Q). set (ab := (a * b)%Q). set (aT := (a * T)%Q). set (bb := (b * b)%Q).
  assert (0 < bT)%Q as HbT by (subst bT; apply Qmult_lt_0_compat; assumption).
  assert (0 < ab)%Q as Hab0 by (subst ab; apply Qmult_lt_0_compat; assumption).
  assert (0 < aT)%Q as HaT0 by (subst aT; apply Qmult_lt_0_compat; assumption).
  assert (ab <= (63 # 100) * bb)%Q as Hab1.
  { subst ab bb. assert (0 <= ((63 # 100) * b - a) * b)%Q by (apply Qmult_le_0_compat; lra). lra. }
  assert ((3 # 100000) * bb <= bT)%Q as Hbb.
  { subst bb bT. assert (0 <= b * (T - (3 # 100000) * b))%Q by (apply Qmult_le_0_compat; lra). lra. }
  assert (aT <= (63 # 100) * bT)%Q as HaT1.
  { subst aT bT. assert (0 <= ((63 # 100) * b - a) * T)%Q by (apply Qmult_le_0_compat; lra). lra. }
  (* the two cross products *)
  set (X := (aT + ab)%Q). set (Y := (bT + ab)%Q).
  assert (0 < X)%Q as HX by (subst X; lra). assert (0 < Y)%Q as HY by (subst Y; lra).
  assert (X <= Y)%Q as HXY by (subst X Y; lra).
  assert (Y <= 21002 * bT)%Q as HYb by (subst Y; lra).
  assert ((37 # 100) * bT <= Y - X)%Q as Hgap by (subst X Y; lra).
  assert (e * Y <= (1 # 1000000000000) * Y)%Q as HeY
    by (apply Qmult_le_compat_r; lra).
  assert (0 <= e * Y)%Q as HeY0 by (apply Qmult_le_0_compat; lra).
  assert (e * X <= e * Y)%Q as HeX by (apply Qmult_le_l_weak; lra).
  assert (0 <= e * X)%Q as HeX0 by (apply Qmult_le_0_compat; lra).
  assert (0 <= e * (e * X))%Q as HeeX by (apply Qmult_le_0_compat; lra).
  assert (e * (e * X) <= (1 # 1000000000000) * (e * X))%Q as HeeX1
    by (apply Qmult_le_compat_r; lra).
  assert (0 <= e * (e * Y))%Q as HeeY by (apply Qmult_le_0_compat; lra).
  assert ((1 + e) * a * ((1 + 50 * e) * (T + b)) < (1 - e) * b * ((1 - 25 * e) * (T + a)))%Q as M.
  { assert ((1 + e) * a * ((1 + 50 * e) * (T + b)) == X + 51 * (e * X) + 50 * (e * (e * X)))%Q
      as -> by (subst X aT ab; ring).
    assert ((1 - e) * b * ((1 - 25 * e) * (T + a)) == Y - 26 * (e * Y) + 25 * (e * (e * Y)))%Q
      as -> by (subst Y bT ab; ring).
    lra. }
  assert ((1 + e) * a * S0 < (1 - e) * b * S1)%Q as K.
  { assert ((1 + e) * a * S0 <= (1 + e) * a * ((1 + 50 * e) * (T + b)))%Q
      by (apply Qmult_le_l_weak; [|exact HS0b]; apply Qmult_le_0_compat; lra).
    assert ((1 - e) * b * ((1 - 25 * e) * (T + a)) <= (1 - e) * b * S1)%Q
      by (apply Qmult_le_l_weak; [|exact HS1b]; apply Qmult_le_0_compat; lra).
    lra. }
  assert ((1 + e) * (a / S1) < (1 - e) * (b / S0))%Q; [|lra].
  apply (Qmult_lt_r _ _ (S0 * S1)); [apply Qmult_lt_0_compat; assumption|].
  assert ((1 + e) * (a / S1) * (S0 * S1) == (1 + e) * a * S0)%Q as -> by (field; lra).
  assert ((1 - e) * (b / S0) * (S0 * S1) == (1 - e) * b * S1)%Q as -> by (field; lra).
  exact K.
Qed.

Lemma map_set_nth {A B : Type} (f : A -> B) (l : list A) (i : nat) (v : A) :
  List.map f (JSArray.set_nth l i v) = JSArray.set_nth (List.map f l) i (f v).
Proof.
  revert i. induction l as [|y l IH]; intros i; [reflexivity|].
  destruct i; cbn; [reflexivity | now rewrite IH].
Qed.

Lemma sumQ_ge_others (V : list Q) (m : Q) :
  Forall (fun v => m <= v)%Q V ->
  forall i : nat, (i < length V)%nat ->
    (nth i V 0 + inject_Z (Z.of_nat (length V - 1)) * m <= sumQ V)%Q.
Proof.
  induction 1 as [|v V Hv HV IH]; intros i Hi; cbn [length] in Hi; [lia|].
  cbn [sumQ length]. replace (S (length V) - 1)%nat with (length V) by lia.
  destruct i as [|i]; cbn [nth].
  - assert (inject_Z (Z.of_nat (length V)) * m <= sumQ V)%Q; [|lra].
    clear IH Hi. induction HV as [|w V Hw HV IH]; cbn [length sumQ].
    + change (inject_Z (Z.of_nat 0)) with 0%Q. lra.
    + rewrite Nat2Z.inj_succ. unfold Z.succ. rewrite inject_Z_plus.
      change (inject_Z 1) with 1%Q. lra.
  - specialize (IH i ltac:(lia)).
    destruct V as [|w V]; [cbn in Hi; lia|].
    cbn [length] in *. replace (S (length V) - 1)%nat with (length V) in IH by lia.
    rewrite Nat2Z.inj_succ. unfold Z.succ. rewrite inject_Z_plus.
    change (inject_Z 1) with 1%Q. lra.
Qed.

Lemma sumQ_le_length (hi : Q) (V : list Q) :
  Forall (fun v => v <= hi)%Q V -> (sumQ V <= inject_Z (Z.of_nat (length V)) * hi)%Q.
Proof.
  induction 1 as [|v V Hv _ IH]; cbn [sumQ length].
  - change (inject_Z (Z.of_nat 0)) with 0%Q. lra.
  - rewrite Nat2Z.inj_succ. unfold Z.succ. rewrite inject_Z_plus.
    change (inject_Z 1) with 1%Q. lra.
Qed.

(** The renormalization of 25 positive finite numbers divides each by
    their sum, which is within 50 roundings of the exact sum. *)
Lemma renormalize64 (Y : list float) :
  Forall (within (1 # 1099511627776) 1099511627776) Y -> length Y = 25%nat ->
  exists S : float,
    renormalize (JSArray.dense Y) = JSArray.dense (List.map (fun p => (p / S)%float) Y) /\
    pfinite S /\
    ((1 - 25 * u) * sumQ (List.map F2Q Y) <= F2Q S)%Q /\
    (F2Q S <= (1 + 50 * u) * sumQ (List.map F2Q Y))%Q /\
    (sumQ (List.map F2Q Y) <= 27487790694400)%Q.
Proof.
  intros HY Hlen. unfold renormalize. cbn zeta. rewrite reduce_dense.
  change (@num_add float _) with PrimFloat.add.
  assert (sumQ (List.map F2Q Y) <= 27487790694400)%Q as Hbig.
  { pose proof (sumQ_le_length 1099511627776 (List.map F2Q Y)) as H.
    rewrite length_map, Hlen in H. change (inject_Z (Z.of_nat 25)) with 25%Q in H.
    assert (25 * 1099511627776 == 27487790694400)%Q as E by reflexivity.
    rewrite <- E. apply H. apply Forall_forall. intros v Hv.
    apply in_map_iff in Hv. destruct Hv as (y & <- & Hy).
    rewrite Forall_forall in HY. now destruct (HY y Hy) as (_ & _ & ?). }
  destruct (sum_from_zero (1 # 1099511627776) 1099511627776 Y (num_of_nat 0))
    as (HSf & HSlo & HShi).
  - exact zero_pzero.
  - vm_compute. discriminate.
  - exact HY.
  - intros E. rewrite E in Hlen. discriminate Hlen.
  - lia.
  - assert (27487790694400 <= pow2 400)%Q by (vm_compute; discriminate). lra.
  - set (S := fold_left PrimFloat.add Y (num_of_nat 0)) in *.
    rewrite Hlen in HSlo, HShi. change (inject_Z (Z.of_nat 25)) with 25%Q in HSlo, HShi.
    exists S. split; [|split; [exact HSf|]].
    + change (@num_gt float _ S (num_of_nat 0)) with (PrimFloat.ltb (num_of_nat 0) S).
      rewrite (ltb_zero S (num_of_nat 0) zero_pzero HSf).
      rewrite map_dense. reflexivity.
    + split; [|split; [|exact Hbig]].
      * exact HSlo.
      * assert ((1 + 2 * (25 * u)) * sumQ (List.map F2Q Y)
                == (1 + 50 * u) * sumQ (List.map F2Q Y))%Q as E by ring.
        rewrite <- E. exact HShi.
Qed.

Lemma window_length (winners : list WinnerRecord) (maxRounds : Z) :
  0 <= maxRounds -> (length (window winners maxRounds) <= Z.to_nat maxRounds)%nat.
Proof.
  intros H. unfold window, JSArray.slice0.
  destruct (Z.ltb_spec maxRounds 0); [lia|]. rewrite length_firstn. lia.
Qed.

Lemma nth_map_in {A B : Type} (f : A -> B) (l : list A) (i : nat) (d : A) (d' : B) :
  (i < length l)%nat -> nth i (List.map f l) d' = f (nth i l d).
Proof.
  intros Hi. rewrite (nth_indep _ d' (f d)) by now rewrite length_map.
  apply map_nth.
Qed.

Lemma nth_map_F2Q (Y : list float) (i : nat) :
  nth i (List.map F2Q Y) 0%Q = F2Q (nth i Y 0%float).
Proof. change 0%Q with (F2Q 0%float). apply map_nth. Qed.

(** ** The penalty for the latest winner, in binary64 *)

(** C7, as the code has it, in the arithmetic of the script.  Let square
    [s] (in [0, 24]) have won the most recent round of the window, with an
    [alpha] between [2^-10] and [2^10] (the default and the value [main]
    passes are 1), a window of at most 30 rounds, weights between [2^-10]
    and 2 from [Math.pow], and a second most recent entry that does not
    write past the 25 squares.  Then both the output for [s] and the
    output for [s] of the same computation with the multiplier 0.6 for the
    most recent round left out are positive finite binary64 numbers, and
    the first is strictly lower: [x < y] holds in JavaScript.  (It is not
    in general lower than the output on the history with that win
    removed.) *)
Theorem recent_winner_penalised (pow : float -> float -> float)
  (winners : list WinnerRecord) (options : Options float) (s : Z) :
  let alpha := nullish (opt_alpha options) (num_of_nat 1) in
  let halfLife := nullish (opt_halfLife options) (num_of_nat 10) in
  let maxRounds := nullish (opt_maxRounds options) 30 in
  let sorted := window winners maxRounds in
  within (1 # 1024) 1024 alpha ->
  0 <= maxRounds <= 30 ->
  weights_within pow halfLife (length sorted) ->
  blockNumber_at sorted 0 = IntVal s ->
  0 <= s < 25 ->
  no_stray_write (blockNumber_at sorted 1) ->
  exists x y : float,
    nth (Z.to_nat s) (dirichletTimeDecayedPriors pow winners options) None = Some x /\
    nth (Z.to_nat s) (withoutRecentPenalty pow winners options) None = Some y /\
    pfinite x /\ pfinite y /\
    PrimFloat.ltb x y = true /\ (F2Q x < F2Q y)%Q.
Proof.
  intros alpha halfLife maxRounds sorted Halpha Hmax Hpow Erecent Hs Hprev.
  unfold dirichletTimeDecayedPriors, withoutRecentPenalty, antiStreak. cbn zeta.
  fold alpha halfLife maxRounds. fold sorted. rewrite Erecent.
  set (prev := blockNumber_at sorted 1) in *.
  destruct u_bounds as [Hu0 Hu1]. pose proof u_tiny as Hu2.
  pose proof (window_length winners maxRounds ltac:(lia)) as Hwin. fold sorted in Hwin.
  destruct (posteriorMean64 pow sorted alpha halfLife Halpha ltac:(lia) Hpow)
    as (P & D & -> & Hlen & HD0 & HD1 & HP).
  destruct Halpha as (Haf & HA0 & HA1). set (A := F2Q alpha) in *.
  set (i := Z.to_nat s). assert (i < 25)%nat as Hi by (subst i; lia).
  (* the two penalised arrays *)
  rewrite (penalise64 (IntVal s) num_0_6 P Hlen) by (cbn; lia).
  assert (pen64 (IntVal s) num_0_6 P
          = JSArray.set_nth P i (nth i P 0 * num_0_6)%float) as ->.
  { cbn [pen64]. destruct (Z.leb_spec 0 s), (Z.ltb_spec s 25); cbn [andb]; (reflexivity || lia). }
  assert (length (JSArray.set_nth P i (nth i P 0 * num_0_6)%float) = 25%nat) as Hlen1
    by now rewrite length_set_nth.
  rewrite (penalise64 prev num_0_8 _ Hlen1 Hprev).
  rewrite (penalise64 prev num_0_8 P Hlen Hprev).
  destruct (pen64_after_recent prev P i num_0_6 num_0_8 Hlen Hi) as (EY1 & Hab & HY0).
  set (Y0 := pen64 prev num_0_8 P) in *.
  set (Y1 := pen64 prev num_0_8 (JSArray.set_nth P i (nth i P 0 * num_0_6)%float)) in *.
  set (a := nth i Y1 0%float) in *. set (b := nth i Y0 0%float) in *.
  assert (length Y0 = 25%nat) as HlenY0 by (subst Y0; now rewrite length_pen64).
  (* every entry of the posterior mean, and what the multipliers make of it *)
  assert (forall j : nat, (j < 25)%nat -> entry_ok A D (1 # 2) (nth j P 0%float)) as HPj.
  { intros j Hj. apply (Forall_nth_in _ P j 0%float HP). lia. }
  assert (forall p : float, entry_ok A D (1 # 2) p ->
            entry_ok A D (39 # 100) (p * num_0_8)%float /\
            ((99 # 100) * (8 # 10) * F2Q p <= F2Q (p * num_0_8)%float)%Q /\
            (F2Q (p * num_0_8)%float <= (101 # 100) * (801 # 1000) * F2Q p)%Q) as H8.
  { intros p Hp.
    destruct (entry_scale A D (1 # 2) (8 # 10) (801 # 1000) p num_0_8) as (Ho & Hl & Hh);
      try assumption; try lra; [exact c8_value|].
    split; [|split; assumption].
    apply (entry_ok_weaken A D ((99 # 100) * (8 # 10) * (1 # 2))); [lra | lra | exact Ho]. }
  assert (forall p : float, entry_ok A D (1 # 2) p ->
            entry_ok A D (29 # 100) (p * num_0_6)%float /\
            (F2Q (p * num_0_6)%float <= (101 # 100) * (6 # 10) * F2Q p)%Q) as H6.
  { intros p Hp.
    destruct (entry_scale A D (1 # 2) (599 # 1000) (6 # 10) p num_0_6) as (Ho & Hl & Hh);
      try assumption; try lra; [exact c6_value|].
    split; [|assumption].
    apply (entry_ok_weaken A D ((99 # 100) * (599 # 1000) * (1 # 2))); [lra | lra | exact Ho]. }
  assert (Forall (entry_ok A D (39 # 100)) Y0) as HY0ok.
  { apply Forall_nth. intros j d Hj. rewrite HlenY0 in Hj.
    rewrite (nth_indep Y0 d 0%float) by lia.
    destruct (HY0 j Hj) as [-> | ->].
    - apply (entry_ok_weaken A D (1 # 2)); [lra | lra | now apply HPj].
    - apply H8. now apply HPj. }
  assert (entry_ok A D (39 # 100) b) as Hb
    by (apply (Forall_nth_in _ Y0 i 0%float HY0ok); lia).
  assert (entry_ok A D (1 # 5) a /\ (F2Q a <= (63 # 100) * F2Q b)%Q) as (Ha & Hab').
  { pose proof (HPj i Hi) as Hp. pose proof (pfinite_pos _ (proj1 Hp)) as Hppos.
    destruct Hab as [(Eb & Ea) | (Eb & Ea)]; fold a b in Ea, Eb; rewrite Ea, Eb.
    - destruct (H6 _ Hp) as (Ho & Hh). split.
      + apply (entry_ok_weaken A D (29 # 100)); [lra | lra | exact Ho].
      + lra.
    - destruct (H6 _ Hp) as (Ho6 & Hh6). destruct (H8 _ Hp) as (_ & Hl8 & _).
      destruct (entry_scale A D (29 # 100) (8 # 10) (801 # 1000) (nth i P 0 * num_0_6)%float
                            num_0_8) as (Ho & _ & Hh);
        try assumption; try lra; [exact c8_value|].
      split.
      + apply (entry_ok_weaken A D ((99 # 100) * (8 # 10) * (29 # 100))); [lra | lra | exact Ho].
      + lra. }
  assert (Forall (entry_ok A D (1 # 5)) Y1) as HY1ok.
  { rewrite EY1. apply Forall_set_nth; [|exact Ha].
    eapply Forall_impl; [|exact HY0ok]. intros y. apply entry_ok_weaken; lra. }
  assert (length Y1 = 25%nat) as HlenY1 by (rewrite EY1, length_set_nth; exact HlenY0).
  assert (forall y c, (1 # 5 <= c)%Q -> entry_ok A D c y ->
            within (1 # 1099511627776) 1099511627776 y) as Hrange
    by (intros y c Hc; apply entry_range; assumption).
  (* the two sums *)
  destruct (renormalize64 Y1) as (S1 & -> & HS1f & HS1lo & HS1hi & HS1big);
    [eapply Forall_impl; [|exact HY1ok]; intros y; apply Hrange; lra | exact HlenY1 |].
  destruct (renormalize64 Y0) as (S0 & -> & HS0f & HS0lo & HS0hi & HS0big);
    [eapply Forall_impl; [|exact HY0ok]; intros y; apply Hrange; lra | exact HlenY0 |].
  rewrite (nth_dense _ i 0%float) by (rewrite length_map; lia).
  rewrite (nth_dense _ i 0%float) by (rewrite length_map; lia).
  rewrite !(nth_map_in _ _ _ 0%float 0%float) by lia.
  fold a b.
  (* exact sums *)
  set (V0 := List.map F2Q Y0) in *.
  assert (List.map F2Q Y1 = JSArray.set_nth V0 i (F2Q a)) as EV1
    by (rewrite EY1 at 1; apply map_set_nth).
  rewrite EV1 in HS1lo, HS1hi, HS1big.
  assert (length V0 = 25%nat) as HlenV0 by (subst V0; now rewrite length_map).
  pose proof (SmartPicksProps.sumQ_set_nth V0 i (F2Q a) ltac:(lia)) as Esum.
  assert (nth i V0 0%Q = F2Q b) as Eb by (subst V0 b; apply nth_map_F2Q).
  rewrite Eb in Esum.
  set (m := ((39 # 100) * A / D)%Q).
  assert (m * D == (39 # 100) * A)%Q as Em by (subst m; field; lra).
  assert (Forall (fun v => m <= v)%Q V0) as HV0.
  { apply Forall_forall. intros v Hv. apply in_map_iff in Hv. destruct Hv as (y & <- & Hy).
    rewrite Forall_forall in HY0ok. destruct (HY0ok y Hy) as (_ & Hlo & _).
    apply (Qmult_pos_cancel_le _ _ D); lra. }
  pose proof (sumQ_ge_others V0 m HV0 i ltac:(lia)) as Hothers.
  rewrite Eb, HlenV0 in Hothers. change (inject_Z (Z.of_nat (25 - 1))) with 24%Q in Hothers.
  set (T := (sumQ V0 - F2Q b)%Q).
  pose proof (pfinite_pos a (proj1 Ha)) as Hapos.
  pose proof (pfinite_pos b (proj1 Hb)) as Hbpos.
  assert ((3 # 100000) * F2Q b <= T)%Q as HT.
  { destruct Hb as (_ & _ & Hbhi).
    apply (Qmult_pos_cancel_le _ _ D); [lra|].
    assert (24 * m * D <= T * D)%Q by (apply Qmult_le_compat_r; subst T; lra).
    nra. }
  assert (0 < T)%Q as HTpos by lra.
  (* the two quotients *)
  pose proof (Hrange a (1 # 5) ltac:(lra) Ha) as (_ & Ralo & Rahi).
  pose proof (Hrange b (39 # 100) ltac:(lra) Hb) as (_ & Rblo & Rbhi).
  assert (pow2 (-500) <= 1 # 2199023255552)%Q as P500 by (vm_compute; discriminate).
  assert (54975581388800 <= pow2 500)%Q as B500 by (vm_compute; discriminate).
  destruct (div_correct a S1 (proj1 Ha) HS1f) as [Hxf Hxnear]; [lra | lra | nra | nra |].
  destruct (div_correct b S0 (proj1 Hb) HS0f) as [Hyf Hynear]; [lra | lra | nra | nra |].
  apply near_bounds in Hxnear, Hynear.
  assert (F2Q (a / S1)%float < F2Q (b / S0)%float)%Q as Hlt.
  { apply (share_lowered_rounded u (F2Q a) (F2Q b) T (F2Q S0) (F2Q S1)); try lra.
    - pose proof (pfinite_pos S0 HS0f). lra.
    - pose proof (pfinite_pos S1 HS1f). lra.
    - subst T. assert (sumQ V0 - F2Q b + F2Q b == sumQ V0)%Q as -> by ring. exact HS0hi.
    - subst T. rewrite <- Esum. exact HS1lo. }
  exists (a / S1)%float, (b / S0)%float.
  split; [reflexivity|]. split; [reflexivity|]. split; [exact Hxf|]. split; [exact Hyf|].
  split; [|exact Hlt]. apply ltb_correct; assumption.
Qed.

(** Square 5 won the two latest of three rounds, with no decay. *)
Lemma recent_winner_penalised_witness :
  exists x y : float,
    nth 5 (dirichletTimeDecayedPriors Math_pow_fixed three_rounds no_decay) None = Some x /\
    nth 5 (withoutRecentPenalty Math_pow_fixed three_rounds no_decay) None = Some y /\
    PrimFloat.ltb x y = true.
Proof.
  destruct (recent_winner_penalised Math_pow_fixed three_rounds no_decay 5)
    as (x & y & Hx & Hy & _ & _ & Hlt & _).
  - split; [eexists _, _; reflexivity | split; vm_compute; discriminate].
  - vm_compute. split; discriminate.
  - intros i Hi. vm_compute in Hi.
    destruct i as [|[|[|i]]]; try lia;
      (split; [eexists _, _; reflexivity | split; vm_compute; discriminate]).
  - reflexivity.
  - lia.
  - vm_compute. left. reflexivity.
  - exists x, y. split; [exact Hx|]. split; [exact Hy | exact Hlt].
Defined.

(** ** The sum of the outputs, in binary64 *)

(** Why [alpha] is bounded from below: with [alpha = 1e-30] the 24 other
    squares weigh nothing against the single winner in binary64, and its
    output is exactly 1 with the penalty and without it. *)
Lemma tiny_alpha_hides_penalty :
  nth 5 (dirichletTimeDecayedPriors Math_pow_fixed (one_round (IntVal 5)) tiny_alpha) None
  = Some 1%float /\
  nth 5 (withoutRecentPenalty Math_pow_fixed (one_round (IntVal 5)) tiny_alpha) None
  = Some 1%float.
Proof. split; vm_compute; reflexivity. Qed.

Lemma pen64_ok (A D c clo chi : Q) (b : BlockNumber) (k : float) (l : list float) :
  (1 # 1024 <= A)%Q -> (A <= 1024)%Q -> (1 # 64 <= D)%Q -> (D <= 65536)%Q ->
  (1 # 5 <= c)%Q -> within clo chi k -> (1 # 2 <= clo)%Q -> (chi <= 99 # 100)%Q ->
  length l = 25%nat ->
  Forall (entry_ok A D c) l ->
  Forall (entry_ok A D ((99 # 100) * clo * c)) (pen64 b k l).
Proof.
  intros HA0 HA1 HD0 HD1 Hc Hk Hlo Hhi Hlen Hl.
  assert (clo <= 1)%Q as Hclo by (destruct Hk as (_ & ? & ?); lra).
  assert ((99 # 100) * clo * c <= c)%Q as Hcc.
  { assert (0 <= (1 - (99 # 100) * clo) * c)%Q by (apply Qmult_le_0_compat; lra). lra. }
  assert (Forall (entry_ok A D ((99 # 100) * clo * c)) l) as Hl'.
  { eapply Forall_impl; [|exact Hl]. intros y. apply entry_ok_weaken; lra. }
  destruct b as [i|]; [|exact Hl']. cbn [pen64].
  destruct ((0 <=? i) && (i <? 25)) eqn:Erange; [|exact Hl'].
  apply andb_prop in Erange. destruct Erange as [H0 H25].
  apply Z.leb_le in H0. apply Z.ltb_lt in H25.
  apply Forall_set_nth; [exact Hl'|].
  apply (entry_scale A D c clo chi); try assumption.
  apply Forall_nth_in; [exact Hl | lia].
Qed.

Lemma sumQ_div_bounds (Y : list float) (S : float) (vS : Q) :
  (forall y, In y Y ->
     ((1 - u) * (F2Q y / vS) <= F2Q (y / S)%float)%Q /\
     (F2Q (y / S)%float <= (1 + u) * (F2Q y / vS))%Q) ->
  ((1 - u) * (sumQ (List.map F2Q Y) / vS)
   <= sumQ (List.map F2Q (List.map (fun p => (p / S)%float) Y)))%Q /\
  (sumQ (List.map F2Q (List.map (fun p => (p / S)%float) Y))
   <= (1 + u) * (sumQ (List.map F2Q Y) / vS))%Q.
Proof.
  induction Y as [|y Y IH]; intros H; cbn [List.map sumQ].
  - unfold Qdiv. split; ring_simplify; apply Qle_refl.
  - destruct (H y (or_introl eq_refl)) as [Hlo Hhi].
    destruct IH as [IHlo IHhi]; [intros z Hz; apply H; now right|].
    assert ((F2Q y + sumQ (List.map F2Q Y)) / vS
            == F2Q y / vS + sumQ (List.map F2Q Y) / vS)%Q as -> by (unfold Qdiv; ring).
    split; lra.
Qed.

(** The ratio of an exact sum to its rounded sum. *)
Lemma ratio_bounds (Sigma vS : Q) :
  (0 < Sigma)%Q ->
  ((1 - 25 * u) * Sigma <= vS)%Q -> (vS <= (1 + 50 * u) * Sigma)%Q ->
  (1 - 51 * u <= (1 - u) * (Sigma / vS))%Q /\ ((1 + u) * (Sigma / vS) <= 1 + 27 * u)%Q.
Proof.
  intros HS Hlo Hhi. destruct u_bounds as [Hu0 Hu1].
  assert (0 < vS)%Q as HvS by nra.
  set (q := (Sigma / vS)%Q). assert (q * vS == Sigma)%Q as Eq by (subst q; field; lra).
  assert (0 < q)%Q as Hq by (subst q; apply Qlt_shift_div_l; lra).
  assert ((1 - 25 * u) * q <= 1)%Q as H1.
  { apply (Qmult_pos_cancel_le _ _ vS HvS).
    assert (0 <= q * (vS - (1 - 25 * u) * Sigma))%Q by (apply Qmult_le_0_compat; lra).
    nra. }
  assert (1 <= (1 + 50 * u) * q)%Q as H2.
  { apply (Qmult_pos_cancel_le _ _ vS HvS).
    assert (0 <= q * ((1 + 50 * u) * Sigma - vS))%Q by (apply Qmult_le_0_compat; lra).
    nra. }
  assert (0 <= u * u)%Q as Huu by (apply Qmult_le_0_compat; lra).
  assert (u * u <= (1 # 1000000) * u)%Q as Huu1 by (apply Qmult_le_compat_r; lra).
  assert (0 <= (u * u) * q)%Q by (apply Qmult_le_0_compat; lra).
  assert (0 <= u * q)%Q by (apply Qmult_le_0_compat; lra).
  assert ((u * u) * q <= ((1 # 1000000) * u) * q)%Q by (apply Qmult_le_compat_r; lra).
  split.
  - (* (1 - 51u)(1 + 50u) <= 1 - u *)
    assert ((1 - 51 * u) * ((1 + 50 * u) * q) == (1 - u) * q - 2550 * ((u * u) * q))%Q as E by ring.
    assert (0 <= (1 - 51 * u) * ((1 + 50 * u) * q - 1))%Q by (apply Qmult_le_0_compat; lra).
    lra.
  - (* (1 + u) <= (1 + 27u)(1 - 25u) *)
    assert ((1 + 27 * u) * ((1 - 25 * u) * q) == (1 + u) * q + u * q - 675 * ((u * u) * q))%Q
      as E by ring.
    assert (0 <= (1 + 27 * u) * (1 - (1 - 25 * u) * q))%Q by (apply Qmult_le_0_compat; lra).
    lra.
Qed.

Lemma sumQ_pos_within (lo hi : Q) (Y : list float) :
  (0 < lo)%Q -> Forall (within lo hi) Y -> Y <> [] -> (0 < sumQ (List.map F2Q Y))%Q.
Proof.
  intros Hlo HY Hne. destruct HY as [|y Y (_ & Hy & _) HY]; [congruence|].
  cbn [List.map sumQ]. pose proof (sumQ_map_nonneg lo hi Y ltac:(lra) HY). lra.
Qed.

Lemma sumQ_ge_in (lo hi : Q) (Y : list float) (y : float) :
  (0 <= lo)%Q -> Forall (within lo hi) Y -> In y Y -> (F2Q y <= sumQ (List.map F2Q Y))%Q.
Proof.
  intros Hlo HY. induction HY as [|z Y (_ & Hz & _) HY IH]; intros Hin; [contradiction|].
  cbn [List.map sumQ]. pose proof (sumQ_map_nonneg lo hi Y Hlo HY).
  destruct Hin as [->|Hin]; [lra|]. specialize (IH Hin). lra.
Qed.

(** Probability mass, in the arithmetic of the script.  With an [alpha]
    between [2^-10] and [2^10], a window of at most 30 rounds, weights
    between [2^-10] and 2 from [Math.pow] and no write past the 25 squares
    by either of the two most recent entries, the output is an array of 25
    positive finite binary64 numbers.  Their values add up to 1 within
    [51 u] below and [27 u] above ([u = 2^-53]), and the sum as the script
    would compute it, [reduce((a, b) => a + b, 0)], is within [78 u] of
    1: the outputs need not add up to exactly 1. *)
Theorem priors_sum_near_one (pow : float -> float -> float)
  (winners : list WinnerRecord) (options : Options float) :
  let alpha := nullish (opt_alpha options) (num_of_nat 1) in
  let halfLife := nullish (opt_halfLife options) (num_of_nat 10) in
  let maxRounds := nullish (opt_maxRounds options) 30 in
  let sorted := window winners maxRounds in
  within (1 # 1024) 1024 alpha ->
  0 <= maxRounds <= 30 ->
  weights_within pow halfLife (length sorted) ->
  no_stray_write (blockNumber_at sorted 0) ->
  no_stray_write (blockNumber_at sorted 1) ->
  exists out : list float,
    dirichletTimeDecayedPriors pow winners options = JSArray.dense out /\
    length out = 25%nat /\
    Forall pfinite out /\
    (1 - 51 * u <= sumQ (List.map F2Q out))%Q /\
    (sumQ (List.map F2Q out) <= 1 + 27 * u)%Q /\
    pfinite (total (dirichletTimeDecayedPriors pow winners options)) /\
    (1 - 76 * u <= F2Q (total (dirichletTimeDecayedPriors pow winners options)))%Q /\
    (F2Q (total (dirichletTimeDecayedPriors pow winners options)) <= 1 + 78 * u)%Q.
Proof.
  intros alpha halfLife maxRounds sorted Halpha Hmax Hpow Hrecent Hprev.
  unfold dirichletTimeDecayedPriors, antiStreak. cbn zeta.
  fold alpha halfLife maxRounds. fold sorted.
  destruct u_bounds as [Hu0 Hu1]. pose proof u_tiny as Hu2.
  pose proof (window_length winners maxRounds ltac:(lia)) as Hwin. fold sorted in Hwin.
  destruct (posteriorMean64 pow sorted alpha halfLife Halpha ltac:(lia) Hpow)
    as (P & D & -> & Hlen & HD0 & HD1 & HP).
  destruct Halpha as (Haf & HA0 & HA1). set (A := F2Q alpha) in *.
  rewrite (penalise64 _ num_0_6 P Hlen Hrecent).
  set (Y1 := pen64 (blockNumber_at sorted 0) num_0_6 P).
  assert (length Y1 = 25%nat) as Hlen1 by (subst Y1; now rewrite length_pen64).
  assert (Forall (entry_ok A D ((99 # 100) * (599 # 1000) * (1 # 2))) Y1) as HY1.
  { apply (pen64_ok A D (1 # 2) (599 # 1000) (6 # 10)); try assumption; try lra.
    exact c6_value. }
  rewrite (penalise64 _ num_0_8 Y1 Hlen1 Hprev).
  set (Y := pen64 (blockNumber_at sorted 1) num_0_8 Y1).
  assert (length Y = 25%nat) as HlenY by (subst Y; now rewrite length_pen64).
  assert (Forall (entry_ok A D (1 # 5)) Y) as HY.
  { assert (Forall (entry_ok A D ((99 # 100) * (8 # 10) * ((99 # 100) * (599 # 1000) * (1 # 2))))
                   Y) as H.
    { apply (pen64_ok A D _ (8 # 10) (801 # 1000)); try assumption; try lra.
      exact c8_value. }
    eapply Forall_impl; [|exact H]. intros y. apply entry_ok_weaken; lra. }
  assert (Forall (within (1 # 1099511627776) 1099511627776) Y) as HYr.
  { eapply Forall_impl; [|exact HY]. intros y. apply entry_range; assumption || lra. }
  destruct (renormalize64 Y HYr HlenY) as (S & -> & HSf & HSlo & HShi & HSbig).
  set (Sigma := sumQ (List.map F2Q Y)) in *.
  assert (0 < Sigma)%Q as HSigma.
  { apply (sumQ_pos_within (1 # 1099511627776) 1099511627776 Y); [reflexivity | exact HYr|].
    intros E. rewrite E in HlenY. discriminate. }
  pose proof (pfinite_pos S HSf) as HSpos.
  assert (pow2 (-500) <= 1 # 2199023255552)%Q as P500 by (vm_compute; discriminate).
  assert (54975581388800 <= pow2 500)%Q as B500 by (vm_compute; discriminate).
  assert ((1 # 2) * Sigma <= F2Q S)%Q as HShalf.
  { assert (0 <= ((1 # 2) - 25 * u) * Sigma)%Q by (apply Qmult_le_0_compat; lra). lra. }
  assert (F2Q S <= 2 * Sigma)%Q as HStwice.
  { assert (0 <= (1 - 50 * u) * Sigma)%Q by (apply Qmult_le_0_compat; lra). lra. }
  (* each output *)
  assert (forall y, In y Y ->
            pfinite (y / S)%float /\
            ((1 - u) * (F2Q y / F2Q S) <= F2Q (y / S)%float)%Q /\
            (F2Q (y / S)%float <= (1 + u) * (F2Q y / F2Q S))%Q) as Hout.
  { intros y Hy. pose proof HYr as HYr0. rewrite Forall_forall in HYr0.
    destruct (HYr0 y Hy) as (Hyf & Hylo & Hyhi).
    pose proof (sumQ_ge_in (1 # 1099511627776) 1099511627776 Y y ltac:(discriminate) HYr Hy) as Hle. fold Sigma in Hle.
    destruct (div_correct y S Hyf HSf) as [Hf Hnear]; [lra | lra | lra | lra |].
    apply near_bounds in Hnear. split; [exact Hf | exact Hnear]. }
  set (out := List.map (fun p => (p / S)%float) Y).
  destruct (sumQ_div_bounds Y S (F2Q S)) as [Hsumlo Hsumhi];
    [intros y Hy; exact (proj2 (Hout y Hy))|].
  fold out Sigma in Hsumlo, Hsumhi.
  destruct (ratio_bounds Sigma (F2Q S) HSigma HSlo HShi) as [Rlo Rhi].
  assert (1 - 51 * u <= sumQ (List.map F2Q out))%Q as Tlo by lra.
  assert (sumQ (List.map F2Q out) <= 1 + 27 * u)%Q as Thi by lra.
  (* the range of the outputs *)
  assert (Forall (within (1 # 1237940039285380274899124224) 2) out) as Hrange.
  { apply Forall_forall. intros o Ho. apply in_map_iff in Ho. destruct Ho as (y & <- & Hy).
    destruct (Hout y Hy) as (Hf & Hlo & Hhi). split; [exact Hf|].
    pose proof HYr as HYr'. rewrite Forall_forall in HYr'.
    destruct (HYr' y Hy) as (Hyf & Hylo & Hyhi).
    pose proof (sumQ_ge_in (1 # 1099511627776) 1099511627776 Y y ltac:(discriminate) HYr Hy) as Hle. fold Sigma in Hle.
    set (q := (F2Q y / F2Q S)%Q) in *.
    assert (q * F2Q S == F2Q y)%Q as Eq by (subst q; field; lra).
    assert (0 < q)%Q as Hq by (subst q; apply Qlt_shift_div_l; lra).
    split.
    - assert ((1 # 618970019642690137449562112) <= q)%Q; [|nra].
      apply (Qmult_pos_cancel_le _ _ (F2Q S) HSpos).
      assert ((1 # 618970019642690137449562112) * F2Q S <= 1 # 1099511627776)%Q; [|lra].
      assert (F2Q S <= 54975581388800)%Q by lra.
      assert ((1 # 618970019642690137449562112) * 54975581388800 <= 1 # 1099511627776)%Q
        by (vm_compute; discriminate).
      lra.
    - assert (q <= Sigma / F2Q S)%Q.
      { apply (Qmult_pos_cancel_le _ _ (F2Q S) HSpos).
        assert (Sigma / F2Q S * F2Q S == Sigma)%Q as -> by (field; lra). lra. }
      assert (0 <= (1 + u) * (Sigma / F2Q S - q))%Q by (apply Qmult_le_0_compat; lra).
      lra. }
  exists out. split; [reflexivity|]. split; [subst out; now rewrite length_map|].
  split; [eapply Forall_impl; [|exact Hrange]; intros o Ho; exact (proj1 Ho)|].
  split; [exact Tlo|]. split; [exact Thi|].
  unfold total. rewrite reduce_dense. change (@num_add float _) with PrimFloat.add.
  assert (pow2 (-400) <= 1 # 1237940039285380274899124224)%Q as P400
    by (vm_compute; discriminate).
  destruct (sum_from_zero (1 # 1237940039285380274899124224) 2 out (num_of_nat 0)
              zero_pzero P400 Hrange) as (Hf & Hlo & Hhi).
  - subst out. intros E. apply map_eq_nil in E. rewrite E in HlenY. discriminate.
  - subst out. rewrite length_map. lia.
  - assert (2 <= pow2 400)%Q by (vm_compute; discriminate). lra.
  - assert (length out = 25%nat) as Hlo25 by (subst out; now rewrite length_map).
    rewrite Hlo25 in Hlo, Hhi. change (inject_Z (Z.of_nat 25)) with 25%Q in Hlo, Hhi.
    set (So := sumQ (List.map F2Q out)) in *.
    assert (0 <= u * u)%Q as Huu by (apply Qmult_le_0_compat; lra).
    assert (u * u <= (1 # 1000000) * u)%Q as Huu1 by (apply Qmult_le_compat_r; lra).
    split; [exact Hf|]. split.
    + assert (0 <= (1 - 25 * u) * (So - (1 - 51 * u)))%Q by (apply Qmult_le_0_compat; lra).
      nra.
    + assert (0 <= (1 + 2 * (25 * u)) * ((1 + 27 * u) - So))%Q by (apply Qmult_le_0_compat; lra).
      nra.
Qed.

(** The three rounds again, with no decay. *)
Lemma priors_sum_near_one_witness :
  exists out : list float,
    dirichletTimeDecayedPriors Math_pow_fixed three_rounds no_decay = JSArray.dense out /\
    length out = 25%nat /\
    (1 - 76 * u <= F2Q (total (dirichletTimeDecayedPriors Math_pow_fixed three_rounds no_decay)))%Q /\
    (F2Q (total (dirichletTimeDecayedPriors Math_pow_fixed three_rounds no_decay)) <= 1 + 78 * u)%Q.
Proof.
  destruct (priors_sum_near_one Math_pow_fixed three_rounds no_decay)
    as (out & E & Hlen & _ & _ & _ & _ & Hlo & Hhi).
  - split; [eexists _, _; reflexivity | split; vm_compute; discriminate].
  - vm_compute. split; discriminate.
  - intros i Hi. vm_compute in Hi.
    destruct i as [|[|[|i]]]; try lia;
      (split; [eexists _, _; reflexivity | split; vm_compute; discriminate]).
  - vm_compute. left. reflexivity.
  - vm_compute. left. reflexivity.
  - exists out. split; [exact E|]. split; [exact Hlen|]. split; assumption.
Defined.
End SmartPicks64.

(** * More on the state codec: layout, round trips, countdowns, the walk *)

Module CodecLayout.

Import Codec CodecProps.

(** ** Words and bytes *)

Lemma byte_val_byte_of (v : Z) : 0 <= v < 256 -> byte_val (byte_of v) = v.
Proof.
  intros Hv. unfold byte_of, byte_val.
  destruct (Byte.of_N (Z.to_N v)) as [b|] eqn:E.
  - apply Byte.to_of_N in E. rewrite E. lia.
  - apply Byte.of_N_None_iff in E. lia.
Qed.

Lemma byte_of_byte_val (b : byte) : byte_of (byte_val b) = b.
Proof.
  unfold byte_of, byte_val. rewrite N2Z.id, Byte.of_to_N. reflexivity.
Qed.

Lemma length_le_bytes (n : nat) (x : Z) : length (le_bytes n x) = n.
Proof.
  revert x. induction n as [|n IH]; intros x; [reflexivity|]. cbn. now rewrite IH.
Qed.

Lemma le_value_le_bytes (n : nat) (x : Z) :
  0 <= x < 256 ^ Z.of_nat n -> le_value (le_bytes n x) = x.
Proof.
  revert x. induction n as [|n IH]; intros x Hx.
  - cbn in *. lia.
  - cbn [le_bytes le_value].
    rewrite byte_val_byte_of by (apply Z.mod_pos_bound; lia).
    rewrite IH.
    + pose proof (Z.div_mod x 256). lia.
    + rewrite Nat2Z.inj_succ, Z.pow_succ_r in Hx by lia.
      split; [apply Z.div_pos; lia | apply Z.div_lt_upper_bound; lia].
Qed.

Lemma le_bytes_le_value (bs : list byte) : le_bytes (length bs) (le_value bs) = bs.
Proof.
  induction bs as [|b bs IH]; [reflexivity|].
  cbn [length le_bytes le_value].
  pose proof (byte_val_range b) as Hb.
  replace ((byte_val b + 256 * le_value bs) mod 256) with (byte_val b).
  2:{ rewrite (Z.mul_comm 256), Z.mod_add by lia. symmetry. apply Z.mod_small. lia. }
  replace ((byte_val b + 256 * le_value bs) / 256) with (le_value bs).
  2:{ rewrite (Z.mul_comm 256), Z.div_add by lia.
      rewrite (Z.div_small (byte_val b)) by lia. lia. }
  now rewrite byte_of_byte_val, IH.
Qed.

Lemma u64le_in_range (x : Z) :
  0 <= x < 2 ^ 64 -> u64leBytesFromBigInt x = Some (le_bytes 8 x).
Proof.
  intros Hx. unfold u64leBytesFromBigInt.
  destruct (Z.leb_spec 0 x), (Z.ltb_spec x (2 ^ 64)); cbn [andb]; (reflexivity || lia).
Qed.

Lemma u64le_out_of_range (x : Z) :
  x < 0 \/ 2 ^ 64 <= x -> u64leBytesFromBigInt x = None.
Proof.
  intros Hx. unfold u64leBytesFromBigInt.
  destruct (Z.leb_spec 0 x), (Z.ltb_spec x (2 ^ 64)); cbn [andb]; (reflexivity || lia).
Qed.

Lemma le64_le_bytes (x : Z) : 0 <= x < 2 ^ 64 -> le64 (le_bytes 8 x) 0 = Ok x.
Proof.
  intros Hx. unfold le64. rewrite getBigUint64_inside by (rewrite length_le_bytes; lia).
  cbn [skipn]. rewrite firstn_all2 by (rewrite length_le_bytes; lia).
  now rewrite le_value_le_bytes.
Qed.

(** [u64leBytesFromBigInt] and [le64] are inverse to each other: every
    unsigned 64-bit value is written as 8 bytes that read back as the value,
    every 8 bytes are what the value they read as is written as, and a value
    outside [0, 2^64) is refused. *)
Theorem u64le_round_trip :
  (forall x : Z, 0 <= x < 2 ^ 64 ->
     exists b : Buffer,
       u64leBytesFromBigInt x = Some b /\ length b = 8%nat /\ le64 b 0 = Ok x) /\
  (forall b : Buffer, length b = 8%nat ->
     exists x : Z,
       le64 b 0 = Ok x /\ 0 <= x < 2 ^ 64 /\ u64leBytesFromBigInt x = Some b) /\
  (forall x : Z, x < 0 \/ 2 ^ 64 <= x -> u64leBytesFromBigInt x = None).
Proof.
  split; [|split].
  - intros x Hx. exists (le_bytes 8 x). repeat split.
    + unfold u64leBytesFromBigInt.
      destruct (Z.leb_spec 0 x), (Z.ltb_spec x (2 ^ 64)); cbn [andb]; (reflexivity || lia).
    + unfold le64. rewrite getBigUint64_inside by (rewrite length_le_bytes; lia).
      cbn [skipn]. rewrite firstn_all2 by (rewrite length_le_bytes; lia).
      now rewrite le_value_le_bytes.
  - intros b Hb. exists (le_value b).
    pose proof (le_value_range b) as Hr. rewrite Hb in Hr.
    change (256 ^ Z.of_nat 8) with (2 ^ 64) in Hr.
    repeat split; try lia.
    + unfold le64. rewrite getBigUint64_inside by lia.
      cbn [skipn]. now rewrite firstn_all2 by lia.
    + unfold u64leBytesFromBigInt.
      destruct (Z.leb_spec 0 (le_value b)), (Z.ltb_spec (le_value b) (2 ^ 64));
        cbn [andb]; try lia.
      rewrite <- Hb at 1. now rewrite le_bytes_le_value.
  - intros x Hx. unfold u64leBytesFromBigInt.
    destruct (Z.leb_spec 0 x), (Z.ltb_spec x (2 ^ 64)); cbn [andb]; (reflexivity || lia).
Qed.

(** ** Fields at fixed offsets *)

Lemma word_at_skipn (acc : Buffer) (k o : nat) :
  word_at (skipn k acc) o = word_at acc (k + o).
Proof.
  unfold word_at. rewrite skipn_skipn.
  now replace (o + k)%nat with (k + o)%nat by lia.
Qed.

Lemma word_at_firstn (l : Buffer) (n o : nat) :
  (o + 8 <= n)%nat -> word_at (firstn n l) o = word_at l o.
Proof.
  intros H. unfold word_at. rewrite skipn_firstn_comm, firstn_firstn.
  now replace (Nat.min 8 (n - o)) with 8%nat by lia.
Qed.

Lemma word_at_range (buf : Buffer) (o : nat) : 0 <= word_at buf o < 2 ^ 64.
Proof.
  unfold word_at. pose proof (le_value_range (firstn 8 (skipn o buf))) as H.
  assert (length (firstn 8 (skipn o buf)) <= 8)%nat as Hl by (rewrite length_firstn; lia).
  assert (256 ^ Z.of_nat (length (firstn 8 (skipn o buf))) <= 256 ^ 8).
  { apply Z.pow_le_mono_r; lia. }
  change (256 ^ 8) with (2 ^ 64) in *. lia.
Qed.

Lemma le64_word (data : Buffer) (o : nat) :
  (o + 8 <= length data)%nat -> le64 data o = Ok (word_at data o).
Proof. intros H. unfold le64. now apply getBigUint64_inside. Qed.

Lemma read_u64s_words (data : Buffer) (n o : nat) :
  (o + 8 * n <= length data)%nat ->
  read_u64s data n o
  = Ok (List.map (fun i => word_at data (o + 8 * i)) (seq 0 n), (o + 8 * n)%nat).
Proof.
  revert o. induction n as [|n IH]; intros o H.
  - cbn. now rewrite Nat.add_0_r.
  - cbn [read_u64s]. rewrite le64_word by lia. cbn [bind].
    rewrite IH by lia. cbn [bind fst snd seq List.map].
    rewrite <- seq_shift, map_map.
    f_equal. f_equal; [f_equal; [f_equal; lia|] | lia].
    apply map_ext. intros i. f_equal. lia.
Qed.

Lemma decodeRoundBody_fields (data : Buffer) :
  (552 <= length data)%nat -> decodeRoundBody data = Ok (body_at_offsets data).
Proof.
  intros H. unfold decodeRoundBody. cbn zeta.
  repeat (first [ rewrite le64_word by (cbn; lia)
                | rewrite read_u64s_words by (cbn; lia) ];
          cbn [bind fst snd]).
  reflexivity.
Qed.

Lemma subarray_firstn (l : Buffer) (n a b : nat) :
  (a <= b <= n)%nat -> subarray (firstn n l) a b = subarray l a b.
Proof.
  intros H. unfold subarray. rewrite skipn_firstn_comm, firstn_firstn.
  now replace (Nat.min (b - a) (n - a)) with (b - a)%nat by lia.
Qed.

Lemma body_at_offsets_firstn (data : Buffer) :
  body_at_offsets (firstn 552 data) = body_at_offsets data.
Proof.
  unfold body_at_offsets.
  rewrite !subarray_firstn by lia.
  rewrite !word_at_firstn by lia.
  f_equal; apply map_ext_in; intros i Hi; apply in_seq in Hi;
    apply word_at_firstn; lia.
Qed.

Lemma body_at_offsets_skipn (accData : Buffer) :
  body_at_offsets (skipn 8 accData) = round_at_offsets accData.
Proof.
  unfold body_at_offsets, round_at_offsets, subarray.
  rewrite !word_at_skipn, !skipn_skipn. cbn [Nat.add Nat.sub].
  f_equal; apply map_ext; intros i; apply word_at_skipn.
Qed.

Lemma length_words (f : nat -> Z) (n : nat) : length (List.map f (seq 0 n)) = n.
Proof. now rewrite length_map, length_seq. Qed.

(** Both [decodeRound]s on an account of at least 560 bytes: the fields are
    the ones at the fixed offsets of the account data ([id] at 8,
    [deployed[i]] at [16 + 8 i], [slot_hash] at 216, [count[i]] at
    [248 + 8 i], [expires_at] at 448, [motherlode] at 456, the two addresses
    at 464 and 496, the four counters at 528, 536, 544 and 552).  There are
    25 deployed amounts and 25 counts, all below [2^64], and 32 bytes of slot
    hash.  Neither the discriminator nor a byte from 560 on has any
    influence. *)
Theorem decodeRound_fields (accData : Buffer) :
  (560 <= length accData)%nat ->
  decodeRound accData = Ok (round_at_offsets accData) /\
  decodeRound_ev accData
  = Ok {| sum_id := word_at accData 8;
          sum_deployed := List.map (fun i => word_at accData (16 + 8 * i)) (seq 0 25);
          sum_count := List.map (fun i => word_at accData (248 + 8 * i)) (seq 0 25);
          sum_total_deployed := word_at accData 536 |} /\
  length (deployed (round_at_offsets accData)) = 25%nat /\
  length (count (round_at_offsets accData)) = 25%nat /\
  length (slot_hash (round_at_offsets accData)) = 32%nat /\
  Forall (fun d => 0 <= d < 2 ^ 64) (deployed (round_at_offsets accData)) /\
  Forall (fun c => 0 <= c < 2 ^ 64) (count (round_at_offsets accData)) /\
  (forall other : Buffer,
     (560 <= length other)%nat ->
     firstn 552 (skipn 8 other) = firstn 552 (skipn 8 accData) ->
     decodeRound other = decodeRound accData).
Proof.
  intros Hlen.
  assert (forall acc : Buffer, (560 <= length acc)%nat ->
            decodeRound acc = Ok (round_at_offsets acc)) as Hdec.
  { intros acc Ha. unfold decodeRound.
    destruct (Nat.ltb_spec (length acc) 8); [lia|].
    unfold subarray_from.
    rewrite decodeRoundBody_fields by (rewrite length_skipn; lia).
    now rewrite body_at_offsets_skipn. }
  split; [now apply Hdec|]. split; [|split; [|split; [|split; [|split; [|split]]]]].
  - unfold decodeRound_ev, subarray_from.
    rewrite decodeRoundBody_fields by (rewrite length_skipn; lia).
    rewrite body_at_offsets_skipn. reflexivity.
  - apply length_words.
  - apply length_words.
  - cbn [slot_hash round_at_offsets]. rewrite length_firstn, length_skipn. lia.
  - apply Forall_forall. intros d Hd. cbn [deployed round_at_offsets] in Hd.
    apply in_map_iff in Hd. destruct Hd as (i & <- & _). apply word_at_range.
  - apply Forall_forall. intros d Hd. cbn [count round_at_offsets] in Hd.
    apply in_map_iff in Hd. destruct Hd as (i & <- & _). apply word_at_range.
  - intros other Ho Hsame. rewrite !Hdec by assumption. f_equal.
    rewrite <- !body_at_offsets_skipn, <- (body_at_offsets_firstn (skipn 8 other)),
      <- (body_at_offsets_firstn (skipn 8 accData)).
    now rewrite Hsame.
Qed.

(** A round account of 560 bytes [x01] decodes; changing the discriminator
    and appending bytes changes nothing. *)
Lemma decodeRound_fields_witness :
  decodeRound (repeat x09 8 ++ repeat x01 552 ++ repeat x07 3) = decodeRound (repeat x01 560).
Proof.
  apply (decodeRound_fields (repeat x01 560)).
  - rewrite repeat_length. lia.
  - rewrite !length_app, !repeat_length. lia.
  - reflexivity.
Defined.

(** Both [decodeBoard]s: below 32 bytes the checked one throws its own
    error and the unchecked one the out-of-bounds [RangeError]; from 32
    bytes on both return the three words at offsets 8, 16 and 24, so that
    the round id of a decoded board can always be written back as the seed
    of its round account. *)
Theorem decodeBoard_fields (accData : Buffer) :
  ((length accData < 32)%nat ->
     decodeBoard accData = Throw BoardDataTooShort /\
     decodeBoard_ev accData = Throw RangeErrorBounds) /\
  ((32 <= length accData)%nat ->
     decodeBoard accData = Ok (board_at_offsets accData) /\
     decodeBoard_ev accData = Ok (board_at_offsets accData) /\
     exists seed : Buffer,
       u64leBytesFromBigInt (round_id (board_at_offsets accData)) = Some seed /\
       le64 seed 0 = Ok (round_id (board_at_offsets accData))).
Proof.
  assert (length (subarray_from accData 8) = (length accData - 8)%nat) as Hl
    by apply length_skipn.
  split; intros H.
  - split.
    + unfold decodeBoard. destruct (Nat.ltb_spec (length accData) (8 + 24)); [reflexivity | lia].
    + unfold decodeBoard_ev. cbn zeta.
      repeat match goal with
        | |- context [le64 (subarray_from accData 8) ?o] =>
            unfold le64 at 1;
            destruct (Nat.leb_spec (o + 8) (length (subarray_from accData 8)));
            [ rewrite (getBigUint64_inside _ o) by lia; cbn [bind]
            | rewrite (getBigUint64_outside _ o) by lia; reflexivity ]
        end.
      lia.
  - assert (decodeBoard_ev accData = Ok (board_at_offsets accData)) as Hev.
    { unfold decodeBoard_ev, subarray_from. cbn zeta.
      rewrite !le64_word by (rewrite length_skipn; lia). cbn [bind].
      unfold board_at_offsets. now rewrite !word_at_skipn. }
    split; [|split; [exact Hev|]].
    + unfold decodeBoard. destruct (Nat.ltb_spec (length accData) (8 + 24)); [lia|].
      exact Hev.
    + pose proof (word_at_range accData 8) as Hr.
      exists (le_bytes 8 (word_at accData 8)). cbn [round_id board_at_offsets]. split.
      * now apply u64le_in_range.
      * now apply le64_le_bytes.
Qed.

Lemma decodeBoard_fields_witness :
  decodeBoard (repeat x00 31) = Throw BoardDataTooShort /\
  decodeBoard (repeat x02 32) = Ok (board_at_offsets (repeat x02 32)).
Proof.
  split.
  - apply (decodeBoard_fields (repeat x00 31)). rewrite repeat_length. lia.
  - apply (decodeBoard_fields (repeat x02 32)). rewrite repeat_length. lia.
Defined.

(** ** The winner of a decoded round *)

Lemma winningSquare_32 (buf : Buffer) :
  length buf = 32%nat ->
  winningSquareFromSlotHash buf
  = Ok (if isAll buf 0 then Unavailable
        else if isAll buf 255 then Refund
        else Resolved (Z.lxor (Z.lxor (Z.lxor (word_at buf 0) (word_at buf 8))
                                      (word_at buf 16)) (word_at buf 24) mod 25)).
Proof.
  intros Hlen. unfold winningSquareFromSlotHash.
  rewrite Hlen. cbn [Nat.eqb negb].
  destruct (isAll buf 0); [reflexivity|].
  destruct (isAll buf 255); [reflexivity|].
  rewrite !getBigUint64_inside by lia. cbn [bind]. fold (word_at buf 0) (word_at buf 8)
    (word_at buf 16) (word_at buf 24).
  rewrite Z.rem_mod_nonneg; [reflexivity | | lia].
  pose proof (word_at_range buf 0). pose proof (word_at_range buf 8).
  pose proof (word_at_range buf 16). pose proof (word_at_range buf 24).
  repeat (apply Z.lxor_nonneg; split; intros _); lia.
Qed.

Lemma all_zero_not_all_ff (buf : Buffer) :
  length buf = 32%nat -> isAll buf 0 = true -> isAll buf 255 = false.
Proof.
  intros Hlen Hz. destruct buf as [|b buf]; [discriminate|].
  cbn in *. apply andb_prop in Hz. destruct Hz as [Hb _].
  apply Z.eqb_eq in Hb. rewrite Hb. reflexivity.
Qed.

Lemma slot_hash_words (accData : Buffer) (o : nat) :
  (o + 8 <= 32)%nat ->
  word_at (firstn 32 (skipn 216 accData)) o = word_at accData (216 + o).
Proof.
  intros H. rewrite word_at_firstn by lia. apply word_at_skipn.
Qed.

(** The entry of a round account of at least 560 bytes: decoding and the
    winning square never throw; the id is the word at offset 8, and the
    square is decided by bytes 216 to 247 alone: unavailable exactly when
    they are all zero, a refund exactly when they are all [0xFF], and
    otherwise the index [(w216 XOR w224 XOR w232 XOR w240) mod 25] of the four
    words at these offsets, which lies in [0, 24]. *)
Theorem round_entry_winner (accData : Buffer) :
  (560 <= length accData)%nat ->
  let hash := firstn 32 (skipn 216 accData) in
  let index := Z.lxor (Z.lxor (Z.lxor (word_at accData 216) (word_at accData 224))
                              (word_at accData 232)) (word_at accData 240) mod 25 in
  exists w : WinningSquare,
    round_entry accData = Ok {| recent_id := word_at accData 8; recent_square := w |} /\
    (w = Unavailable <-> Forall (fun b => b = x00) hash) /\
    (w = Refund <-> Forall (fun b => b = xff) hash) /\
    (w = Resolved index <->
       ~ Forall (fun b => b = x00) hash /\ ~ Forall (fun b => b = xff) hash) /\
    (forall i : Z, w = Resolved i -> i = index) /\
    0 <= index <= 24.
Proof.
  intros Hlen hash index.
  assert (length hash = 32%nat) as Hh.
  { unfold hash. rewrite length_firstn, length_skipn. lia. }
  assert (decodeRound accData = Ok (round_at_offsets accData)) as Hdec.
  { unfold decodeRound. destruct (Nat.ltb_spec (length accData) 8); [lia|].
    unfold subarray_from.
    rewrite decodeRoundBody_fields by (rewrite length_skipn; lia).
    now rewrite body_at_offsets_skipn. }
  unfold round_entry. rewrite Hdec. cbn [bind slot_hash id round_at_offsets].
  fold hash. rewrite (winningSquare_32 hash Hh). cbn [bind].
  unfold hash at 3 4 5 6. rewrite !slot_hash_words by lia. cbn [Nat.add]. fold index.
  pose proof (isAll_Forall hash x00) as Hz. pose proof (isAll_Forall hash xff) as Hf.
  change (byte_val x00) with 0 in Hz. change (byte_val xff) with 255 in Hf.
  pose proof (all_zero_not_all_ff hash Hh) as Hzf.
  assert (0 <= index <= 24) as Hi.
  { unfold index.
    match goal with |- 0 <= ?x mod 25 <= 24 => pose proof (Z.mod_pos_bound x 25) end.
    lia. }
  eexists. split; [reflexivity|].
  destruct (isAll hash 0) eqn:E0; [|destruct (isAll hash 255) eqn:E1].
  - specialize (Hzf eq_refl).
    assert (Forall (fun b => b = x00) hash) as Fz by now apply Hz.
    assert (~ Forall (fun b => b = xff) hash) as Hnf by (rewrite <- Hf; congruence).
    repeat split; intros; try discriminate; try lia; tauto.
  - assert (~ Forall (fun b => b = x00) hash) as Hnz by (rewrite <- Hz; congruence).
    assert (Forall (fun b => b = xff) hash) as Ff by now apply Hf.
    repeat split; intros; try discriminate; try lia; tauto.
  - assert (~ Forall (fun b => b = x00) hash) as Hnz by (rewrite <- Hz; congruence).
    assert (~ Forall (fun b => b = xff) hash) as Hnf by (rewrite <- Hf; congruence).
    repeat split; intros; try discriminate; try lia; try congruence; tauto.
Qed.

(** A round account whose bytes are all [x01]: the four words are equal, so
    their XOR is zero and square 0 wins. *)
Lemma round_entry_winner_witness :
  exists w : WinningSquare,
    round_entry (repeat x01 560)
    = Ok {| recent_id := word_at (repeat x01 560) 8; recent_square := w |} /\
    (forall i : Z, w = Resolved i -> i = 0).
Proof.
  destruct (round_entry_winner (repeat x01 560)) as (w & E & _ & _ & _ & Hi & _).
  - rewrite repeat_length. lia.
  - exists w. split; [exact E|]. intros i Hw. now rewrite (Hi i Hw).
Defined.

(** ** The walk of [--recent] *)

Section RecentWalkProps.

Variable getAccountInfo : Buffer -> option Buffer.

Lemma round_entry_ok (data : Buffer) :
  (560 <= length data)%nat -> exists e : RecentEntry, round_entry data = Ok e.
Proof.
  intros Hlen. unfold round_entry, decodeRound.
  destruct (Nat.ltb_spec (length data) 8); [lia|].
  unfold subarray_from.
  rewrite decodeRoundBody_fields by (rewrite length_skipn; lia).
  cbn [bind slot_hash body_at_offsets].
  rewrite winningSquare_32.
  - cbn [bind]. eexists. reflexivity.
  - unfold subarray. rewrite length_firstn, !length_skipn. lia.
Qed.

Lemma recent_loop_walk (want : nat) :
  (forall seed data, getAccountInfo seed = Some data -> (560 <= length data)%nat) ->
  forall cur : Z, 0 <= cur < 2 ^ 64 ->
  exists l : list RecentEntry,
    recent_loop getAccountInfo want cur = Walked l /\
    (length l <= want)%nat /\
    Z.of_nat (length l) <= cur + 1 /\
    (forall i : nat, (i < length l)%nat ->
       exists data e,
         getAccountInfo (le_bytes 8 (cur - Z.of_nat i)) = Some data /\
         round_entry data = Ok e /\ nth_error l i = Some e) /\
    ((length l < want)%nat -> Z.of_nat (length l) < cur + 1 ->
       getAccountInfo (le_bytes 8 (cur - Z.of_nat (length l))) = None).
Proof.
  intros Hacc. induction want as [|want IH]; intros cur Hcur.
  - exists []. cbn. repeat split; intros; lia.
  - cbn [recent_loop].
    destruct (Z.ltb_spec cur 0); [lia|].
    rewrite u64le_in_range by lia.
    destruct (getAccountInfo (le_bytes 8 cur)) as [data|] eqn:Eacc.
    2:{ exists []. cbn [length]. repeat split; intros; try lia.
        now rewrite Z.sub_0_r. }
    destruct (round_entry_ok data (Hacc _ _ Eacc)) as (e & Ee). rewrite Ee.
    destruct (Z.eqb_spec cur 0) as [->|Hnz].
    + exists [e]. cbn [length]. repeat split; try lia.
      intros i Hi. assert (i = 0%nat) as -> by lia.
      exists data, e. now repeat split.
    + destruct (IH (cur - 1) ltac:(lia)) as (rest & Er & Hl & Hc & Hi & Hstop).
      rewrite Er. exists (e :: rest). cbn [length]. repeat split; try lia.
      * intros [|i] Hlt.
        -- exists data, e. rewrite Z.sub_0_r. now repeat split.
        -- destruct (Hi i ltac:(lia)) as (d' & e' & Ha & He & Hn).
           exists d', e'. replace (cur - Z.of_nat (S i)) with (cur - 1 - Z.of_nat i) by lia.
           now repeat split.
      * intros H1 H2.
        replace (cur - Z.of_nat (S (length rest))) with (cur - 1 - Z.of_nat (length rest)) by lia.
        apply Hstop; lia.
Qed.

Lemma recent_loop_seed (want : nat) (cur : Z) :
  2 ^ 64 <= cur -> recent_loop getAccountInfo (S want) cur = SeedRangeError.
Proof.
  intros H. cbn [recent_loop]. destruct (Z.ltb_spec cur 0); [lia|].
  now rewrite u64le_out_of_range by lia.
Qed.

End RecentWalkProps.

(** The walk of [--recent] from a round id of at most [2^64], when every
    account found holds at least 560 bytes: it never throws; it starts at
    the round before [roundId] (at round 0 when [roundId] is 0 or negative)
    and goes down one round at a time; the [i]-th result is the entry of the
    account under the seed of round [cur - i]; and it stops exactly when
    [want] results are there, when round 0 has been read, or at the first
    round whose account is missing.  From a round id above [2^64] a walk
    that wants a result throws the [RangeError] of the seed. *)
Theorem recent_walk (getAccountInfo : Buffer -> option Buffer) (roundId : Z) (want : nat) :
  let cur := if roundId >? 0 then roundId - 1 else 0 in
  (roundId <= 2 ^ 64 ->
   (forall seed data, getAccountInfo seed = Some data -> (560 <= length data)%nat) ->
   exists l : list RecentEntry,
     recentWinners getAccountInfo roundId want = Walked l /\
     (length l <= want)%nat /\
     Z.of_nat (length l) <= cur + 1 /\
     (forall i : nat, (i < length l)%nat ->
        exists data e,
          getAccountInfo (le_bytes 8 (cur - Z.of_nat i)) = Some data /\
          round_entry data = Ok e /\ nth_error l i = Some e) /\
     ((length l < want)%nat -> Z.of_nat (length l) < cur + 1 ->
        getAccountInfo (le_bytes 8 (cur - Z.of_nat (length l))) = None)) /\
  (2 ^ 64 < roundId -> (0 < want)%nat ->
   recentWinners getAccountInfo roundId want = SeedRangeError).
Proof.
  intros cur. split.
  - intros Hr Hacc. unfold recentWinners. fold cur.
    apply recent_loop_walk; [exact Hacc|].
    unfold cur. destruct (Z.gtb_spec roundId 0); lia.
  - intros Hr Hw. unfold recentWinners.
    destruct want as [|want]; [lia|].
    apply recent_loop_seed. destruct (Z.gtb_spec roundId 0); lia.
Qed.

(** A walk from round 3 that wants five results, over accounts for rounds 2
    and 1 only. *)
Lemma recent_walk_witness :
  exists l : list RecentEntry,
    recentWinners sample_accounts 3 5 = Walked l /\ (length l <= 5)%nat.
Proof.
  destruct (recent_walk sample_accounts 3 5) as [H _].
  destruct H as (l & E & Hl & _).
  - lia.
  - intros seed data Hs. destruct seed as [|b seed]; [discriminate|].
    assert (data = repeat x01 560) as ->
      by (destruct b; try discriminate Hs; cbv [sample_accounts] in Hs; congruence).
    rewrite repeat_length. lia.
  - exists l. split; assumption.
Defined.

(** ** The countdown *)

(** The countdown to a deadline that is set: the slots left are
    [deadline - currentSlot], or 0 when the deadline has passed; minutes and
    seconds are not negative, the seconds are at most 59, and together
    they are the whole seconds of the slots left at 0.4 s per slot.
    A deadline of [U64_MAX], and only that one, gives no countdown. *)
Theorem countdown_minutes_seconds (deadline currentSlot : Z) :
  (countdown deadline currentSlot = None <-> deadline = U64_MAX) /\
  (forall c : Countdown,
     countdown deadline currentSlot = Some c ->
     slots c = Z.max 0 (deadline - currentSlot) /\
     0 <= mins c /\ 0 <= secs c <= 59 /\
     60 * mins c + secs c = (2 * slots c) / 5).
Proof.
  unfold countdown. destruct (Z.eqb_spec deadline U64_MAX) as [E|E].
  - split; [tauto | discriminate].
  - split; [split; [discriminate | tauto]|].
    intros c Hc. injection Hc as <-. cbn [slots mins secs].
    set (remain := if deadline >? currentSlot then deadline - currentSlot else 0).
    assert (remain = Z.max 0 (deadline - currentSlot) /\ 0 <= remain) as [Hr Hpos].
    { unfold remain. destruct (Z.gtb_spec deadline currentSlot); lia. }
    split; [exact Hr|].
    rewrite Z.rem_mod_nonneg by lia.
    rewrite (Z.quot_div_nonneg remain) by lia.
    pose proof (Z.mod_pos_bound remain 150 ltac:(lia)) as Hm.
    rewrite Z.quot_div_nonneg by lia.
    pose proof (Z.div_mod remain 150 ltac:(lia)) as Hd.
    assert (0 <= remain / 150) by (apply Z.div_pos; lia).
    assert (remain mod 150 * 60 / 150 = (2 * (remain mod 150)) / 5) as Hs.
    { replace (remain mod 150 * 60) with (2 * (remain mod 150) * 30) by lia.
      change 150 with (5 * 30) at 2. rewrite Z.div_mul_cancel_r by lia. reflexivity. }
    rewrite Hs.
    assert (0 <= 2 * (remain mod 150) / 5 <= 59).
    { split; [apply Z.div_pos; lia|]. apply Z.lt_succ_r. apply Z.div_lt_upper_bound; lia. }
    repeat split; try lia.
    replace (2 * remain) with (2 * (remain mod 150) + 60 * (remain / 150) * 5) by lia.
    rewrite Z.div_add by lia. lia.
Qed.

(** ** Command-line arguments *)

Lemma indexOf_absent (name : String.string) (argv : list String.string) :
  ~ In name argv -> indexOf name argv = None.
Proof.
  induction argv as [|s argv IH]; intros H; [reflexivity|].
  cbn [indexOf]. destruct (String.eqb_spec s name) as [->|Hne].
  - exfalso. apply H. now left.
  - rewrite IH; [reflexivity|]. intros Hin. apply H. now right.
Qed.

Lemma indexOf_first (name : String.string) (pre post : list String.string) :
  ~ In name pre -> indexOf name (pre ++ name :: post) = Some (length pre).
Proof.
  induction pre as [|s pre IH]; intros H; cbn [indexOf app length].
  - now rewrite String.eqb_refl.
  - destruct (String.eqb_spec s name) as [->|Hne].
    + exfalso. apply H. now left.
    + rewrite IH; [reflexivity|]. intros Hin. apply H. now right.
Qed.

(** [getArg] returns the argument that follows the first occurrence of the
    flag, whatever that argument is; and the default when the flag does not
    occur or its first occurrence is the last argument. *)
Theorem getArg_first_occurrence (name : String.string) (def : option String.string) :
  (forall pre post v, ~ In name pre ->
     getArg (pre ++ name :: v :: post) name def = Some v) /\
  (forall pre, ~ In name pre -> getArg (pre ++ [name]) name def = def) /\
  (forall argv, ~ In name argv -> getArg argv name def = def).
Proof.
  split; [|split].
  - intros pre post v H. unfold getArg. rewrite indexOf_first by assumption.
    rewrite length_app. cbn [length].
    destruct (Nat.ltb_spec (length pre + 1) (length pre + S (S (length post)))); [|lia].
    rewrite nth_error_app2 by lia.
    replace (length pre + 1 - length pre)%nat with 1%nat by lia. reflexivity.
  - intros pre H. unfold getArg. rewrite indexOf_first by assumption.
    rewrite length_app. cbn [length].
    destruct (Nat.ltb_spec (length pre + 1) (length pre + 1)); [lia | reflexivity].
  - intros argv H. unfold getArg. now rewrite indexOf_absent.
Qed.

End CodecLayout.

(** * The expected value across squares *)

Module EvPicksOrder.

Import EvPicks EvPicksProps.

Lemma quot_mono (n1 n2 d1 d2 : Z) :
  0 <= n2 <= n1 -> 0 < d1 <= d2 -> Z.quot n2 d2 <= Z.quot n1 d1.
Proof.
  intros Hn Hd. rewrite !Z.quot_div_nonneg by lia.
  transitivity (n2 / d1).
  - apply Z.div_le_compat_l; lia.
  - apply Z.div_le_mono; lia.
Qed.

Lemma quot_25_mono (x y : Z) : 0 <= x <= y -> Z.quot x 25 <= Z.quot y 25.
Proof. intros H. apply quot_mono; lia. Qed.

(** For a positive stake, a square that holds more while the rest of the
    board holds no more than before is never the better bet: neither the
    payout [S_win] nor the expected value grows.  In particular, within one
    round ([T1 = T2]) the expected value does not increase with the amount
    already deployed on the square. *)
Theorem ev_less_crowded_not_worse (d1 d2 T1 T2 a : Z) :
  0 < a -> 0 <= d1 -> d1 <= d2 -> d2 <= T2 -> T2 - d2 <= T1 - d1 ->
  exists r1 r2 : EvResult,
    evForSquare d1 T1 a = Ok r1 /\ evForSquare d2 T2 a = Ok r2 /\
    S_win r2 <= S_win r1 /\ EV r2 <= EV r1.
Proof.
  intros Ha Hd1 Hd Hd2 Hpot.
  exists (ev_value d1 T1 a), (ev_value d2 T2 a).
  split; [apply evForSquare_nonzero; lia|].
  split; [apply evForSquare_nonzero; lia|].
  unfold ev_value. cbn [S_win EV].
  assert (Z.quot ((T2 + a - (d2 + a)) * a * 891) ((d2 + a) * 1000)
          <= Z.quot ((T1 + a - (d1 + a)) * a * 891) ((d1 + a) * 1000)) as Hshare.
  { apply quot_mono; [|lia].
    replace (T2 + a - (d2 + a)) with (T2 - d2) by lia.
    replace (T1 + a - (d1 + a)) with (T1 - d1) by lia.
    split; [apply Z.mul_nonneg_nonneg; [apply Z.mul_nonneg_nonneg|]; lia|].
    apply Z.mul_le_mono_nonneg_r; [lia|].
    apply Z.mul_le_mono_nonneg_r; lia. }
  assert (0 <= Z.quot ((T2 + a - (d2 + a)) * a * 891) ((d2 + a) * 1000)) as Hpos.
  { apply Z.quot_pos; [|lia].
    apply Z.mul_nonneg_nonneg; [apply Z.mul_nonneg_nonneg|]; lia. }
  assert (0 <= Z.quot (a * 99) 100) as Hbase by (apply Z.quot_pos; lia).
  split; [lia|].
  apply Z.add_le_mono_l. apply quot_25_mono. lia.
Qed.

Lemma ev_less_crowded_not_worse_witness :
  exists r1 r2 : EvResult,
    evForSquare 0 1000 100 = Ok r1 /\ evForSquare 400 1000 100 = Ok r2 /\
    S_win r2 <= S_win r1 /\ EV r2 <= EV r1.
Proof. apply (ev_less_crowded_not_worse 0 400 1000 1000 100); lia. Defined.

(** For a positive stake on a square that holds no more than the whole
    board: the payout is not negative and at most 99% of the stake plus
    89.1% of what the other squares hold; the expected value is never below
    the loss of the stake; and it is not positive unless the other squares
    hold more than [24010 / 891] (about 26.9) times what the square holds
    with the stake. *)
Theorem ev_bounds (d T a : Z) :
  0 < a -> 0 <= d -> d <= T ->
  exists r : EvResult,
    evForSquare d T a = Ok r /\
    0 <= S_win r <= (a * 99) / 100 + ((T - d) * 891) / 1000 /\
    - a <= EV r /\
    (891 * (T - d) <= 24010 * (d + a) -> EV r <= 0).
Proof.
  intros Ha Hd HT. exists (ev_value d T a).
  split; [apply evForSquare_nonzero; lia|].
  unfold ev_value. cbn [S_win EV].
  replace (T + a - (d + a)) with (T - d) by lia.
  set (pot := T - d). assert (0 <= pot) as Hpot by (unfold pot; lia).
  assert (0 <= pot * a * 891) as Hnum.
  { apply Z.mul_nonneg_nonneg; [apply Z.mul_nonneg_nonneg|]; lia. }
  rewrite (Z.quot_div_nonneg (a * 99)) by lia.
  rewrite (Z.quot_div_nonneg (pot * a * 891)) by lia.
  assert (0 <= a * 99 / 100) as Hb by (apply Z.div_pos; lia).
  assert (0 <= pot * a * 891 / ((d + a) * 1000)) as Hs by (apply Z.div_pos; lia).
  rewrite Z.quot_div_nonneg by lia.
  assert (pot * a * 891 / ((d + a) * 1000) <= pot * 891 / 1000) as Hup.
  { rewrite <- (Z.div_mul_cancel_l (pot * 891) 1000 (d + a)) by lia.
    apply Z.div_le_mono; [lia|].
    replace (pot * a * 891) with (a * (pot * 891)) by lia.
    apply Z.mul_le_mono_nonneg_r; lia. }
  assert (0 <= (a * 99 / 100 + pot * a * 891 / ((d + a) * 1000)) / 25) as Hq
    by (apply Z.div_pos; lia).
  split; [lia|]. split; [lia|].
  intros Hbreak.
  assert (pot * a * 891 / ((d + a) * 1000) <= a * 24010 / 1000) as Hcap.
  { rewrite <- (Z.div_mul_cancel_l (a * 24010) 1000 (d + a)) by lia.
    apply Z.div_le_mono; [lia|].
    replace (pot * a * 891) with (a * (891 * pot)) by lia.
    replace ((d + a) * (a * 24010)) with (a * (24010 * (d + a))) by lia.
    apply Z.mul_le_mono_nonneg_l; lia. }
  pose proof (Z.mul_div_le (a * 99) 100 ltac:(lia)) as H1.
  pose proof (Z.mul_div_le (a * 24010) 1000 ltac:(lia)) as H2.
  assert ((a * 99 / 100 + pot * a * 891 / ((d + a) * 1000)) / 25 <= a); [|lia].
  apply Z.div_le_upper_bound; lia.
Qed.

Lemma ev_bounds_witness :
  exists r : EvResult,
    evForSquare 400 1000 100 = Ok r /\
    0 <= S_win r <= (100 * 99) / 100 + ((1000 - 400) * 891) / 1000 /\
    - 100 <= EV r /\
    (891 * (1000 - 400) <= 24010 * (400 + 100) -> EV r <= 0).
Proof. apply (ev_bounds 400 1000 100); lia. Defined.

(** ** The three squares printed *)

Lemma for_range_inv {A : Type} (body : nat -> result A) (n start : nat) (xs : list A) :
  for_range body start n = Ok xs ->
  length xs = n /\
  forall x, In x xs -> exists i, (start <= i < start + n)%nat /\ body i = Ok x.
Proof.
  revert start xs. induction n as [|n IH]; intros start xs H; cbn [for_range] in H.
  - injection H as <-. split; [reflexivity|]. intros x [].
  - destruct (body start) as [x0|e] eqn:E0; [|discriminate]. cbn [bind] in H.
    destruct (for_range body (S start) n) as [xs'|e] eqn:E1; [|discriminate].
    cbn [bind] in H. injection H as <-.
    destruct (IH _ _ E1) as [Hl Hin]. split; [cbn; now rewrite Hl|].
    intros x [<-|Hx].
    + exists start. split; [lia | exact E0].
    + destruct (Hin x Hx) as (i & Hi & Hb). exists i. split; [lia | exact Hb].
Qed.

Lemma ascending_NoDup (l : list EvEntry) :
  StronglySorted (fun x y => (idx0 x < idx0 y)%nat) l -> NoDup (List.map idx0 l).
Proof.
  induction 1 as [|x l Hs IH Hx]; cbn [List.map]; constructor; [|exact IH].
  intros Hin. apply in_map_iff in Hin. destruct Hin as (y & Hy & Hyl).
  rewrite Forall_forall in Hx. specialize (Hx y Hyl). lia.
Qed.

Lemma sorted_head_before {A : Type} (R : A -> A -> Prop) (x : A) (l : list A) :
  StronglySorted R (x :: l) -> forall y, In y l -> R x y.
Proof.
  intros H. apply StronglySorted_inv in H. destruct H as [_ H].
  now apply Forall_forall.
Qed.

(** When the EV vector of a round can be built, [main] prints three
    entries.  They are three different squares, numbered within 1 to 25,
    each with the EV [evForSquare] gives for the amount deployed on it; they
    come in the order of the ranking (higher EV first, lower square first
    among equal EVs); and every square that is not printed ranks after the
    third. *)
Theorem ev_top3_squares (deployed : list Z) (T a : Z) (results : list EvEntry) :
  estimateEV deployed T a = Ok results ->
  exists p1 p2 p3 : EvEntry,
    top3 results = [p1; p2; p3] /\
    idx1 p1 <> idx1 p2 /\ idx1 p1 <> idx1 p3 /\ idx1 p2 <> idx1 p3 /\
    (forall p, In p [p1; p2; p3] ->
       In p results /\ (1 <= idx1 p <= 25)%nat /\ idx1 p = (idx0 p + 1)%nat /\
       exists d r, nth_error deployed (idx0 p) = Some d /\
                   evForSquare d T a = Ok r /\ entry_EV p = EV r) /\
    ev_ranked_before p1 p2 /\ ev_ranked_before p2 p3 /\
    (forall q, In q results -> ~ In q [p1; p2; p3] -> ev_ranked_before p3 q).
Proof.
  intros Hres.
  pose proof (estimateEV_ascending _ _ _ _ Hres) as Hasc.
  destruct (rankEV_ranked results Hasc) as [Hperm Hsorted].
  destruct (for_range_inv _ _ _ _ Hres) as [Hlen Hin].
  assert (length (rankEV results) = 25%nat) as Hl
    by (rewrite (Permutation_length Hperm); exact Hlen).
  unfold top3.
  destruct (rankEV results) as [|p1 [|p2 [|p3 rest]]] eqn:Er; try discriminate Hl.
  exists p1, p2, p3. cbn [firstn]. split; [reflexivity|].
  assert (forall p, In p results ->
            (1 <= idx1 p <= 25)%nat /\ idx1 p = (idx0 p + 1)%nat /\
            exists d r, nth_error deployed (idx0 p) = Some d /\
                        evForSquare d T a = Ok r /\ entry_EV p = EV r) as Hentry.
  { intros p Hp. destruct (Hin p Hp) as (i & Hi & Hb).
    unfold evEntry in Hb. destruct (nth_error deployed i) as [d|] eqn:Ed; [|discriminate].
    destruct (evForSquare d T a) as [r|e] eqn:Ev; [|discriminate].
    cbn [bind] in Hb. injection Hb as <-. cbn [idx0 idx1 entry_EV].
    split; [lia|]. split; [reflexivity|]. now exists d, r. }
  assert (NoDup (List.map idx0 (p1 :: p2 :: p3 :: rest))) as Hnd.
  { apply (Permutation_NoDup (l := List.map idx0 results)).
    - apply Permutation_map. now apply Permutation_sym.
    - now apply ascending_NoDup. }
  assert (forall p, In p (p1 :: p2 :: p3 :: rest) -> In p results) as Hback.
  { intros p Hp. now apply (Permutation_in _ Hperm). }
  pose proof (Hentry p1 (Hback p1 (or_introl eq_refl))) as (_ & E1 & _).
  pose proof (Hentry p2 (Hback p2 (or_intror (or_introl eq_refl)))) as (_ & E2 & _).
  pose proof (Hentry p3 (Hback p3 (or_intror (or_intror (or_introl eq_refl))))) as (_ & E3 & _).
  cbn [List.map] in Hnd.
  inversion Hnd as [|? ? N1 Hnd1]; subst.
  inversion Hnd1 as [|? ? N2 Hnd2]; subst.
  cbn [In] in N1, N2.
  split; [intros E; apply N1; left; lia|].
  split; [intros E; apply N1; right; left; lia|].
  split; [intros E; apply N2; left; lia|].
  split.
  { intros p Hp. assert (In p results) as Hpr.
    { apply Hback. cbn [In] in *. tauto. }
    split; [exact Hpr|]. now apply Hentry. }
  pose proof (sorted_head_before _ _ _ Hsorted) as B1.
  apply StronglySorted_inv in Hsorted. destruct Hsorted as [Hs2 _].
  pose proof (sorted_head_before _ _ _ Hs2) as B2.
  apply StronglySorted_inv in Hs2. destruct Hs2 as [Hs3 _].
  pose proof (sorted_head_before _ _ _ Hs3) as B3.
  split; [apply B1; cbn; tauto|]. split; [apply B2; cbn; tauto|].
  intros q Hq Hnot. apply B3.
  apply (Permutation_in _ (Permutation_sym Hperm)) in Hq.
  cbn [In] in Hq, Hnot. tauto.
Qed.

Lemma ev_top3_squares_witness :
  exists p1 p2 p3 : EvEntry,
    top3 (ev_entries_spec (repeat 0 25) 0 100) = [p1; p2; p3] /\
    idx1 p1 <> idx1 p2 /\ idx1 p1 <> idx1 p3 /\ idx1 p2 <> idx1 p3.
Proof.
  destruct (ev_top3_squares (repeat 0 25) 0 100 (ev_entries_spec (repeat 0 25) 0 100))
    as (p1 & p2 & p3 & E & N1 & N2 & N3 & _).
  - vm_compute. reflexivity.
  - now exists p1, p2, p3.
Defined.

End EvPicksOrder.

(** * The history behind the estimate *)

Module SmartPicksHistory.

Import SmartPicks SmartPicksProps JSArrayProps.

(** ** The window as a function of the set of records *)

Lemma insert_newer (x : WinnerRecord) (l : list WinnerRecord) :
  StronglySorted newer l ->
  (forall y, In y l -> round y <> round x) ->
  StronglySorted newer (JSArray.insert (fun a b => round b - round a >? 0) x l).
Proof.
  intros Hs. induction Hs as [|y l Hs IH Hy]; intros Hne; cbn [JSArray.insert].
  - repeat constructor.
  - pose proof Hy as Hy'. rewrite Forall_forall in Hy.
    destruct (Z.gtb_spec (round y - round x) 0) as [Hgt|Hle].
    + constructor.
      * apply IH. intros z Hz. apply Hne. now right.
      * apply Forall_forall. intros z Hz.
        apply (Permutation_in _ (insert_perm _ x l)) in Hz.
        destruct Hz as [<-|Hz]; [unfold newer; lia | now apply Hy].
    + assert (round y <> round x) as Hyx by (apply Hne; now left).
      constructor; [now constructor|].
      constructor; [unfold newer; lia|].
      apply Forall_forall. intros z Hz. specialize (Hy z Hz). unfold newer in *. lia.
Qed.

Lemma sort_newer (l : list WinnerRecord) :
  NoDup (List.map round l) ->
  StronglySorted newer (JSArray.sort_list (fun a b => round b - round a >? 0) l).
Proof.
  induction l as [|x l IH]; intros Hnd; [constructor|].
  cbn [List.map] in Hnd. inversion Hnd as [|? ? Hx Hl]; subst.
  change (JSArray.sort_list (fun a b => round b - round a >? 0) (x :: l))
    with (JSArray.insert (fun a b => round b - round a >? 0) x
            (JSArray.sort_list (fun a b => round b - round a >? 0) l)).
  apply insert_newer; [now apply IH|].
  intros y Hy E. apply Hx. rewrite <- E. apply in_map.
  exact (Permutation_in _ (sort_list_perm _ l) Hy).
Qed.

Lemma newer_unique (l1 l2 : list WinnerRecord) :
  StronglySorted newer l1 -> StronglySorted newer l2 -> Permutation l1 l2 -> l1 = l2.
Proof.
  intros H1. revert l2. induction H1 as [|x l1 H1 IH Hx]; intros l2 H2 Hp.
  - apply Permutation_nil in Hp. now subst.
  - destruct H2 as [|y l2 H2 Hy].
    + apply Permutation_sym, Permutation_nil in Hp. discriminate.
    + rewrite Forall_forall in Hx, Hy.
      assert (x = y) as ->.
      { assert (In x (y :: l2)) as Hxin by (apply (Permutation_in _ Hp); now left).
        assert (In y (x :: l1)) as Hyin
          by (apply (Permutation_in _ (Permutation_sym Hp)); now left).
        destruct Hxin as [E|Hxin]; [now symmetry|].
        destruct Hyin as [E|Hyin]; [exact E|].
        specialize (Hx y Hyin). specialize (Hy x Hxin). unfold newer in *. lia. }
      f_equal. apply IH; [exact H2|]. now apply Permutation_cons_inv in Hp.
Qed.

Lemma sorted_app {A : Type} (R : A -> A -> Prop) (l1 l2 : list A) :
  StronglySorted R l1 -> StronglySorted R l2 ->
  (forall x y, In x l1 -> In y l2 -> R x y) ->
  StronglySorted R (l1 ++ l2).
Proof.
  intros H1 H2 H. induction H1 as [|x l1 H1 IH Hx]; [exact H2|].
  cbn [app]. constructor.
  - apply IH. intros a b Ha Hb. apply H; [now right | exact Hb].
  - apply Forall_app. split; [exact Hx|].
    apply Forall_forall. intros y Hy. apply H; [now left | exact Hy].
Qed.

Lemma window_perm (winners winners' : list WinnerRecord) (maxRounds : Z) :
  NoDup (List.map round winners) -> Permutation winners winners' ->
  window winners' maxRounds = window winners maxRounds.
Proof.
  intros Hnd Hp. unfold window. f_equal.
  apply newer_unique.
  - apply sort_newer. apply (Permutation_NoDup (l := List.map round winners)); [|exact Hnd].
    now apply Permutation_map.
  - now apply sort_newer.
  - rewrite !sort_list_perm. now apply Permutation_sym.
Qed.

Lemma window_recent (recent old : list WinnerRecord) (maxRounds : Z) :
  NoDup (List.map round (recent ++ old)) ->
  (forall e o, In e recent -> In o old -> round o < round e) ->
  0 <= maxRounds <= Z.of_nat (length recent) ->
  window (recent ++ old) maxRounds = window recent maxRounds.
Proof.
  intros Hnd Hold Hm. unfold window.
  set (after := fun a b : WinnerRecord => round b - round a >? 0).
  rewrite map_app in Hnd.
  assert (JSArray.sort_list after (recent ++ old)
          = JSArray.sort_list after recent ++ JSArray.sort_list after old) as ->.
  { apply newer_unique.
    - apply sort_newer. now rewrite map_app.
    - apply sorted_app.
      + apply sort_newer. now apply NoDup_app_remove_r in Hnd.
      + apply sort_newer. now apply NoDup_app_remove_l in Hnd.
      + intros x y Hx Hy.
        apply (Permutation_in _ (sort_list_perm after recent)) in Hx.
        apply (Permutation_in _ (sort_list_perm after old)) in Hy.
        now apply Hold.
    - now rewrite !sort_list_perm. }
  unfold JSArray.slice0. destruct (Z.ltb_spec maxRounds 0); [lia|].
  rewrite firstn_app.
  assert (length (JSArray.sort_list after recent) = length recent) as Hl
    by (apply Permutation_length, sort_list_perm).
  replace (Z.to_nat maxRounds - length (JSArray.sort_list after recent))%nat with 0%nat by lia.
  cbn [firstn]. apply app_nil_r.
Qed.

Section AnyArithmetic.

Context {num : Type} {NUM : JSNumber num}.
Variable Math_pow : num -> num -> num.

(** When no two records carry the same round, the order of the records in
    the history has no influence on the estimate, in any arithmetic. *)
Theorem history_order_irrelevant (winners winners' : list WinnerRecord)
  (options : Options num) :
  NoDup (List.map round winners) -> Permutation winners winners' ->
  dirichletTimeDecayedPriors Math_pow winners' options
  = dirichletTimeDecayedPriors Math_pow winners options.
Proof.
  intros Hnd Hp. unfold dirichletTimeDecayedPriors. cbn zeta.
  now rewrite (window_perm winners winners' _ Hnd Hp).
Qed.

(** Only the [maxRounds] latest rounds count.  When no two records carry
    the same round and the history holds at least [maxRounds] records that
    are later than all the others, the others have no influence on the
    estimate, wherever they stand in the history. *)
Theorem older_rounds_forgotten (history recent old : list WinnerRecord)
  (options : Options num) :
  NoDup (List.map round history) ->
  Permutation history (recent ++ old) ->
  (forall e o, In e recent -> In o old -> round o < round e) ->
  0 <= nullish (opt_maxRounds options) 30 <= Z.of_nat (length recent) ->
  dirichletTimeDecayedPriors Math_pow history options
  = dirichletTimeDecayedPriors Math_pow recent options.
Proof.
  intros Hnd Hp Hold Hm. unfold dirichletTimeDecayedPriors. cbn zeta.
  assert (NoDup (List.map round (recent ++ old))) as Hnd'.
  { apply (Permutation_NoDup (l := List.map round history)); [|exact Hnd].
    now apply Permutation_map. }
  rewrite (window_perm (recent ++ old) history _ Hnd' (Permutation_sym Hp)).
  now rewrite (window_recent recent old _ Hnd' Hold Hm).
Qed.

(** ** Squares without a win in the window *)

Lemma nth_update_other {A : Type} (arr : JSArray.t A) (k : Z) (f : option A -> A) (j : nat) :
  k <> Z.of_nat j -> nth j (JSArray.update arr k f) None = nth j arr None.
Proof.
  intros Hk. unfold JSArray.update, JSArray.is_array_index.
  destruct (Z.leb_spec 0 k); [|reflexivity]. cbn [andb].
  destruct (k <=? 4294967294); [|reflexivity].
  assert (Z.to_nat k <> j) as Hij by lia.
  destruct (Nat.ltb_spec (Z.to_nat k) (length arr)) as [Hlt|Hge].
  - now apply nth_set_nth_other.
  - destruct (Nat.lt_ge_cases j (length arr)) as [Hj|Hj].
    + now rewrite app_nth1.
    + rewrite app_nth2 by lia. assert (nth j arr None = None) as -> by (apply nth_overflow; lia).
      destruct (Nat.lt_ge_cases (j - length arr) (Z.to_nat k - length arr)) as [Hr|Hr].
      * rewrite app_nth1 by (rewrite repeat_length; lia). apply nth_repeat.
      * rewrite app_nth2 by (rewrite repeat_length; lia). rewrite repeat_length.
        apply nth_overflow. cbn [length]. lia.
Qed.

Lemma nth_map_array {A B : Type} (f : A -> B) (arr : JSArray.t A) (j : nat) :
  nth j (JSArray.map f arr) None = option_map f (nth j arr None).
Proof.
  unfold JSArray.map. apply (map_nth (option_map f) arr None j).
Qed.

Lemma count_loop_untouched (sorted : list WinnerRecord) (weights : list num)
  (counts : JSArray.t num) (j : nat) :
  (forall e, In e sorted -> blockNumber e <> IntVal (Z.of_nat j)) ->
  nth j (count_loop sorted weights counts) None = nth j counts None.
Proof.
  revert weights counts. induction sorted as [|e sorted IH]; intros weights counts H;
    [reflexivity|].
  cbn [count_loop]. destruct weights as [|w weights]; [reflexivity|].
  rewrite IH by (intros e' He'; apply H; now right).
  assert (blockNumber e <> IntVal (Z.of_nat j)) as He by (apply H; now left).
  destruct (blockNumber e) as [idx0|]; [|reflexivity].
  destruct ((0 <=? idx0) && (idx0 <? Z.of_nat N)); [|reflexivity].
  apply nth_update_other. congruence.
Qed.

Lemma penalise_untouched (sorted : list WinnerRecord) (i : nat) (c : num)
  (probs : JSArray.t num) (j : nat) :
  (forall e, In e sorted -> blockNumber e <> IntVal (Z.of_nat j)) ->
  nth j (penalise (blockNumber_at sorted i) c probs) None = nth j probs None.
Proof.
  intros H. unfold blockNumber_at.
  destruct (nth_error sorted i) as [e|] eqn:E; [|reflexivity].
  apply nth_error_In in E. specialize (H e E).
  destruct (blockNumber e) as [k|]; [|reflexivity].
  cbn [penalise]. apply nth_update_other. congruence.
Qed.

Lemma unvisited_value (winners : list WinnerRecord) (options : Options num) (j : nat) :
  (j < 25)%nat ->
  (forall e, In e (window winners (nullish (opt_maxRounds options) 30)) ->
     blockNumber e <> IntVal (Z.of_nat j)) ->
  let alpha := nullish (opt_alpha options) (num_of_nat 1) in
  let halfLife := nullish (opt_halfLife options) (num_of_nat 10) in
  let sorted := window winners (nullish (opt_maxRounds options) 30) in
  let counts := count_loop sorted (weights_of Math_pow sorted halfLife)
                  (repeat (Some (num_of_nat 0)) N) in
  let sumW := JSArray.reduce num_add (num_of_nat 0) counts in
  let p0 := num_div (num_add alpha (num_of_nat 0))
              (num_add (num_mul (num_of_nat N) alpha) sumW) in
  let s := JSArray.reduce num_add (num_of_nat 0)
             (antiStreak sorted (posteriorMean Math_pow sorted alpha halfLife)) in
  nth j (dirichletTimeDecayedPriors Math_pow winners options) None
  = Some (if num_gt s (num_of_nat 0) then num_div p0 s
          else num_div (num_of_nat 1) (num_of_nat N)).
Proof.
  intros Hj H alpha halfLife sorted counts sumW p0 s.
  unfold dirichletTimeDecayedPriors. cbn zeta. fold alpha halfLife sorted.
  unfold renormalize. cbn zeta. fold s. rewrite nth_map_array.
  unfold antiStreak. cbn zeta.
  rewrite !penalise_untouched by exact H.
  unfold posteriorMean. cbn zeta. fold counts sumW. rewrite nth_map_array.
  unfold counts. rewrite count_loop_untouched by exact H.
  rewrite nth_repeat_lt by exact Hj. reflexivity.
Qed.

(** Two squares that have no win among the records of the window get the
    same estimate, in any arithmetic. *)
Theorem unvisited_squares_equal (winners : list WinnerRecord) (options : Options num)
  (j k : nat) :
  (j < 25)%nat -> (k < 25)%nat ->
  (forall e, In e (window winners (nullish (opt_maxRounds options) 30)) ->
     blockNumber e <> IntVal (Z.of_nat j) /\ blockNumber e <> IntVal (Z.of_nat k)) ->
  nth j (dirichletTimeDecayedPriors Math_pow winners options) None
  = nth k (dirichletTimeDecayedPriors Math_pow winners options) None /\
  nth j (dirichletTimeDecayedPriors Math_pow winners options) None <> None.
Proof.
  intros Hj Hk H.
  rewrite (unvisited_value winners options j Hj) by (intros e He; now apply H).
  rewrite (unvisited_value winners options k Hk) by (intros e He; now apply H).
  split; [reflexivity | discriminate].
Qed.

End AnyArithmetic.

(** Two records in the order of the file and in the reverse order, in
    binary64 and without decay (every weight is [2 ^ -0]). *)
Lemma history_order_irrelevant_witness :
  dirichletTimeDecayedPriors Math_pow_fixed
    [ {| round := 2; blockNumber := IntVal 7 |};
      {| round := 1; blockNumber := IntVal 3 |} ] no_decay
  = dirichletTimeDecayedPriors Math_pow_fixed
      [ {| round := 1; blockNumber := IntVal 3 |};
        {| round := 2; blockNumber := IntVal 7 |} ] no_decay.
Proof.
  apply (history_order_irrelevant Math_pow_fixed
           [ {| round := 1; blockNumber := IntVal 3 |};
             {| round := 2; blockNumber := IntVal 7 |} ]
           [ {| round := 2; blockNumber := IntVal 7 |};
             {| round := 1; blockNumber := IntVal 3 |} ] no_decay).
  - cbn [List.map round]. repeat constructor; cbn [In]; intros H; decompose [or] H;
      try discriminate; assumption.
  - apply perm_swap.
Defined.

(** With a window of one round, the record of round 1 is forgotten behind
    the record of round 2. *)
Lemma older_rounds_forgotten_witness :
  dirichletTimeDecayedPriors Math_pow_fixed
    [ {| round := 1; blockNumber := IntVal 3 |};
      {| round := 2; blockNumber := IntVal 7 |} ] window_of_one
  = dirichletTimeDecayedPriors Math_pow_fixed
      [ {| round := 2; blockNumber := IntVal 7 |} ] window_of_one.
Proof.
  apply (older_rounds_forgotten Math_pow_fixed
           [ {| round := 1; blockNumber := IntVal 3 |};
             {| round := 2; blockNumber := IntVal 7 |} ]
           [ {| round := 2; blockNumber := IntVal 7 |} ]
           [ {| round := 1; blockNumber := IntVal 3 |} ] window_of_one).
  - cbn [List.map round]. repeat constructor; cbn [In]; intros H; decompose [or] H;
      try discriminate; assumption.
  - apply perm_swap.
  - intros e o [<-|[]] [<-|[]]. cbn. lia.
  - cbn. lia.
Defined.

(** Squares 1 and 2 after a single win of square 5, in binary64. *)
Lemma unvisited_squares_equal_witness :
  nth 1 (priors64 (one_round (IntVal 5))) None = nth 2 (priors64 (one_round (IntVal 5))) None /\
  nth 1 (priors64 (one_round (IntVal 5))) None <> None.
Proof.
  apply (unvisited_squares_equal Math_pow_fixed (one_round (IntVal 5)) no_options 1 2).
  - lia.
  - lia.
  - intros e [<-|[]]. split; discriminate.
Defined.

End SmartPicksHistory.

(** * The picks of smart-picks *)

Module SmartPicksMain.

Import SmartPicks SmartPicksProps JSArrayProps.

Lemma priors_fin (pow : xrat -> xrat -> xrat)
  (winners : list WinnerRecord) (options : Options xrat) (a h : Q) :
  pow_positive pow ->
  nullish (opt_alpha options) (num_of_nat 1) = Fin a -> (0 < a)%Q ->
  nullish (opt_halfLife options) (num_of_nat 10) = Fin h -> ~ (h == 0)%Q ->
  no_stray_write (blockNumber_at (window winners (nullish (opt_maxRounds options) 30)) 0) ->
  no_stray_write (blockNumber_at (window winners (nullish (opt_maxRounds options) 30)) 1) ->
  exists out : list Q,
    dirichletTimeDecayedPriors pow winners options = fin_array out /\
    length out = 25%nat /\
    Forall (fun q => 0 < q)%Q out.
Proof.
  intros Hpow Ealpha Ha Ehalf Hh Hrecent Hprev.
  unfold dirichletTimeDecayedPriors, antiStreak. cbn zeta.
  rewrite Ealpha, Ehalf.
  set (win := window winners (nullish (opt_maxRounds options) 30)) in *.
  destruct (posteriorMean_fin pow win a h Hpow Ha Hh) as (P & -> & HP & Hlen).
  xrat_ops.
  rewrite (penalise_fin _ (6 # 10) P Hlen Hrecent).
  set (Y1 := pen (blockNumber_at win 0) (6 # 10) P).
  assert (length Y1 = 25%nat) as Hlen1 by (subst Y1; now rewrite length_pen).
  assert (Forall (fun q => 0 < q)%Q Y1) as HY1 by (apply pen_pos; [reflexivity | assumption..]).
  rewrite (penalise_fin _ (8 # 10) Y1 Hlen1 Hprev).
  set (Y := pen (blockNumber_at win 1) (8 # 10) Y1).
  assert (length Y = 25%nat) as HlenY by (subst Y; now rewrite length_pen).
  assert (Forall (fun q => 0 < q)%Q Y) as HY by (apply pen_pos; [reflexivity | assumption..]).
  assert (Y <> []) as Hne by (intros E; rewrite E in HlenY; discriminate).
  rewrite (renormalize_fin Y HY Hne).
  pose proof (fold_left_sumQ Y (inject_Z 0)) as HS.
  pose proof (sumQ_pos Y HY Hne) as Hpos.
  set (S := fold_left Qplus Y (inject_Z 0)) in *.
  change (inject_Z 0) with 0%Q in HS.
  assert (0 < S)%Q as HS0 by lra.
  eexists. split; [reflexivity|]. split; [now rewrite length_map|].
  apply Forall_forall. intros q Hq. apply in_map_iff in Hq.
  destruct Hq as (y & <- & Hy). rewrite Forall_forall in HY. specialize (HY y Hy).
  cbn in HY. apply Qlt_shift_div_l; lra.
Qed.

Lemma indexed_from_In (start : nat) (v : list Q) (x : Pick xrat) :
  In x (indexed_from start v) ->
  (start <= index0 x < start + length v)%nat /\
  index1 x = (index0 x + 1)%nat /\
  p x = Fin (nth (index0 x - start) v 0%Q).
Proof.
  revert start. induction v as [|q v IH]; intros start H; [destruct H|].
  cbn [indexed_from] in H. destruct H as [<-|H].
  - cbn [index0 index1 p length]. rewrite Nat.sub_diag. repeat split; lia.
  - destruct (IH _ H) as (Hr & H1 & Hp). cbn [length].
    split; [lia|]. split; [exact H1|]. rewrite Hp.
    replace (index0 x - start)%nat with (S (index0 x - S start)) by lia. reflexivity.
Qed.

Lemma indexed_from_has (start : nat) (v : list Q) (k : nat) :
  (k < length v)%nat ->
  exists x, In x (indexed_from start v) /\
            index0 x = (start + k)%nat /\ p x = Fin (nth k v 0%Q).
Proof.
  revert start k. induction v as [|q v IH]; intros start k Hk; cbn [length] in Hk; [lia|].
  destruct k as [|k].
  - eexists. split; [left; reflexivity|]. cbn [index0 p nth]. split; [lia | reflexivity].
  - destruct (IH (S start) k ltac:(lia)) as (x & Hx & Hi & Hp).
    exists x. split; [now right|]. split; [lia | exact Hp].
Qed.

Lemma lower_index_NoDup (l : list (Pick xrat)) :
  StronglySorted lower_index l -> NoDup (List.map (@index0 xrat) l).
Proof.
  induction 1 as [|x l Hs IH Hx]; cbn [List.map]; constructor; [|exact IH].
  intros Hin. apply in_map_iff in Hin. destruct Hin as (y & Hy & Hyl).
  rewrite Forall_forall in Hx. specialize (Hx y Hyl). unfold lower_index in Hx. lia.
Qed.

Lemma sorted_head {A : Type} (R : A -> A -> Prop) (x : A) (l : list A) :
  StronglySorted R (x :: l) -> forall y, In y l -> R x y.
Proof.
  intros H. apply StronglySorted_inv in H. destruct H as [_ H].
  now apply Forall_forall.
Qed.

Lemma ranked_before_le (x y : Pick xrat) (qx qy : Q) :
  ranked_before x y -> p x = Fin qx -> p y = Fin qy -> (qy <= qx)%Q.
Proof.
  intros (a & b & Ea & Eb & H) Ex Ey.
  rewrite Ex in Ea. rewrite Ey in Eb. injection Ea as <-. injection Eb as <-.
  destruct H as [H|[H _]]; [now apply Qlt_le_weak | rewrite H; apply Qle_refl].
Qed.

(** On a history that is not empty and whose two latest records do not write
    past the 25 squares, in exact arithmetic: [main] prints three picks.
    They are three different squares numbered within 1 to 25, each with its
    entry of the estimate; they come in the order of the ranking (larger
    estimate first, lower square first among equal ones); and no square
    that is not printed has a larger estimate than the third pick. *)
Theorem main_three_picks (pow : xrat -> xrat -> xrat) (winners : list WinnerRecord) :
  pow_positive pow ->
  winners <> [] ->
  no_stray_write (blockNumber_at (window winners 30) 0) ->
  no_stray_write (blockNumber_at (window winners 30) 1) ->
  exists (out : list Q) (p1 p2 p3 : Pick xrat),
    dirichletTimeDecayedPriors pow winners main_options = fin_array out /\
    length out = 25%nat /\
    main pow winners = Some (JSArray.dense [p1; p2; p3]) /\
    index1 p1 <> index1 p2 /\ index1 p1 <> index1 p3 /\ index1 p2 <> index1 p3 /\
    (forall x, In x [p1; p2; p3] ->
       (1 <= index1 x <= 25)%nat /\ index1 x = (index0 x + 1)%nat /\
       p x = Fin (nth (index0 x) out 0%Q)) /\
    ranked_before p1 p2 /\ ranked_before p2 p3 /\
    (forall k : nat, (k < 25)%nat ->
       k <> index0 p1 -> k <> index0 p2 -> k <> index0 p3 ->
       (nth k out 0 <= nth (index0 p3) out 0)%Q).
Proof.
  intros Hpow Hne Hrecent Hprev.
  destruct (priors_fin pow winners main_options (inject_Z 1) (inject_Z 10))
    as (out & Eout & Hlen & Hpos); try reflexivity; try assumption.
  { intros H. discriminate H. }
  exists out.
  destruct (topN_finite_ranked out 3 ltac:(lia)) as (picks & rest & Etop & Hl & Hperm & Hsorted).
  destruct picks as [|p1 [|p2 [|p3 [|]]]]; try discriminate Hl.
  exists p1, p2, p3.
  split; [exact Eout|]. split; [exact Hlen|].
  split.
  { unfold main. destruct winners as [|e winners]; [congruence|].
    cbn zeta. rewrite Eout. f_equal. exact Etop. }
  assert (forall x, In x (p1 :: p2 :: p3 :: rest) ->
            (1 <= index1 x <= 25)%nat /\ index1 x = (index0 x + 1)%nat /\
            p x = Fin (nth (index0 x) out 0%Q)) as Hentry.
  { intros x Hx. apply (Permutation_in _ Hperm) in Hx.
    apply indexed_from_In in Hx. destruct Hx as (Hr & H1 & Hp).
    rewrite Nat.sub_0_r in Hp. repeat split; try assumption; lia. }
  assert (NoDup (List.map (@index0 xrat) (p1 :: p2 :: p3 :: rest))) as Hnd.
  { apply (Permutation_NoDup (l := List.map (@index0 xrat) (indexed_from 0 out))).
    - apply Permutation_map. now apply Permutation_sym.
    - apply lower_index_NoDup, indexed_from_sorted. }
  cbn [app] in Hsorted, Hperm.
  pose proof (Hentry p1 (or_introl eq_refl)) as (_ & E1 & Q1).
  pose proof (Hentry p2 (or_intror (or_introl eq_refl))) as (_ & E2 & Q2).
  pose proof (Hentry p3 (or_intror (or_intror (or_introl eq_refl)))) as (_ & E3 & Q3).
  cbn [List.map] in Hnd.
  inversion Hnd as [|? ? N1 Hnd1]; subst.
  inversion Hnd1 as [|? ? N2 Hnd2]; subst.
  cbn [In] in N1, N2.
  split; [intros E; apply N1; left; lia|].
  split; [intros E; apply N1; right; left; lia|].
  split; [intros E; apply N2; left; lia|].
  split.
  { intros x Hx. apply Hentry. cbn [In] in *. tauto. }
  pose proof (sorted_head _ _ _ Hsorted) as B1.
  apply StronglySorted_inv in Hsorted. destruct Hsorted as [Hs2 _].
  pose proof (sorted_head _ _ _ Hs2) as B2.
  apply StronglySorted_inv in Hs2. destruct Hs2 as [Hs3 _].
  pose proof (sorted_head _ _ _ Hs3) as B3.
  split; [apply B1; now left|]. split; [apply B2; now left|].
  intros k Hk K1 K2 K3.
  destruct (indexed_from_has 0 out k ltac:(lia)) as (x & Hx & Hi & Hp).
  cbn [Nat.add] in Hi.
  apply (Permutation_in _ (Permutation_sym Hperm)) in Hx.
  assert (In x rest) as Hrest.
  { cbn [In] in Hx. destruct Hx as [<-|[<-|[<-|Hx]]]; congruence. }
  exact (ranked_before_le _ _ _ _ (B3 x Hrest) Q3 Hp).
Qed.

(** A history of one round, won by square 5. *)
Lemma main_three_picks_witness :
  exists (out : list Q) (p1 p2 p3 : Pick xrat),
    dirichletTimeDecayedPriors pow_one (one_round (IntVal 5)) main_options = fin_array out /\
    length out = 25%nat /\
    main pow_one (one_round (IntVal 5)) = Some (JSArray.dense [p1; p2; p3]) /\
    index1 p1 <> index1 p2 /\ index1 p1 <> index1 p3 /\ index1 p2 <> index1 p3.
Proof.
  destruct (main_three_picks pow_one (one_round (IntVal 5)))
    as (out & p1 & p2 & p3 & E & Hl & Em & N1 & N2 & N3 & _).
  - intros e. exists 1%Q. split; reflexivity.
  - discriminate.
  - vm_compute. left. reflexivity.
  - exact I.
  - exists out, p1, p2, p3. repeat split; assumption.
Defined.

End SmartPicksMain.

(** * Amounts in print *)

Module LamportsProps.

Import Ascii Lamports.

Lemma digit_value_digit (d : Z) : 0 <= d <= 9 -> digit_value (digit d) = d.
Proof.
  intros Hd. unfold digit_value, digit.
  rewrite nat_ascii_embedding by lia. lia.
Qed.

Lemma read_digits_app (s1 s2 : JSString) (v : Z) :
  read_digits (s1 ++ s2) v = read_digits s2 (read_digits s1 v).
Proof.
  revert v. induction s1 as [|c s1 IH]; intros v; [reflexivity|].
  cbn [app read_digits]. apply IH.
Qed.

Lemma digits_of_spec (fuel : nat) :
  forall (n : Z) (acc : JSString),
  (0 < fuel)%nat ->
  0 <= n < 2 ^ Z.of_nat fuel ->
  exists ds : JSString,
    digits_of fuel n acc = ds ++ acc /\
    Forall is_digit ds /\
    (forall v, read_digits ds v = v * 10 ^ Z.of_nat (length ds) + n) /\
    (forall k : nat, n < 10 ^ Z.of_nat k -> (0 < k)%nat -> (length ds <= k)%nat) /\
    (0 < length ds)%nat.
Proof.
  induction fuel as [|fuel IH]; intros n acc Hfuel Hn; [lia|].
  - rewrite Nat2Z.inj_succ, Z.pow_succ_r in Hn by lia.
    pose proof (Z.mod_pos_bound n 10 ltac:(lia)) as Hm.
    pose proof (Z.div_mod n 10 ltac:(lia)) as Hd.
    assert (is_digit (digit (n mod 10))) as Hdig
      by (unfold is_digit; rewrite digit_value_digit; lia).
    cbn [digits_of]. destruct (Z.eqb_spec (n / 10) 0) as [Hz|Hnz].
    + exists [digit (n mod 10)]. cbn [app length read_digits].
      split; [reflexivity|]. split; [constructor; [exact Hdig | constructor]|].
      split; [intros v; rewrite digit_value_digit by lia; change (10 ^ Z.of_nat 1) with 10; lia|].
      split; [intros k _ Hk; lia | lia].
    + assert (0 <= n / 10 < 2 ^ Z.of_nat fuel) as Hq.
      { split; [apply Z.div_pos; lia|]. apply Z.div_lt_upper_bound; lia. }
      assert (0 < fuel)%nat as Hf.
      { destruct fuel; [|lia]. cbn in Hq. lia. }
      destruct (IH (n / 10) (digit (n mod 10) :: acc) Hf Hq)
        as (ds & E & Hds & Hread & Hlen & Hpos).
      exists (ds ++ [digit (n mod 10)]).
      split; [rewrite E, <- app_assoc; reflexivity|].
      split; [apply Forall_app; split; [exact Hds | constructor; [exact Hdig | constructor]]|].
      rewrite length_app. cbn [length].
      split.
      { intros v. rewrite read_digits_app, Hread. cbn [read_digits].
        rewrite digit_value_digit by lia.
        replace (Z.of_nat (length ds + 1)) with (Z.succ (Z.of_nat (length ds))) by lia.
        rewrite Z.pow_succ_r by lia. lia. }
      split; [|lia].
      intros k Hk Hk0. destruct k as [|k]; [lia|].
      rewrite Nat2Z.inj_succ, Z.pow_succ_r in Hk by lia.
      assert (0 < n / 10) as Hq0 by lia.
      assert (0 < k)%nat as Hk1.
      { destruct k; [|lia]. cbn in Hk. lia. }
      assert (n / 10 < 10 ^ Z.of_nat k) as Hlt by (apply Z.div_lt_upper_bound; lia).
      specialize (Hlen k Hlt Hk1). lia.
Qed.

Lemma toString_nonneg (n : Z) :
  0 <= n ->
  exists ds : JSString,
    BigInt_toString n = ds /\
    Forall is_digit ds /\ read_digits ds 0 = n /\
    (forall k : nat, n < 10 ^ Z.of_nat k -> (0 < k)%nat -> (length ds <= k)%nat) /\
    (0 < length ds)%nat.
Proof.
  intros Hn. unfold BigInt_toString. destruct (Z.ltb_spec n 0); [lia|].
  destruct (digits_of_spec (S (Z.to_nat (Z.log2 n))) n []) as (ds & E & Hds & Hread & Hlen & Hpos).
  { lia. }
  { split; [lia|]. rewrite Nat2Z.inj_succ, Z2Nat.id by apply Z.log2_nonneg.
    destruct (Z.eq_dec n 0) as [->|Hnz]; [cbn; lia|].
    apply Z.log2_spec. lia. }
  exists ds. rewrite E, app_nil_r. split; [reflexivity|]. split; [exact Hds|].
  split; [rewrite Hread; lia|]. split; assumption.
Qed.

Lemma read_zeros (k : nat) (s : JSString) :
  read_digits (repeat "0"%char k ++ s) 0 = read_digits s 0.
Proof.
  induction k as [|k IH]; [reflexivity|]. cbn [repeat app read_digits].
  change (10 * 0 + digit_value "0") with 0. exact IH.
Qed.

Lemma point_no_digit : ~ is_digit "."%char.
Proof.
  unfold is_digit. assert (digit_value "."%char = -2) as -> by reflexivity. lia.
Qed.

Lemma split_at_point (w1 w2 f1 f2 : JSString) :
  Forall is_digit w1 -> Forall is_digit w2 ->
  w1 ++ "."%char :: f1 = w2 ++ "."%char :: f2 -> w1 = w2 /\ f1 = f2.
Proof.
  intros H1. revert w2. induction H1 as [|c w1 Hc H1 IH]; intros w2 H2 E.
  - destruct H2 as [|d w2 Hd H2]; cbn [app] in E.
    + injection E as ->. now split.
    + injection E as <- _. exfalso. now apply point_no_digit.
  - destruct H2 as [|d w2 Hd H2]; cbn [app] in E.
    + injection E as -> _. exfalso. now apply point_no_digit.
    + injection E as -> E. destruct (IH w2 H2 E) as [-> ->]. now split.
Qed.

Lemma formatLamports_parts (bi : Z) :
  0 <= bi ->
  exists whole frac : JSString,
    formatLamports bi = whole ++ "."%char :: frac /\
    Forall is_digit whole /\ Forall is_digit frac /\
    (0 < length whole)%nat /\ length frac = 9%nat /\
    read_digits whole 0 = bi / 1000000000 /\
    read_digits frac 0 = bi mod 1000000000.
Proof.
  intros Hbi. unfold formatLamports. cbn zeta.
  rewrite Z.quot_div_nonneg, Z.rem_mod_nonneg by lia.
  pose proof (Z.mod_pos_bound bi 1000000000 ltac:(lia)) as Hm.
  destruct (toString_nonneg (bi / 1000000000)) as (W & -> & HW & RW & _ & PW).
  { apply Z.div_pos; lia. }
  destruct (toString_nonneg (bi mod 1000000000)) as (F & -> & HF & RF & LF & PF); [lia|].
  specialize (LF 9%nat ltac:(change (10 ^ Z.of_nat 9) with 1000000000; lia) ltac:(lia)).
  exists W, (padStart F 9 "0"%char). unfold padStart.
  split; [reflexivity|]. split; [exact HW|].
  split.
  { apply Forall_app. split; [|exact HF].
    apply Forall_forall. intros c Hc. apply repeat_spec in Hc. subst c.
    unfold is_digit. assert (digit_value "0"%char = 0) as -> by reflexivity. lia. }
  split; [exact PW|].
  split; [rewrite length_app, repeat_length; lia|].
  split; [exact RW|]. now rewrite read_zeros.
Qed.

(** An amount that is not negative is printed as the decimal digits of its
    whole SOL, a point, and exactly nine digits that read as the lamports
    left over; two different amounts are never printed alike. *)
Theorem formatLamports_decimal (bi : Z) :
  0 <= bi ->
  (exists whole frac : JSString,
     formatLamports bi = whole ++ "."%char :: frac /\
     Forall is_digit whole /\ Forall is_digit frac /\
     (0 < length whole)%nat /\ length frac = 9%nat /\
     read_digits whole 0 = bi / 1000000000 /\
     read_digits frac 0 = bi mod 1000000000) /\
  (forall other : Z, 0 <= other -> formatLamports other = formatLamports bi -> other = bi).
Proof.
  intros Hbi. split; [now apply formatLamports_parts|].
  intros other Ho E.
  destruct (formatLamports_parts bi Hbi) as (W & F & E1 & HW & _ & _ & _ & RW & RF).
  destruct (formatLamports_parts other Ho) as (W' & F' & E2 & HW' & _ & _ & _ & RW' & RF').
  rewrite E1, E2 in E. destruct (split_at_point _ _ _ _ HW' HW E) as [-> ->].
  rewrite (Z.div_mod bi 1000000000), (Z.div_mod other 1000000000) by lia.
  congruence.
Qed.

(** One and a half SOL. *)
Lemma formatLamports_decimal_witness :
  exists whole frac : JSString,
    formatLamports 1500000000 = whole ++ "."%char :: frac /\
    Forall is_digit whole /\ Forall is_digit frac /\
    (0 < length whole)%nat /\ length frac = 9%nat /\
    read_digits whole 0 = 1500000000 / 1000000000 /\
    read_digits frac 0 = 1500000000 mod 1000000000.
Proof. apply (formatLamports_decimal 1500000000). lia. Defined.

End LamportsProps.

(** * The analyzers *)

Module AnalyzerProps.

Import Analyzer JSArrayProps.

(** ** The risk level *)

Lemma rank_fold_In (sorted : list Winner) (b : Z) (idxs : list nat) (acc : list Z) (r : Z) :
  In r (fold_left
          (fun ranks i =>
             match nth_error sorted i with
             | Some w =>
                 if w_blockNumber w =? b then ranks ++ [- (Z.of_nat i + 1)] else ranks
             | None => ranks
             end) idxs acc)
  <-> In r acc \/
      exists i w, In i idxs /\ nth_error sorted i = Some w /\
                  w_blockNumber w = b /\ r = - (Z.of_nat i + 1).
Proof.
  revert acc. induction idxs as [|i idxs IH]; intros acc; cbn [fold_left].
  - split; [now left|]. intros [H|(i & w & [] & _)]. exact H.
  - rewrite IH. split.
    + intros [H|(j & w & Hj & Hn & Hb & Hr)].
      * destruct (nth_error sorted i) as [w|] eqn:E; [|now left].
        destruct (Z.eqb_spec (w_blockNumber w) b) as [Hb|Hb]; [|now left].
        apply in_app_iff in H. destruct H as [H|[<-|[]]]; [now left|].
        right. exists i, w. repeat split; try assumption. now left.
      * right. exists j, w. repeat split; try assumption. now right.
    + intros [H|(j & w & [<-|Hj] & Hn & Hb & Hr)].
      * left. destruct (nth_error sorted i) as [w|]; [|exact H].
        destruct (w_blockNumber w =? b); [|exact H]. apply in_app_iff. now left.
      * left. rewrite Hn. apply Z.eqb_eq in Hb. rewrite Hb.
        apply in_app_iff. right. left. now symmetry.
      * right. exists j, w. now repeat split.
Qed.

Lemma rank_loop_In (winners : list Winner) (b r : Z) :
  In r (rank_loop (sortedWinners winners) b)
  <-> exists i : nat, (i < 15)%nat /\ won_at winners b i = true /\ r = - (Z.of_nat i + 1).
Proof.
  unfold rank_loop. rewrite rank_fold_In. unfold won_at. split.
  - intros [[]|(i & w & Hi & Hn & Hb & Hr)].
    apply in_seq in Hi. exists i. rewrite Hn. split; [lia|]. split; [now apply Z.eqb_eq | exact Hr].
  - intros (i & Hi & Hw & Hr). right.
    destruct (nth_error (sortedWinners winners) i) as [w|] eqn:E; [|discriminate].
    exists i, w. split.
    + apply in_seq. assert (i < length (sortedWinners winners))%nat
        by (apply nth_error_Some; congruence). lia.
    + split; [exact E|]. split; [now apply Z.eqb_eq | exact Hr].
Qed.

Lemma ranks_or_null {B : Type} (ranks : list Z) (f : list Z -> B) (d : B) :
  f [] = d ->
  match (if (0 <? length ranks)%nat then Some ranks else None) with
  | Some r => f r
  | None => d
  end = f ranks.
Proof.
  intros H. destruct ranks as [|x ranks]; cbn; [now symmetry | reflexivity].
Qed.

Lemma sortedWinners_nil : sortedWinners [] = [].
Proof. reflexivity. Qed.

Lemma latest_first (winners : list Winner) :
  Permutation (sortedWinners winners) winners /\
  StronglySorted (fun x y => w_round y <= w_round x) (sortedWinners winners).
Proof.
  split; [apply sort_list_perm|].
  apply (sort_list_sorted _ (fun _ => True) (fun _ _ => True)).
  - intros x y z _ _ _ H1 H2. lia.
  - intros x y _ _ H. destruct (Z.gtb_spec (w_round y - w_round x) 0); [lia | discriminate].
  - intros x y _ _ _ H. destruct (Z.gtb_spec (w_round y - w_round x) 0); [discriminate | lia].
  - apply Forall_forall. intros; exact I.
  - induction winners as [|w ws IH]; constructor; [exact IH|].
    apply Forall_forall. intros; exact I.
Qed.

Section AnyArithmetic.

Context {num : Type} {NUM : JSNumber num}.

Lemma risk_ladder (winners : list Winner) (blockNumber : Z) (participants amount : num) :
  calculateRiskLevel winners blockNumber participants amount
  = if won_at winners blockNumber 0 then EXTREME
    else if won_at winners blockNumber 1 || won_at winners blockNumber 2 then HIGH
    else if num_gt participants participantThreshold then MEDIUM
    else if num_gt amount amountThreshold then MEDIUM
    else LOW.
Proof.
  unfold calculateRiskLevel. cbn zeta.
  assert (forall f : Z -> bool,
            match getRecentWinnerRank winners blockNumber with
            | Some ranks => existsb f ranks
            | None => false
            end = existsb f (rank_loop (sortedWinners winners) blockNumber)) as Hnull.
  { intros f. unfold getRecentWinnerRank.
    destruct winners as [|w ws]; [reflexivity|].
    cbn [length Nat.eqb]. cbn zeta. now apply ranks_or_null. }
  rewrite !Hnull.
  assert (existsb (fun r => r =? -1) (rank_loop (sortedWinners winners) blockNumber)
          = won_at winners blockNumber 0) as ->.
  { apply Bool.eq_iff_eq_true. rewrite existsb_exists. split.
    - intros (r & Hr & Er). apply Z.eqb_eq in Er. subst r.
      apply rank_loop_In in Hr. destruct Hr as (i & _ & Hw & Hi).
      assert (i = 0%nat) as -> by lia. exact Hw.
    - intros Hw. exists (-1). split; [|reflexivity].
      apply rank_loop_In. exists 0%nat. repeat split; [lia | exact Hw]. }
  destruct (won_at winners blockNumber 0) eqn:E0; [reflexivity|].
  assert (existsb (fun r => r >=? -3) (rank_loop (sortedWinners winners) blockNumber)
          = won_at winners blockNumber 1 || won_at winners blockNumber 2) as ->.
  { apply Bool.eq_iff_eq_true. rewrite existsb_exists, Bool.orb_true_iff. split.
    - intros (r & Hr & Er). apply rank_loop_In in Hr. destruct Hr as (i & _ & Hw & ->).
      destruct (Z.geb_spec (- (Z.of_nat i + 1)) (-3)); [|discriminate].
      assert (i = 0 \/ i = 1 \/ i = 2)%nat as [->|[->| ->]] by lia;
        [congruence | now left | now right].
    - intros [Hw|Hw].
      + exists (-2). split; [|reflexivity]. apply rank_loop_In.
        exists 1%nat. repeat split; [lia | exact Hw].
      + exists (-3). split; [|reflexivity]. apply rank_loop_In.
        exists 2%nat. repeat split; [lia | exact Hw]. }
  reflexivity.
Qed.

(** The risk level of a block, in any arithmetic.  In the history sorted by
    round, the latest first (position 0 holds a record of the highest round):
    the level is EXTREME exactly when the record at position 0 is a win of
    the block, whatever the pool; HIGH exactly when it is not but the record
    at position 1 or 2 is; and otherwise MEDIUM when the participants exceed
    100 or the amount exceeds 0.25, and LOW when neither does. *)
Theorem risk_by_recency (winners : list Winner) (blockNumber : Z) (participants amount : num) :
  (calculateRiskLevel winners blockNumber participants amount = EXTREME
   <-> won_at winners blockNumber 0 = true) /\
  (calculateRiskLevel winners blockNumber participants amount = HIGH
   <-> won_at winners blockNumber 0 = false /\
       (won_at winners blockNumber 1 = true \/ won_at winners blockNumber 2 = true)) /\
  (won_at winners blockNumber 0 = false -> won_at winners blockNumber 1 = false ->
   won_at winners blockNumber 2 = false ->
   calculateRiskLevel winners blockNumber participants amount
   = if num_gt participants (num_of_nat 100) || num_gt amount (decimal 25 100)
     then MEDIUM else LOW) /\
  (forall latest, nth_error (sortedWinners winners) 0 = Some latest ->
     In latest winners /\ forall w, In w winners -> w_round w <= w_round latest).
Proof.
  rewrite risk_ladder.
  split; [|split; [|split]].
  - destruct (won_at winners blockNumber 0); [tauto|].
    destruct (won_at winners blockNumber 1 || won_at winners blockNumber 2).
    + split; discriminate.
    + destruct (num_gt participants participantThreshold);
        [|destruct (num_gt amount amountThreshold)]; split; discriminate.
  - destruct (won_at winners blockNumber 0); [split; [discriminate | intros [H _]; discriminate]|].
    destruct (won_at winners blockNumber 1), (won_at winners blockNumber 2); cbn [orb];
      try tauto.
    destruct (num_gt participants participantThreshold);
      [|destruct (num_gt amount amountThreshold)];
      (split; [discriminate | intros [_ [H|H]]; discriminate]).
  - intros -> -> ->. cbn [orb]. unfold participantThreshold, amountThreshold.
    destruct (num_gt participants (num_of_nat 100)); [reflexivity|].
    cbn [orb]. reflexivity.
  - intros latest Hl. destruct (latest_first winners) as [Hp Hs].
    destruct (sortedWinners winners) as [|x l] eqn:E; [discriminate|].
    cbn in Hl. injection Hl as ->.
    split; [apply (Permutation_in _ Hp); now left|].
    intros w Hw. apply (Permutation_in _ (Permutation_sym Hp)) in Hw.
    destruct Hw as [<-|Hw]; [lia|].
    apply StronglySorted_inv in Hs. destruct Hs as [_ Hs].
    rewrite Forall_forall in Hs. now apply Hs.
Qed.

End AnyArithmetic.


(** ** The efficiency array *)

Lemma elements_app {A : Type} (l1 l2 : JSArray.t A) :
  JSArray.elements (l1 ++ l2) = JSArray.elements l1 ++ JSArray.elements l2.
Proof.
  induction l1 as [|[x|] l1 IH]; cbn [app JSArray.elements]; [reflexivity| |exact IH].
  now rewrite IH.
Qed.

Lemma elements_holes {A : Type} (n : nat) : JSArray.elements (repeat (@None A) n) = [].
Proof. induction n as [|n IH]; [reflexivity | exact IH]. Qed.

Lemma elements_length {A : Type} (l : JSArray.t A) :
  (length (JSArray.elements l) <= length l)%nat /\
  (In None l <-> (length (JSArray.elements l) < length l)%nat).
Proof.
  induction l as [|[x|] l [IH1 IH2]]; cbn [JSArray.elements length In].
  - split; [lia|]. split; [intros [] | lia].
  - split; [lia|]. rewrite <- Nat.succ_lt_mono, <- IH2. split; [|tauto].
    intros [H|H]; [discriminate | exact H].
  - split; [lia|]. split; [lia | intros _; now left].
Qed.

Lemma elements_nth {A : Type} (l : JSArray.t A) (n : nat) :
  (length l <= n)%nat ->
  JSArray.elements l
  = flat_map (fun j => match nth j l None with Some e => [e] | None => [] end) (seq 0 n).
Proof.
  revert n. induction l as [|x l IH]; intros n Hn.
  - cbn [JSArray.elements]. induction (seq 0 n) as [|j js IHj]; [reflexivity|].
    cbn [flat_map]. rewrite <- IHj. now destruct j.
  - destruct n as [|n]; cbn [length] in Hn; [lia|].
    cbn [seq flat_map nth]. rewrite <- seq_shift, flat_map_concat_map, map_map,
      <- flat_map_concat_map.
    cbn [nth]. rewrite <- (IH n) by lia.
    destruct x; reflexivity.
Qed.

Lemma nth_extend {A : Type} (l : JSArray.t A) (k : nat) (e : A) (j : nat) :
  (length l <= k)%nat ->
  nth j (l ++ repeat None (k - length l) ++ [Some e]) None
  = if (j =? k)%nat then Some e else nth j l None.
Proof.
  intros Hk. destruct (Nat.eqb_spec j k) as [->|Hjk].
  - rewrite app_nth2 by lia. rewrite app_nth2 by (rewrite repeat_length; lia).
    rewrite repeat_length. now replace (k - length l - (k - length l))%nat with 0%nat by lia.
  - destruct (Nat.lt_ge_cases j (length l)) as [Hj|Hj]; [now rewrite app_nth1|].
    rewrite app_nth2 by lia. rewrite (nth_overflow l) by lia.
    destruct (Nat.lt_ge_cases (j - length l) (k - length l)) as [Hr|Hr].
    + rewrite app_nth1 by (rewrite repeat_length; lia). apply nth_repeat.
    + rewrite app_nth2 by (rewrite repeat_length; lia). rewrite repeat_length.
      apply nth_overflow. cbn [length]. lia.
Qed.

Section Pool.

Context {num : Type} {NUM : JSNumber num}.

Variable winners : list Winner.
Variable blocks : list (option (Block num)).

Lemma present_entry (i : nat) :
  present blocks i = true <-> exists block, nth i blocks None = Some block.
Proof.
  unfold present. destruct (nth i blocks None) as [b|]; split; try discriminate.
  - intros _. now exists b.
  - reflexivity.
  - intros (b & H). discriminate.
Qed.

Lemma efficiency_loop_upto (k : nat) :
  (k <= 25)%nat ->
  let arr := fold_left (efficiency_step winners blocks) (seq 0 k) [] in
  (length arr <= k)%nat /\
  (forall j, nth j arr None
             = if (j <? k)%nat then option_map (efficiency_of winners j) (nth j blocks None)
               else None) /\
  (length arr = 0%nat \/ nth (length arr - 1) arr None <> None).
Proof.
  induction k as [|k IH]; intros Hk; cbn zeta.
  - cbn. split; [lia|]. split; [|now left]. intros j. now destruct j.
  - rewrite seq_S, fold_left_app. cbn [Nat.add fold_left].
    specialize (IH ltac:(lia)). cbn zeta in IH.
    set (arr := fold_left (efficiency_step winners blocks) (seq 0 k) []) in *.
    destruct IH as (Hlen & Hnth & Hlast).
    destruct (nth k blocks None) as [block|] eqn:Eb.
    + assert (efficiency_step winners blocks arr k
              = arr ++ repeat None (k - length arr) ++ [Some (efficiency_of winners k block)])
        as ->.
      { unfold efficiency_step. rewrite Eb.
        unfold JSArray.update, JSArray.is_array_index.
        destruct (Z.leb_spec 0 (Z.of_nat k)); [|lia].
        destruct (Z.leb_spec (Z.of_nat k) 4294967294); [|lia].
        cbn [andb]. cbv beta zeta. rewrite Nat2Z.id.
        destruct (Nat.ltb_spec k (length arr)); [lia | reflexivity]. }
      split; [rewrite !length_app, repeat_length; cbn [length]; lia|].
      split.
      * intros j. rewrite nth_extend by lia.
        destruct (Nat.eqb_spec j k) as [->|Hjk].
        -- destruct (Nat.ltb_spec k (S k)); [|lia]. now rewrite Eb.
        -- rewrite Hnth. destruct (Nat.ltb_spec j k), (Nat.ltb_spec j (S k));
             try reflexivity; lia.
      * right. rewrite !length_app, repeat_length. cbn [length].
        replace (length arr + (k - length arr + 1) - 1)%nat with k by lia.
        rewrite nth_extend by lia. rewrite Nat.eqb_refl. discriminate.
    + assert (efficiency_step winners blocks arr k = arr) as ->
        by (unfold efficiency_step; now rewrite Eb).
      split; [lia|]. split; [|exact Hlast].
      intros j. rewrite Hnth.
      destruct (Nat.ltb_spec j k), (Nat.ltb_spec j (S k)); try reflexivity; try lia.
      assert (j = k) as -> by lia. now rewrite Eb.
Qed.

Lemma efficiency_loop_spec :
  (length (efficiency_loop winners blocks) <= 25)%nat /\
  JSArray.elements (efficiency_loop winners blocks)
  = flat_map (fun j => match nth j blocks None with
                       | Some block => [efficiency_of winners j block]
                       | None => []
                       end) (seq 0 25) /\
  (In None (efficiency_loop winners blocks)
   <-> exists j k, (j < k < 25)%nat /\ present blocks j = false /\ present blocks k = true).
Proof.
  destruct (efficiency_loop_upto 25 ltac:(lia)) as (Hlen & Hnth & Hlast).
  unfold efficiency_loop.
  set (arr := fold_left (efficiency_step winners blocks) (seq 0 25) []) in *.
  split; [exact Hlen|]. split.
  - rewrite (elements_nth arr 25 Hlen). rewrite !flat_map_concat_map. f_equal.
    apply map_ext_in. intros j Hj.
    apply in_seq in Hj. rewrite Hnth. destruct (Nat.ltb_spec j 25); [|lia].
    now destruct (nth j blocks None).
  - split.
    + intros Hin. apply (In_nth _ _ None) in Hin. destruct Hin as (j & Hj & Ej).
      destruct Hlast as [H0|Hlast]; [lia|].
      exists j, (length arr - 1)%nat.
      assert (j <> length arr - 1)%nat as Hne by (intros ->; contradiction).
      split; [lia|].
      rewrite Hnth in Ej, Hlast.
      destruct (Nat.ltb_spec j 25); [|lia].
      destruct (Nat.ltb_spec (length arr - 1) 25); [|lia].
      unfold present. split.
      * now destruct (nth j blocks None).
      * now destruct (nth (length arr - 1) blocks None).
    + intros (j & k & Hjk & Hj & Hk).
      assert (nth k arr None <> None) as Hk'.
      { rewrite Hnth. destruct (Nat.ltb_spec k 25); [|lia].
        unfold present in Hk. now destruct (nth k blocks None). }
      assert (k < length arr)%nat as Hkl.
      { destruct (Nat.lt_ge_cases k (length arr)) as [H|H]; [exact H|].
        exfalso. apply Hk'. now apply nth_overflow. }
      assert (nth j arr None = None) as Ej.
      { rewrite Hnth. destruct (Nat.ltb_spec j 25); [|reflexivity].
        unfold present in Hj. now destruct (nth j blocks None). }
      rewrite <- Ej. apply nth_In. lia.
Qed.

Lemma efficiency_elements (e : Efficiency num) :
  In e (JSArray.elements (efficiency_loop winners blocks))
  <-> exists i block, (i < 25)%nat /\ nth i blocks None = Some block /\
                      e = efficiency_of winners i block.
Proof.
  destruct efficiency_loop_spec as (_ & -> & _). rewrite in_flat_map. split.
  - intros (i & Hi & He). apply in_seq in Hi.
    destruct (nth i blocks None) as [block|] eqn:Eb; [|destruct He].
    destruct He as [<-|[]]. exists i, block. repeat split; [lia | exact Eb].
  - intros (i & block & Hi & Eb & ->). exists i. split; [apply in_seq; lia|].
    rewrite Eb. now left.
Qed.

Lemma pool_sorted :
  exists xs : list (Efficiency num),
    calculatePoolEfficiency winners blocks
    = List.map Some xs ++ repeat None (length (efficiency_loop winners blocks) - length xs) /\
    Permutation xs (JSArray.elements (efficiency_loop winners blocks)) /\
    xs = JSArray.sort_list
           (fun a b => num_gt (num_sub (eff_efficiency b) (eff_efficiency a)) (num_of_nat 0))
           (JSArray.elements (efficiency_loop winners blocks)) /\
    JSArray.elements (calculatePoolEfficiency winners blocks) = xs.
Proof.
  exists (JSArray.sort_list
            (fun a b => num_gt (num_sub (eff_efficiency b) (eff_efficiency a)) (num_of_nat 0))
            (JSArray.elements (efficiency_loop winners blocks))).
  unfold calculatePoolEfficiency.
  generalize (efficiency_loop winners blocks). intros arr.
  split.
  { unfold JSArray.sort.
    rewrite (Permutation_length (sort_list_perm _ (JSArray.elements arr))). reflexivity. }
  split; [apply sort_list_perm|]. split; [reflexivity|].
  unfold JSArray.sort.
  rewrite elements_app, elements_holes, app_nil_r. apply elements_dense.
Qed.

End Pool.



Lemma In_firstn {A : Type} (n : nat) (l : list A) (x : A) :
  In x (firstn n l) -> In x l.
Proof.
  intros H. rewrite <- (firstn_skipn n l). apply in_or_app. now left.
Qed.

(** ** The advice *)

Section Advice.

Context {num : Type} {NUM : JSNumber num}.

Variable winners : list Winner.

Lemma find_block_sorted (xs : list (Efficiency num)) (h : nat) (i : Z) :
  find_block (List.map Some xs ++ repeat None h) i
  = match find (fun e => eff_blockNumber e =? i) xs with
    | Some e => FoundAt e
    | None => if (h =? 0)%nat then NotFound else TypeErrorUndefined
    end.
Proof.
  induction xs as [|x xs IH]; cbn [List.map app find_block find].
  - destruct h; reflexivity.
  - destruct (eff_blockNumber x =? i); [reflexivity | exact IH].
Qed.

Lemma neverWon_loop_spec (arr : JSArray.t (Efficiency num)) (idxs : list Z) :
  forall acc : list (Efficiency num),
  match neverWon_loop winners arr idxs acc with
  | None =>
      exists i, In i idxs /\ getRecentWinnerRank winners i = None /\
                find_block arr i = TypeErrorUndefined
  | Some l =>
      (forall i, In i idxs -> getRecentWinnerRank winners i = None ->
                 find_block arr i <> TypeErrorUndefined) /\
      (forall e, In e l ->
         In e acc \/
         exists i, In i idxs /\ getRecentWinnerRank winners i = None /\
                   find_block arr i = FoundAt e)
  end.
Proof.
  induction idxs as [|i idxs IH]; intros acc; cbn [neverWon_loop].
  - split; [intros i [] | intros e He; now left].
  - destruct (getRecentWinnerRank winners i) as [ranks|] eqn:Er.
    + specialize (IH acc). destruct (neverWon_loop winners arr idxs acc) as [l|].
      * destruct IH as [H1 H2]. split.
        -- intros j [<-|Hj] Hn; [congruence | now apply H1].
        -- intros e He. destruct (H2 e He) as [H|(j & Hj & Hn & Hf)]; [now left|].
           right. exists j. split; [now right | now split].
      * destruct IH as (j & Hj & Hn & Hf). exists j. split; [now right | now split].
    + destruct (find_block arr i) as [e0| |] eqn:Ef.
      * specialize (IH (acc ++ [e0])).
        destruct (neverWon_loop winners arr idxs (acc ++ [e0])) as [l|].
        -- destruct IH as [H1 H2]. split.
           ++ intros j [<-|Hj] Hn; [congruence | now apply H1].
           ++ intros e He. destruct (H2 e He) as [H|(j & Hj & Hn & Hf)].
              ** apply in_app_iff in H. destruct H as [H|[<-|[]]]; [now left|].
                 right. exists i. split; [now left | now split].
              ** right. exists j. split; [now right | now split].
        -- destruct IH as (j & Hj & Hn & Hf). exists j. split; [now right | now split].
      * specialize (IH acc). destruct (neverWon_loop winners arr idxs acc) as [l|].
        -- destruct IH as [H1 H2]. split.
           ++ intros j [<-|Hj] Hn; [congruence | now apply H1].
           ++ intros e He. destruct (H2 e He) as [H|(j & Hj & Hn & Hf)]; [now left|].
              right. exists j. split; [now right | now split].
        -- destruct IH as (j & Hj & Hn & Hf). exists j. split; [now right | now split].
      * exists i. split; [now left | now split].
Qed.

Lemma in_blockNumbers (i : Z) :
  In i blockNumbers <-> exists k : nat, (k < 25)%nat /\ i = Z.of_nat k + 1.
Proof.
  unfold blockNumbers. rewrite in_map_iff. split.
  - intros (j & <- & Hj). apply in_seq in Hj. exists (j - 1)%nat. lia.
  - intros (k & Hk & ->). exists (S k). split; [lia | apply in_seq; lia].
Qed.

(** The advice on an array of elements followed by holes. *)
Lemma advice_of_none (xs : list (Efficiency num)) (h : nat) :
  advice_of winners (List.map Some xs ++ repeat None h) = None
  <-> h <> 0%nat /\
      exists k : nat, (k < 25)%nat /\
        getRecentWinnerRank winners (Z.of_nat k + 1) = None /\
        find (fun e => eff_blockNumber e =? Z.of_nat k + 1) xs = None.
Proof.
  unfold advice_of. cbn zeta.
  pose proof (neverWon_loop_spec (List.map Some xs ++ repeat None h) blockNumbers [])
    as Hspec.
  destruct (neverWon_loop winners (List.map Some xs ++ repeat None h) blockNumbers [])
    as [l|].
  - destruct Hspec as [Hno _]. split; [discriminate|].
    intros (Hh & k & Hk & Hr & Hf). exfalso.
    apply (Hno (Z.of_nat k + 1)); [apply in_blockNumbers; now exists k | exact Hr|].
    rewrite find_block_sorted, Hf. destruct h; [congruence | reflexivity].
  - destruct Hspec as (i & Hi & Hr & Hf). split; [intros _ | reflexivity].
    apply in_blockNumbers in Hi. destruct Hi as (k & Hk & ->).
    rewrite find_block_sorted in Hf.
    destruct (find (fun e => eff_blockNumber e =? Z.of_nat k + 1) xs) eqn:Efind;
      [discriminate|].
    destruct h; [discriminate|]. split; [discriminate|]. now exists k.
Qed.

Lemma advice_of_some (xs : list (Efficiency num)) (h : nat) (advice : Advice num) :
  advice_of winners (List.map Some xs ++ repeat None h) = Some advice ->
  (length (primary advice) <= 3)%nat /\
  (length (neverWon advice) <= 2)%nat /\
  (length (contrarian advice) <= 2)%nat /\
  (forall e, In e (primary advice) -> In e xs /\ eff_riskLevel e = LOW) /\
  (forall e, In e (neverWon advice) ->
     In e xs /\ getRecentWinnerRank winners (eff_blockNumber e) = None) /\
  (forall e, In e (contrarian advice) -> In e xs /\ eff_riskLevel e <> EXTREME) /\
  bestEfficiency (analysis advice) = nth 0 (List.map Some xs ++ repeat None h) None.
Proof.
  unfold advice_of. cbn zeta.
  pose proof (neverWon_loop_spec (List.map Some xs ++ repeat None h) blockNumbers [])
    as Hspec.
  destruct (neverWon_loop winners (List.map Some xs ++ repeat None h) blockNumbers [])
    as [l|]; [|discriminate].
  destruct Hspec as [_ Hnever].
  rewrite elements_app, elements_holes, app_nil_r.
  change (JSArray.elements (List.map Some xs)) with (JSArray.elements (JSArray.dense xs)).
  rewrite elements_dense.
  intros Ea.
  assert (primary advice
          = firstn 3 (filter (fun e => Risk_eqb (eff_riskLevel e) LOW
                                       && num_gt (eff_efficiency e) (decimal 12 10)
                                       && num_gt participantThreshold (eff_participants e))
                             xs)) as ->.
  { apply (f_equal (fun o => match o with Some a => primary a | None => [] end)) in Ea.
    cbn [primary] in Ea. now symmetry. }
  assert (neverWon advice = firstn 2 l) as ->.
  { apply (f_equal (fun o => match o with Some a => neverWon a | None => [] end)) in Ea.
    cbn [neverWon] in Ea. now symmetry. }
  assert (contrarian advice
          = firstn 2
              (JSArray.sort_list
                 (fun a b => num_gt (num_sub (eff_participants a) (eff_participants b))
                                    (num_of_nat 0))
                 (filter (fun e => negb (Risk_eqb (eff_riskLevel e) EXTREME)) xs))) as ->.
  { apply (f_equal (fun o => match o with Some a => contrarian a | None => [] end)) in Ea.
    cbn [contrarian] in Ea. now symmetry. }
  assert (bestEfficiency (analysis advice)
          = nth 0 (List.map Some xs ++ repeat None h) None) as ->.
  { apply (f_equal (fun o => match o with
                             | Some a => bestEfficiency (analysis a)
                             | None => None
                             end)) in Ea.
    cbn [bestEfficiency analysis] in Ea. now symmetry. }
  clear Ea.
  split; [apply firstn_le_length|]. split; [apply firstn_le_length|].
  split; [apply firstn_le_length|].
  split; [|split; [|split; [|reflexivity]]].
  - intros e He. apply In_firstn in He. apply filter_In in He. destruct He as [Hin Hf].
    split; [exact Hin|].
    apply andb_prop in Hf. destruct Hf as [Hf _].
    apply andb_prop in Hf. destruct Hf as [Hf _].
    now destruct (eff_riskLevel e).
  - intros e He. apply In_firstn in He.
    destruct (Hnever e He) as [[]|(i & _ & Hr & Hf)].
    rewrite find_block_sorted in Hf.
    destruct (find (fun e => eff_blockNumber e =? i) xs) as [e'|] eqn:Efind;
      [|destruct (h =? 0)%nat; discriminate].
    assert (e' = e) as -> by congruence.
    apply find_some in Efind. destruct Efind as [Hin Hb].
    apply Z.eqb_eq in Hb. rewrite Hb. now split.
  - intros e He. apply In_firstn in He.
    apply (Permutation_in _ (sort_list_perm _ _)) in He.
    apply filter_In in He. destruct He as [Hin Hf]. split; [exact Hin|].
    destruct (eff_riskLevel e); (discriminate || congruence).
Qed.

Lemma rank_none_not_latest (b : Z) :
  getRecentWinnerRank winners b = None -> won_at winners b 0 = false.
Proof.
  intros Hn. destruct (won_at winners b 0) eqn:E; [|reflexivity]. exfalso.
  assert (In (-1) (rank_loop (sortedWinners winners) b)) as Hin.
  { apply rank_loop_In. exists 0%nat. repeat split; [lia | exact E]. }
  unfold getRecentWinnerRank in Hn.
  destruct (length winners =? 0)%nat eqn:El.
  - apply Nat.eqb_eq in El. destruct winners; [destruct Hin | discriminate El].
  - cbn zeta in Hn.
    destruct (rank_loop (sortedWinners winners) b); [destruct Hin | discriminate Hn].
Qed.

Variable blocks : list (option (Block num)).

Lemma pool_facts :
  exists (xs : list (Efficiency num)) (h : nat),
    calculatePoolEfficiency winners blocks = List.map Some xs ++ repeat None h /\
    (h <> 0%nat <-> exists j k, (j < k < 25)%nat /\
                                present blocks j = false /\ present blocks k = true) /\
    (forall e, In e xs <-> exists i block, (i < 25)%nat /\ nth i blocks None = Some block /\
                                           e = efficiency_of winners i block) /\
    (forall k, (k < 25)%nat ->
       find (fun e => eff_blockNumber e =? Z.of_nat k + 1) xs = None
       <-> present blocks k = false) /\
    (xs = [] <-> forall i, (i < 25)%nat -> present blocks i = false).
Proof.
  destruct (pool_sorted winners blocks) as (xs & E & Hp & _ & _).
  exists xs, (length (efficiency_loop winners blocks) - length xs)%nat.
  assert (forall e, In e xs <-> exists i block, (i < 25)%nat /\
                                  nth i blocks None = Some block /\
                                  e = efficiency_of winners i block) as Hin.
  { intros e. rewrite <- efficiency_elements. split; intros H.
    - exact (Permutation_in _ Hp H).
    - exact (Permutation_in _ (Permutation_sym Hp) H). }
  split; [exact E|]. split; [|split; [exact Hin|split]].
  - destruct (efficiency_loop_spec winners blocks) as (_ & _ & <-).
    rewrite (proj2 (elements_length (efficiency_loop winners blocks))).
    rewrite (Permutation_length Hp). lia.
  - intros k Hk. split.
    + intros Hf. destruct (present blocks k) eqn:Ep; [|reflexivity].
      apply present_entry in Ep. destruct Ep as (block & Eb).
      assert (In (efficiency_of winners k block) xs) as Hin'
        by (apply Hin; now exists k, block).
      apply (find_none _ _ Hf) in Hin'. cbn [eff_blockNumber efficiency_of] in Hin'.
      rewrite Z.eqb_refl in Hin'. discriminate.
    + intros Hpr.
      destruct (find (fun e => eff_blockNumber e =? Z.of_nat k + 1) xs) as [e|] eqn:Ef;
        [|reflexivity].
      apply find_some in Ef. destruct Ef as [Hin' Hb].
      apply Hin in Hin'. destruct Hin' as (i & block & Hi & Eb & ->).
      cbn [eff_blockNumber efficiency_of] in Hb. apply Z.eqb_eq in Hb.
      assert (i = k) as -> by lia.
      unfold present in Hpr. rewrite Eb in Hpr. discriminate.
  - clear E Hp. split.
    + intros -> i Hi. destruct (present blocks i) eqn:Ep; [|reflexivity].
      apply present_entry in Ep. destruct Ep as (block & Eb).
      assert (In (efficiency_of winners i block) []) as Hnil.
      { apply Hin. exists i, block. split; [exact Hi|]. split; [exact Eb | reflexivity]. }
      destruct Hnil.
    + intros Hall. destruct xs as [|e xs']; [reflexivity|].
      assert (In e (e :: xs')) as He by (left; reflexivity).
      apply Hin in He. destruct He as (i & block & Hi & Eb & _).
      specialize (Hall i Hi). unfold present in Hall. rewrite Eb in Hall. discriminate.
Qed.

(** [getSmartBettingAdvice] throws its [TypeError], in any arithmetic,
    exactly when the efficiency array has a hole (a block is missing below
    one that is there) and some missing block among the 25 has no win in the
    15 latest rounds: the search for that block runs through the elements
    into a hole.  [displayAdvancedAnalysis] throws in that case and when no
    block is there at all. *)
Theorem advice_type_error :
  (getSmartBettingAdvice winners blocks = None
   <-> (exists j k, (j < k < 25)%nat /\
                    present blocks j = false /\ present blocks k = true) /\
       (exists i, (i < 25)%nat /\ present blocks i = false /\
                  getRecentWinnerRank winners (Z.of_nat i + 1) = None)) /\
  (forall totalBudget : num,
     displayAdvancedAnalysis winners blocks totalBudget = None
     <-> getSmartBettingAdvice winners blocks = None \/
         forall i, (i < 25)%nat -> present blocks i = false).
Proof.
  destruct pool_facts as (xs & h & Earr & Hh & Hin & Hfind & Hnil).
  unfold displayAdvancedAnalysis, getSmartBettingAdvice. cbn zeta.
  rewrite Earr. clear Earr Hin.
  split.
  - rewrite advice_of_none, Hh. split.
    + intros (Hhole & k & Hk & Hr & Hf). split; [exact Hhole|].
      exists k. split; [exact Hk|]. split; [now apply Hfind | exact Hr].
    + intros (Hhole & k & Hk & Hp & Hr). split; [exact Hhole|].
      exists k. split; [exact Hk|]. split; [exact Hr | now apply Hfind].
  - intros totalBudget.
    destruct (advice_of winners (List.map Some xs ++ repeat None h)) as [advice|] eqn:Ea;
      [|split; [now left | reflexivity]].
    destruct (advice_of_some xs h advice Ea) as (_ & _ & _ & _ & _ & _ & ->).
    rewrite <- Hnil.
    destruct xs as [|e xs']; cbn [List.map app nth].
    + destruct h; cbn [repeat nth]; split; (reflexivity || (intros _; now right)).
    + split; [discriminate | intros [H|H]; discriminate].
Qed.

(** What the advice recommends, in any arithmetic, when it is given: at
    most three primary picks, two picks that never won and two contrarian
    picks; each is the entry of a block that is there, and none of them is
    the block that won the latest round.  The primary picks are of LOW
    risk, and the picks that never won have no win among the 15 latest
    rounds. *)
Theorem advice_avoids_latest_winner (advice : Advice num) :
  getSmartBettingAdvice winners blocks = Some advice ->
  (length (primary advice) <= 3)%nat /\
  (length (neverWon advice) <= 2)%nat /\
  (length (contrarian advice) <= 2)%nat /\
  (forall e, In e (primary advice ++ neverWon advice ++ contrarian advice) ->
     exists i block,
       (i < 25)%nat /\ nth i blocks None = Some block /\
       e = efficiency_of winners i block /\
       won_at winners (Z.of_nat i + 1) 0 = false) /\
  (forall e, In e (primary advice) -> eff_riskLevel e = LOW) /\
  (forall e, In e (neverWon advice) ->
     getRecentWinnerRank winners (eff_blockNumber e) = None).
Proof.
  destruct pool_facts as (xs & h & Earr & _ & Hin & _ & _).
  unfold getSmartBettingAdvice. cbn zeta. rewrite Earr. clear Earr.
  intros Ea.
  destruct (advice_of_some xs h advice Ea) as (L1 & L2 & L3 & Hp & Hn & Hc & _).
  split; [exact L1|]. split; [exact L2|]. split; [exact L3|].
  assert (forall e, In e xs ->
            (eff_riskLevel e <> EXTREME \/
             getRecentWinnerRank winners (eff_blockNumber e) = None) ->
            exists i block,
              (i < 25)%nat /\ nth i blocks None = Some block /\
              e = efficiency_of winners i block /\
              won_at winners (Z.of_nat i + 1) 0 = false) as Hpick.
  { intros e He Hsafe. apply Hin in He.
    destruct He as (i & block & Hi & Eb & ->).
    exists i, block. repeat split; try assumption.
    cbn [eff_riskLevel eff_blockNumber efficiency_of] in Hsafe.
    destruct Hsafe as [Hrisk|Hrank]; [|now apply rank_none_not_latest].
    rewrite risk_ladder in Hrisk.
    destruct (won_at winners (Z.of_nat i + 1) 0); [congruence | reflexivity]. }
  split; [|split].
  - intros e He. apply in_app_iff in He. destruct He as [He|He];
      [|apply in_app_iff in He; destruct He as [He|He]].
    + destruct (Hp e He) as [Hx Hl]. apply Hpick; [exact Hx|]. left. congruence.
    + destruct (Hn e He) as [Hx Hr]. apply Hpick; [exact Hx | now right].
    + destruct (Hc e He) as [Hx Hr]. apply Hpick; [exact Hx | now left].
  - intros e He. now apply Hp.
  - intros e He. now apply Hn.
Qed.

End Advice.

(** The advice for three blocks after two rounds. *)
Lemma advice_avoids_latest_winner_witness :
  exists advice : Advice xrat,
    getSmartBettingAdvice two_rounds three_blocks = Some advice /\
    (length (primary advice) <= 3)%nat /\
    (length (neverWon advice) <= 2)%nat /\
    (length (contrarian advice) <= 2)%nat.
Proof.
  destruct (getSmartBettingAdvice two_rounds three_blocks) as [advice|] eqn:E.
  - exists advice. split; [reflexivity|].
    destruct (advice_avoids_latest_winner two_rounds three_blocks advice E)
      as (L1 & L2 & L3 & _).
    split; [exact L1|]. split; [exact L2 | exact L3].
  - vm_compute in E. discriminate E.
Defined.

(** ** Facts on rationals *)

Lemma Qeq_bool_false (q : Q) : ~ (q == 0)%Q -> Qeq_bool q 0 = false.
Proof.
  intros H. destruct (Qeq_bool q 0) eqn:E; [|reflexivity].
  apply Qeq_bool_iff in E. contradiction.
Qed.

Lemma share_pos (x n : Q) : (0 < x)%Q -> (0 < n)%Q -> (0 < x / n)%Q.
Proof. intros Hx Hn. apply Qlt_shift_div_l; [exact Hn | lra]. Qed.

(** ** The probabilities *)

Lemma fold_set_nth {A : Type} (g : nat -> A) (l0 : list A) (d : A) (k : nat) :
  (k <= length l0)%nat ->
  length (fold_left (fun l i => JSArray.set_nth l i (g i)) (seq 0 k) l0) = length l0 /\
  forall j, nth j (fold_left (fun l i => JSArray.set_nth l i (g i)) (seq 0 k) l0) d
            = if (j <? k)%nat then g j else nth j l0 d.
Proof.
  induction k as [|k IH]; intros Hk.
  - cbn. split; [reflexivity|]. intros j. reflexivity.
  - rewrite seq_S, fold_left_app. cbn [Nat.add fold_left].
    destruct (IH ltac:(lia)) as [Hl Hn].
    split; [now rewrite length_set_nth|].
    intros j. destruct (Nat.eq_dec j k) as [->|Hjk].
    + rewrite nth_set_nth_same by (rewrite Hl; lia).
      destruct (Nat.ltb_spec k (S k)); [reflexivity | lia].
    + rewrite nth_set_nth_other by congruence. rewrite Hn.
      destruct (Nat.ltb_spec j k), (Nat.ltb_spec j (S k)); try reflexivity; lia.
Qed.

Lemma fold_set_nth_map {A : Type} (g : nat -> A) (l0 : list A) (n : nat) :
  length l0 = n ->
  fold_left (fun l i => JSArray.set_nth l i (g i)) (seq 0 n) l0 = List.map g (seq 0 n).
Proof.
  intros Hl. destruct l0 as [|d l0'] eqn:El0.
  - cbn in Hl. subst n. reflexivity.
  - rewrite <- El0 in *. clear El0 l0'.
    destruct (fold_set_nth g l0 d n ltac:(lia)) as [Hlen Hnth].
    apply (nth_ext _ _ d (g 0%nat)).
    + now rewrite Hlen, length_map, length_seq.
    + intros j Hj. rewrite Hlen, Hl in Hj. rewrite Hnth.
      destruct (Nat.ltb_spec j n); [|lia].
      rewrite (nth_indep _ (g 0%nat) (g (nth j (seq 0 n) 0%nat)))
        by (rewrite length_map, length_seq; lia).
      rewrite map_nth, seq_nth by lia. reflexivity.
Qed.

Lemma frequency_count (recs : list Winner) (f0 : list nat) (k : nat) :
  length f0 = 25%nat -> (k < 25)%nat ->
  nth k
    (fold_left
       (fun freq winner =>
          let blockIndex := w_blockNumber winner - 1 in
          if (0 <=? blockIndex) && (blockIndex <? 25)
          then JSArray.set_nth freq (Z.to_nat blockIndex)
                               (S (nth (Z.to_nat blockIndex) freq O))
          else freq) recs f0) O
  = (nth k f0 O
     + length (filter (fun w => (w_blockNumber w - 1 =? Z.of_nat k)%Z) recs))%nat.
Proof.
  revert f0. induction recs as [|w recs IH]; intros f0 Hl Hk.
  - cbn. lia.
  - cbn [fold_left filter]. cbn zeta.
    destruct (Z.leb_spec 0 (w_blockNumber w - 1)), (Z.ltb_spec (w_blockNumber w - 1) 25);
      cbn [andb].
    + rewrite IH by (rewrite ?length_set_nth; assumption).
      destruct (Z.eqb_spec (w_blockNumber w - 1) (Z.of_nat k)) as [E|E].
      * rewrite E, Nat2Z.id. rewrite nth_set_nth_same by lia. cbn [length]. lia.
      * rewrite nth_set_nth_other by lia. reflexivity.
    + rewrite IH by assumption.
      destruct (Z.eqb_spec (w_blockNumber w - 1) (Z.of_nat k)); [lia | reflexivity].
    + rewrite IH by assumption.
      destruct (Z.eqb_spec (w_blockNumber w - 1) (Z.of_nat k)); [lia | reflexivity].
    + rewrite IH by assumption.
      destruct (Z.eqb_spec (w_blockNumber w - 1) (Z.of_nat k)); [lia | reflexivity].
Qed.

Lemma frequency_nth (recs : list Winner) (k : nat) :
  (k < 25)%nat ->
  nth k (frequency recs) O
  = length (filter (fun w => w_blockNumber w - 1 =? Z.of_nat k) recs).
Proof.
  intros Hk. unfold frequency. rewrite frequency_count by (rewrite ?repeat_length; lia).
  rewrite nth_repeat_lt by lia. reflexivity.
Qed.

Lemma position_from (recs : list Winner) (blockIndex i : Z) :
  mostRecentPosition_from recs blockIndex i = -1 \/
  i <= mostRecentPosition_from recs blockIndex i.
Proof.
  revert i. induction recs as [|w recs IH]; intros i; cbn [mostRecentPosition_from].
  - now left.
  - destruct (w_blockNumber w - 1 =? blockIndex); [right; lia|].
    destruct (IH (i + 1)) as [H|H]; [now left | right; lia].
Qed.

Lemma slice0_firstn {A : Type} (l : list A) (n : nat) :
  JSArray.slice0 l (Z.of_nat n) = firstn n l.
Proof.
  unfold JSArray.slice0. destruct (Z.ltb_spec (Z.of_nat n) 0); [lia|].
  now rewrite Nat2Z.id.
Qed.

Lemma hash_eqb_refl (h : list (Z * Z)) : hash_eqb h h = true.
Proof.
  unfold hash_eqb. rewrite Nat.eqb_refl. cbn [andb].
  induction h as [|x h IH]; [reflexivity|].
  cbn [combine forallb fst snd]. now rewrite !Z.eqb_refl, IH.
Qed.

Lemma sum_fin (qs : list Q) (i : Q) :
  fold_left (@num_add xrat _) (List.map Fin qs) (Fin i) = Fin (fold_left Qplus qs i).
Proof.
  revert i. induction qs as [|q qs IH]; intros i; [reflexivity|].
  cbn [List.map fold_left]. cbn [num_add xrat_JSNumber xadd]. apply IH.
Qed.

Lemma tier_weight_fin (f15 f25 : list nat) (r25 : list Winner) (k : nat) :
  exists q : Q,
    @weight xrat _ f15 f25 r25 k = Fin q /\
    (1 # 100 <= q)%Q /\ (q <= 1)%Q /\
    (nth k f25 O = O -> (q == 1)%Q) /\
    (nth k f25 O <> O -> mostRecentPosition r25 (Z.of_nat k) = 0 -> (q == 1 # 100)%Q) /\
    (mostRecentPosition r25 (Z.of_nat k) <> 0 -> (2 # 100 <= q)%Q).
Proof.
  unfold weight. cbn zeta.
  destruct (Nat.eqb_spec (nth k f25 O) 0) as [E0|E0].
  - exists (inject_Z 1). split; [reflexivity|].
    change (inject_Z 1) with 1%Q. repeat split; intros; try lra; try reflexivity.
    contradiction.
  - destruct (Z.eqb_spec (mostRecentPosition r25 (Z.of_nat k)) 0) as [Ep|Ep].
    + exists (1 # 100). split; [reflexivity|].
      repeat split; intros; try lra; try reflexivity; contradiction.
    + destruct (mostRecentPosition r25 (Z.of_nat k) <=? 2);
        [|destruct (mostRecentPosition r25 (Z.of_nat k) <=? 5);
          [|destruct (mostRecentPosition r25 (Z.of_nat k) <=? 10);
            [|destruct (mostRecentPosition r25 (Z.of_nat k) <=? 15)]]];
        destruct (2 <=? nth k f15 O)%nat;
        (eexists; split; [reflexivity|];
         repeat split; intros; try contradiction; try (now cbv); lra).
Qed.

Lemma tier_weights_fin (ws : list Winner) :
  exists qs : list Q,
    @weights xrat _ ws = List.map Fin qs /\ length qs = 25%nat /\
    (forall k, (k < 25)%nat ->
       let r25 := firstn 25 (sortedWinners ws) in
       (1 # 100 <= nth k qs 0)%Q /\ (nth k qs 0 <= 1)%Q /\
       (nth k (frequency r25) O = O -> (nth k qs 0 == 1)%Q) /\
       (nth k (frequency r25) O <> O -> mostRecentPosition r25 (Z.of_nat k) = 0 ->
        (nth k qs 0 == 1 # 100)%Q) /\
       (mostRecentPosition r25 (Z.of_nat k) <> 0 -> (2 # 100 <= nth k qs 0)%Q)).
Proof.
  unfold weights. cbn zeta.
  change 25 with (Z.of_nat 25). change 15 with (Z.of_nat 15).
  rewrite !slice0_firstn.
  set (r15 := firstn 15 (sortedWinners ws)). set (r25 := firstn 25 (sortedWinners ws)).
  rewrite (fold_set_nth_map (weight (frequency r15) (frequency r25) r25)
             (repeat baseWeight 25) 25) by apply repeat_length.
  assert (forall k, exists q : Q,
            @weight xrat _ (frequency r15) (frequency r25) r25 k = Fin q /\
            (1 # 100 <= q)%Q /\ (q <= 1)%Q /\
            (nth k (frequency r25) O = O -> (q == 1)%Q) /\
            (nth k (frequency r25) O <> O -> mostRecentPosition r25 (Z.of_nat k) = 0 ->
             (q == 1 # 100)%Q) /\
            (mostRecentPosition r25 (Z.of_nat k) <> 0 -> (2 # 100 <= q)%Q)) as Hw
    by (intros k; apply tier_weight_fin).
  generalize (weight (num := xrat) (frequency r15) (frequency r25) r25) Hw.
  intros g Hg. clear Hw.
  assert (forall n, exists qs : list Q,
            List.map g (seq 0 n) = List.map Fin qs /\ length qs = n /\
            forall k, (k < n)%nat -> g k = Fin (nth k qs 0%Q)) as Hqs.
  { induction n as [|n (qs & E & Hl & Hn)].
    - exists []. split; [reflexivity|]. split; [reflexivity|]. intros k Hk. lia.
    - destruct (Hg n) as (q & Eq & _). exists (qs ++ [q]).
      rewrite seq_S, !map_app, E. cbn [Nat.add List.map]. rewrite Eq.
      split; [reflexivity|]. split; [rewrite length_app; cbn [length]; lia|].
      intros k Hk. destruct (Nat.eq_dec k n) as [->|Hkn].
      + rewrite app_nth2 by lia. rewrite Hl, Nat.sub_diag. exact Eq.
      + rewrite app_nth1 by lia. apply Hn. lia. }
  destruct (Hqs 25%nat) as (qs & E & Hl & Hn).
  exists qs. split; [exact E|]. split; [exact Hl|].
  intros k Hk. cbn zeta.
  destruct (Hg k) as (q & Eq & H1 & H2 & H3 & H4 & H5).
  rewrite (Hn k Hk) in Eq. injection Eq as <-.
  repeat split; assumption.
Qed.

Lemma normalize_fin (qs : list Q) :
  Forall (fun q => 0 < q)%Q qs -> qs <> [] ->
  exists S : Q,
    (S == SmartPicks.sumQ qs)%Q /\ (0 < S)%Q /\
    @normalize xrat _ (List.map Fin qs) = List.map Fin (List.map (fun q => q / S)%Q qs).
Proof.
  intros Hpos Hne. unfold normalize. cbn zeta.
  change (@num_of_nat xrat _ 0) with (Fin (inject_Z 0)).
  rewrite sum_fin.
  pose proof (SmartPicksProps.fold_left_sumQ qs (inject_Z 0)) as HS.
  pose proof (SmartPicksProps.sumQ_pos qs Hpos Hne) as HSpos.
  change (inject_Z 0) with 0%Q in *.
  set (S := fold_left Qplus qs 0%Q) in *.
  assert (0 < S)%Q as HS0 by lra.
  exists S. split; [lra|]. split; [exact HS0|].
  assert (num_gt (Fin S) (Fin 0) = true) as ->.
  { cbn [num_gt xrat_JSNumber xgt]. apply Bool.negb_true_iff.
    destruct (Qle_bool S 0) eqn:E; [|reflexivity]. apply Qle_bool_iff in E. lra. }
  rewrite !map_map. apply map_ext. intros q.
  cbn [num_div xrat_JSNumber xdiv]. rewrite Qeq_bool_false by lra. reflexivity.
Qed.

Lemma nth_error_firstn_lt {A : Type} (l : list A) (n i : nat) :
  (i < n)%nat -> nth_error (firstn n l) i = nth_error l i.
Proof.
  revert n i. induction l as [|x l IH]; intros n i Hi.
  - now rewrite firstn_nil.
  - destruct n as [|n]; [lia|]. destruct i as [|i]; [reflexivity|].
    cbn [firstn nth_error]. apply IH. lia.
Qed.

Lemma filter_none {A : Type} (f : A -> bool) (l : list A) :
  (forall x, In x l -> f x = false) -> length (filter f l) = 0%nat.
Proof.
  induction l as [|x l IH]; intros H; [reflexivity|].
  cbn [filter]. rewrite (H x (or_introl eq_refl)). apply IH.
  intros y Hy. apply H. now right.
Qed.

Lemma probabilities_fin (ws : list Winner) :
  ws <> [] ->
  exists (qs : list Q) (S : Q),
    length qs = 25%nat /\
    Forall (fun q => 0 < q)%Q qs /\
    (forall k, (k < 25)%nat ->
       let r25 := firstn 25 (sortedWinners ws) in
       (1 # 100 <= nth k qs 0)%Q /\ (nth k qs 0 <= 1)%Q /\
       (nth k (frequency r25) O = O -> (nth k qs 0 == 1)%Q) /\
       (nth k (frequency r25) O <> O -> mostRecentPosition r25 (Z.of_nat k) = 0 ->
        (nth k qs 0 == 1 # 100)%Q) /\
       (mostRecentPosition r25 (Z.of_nat k) <> 0 -> (2 # 100 <= nth k qs 0)%Q)) /\
    (S == SmartPicks.sumQ qs)%Q /\ (0 < S)%Q /\
    probabilities (@calculateProbabilities xrat _ (with_winners new_analyzer ws))
    = List.map Fin (List.map (fun q => q / S)%Q qs).
Proof.
  intros Hne.
  destruct (tier_weights_fin ws) as (qs & Eq & Hl & Hq).
  assert (Forall (fun q => 0 < q)%Q qs) as Hpos.
  { apply Forall_forall. intros q Hin. apply (In_nth _ _ 0%Q) in Hin.
    destruct Hin as (k & Hk & <-). rewrite Hl in Hk.
    destruct (Hq k Hk) as (H1 & _). lra. }
  assert (qs <> []) as Hqne by (intros E; rewrite E in Hl; discriminate).
  destruct (normalize_fin qs Hpos Hqne) as (S & HS & HS0 & En).
  exists qs, S. split; [exact Hl|]. split; [exact Hpos|]. split; [exact Hq|].
  split; [exact HS|]. split; [exact HS0|].
  unfold calculateProbabilities. cbn [with_winners new_analyzer winners probabilities
    lastCalculationHash andb].
  destruct ws as [|w ws']; [congruence|]. cbn [length Nat.eqb].
  rewrite Eq. exact En.
Qed.

Lemma positive_entry (ps : list Q) :
  Forall (fun q => 0 < q)%Q ps -> ps <> [] ->
  existsb (fun p => @num_gt xrat _ p (num_of_nat 0)) (List.map Fin ps) = true.
Proof.
  intros Hpos Hne. destruct ps as [|p ps]; [congruence|].
  inversion Hpos as [|? ? Hp _]; subst.
  cbn [List.map existsb]. apply Bool.orb_true_iff. left.
  cbn [num_gt num_of_nat xrat_JSNumber xgt]. apply Bool.negb_true_iff.
  destruct (Qle_bool p (inject_Z (Z.of_nat 0))) eqn:E; [|reflexivity].
  apply Qle_bool_iff in E. change (inject_Z (Z.of_nat 0)) with 0%Q in E. lra.
Qed.

(** The cache, in exact arithmetic.  Once an analyzer has computed its
    probabilities from a history, a history that agrees with it on the first
    25 records of the file is taken for unchanged: nothing is computed
    again.  In particular records appended to a file of 25 records or more
    never change the probabilities, whatever their rounds. *)
Theorem probabilities_cache_stale (ws : list Winner) :
  let st := @calculateProbabilities xrat _ (with_winners new_analyzer ws) in
  (forall ws' : list Winner,
     firstn 25 ws' = firstn 25 ws ->
     calculateProbabilities (with_winners st ws') = with_winners st ws') /\
  (forall appended : list Winner,
     (25 <= length ws)%nat ->
     probabilities (calculateProbabilities (with_winners st (ws ++ appended)))
     = probabilities st).
Proof.
  intros st.
  assert (lastCalculationHash st = Some (hash_of ws)) as Hhash.
  { unfold st, calculateProbabilities.
    cbn [with_winners new_analyzer winners probabilities lastCalculationHash andb].
    reflexivity. }
  assert (existsb (fun p => @num_gt xrat _ p (num_of_nat 0)) (probabilities st) = true)
    as Hpos.
  { assert (ws = [] \/ ws <> []) as [Ews|Ews]
      by (destruct ws; [left | right]; congruence).
    - unfold st. rewrite Ews. reflexivity.
    - destruct (probabilities_fin ws Ews) as (qs & S & Hl & Hp & _ & _ & HS0 & E).
      unfold st. rewrite E. apply positive_entry.
      + apply Forall_forall. intros p Hin. apply in_map_iff in Hin.
        destruct Hin as (q & <- & Hq). rewrite Forall_forall in Hp.
        specialize (Hp q Hq). cbn in Hp. now apply share_pos.
      + intros H. apply (f_equal (@length Q)) in H. rewrite length_map, Hl in H.
        discriminate. }
  assert (forall ws', firstn 25 ws' = firstn 25 ws ->
            calculateProbabilities (with_winners st ws') = with_winners st ws') as Hstale.
  { intros ws' Hsame. unfold calculateProbabilities at 1.
    cbn [with_winners winners probabilities lastCalculationHash].
    rewrite Hhash, Hpos. unfold hash_of. rewrite Hsame, hash_eqb_refl. reflexivity. }
  split; [exact Hstale|].
  intros appended Hlen. rewrite Hstale; [reflexivity|].
  rewrite firstn_app. replace (25 - length ws)%nat with 0%nat by lia.
  cbn [firstn]. apply app_nil_r.
Qed.

(** After round 26 is appended to the file of 25 records, the analyzer keeps
    the probabilities it had, while a fresh analyzer on the same file
    computes other ones. *)
Lemma probabilities_cache_stale_witness :
  probabilities
    (calculateProbabilities
       (with_winners (@calculateProbabilities xrat _ (with_winners new_analyzer sample_history))
                     (sample_history ++ sample_appended)))
  = probabilities (@calculateProbabilities xrat _ (with_winners new_analyzer sample_history)) /\
  probabilities (@calculateProbabilities xrat _ (with_winners new_analyzer sample_history))
  <> probabilities
       (@calculateProbabilities xrat _
          (with_winners new_analyzer (sample_history ++ sample_appended))).
Proof.
  split.
  - apply (probabilities_cache_stale sample_history). cbn. lia.
  - intros H. apply (f_equal (fun l => nth 1 l XNaN)) in H. vm_compute in H. discriminate H.
Defined.

(** ** The recommendations *)

Lemma sorted_app_inv {A : Type} (R : A -> A -> Prop) (l1 l2 : list A) :
  StronglySorted R (l1 ++ l2) -> forall x y, In x l1 -> In y l2 -> R x y.
Proof.
  induction l1 as [|a l1 IH]; intros Hs x y Hx Hy; [destruct Hx|].
  cbn [app] in Hs. apply StronglySorted_inv in Hs. destruct Hs as [Hs Ha].
  destruct Hx as [<-|Hx]; [|now apply IH].
  rewrite Forall_forall in Ha. apply Ha. apply in_or_app. now right.
Qed.

Lemma NoDup_map_app {A B : Type} (f : A -> B) (l1 l2 : list A) :
  NoDup (List.map f (l1 ++ l2)) -> forall x y, In x l1 -> In y l2 -> f x <> f y.
Proof.
  induction l1 as [|a l1 IH]; intros Hnd x y Hx Hy; [destruct Hx|].
  cbn [app List.map] in Hnd. inversion Hnd as [|? ? Hna Hnd']; subst.
  destruct Hx as [<-|Hx]; [|now apply IH].
  intros E. apply Hna. rewrite E. apply in_map. apply in_or_app. now right.
Qed.

Lemma NoDup_map_succ (l : list nat) : NoDup l -> NoDup (List.map Datatypes.S l).
Proof.
  induction 1 as [|x l Hx Hl IH]; cbn [List.map]; constructor; [|exact IH].
  intros Hin. apply in_map_iff in Hin. destruct Hin as (y & Ey & Hy).
  injection Ey as ->. contradiction.
Qed.

Lemma latest_weight_smallest (ws : list Winner) (qs : list Q) (latest : Winner) :
  (forall k, (k < 25)%nat ->
     let r25 := firstn 25 (sortedWinners ws) in
     (1 # 100 <= nth k qs 0)%Q /\ (nth k qs 0 <= 1)%Q /\
     (nth k (frequency r25) O = O -> (nth k qs 0 == 1)%Q) /\
     (nth k (frequency r25) O <> O -> mostRecentPosition r25 (Z.of_nat k) = 0 ->
      (nth k qs 0 == 1 # 100)%Q) /\
     (mostRecentPosition r25 (Z.of_nat k) <> 0 -> (2 # 100 <= nth k qs 0)%Q)) ->
  nth_error (sortedWinners ws) 0 = Some latest ->
  1 <= w_blockNumber latest <= 25 ->
  forall k : nat, (k < 25)%nat -> Z.of_nat k + 1 <> w_blockNumber latest ->
  (nth (Z.to_nat (w_blockNumber latest - 1)) qs 0 < nth k qs 0)%Q.
Proof.
  intros Hq Hlatest Hrange k Hk Hother.
  set (b := Z.to_nat (w_blockNumber latest - 1)).
  assert (b < 25)%nat as Hb by (unfold b; lia).
  assert (Z.of_nat b = w_blockNumber latest - 1) as Eb by (unfold b; lia).
  assert (exists rest, firstn 25 (sortedWinners ws) = latest :: rest) as (rest & Er).
  { destruct (sortedWinners ws) as [|x l]; [discriminate|].
    cbn in Hlatest. injection Hlatest as ->. eexists. reflexivity. }
  destruct (Hq b Hb) as (_ & _ & _ & Hmin & _).
  destruct (Hq k Hk) as (_ & _ & _ & _ & Hrest).
  cbn zeta in Hmin, Hrest. rewrite Er in Hmin, Hrest.
  assert (nth b qs 0 == 1 # 100)%Q as Hb1.
  { apply Hmin.
    - rewrite frequency_nth by exact Hb. cbn [filter]. rewrite Eb, Z.eqb_refl.
      discriminate.
    - unfold mostRecentPosition. cbn [mostRecentPosition_from].
      now rewrite Eb, Z.eqb_refl. }
  assert (2 # 100 <= nth k qs 0)%Q as Hk2.
  { apply Hrest. unfold mostRecentPosition. cbn [mostRecentPosition_from].
    destruct (Z.eqb_spec (w_blockNumber latest - 1) (Z.of_nat k)); [lia|].
    destruct (position_from rest (Z.of_nat k) (0 + 1)) as [H|H]; lia. }
  lra.
Qed.

(** In exact arithmetic, for a fresh analyzer on a history that is not
    empty: the recommendations for up to 24 blocks are that many different
    blocks numbered within 1 to 25, and the block that won the latest round
    is never among them. *)
Theorem recommendations_skip_latest_winner (ws : list Winner) (latest : Winner) (n : nat) :
  nth_error (sortedWinners ws) 0 = Some latest ->
  1 <= w_blockNumber latest <= 25 ->
  (n <= 24)%nat ->
  exists picks : list (SmartPicks.Pick xrat),
    getRecommendations (calculateProbabilities (with_winners new_analyzer ws)) (Z.of_nat n)
    = JSArray.dense picks /\
    length picks = n /\
    NoDup (List.map (@SmartPicks.index1 xrat) picks) /\
    forall x, In x picks ->
      (1 <= SmartPicks.index1 x <= 25)%nat /\
      Z.of_nat (SmartPicks.index1 x) <> w_blockNumber latest.
Proof.
  intros Hlatest Hrange Hn.
  assert (ws <> []) as Hne by (intros ->; discriminate Hlatest).
  destruct (probabilities_fin ws Hne) as (qs & S & Hl & Hpos & Hq & HS & HS0 & En).
  set (ps := List.map (fun q => q / S)%Q qs) in *.
  assert (length ps = 25%nat) as Hlps by (unfold ps; now rewrite length_map).
  assert (forall k, (k < 25)%nat -> nth k ps 0%Q = (nth k qs 0 / S)%Q) as Hnth.
  { intros k Hk. apply SmartPicksProps.nth_map_Q. lia. }
  assert (getRecommendations (calculateProbabilities (with_winners new_analyzer ws))
            (Z.of_nat n)
          = SmartPicks.topN (SmartPicks.fin_array ps) (Z.of_nat n)) as ->.
  { unfold getRecommendations. rewrite En.
    unfold JSArray.dense, SmartPicks.fin_array. rewrite map_map. reflexivity. }
  destruct (SmartPicksProps.topN_finite_ranked ps n ltac:(lia))
    as (picks & rest & Etop & Hlen & Hperm & Hsorted).
  exists picks. split; [exact Etop|]. split; [exact Hlen|].
  assert (NoDup (List.map (@SmartPicks.index0 xrat) (picks ++ rest))) as Hnd.
  { apply (Permutation_NoDup
             (l := List.map (@SmartPicks.index0 xrat) (SmartPicks.indexed_from 0 ps))).
    - apply Permutation_map. now apply Permutation_sym.
    - apply SmartPicksMain.lower_index_NoDup, SmartPicksProps.indexed_from_sorted. }
  assert (forall x, In x (picks ++ rest) ->
            (SmartPicks.index0 x < 25)%nat /\
            SmartPicks.index1 x = (SmartPicks.index0 x + 1)%nat /\
            SmartPicks.p x = Fin (nth (SmartPicks.index0 x) ps 0%Q)) as Hentry.
  { intros x Hx. apply (Permutation_in _ Hperm) in Hx.
    apply SmartPicksMain.indexed_from_In in Hx. destruct Hx as (Hr & H1 & Hp).
    rewrite Nat.sub_0_r in Hp. repeat split; try assumption; lia. }
  assert (exists y, In y rest) as (y & Hy).
  { assert (length (picks ++ rest) = 25%nat) as Hl25
      by (rewrite (Permutation_length Hperm), SmartPicksProps.length_indexed_from; exact Hlps).
    rewrite length_app in Hl25. destruct rest as [|y rest']; [cbn in Hl25; lia|].
    exists y. now left. }
  split.
  { assert (NoDup (List.map (@SmartPicks.index0 xrat) picks)) as Hnd0.
    { rewrite map_app in Hnd. now apply NoDup_app_remove_r in Hnd. }
    assert (List.map (@SmartPicks.index1 xrat) picks
            = List.map Datatypes.S (List.map (@SmartPicks.index0 xrat) picks)) as ->.
    { rewrite map_map. apply map_ext_in. intros x Hx.
      destruct (Hentry x ltac:(apply in_or_app; now left)) as (_ & -> & _). lia. }
    now apply NoDup_map_succ. }
  intros x Hx.
  destruct (Hentry x ltac:(apply in_or_app; now left)) as (Hx25 & Hx1 & Hxp).
  split; [lia|]. intros Hwin.
  destruct (Hentry y ltac:(apply in_or_app; now right)) as (Hy25 & _ & Hyp).
  pose proof (NoDup_map_app _ _ _ Hnd x y Hx Hy) as Hxy.
  pose proof (sorted_app_inv _ _ _ Hsorted x y Hx Hy) as Hbefore.
  pose proof (SmartPicksMain.ranked_before_le _ _ _ _ Hbefore Hxp Hyp) as Hle.
  assert (SmartPicks.index0 x = Z.to_nat (w_blockNumber latest - 1)) as Ex by lia.
  pose proof (latest_weight_smallest ws qs latest Hq Hlatest Hrange
                (SmartPicks.index0 y) Hy25 ltac:(lia)) as Hlt.
  rewrite (Hnth _ Hx25), (Hnth _ Hy25), Ex in Hle.
  assert (~ (S == 0)%Q) as HSne by lra.
  apply (Qmult_le_r _ _ S HS0) in Hle.
  setoid_replace (nth (SmartPicks.index0 y) qs 0 / S * S)%Q
    with (nth (SmartPicks.index0 y) qs 0)%Q in Hle by (field; exact HSne).
  setoid_replace (nth (Z.to_nat (w_blockNumber latest - 1)) qs 0 / S * S)%Q
    with (nth (Z.to_nat (w_blockNumber latest - 1)) qs 0)%Q in Hle by (field; exact HSne).
  lra.
Qed.

(** The five blocks recommended after the two rounds won by blocks 9 and 2. *)
Lemma recommendations_skip_latest_winner_witness :
  exists picks : list (SmartPicks.Pick xrat),
    getRecommendations (calculateProbabilities (with_winners new_analyzer two_rounds)) 5
    = JSArray.dense picks /\
    length picks = 5%nat /\
    NoDup (List.map (@SmartPicks.index1 xrat) picks) /\
    forall x, In x picks ->
      (1 <= SmartPicks.index1 x <= 25)%nat /\ Z.of_nat (SmartPicks.index1 x) <> 2.
Proof.
  apply (recommendations_skip_latest_winner two_rounds
           {| w_round := 2; w_blockNumber := 2 |} 5).
  - reflexivity.
  - cbn. lia.
  - lia.
Defined.

(** ** The analysis of a block *)

Lemma positions_length (recent : list Winner) (b start : Z) :
  0 <= start ->
  length (positions_from recent b start)
  = length (filter (fun w => w_blockNumber w =? b) recent).
Proof.
  revert start. induction recent as [|w recent IH]; intros start Hs; [reflexivity|].
  cbn [positions_from filter]. cbn zeta.
  destruct (w_blockNumber w =? b).
  - destruct (Z.geb_spec start 0); [|lia]. cbn [length]. now rewrite IH by lia.
  - cbn. apply IH. lia.
Qed.

Lemma positions_head (recent : list Winner) (b start : Z) :
  0 <= start ->
  nth 0 (positions_from recent b start) (-1)
  = mostRecentPosition_from recent (b - 1) start.
Proof.
  revert start. induction recent as [|w recent IH]; intros start Hs; [reflexivity|].
  cbn [positions_from mostRecentPosition_from]. cbn zeta.
  destruct (Z.eqb_spec (w_blockNumber w) b) as [E|E].
  - destruct (Z.geb_spec start 0); [|lia].
    destruct (Z.eqb_spec (w_blockNumber w - 1) (b - 1)); [reflexivity | lia].
  - destruct (Z.eqb_spec (w_blockNumber w - 1) (b - 1)); [lia|].
    cbn. apply IH. lia.
Qed.

Lemma position_bounds (recent : list Winner) (blockIndex start : Z) :
  (mostRecentPosition_from recent blockIndex start = -1 /\
   filter (fun w => w_blockNumber w - 1 =? blockIndex) recent = []) \/
  (start <= mostRecentPosition_from recent blockIndex start
         < start + Z.of_nat (length recent) /\
   filter (fun w => w_blockNumber w - 1 =? blockIndex) recent <> []).
Proof.
  revert start. induction recent as [|w recent IH]; intros start;
    cbn [mostRecentPosition_from filter length].
  - left. now split.
  - destruct (w_blockNumber w - 1 =? blockIndex).
    + right. split; [lia | discriminate].
    + destruct (IH (start + 1)) as [[H1 H2]|[H1 H2]]; [left | right]; split;
        try assumption; lia.
Qed.

(** What [getBlockAnalysis] reports of a block agrees with itself and with
    what [calculateProbabilities] computes from the same 25 latest rounds:
    the number of wins is the number of positions and, for a block from 1
    to 25, the frequency used for the probabilities; the latest win is the
    position used for them, between 0 and 24, or -1 exactly when the block
    never won; the rounds since a win lie between 0 and 25 and are 25
    exactly when it never won; and the block is a recent repeater exactly
    when it is a repeater that won the latest round. *)
Theorem block_analysis_consistent (ws : list Winner) (blockNumber : Z) (a : BlockAnalysis) :
  getBlockAnalysis ws blockNumber = Some a ->
  winCount a = length (winPositions a) /\
  lastWinRound a = mostRecentPosition (firstn 25 (sortedWinners ws)) (blockNumber - 1) /\
  -1 <= lastWinRound a <= 24 /\
  (neverWon_block a = true <-> lastWinRound a = -1) /\
  0 <= roundsSinceWin a <= 25 /\
  (roundsSinceWin a = 25 <-> neverWon_block a = true) /\
  (recentRepeater a = true <-> isRepeater a = true /\ won_at ws blockNumber 0 = true) /\
  (1 <= blockNumber <= 25 ->
   winCount a
   = nth (Z.to_nat (blockNumber - 1)) (frequency (firstn 25 (sortedWinners ws))) O).
Proof.
  unfold getBlockAnalysis. destruct (length ws =? 0)%nat; [discriminate|].
  cbn zeta.
  change (JSArray.slice0 (sortedWinners ws) 25)
    with (JSArray.slice0 (sortedWinners ws) (Z.of_nat 25)).
  rewrite !slice0_firstn.
  set (r25 := firstn 25 (sortedWinners ws)).
  set (count := length (filter (fun w => w_blockNumber w =? blockNumber) r25)).
  set (positions := positions_from r25 blockNumber 0).
  assert (length positions = count) as Hlen by (apply positions_length; lia).
  assert ((if (0 <? length positions)%nat then nth 0 positions (-1) else -1)
          = mostRecentPosition r25 (blockNumber - 1)) as Hlast.
  { unfold mostRecentPosition. rewrite <- positions_head by lia. fold positions.
    destruct positions; reflexivity. }
  rewrite Hlast. set (last := mostRecentPosition r25 (blockNumber - 1)) in *.
  assert (filter (fun w => w_blockNumber w - 1 =? blockNumber - 1) r25
          = filter (fun w => w_blockNumber w =? blockNumber) r25) as Hfilter.
  { apply filter_ext. intros w.
    destruct (Z.eqb_spec (w_blockNumber w - 1) (blockNumber - 1)),
             (Z.eqb_spec (w_blockNumber w) blockNumber); (reflexivity || lia). }
  assert (length r25 <= 25)%nat as Hr25 by (unfold r25; rewrite length_firstn; lia).
  assert ((last = -1 /\ count = 0%nat) \/ (0 <= last <= 24 /\ count <> 0%nat)) as Hcases.
  { destruct (position_bounds r25 (blockNumber - 1) 0) as [[H1 H2]|[H1 H2]];
      rewrite Hfilter in H2;
      change (mostRecentPosition_from r25 (blockNumber - 1) 0) with last in H1.
    - left. split; [exact H1|]. unfold count. now rewrite H2.
    - right. split; [lia|]. unfold count.
      destruct (filter (fun w => w_blockNumber w =? blockNumber) r25);
        [congruence | discriminate]. }
  assert (last = 0 <-> won_at ws blockNumber 0 = true) as Hwon.
  { unfold won_at, last, r25, mostRecentPosition.
    destruct (sortedWinners ws) as [|x l]; [cbn; split; [lia | discriminate]|].
    cbn [firstn nth_error mostRecentPosition_from].
    destruct (Z.eqb_spec (w_blockNumber x - 1) (blockNumber - 1)) as [E|E].
    - split; [intros _; apply Z.eqb_eq; lia | reflexivity].
    - split.
      + intros H0.
        match type of H0 with
        | mostRecentPosition_from ?recs ?i ?s = 0 =>
            destruct (position_from recs i s) as [H|H]; lia
        end.
      + intros H. apply Z.eqb_eq in H. lia. }
  intros Ea.
  assert (winCount a = count) as -> by
    (apply (f_equal (fun o => match o with Some x => winCount x | None => O end)) in Ea;
     now symmetry).
  assert (winPositions a = positions) as -> by
    (apply (f_equal (fun o => match o with Some x => winPositions x | None => [] end)) in Ea;
     now symmetry).
  assert (lastWinRound a = last) as -> by
    (apply (f_equal (fun o => match o with Some x => lastWinRound x | None => 0 end)) in Ea;
     now symmetry).
  assert (neverWon_block a = (count =? 0)%nat) as -> by
    (apply (f_equal (fun o => match o with Some x => neverWon_block x | None => true end))
       in Ea; now symmetry).
  assert (isRepeater a = (1 <? count)%nat) as -> by
    (apply (f_equal (fun o => match o with Some x => isRepeater x | None => true end))
       in Ea; now symmetry).
  assert (recentRepeater a = (last =? 0) && (1 <? length positions)%nat) as -> by
    (apply (f_equal (fun o => match o with Some x => recentRepeater x | None => true end))
       in Ea; now symmetry).
  assert (roundsSinceWin a = if last >=? 0 then last else 25) as -> by
    (apply (f_equal (fun o => match o with Some x => roundsSinceWin x | None => 0 end))
       in Ea; now symmetry).
  clear Ea. rewrite Hlen.
  split; [reflexivity|]. split; [reflexivity|].
  split; [lia|].
  split; [rewrite Nat.eqb_eq; lia|].
  split; [destruct (Z.geb_spec last 0); lia|].
  split; [rewrite Nat.eqb_eq; destruct (Z.geb_spec last 0); lia|].
  split.
  - rewrite Bool.andb_true_iff, Z.eqb_eq, Hwon. tauto.
  - intros Hb. rewrite frequency_nth by lia. unfold count. rewrite <- Hfilter.
    f_equal. apply filter_ext. intros w. now rewrite Z2Nat.id by lia.
Qed.

(** The analysis of block 2 after the two rounds won by blocks 9 and 2. *)
Lemma block_analysis_consistent_witness :
  exists a : BlockAnalysis,
    getBlockAnalysis two_rounds 2 = Some a /\
    winCount a = length (winPositions a) /\
    lastWinRound a = mostRecentPosition (firstn 25 (sortedWinners two_rounds)) (2 - 1).
Proof.
  destruct (getBlockAnalysis two_rounds 2) as [a|] eqn:E.
  - exists a. split; [reflexivity|].
    destruct (block_analysis_consistent two_rounds 2 a E) as (H1 & H2 & _).
    split; [exact H1 | exact H2].
  - vm_compute in E. discriminate E.
Defined.

End AnalyzerProps.

(** * The analyzers in binary64

    The pool efficiency, the allocation and the probabilities as the
    scripts compute them, on IEEE-754 binary64 numbers. *)

Module Analyzer64.

Import Analyzer JSArrayProps Binary64 Binary64Props AnalyzerProps SmartPicks64.

(** ** Chains of roundings *)

Lemma round_lo (t E X r : Q) :
  (0 <= t)%Q -> (t <= 1)%Q -> (0 <= E)%Q ->
  ((1 - t) * E <= X)%Q -> ((1 - u) * X <= r)%Q -> ((1 - (t + u)) * E <= r)%Q.
Proof.
  intros Ht0 Ht1 HE HX Hr. destruct u_bounds as [Hu0 Hu1].
  assert ((1 - (t + u)) * (E + 0) <= r)%Q; [|lra].
  apply (step_lo u t E 0 X r); lra.
Qed.

Lemma round_hi (t E X r : Q) :
  (0 <= t)%Q -> (2 * t <= 1)%Q -> (0 <= E)%Q ->
  (X <= (1 + 2 * t) * E)%Q -> (r <= (1 + u) * X)%Q -> (r <= (1 + 2 * (t + u)) * E)%Q.
Proof.
  intros Ht0 Ht1 HE HX Hr. destruct u_bounds as [Hu0 Hu1].
  assert (r <= (1 + 2 * (t + u)) * (E + 0))%Q; [|lra].
  apply (step_hi u t E 0 X r); lra.
Qed.

Lemma prod_range (a b la ha lb hb : Q) :
  (0 <= la)%Q -> (la <= a)%Q -> (a <= ha)%Q -> (0 <= lb)%Q -> (lb <= b)%Q -> (b <= hb)%Q ->
  (la * lb <= a * b)%Q /\ (a * b <= ha * hb)%Q.
Proof.
  intros. split.
  - assert (0 <= (a - la) * b)%Q by (apply Qmult_le_0_compat; lra).
    assert (0 <= la * (b - lb))%Q by (apply Qmult_le_0_compat; lra). lra.
  - assert (0 <= (ha - a) * b)%Q by (apply Qmult_le_0_compat; lra).
    assert (0 <= ha * (hb - b))%Q by (apply Qmult_le_0_compat; lra). lra.
Qed.

Lemma scale_le (x y c : Q) : (0 <= c)%Q -> (x <= y)%Q -> (x * c <= y * c)%Q.
Proof.
  intros Hc Hxy. assert (0 <= (y - x) * c)%Q by (apply Qmult_le_0_compat; lra). lra.
Qed.

(** ** The efficiency of a pool, in binary64 *)

Lemma truthy_pfinite (v : float) : pfinite v -> truthy v = true.
Proof.
  intros Hv. unfold truthy. cbn [num_gt float_JSNumber].
  now rewrite (ltb_zero v _ zero_pzero Hv).
Qed.

Lemma or_default64 (x : option float) (d : float) :
  field_ok x -> within L100 H100 d -> within L100 H100 (or_default x d).
Proof.
  intros Hx Hd. destruct x as [v|]; cbn [or_default]; [|exact Hd].
  cbn [field_ok] in Hx. destruct Hx as [Hx|Hx].
  - now rewrite Hx.
  - now rewrite (truthy_pfinite v (proj1 Hx)).
Qed.

Lemma default_participants : within L100 H100 (@num_of_nat float _ 100).
Proof. split; [eexists _, _; reflexivity|]. split; vm_compute; discriminate. Qed.

Lemma default_amount : within L100 H100 (@decimal float _ 4 100).
Proof. split; [eexists _, _; reflexivity|]. split; vm_compute; discriminate. Qed.

Lemma c24_value : pfinite (@num_of_nat float _ 24) /\ (F2Q (@num_of_nat float _ 24) == 24)%Q.
Proof. split; [eexists _, _; reflexivity | reflexivity]. Qed.

(** What one turn of the loop computes from a number of participants [p]
    and an amount [a]: the expected reward is [24 * a] after three
    roundings and the efficiency 24 after four. *)
Lemma efficiency64 (p a : float) :
  within L100 H100 p -> within L100 H100 a ->
  let reward := ((p * a * @num_of_nat float _ 24) / p)%float in
  let ratio := (reward / a)%float in
  pfinite reward /\
  ((1 - 3 * u) * (24 * F2Q a) <= F2Q reward)%Q /\
  (F2Q reward <= (1 + 6 * u) * (24 * F2Q a))%Q /\
  pfinite ratio /\
  ((1 - 4 * u) * 24 <= F2Q ratio)%Q /\ (F2Q ratio <= (1 + 8 * u) * 24)%Q.
Proof.
  intros (Hpf & Hp1 & Hp2) (Haf & Ha1 & Ha2). cbn zeta.
  destruct u_bounds as [Hu0 Hu1]. destruct c24_value as [H24f H24].
  set (c := @num_of_nat float _ 24) in *.
  set (vp := F2Q p) in *. set (va := F2Q a) in *.
  assert (L100 == 1 # 1267650600228229401496703205376)%Q as EL by reflexivity.
  assert (H100 == 1267650600228229401496703205376)%Q as EH by reflexivity.
  assert (pow2 (-1022) <= L100 * L100 * (1 # 2))%Q as Hmin by (vm_compute; discriminate).
  assert (H100 * H100 * 64 < pow2 1023)%Q as Hmax by (vm_compute; reflexivity).
  assert (pow2 (-500) <= L100 * L100 * (1 # 2))%Q as Hmin5 by (vm_compute; discriminate).
  assert (H100 * H100 * 64 <= pow2 500)%Q as Hmax5 by (vm_compute; discriminate).
  assert (pow2 (-500) <= L100)%Q as Hmin6 by (vm_compute; discriminate).
  assert (32 * H100 <= pow2 500)%Q as Hmax6 by (vm_compute; discriminate).
  assert (0 < L100)%Q as HL0 by reflexivity.
  assert (L100 <= 1)%Q as HL1 by (vm_compute; discriminate).
  assert (1 <= H100)%Q as HH1 by (vm_compute; discriminate).
  destruct (prod_range vp va L100 H100 L100 H100) as [Hpa1 Hpa2]; try lra.
  assert (0 < vp * va)%Q as Hpa0.
  { assert (0 < L100 * L100)%Q by reflexivity. lra. }
  (* p * a *)
  destruct (mul_correct p a Hpf Haf) as [Ht1f Ht1]; fold vp va.
  { assert (0 <= L100 * L100)%Q by (vm_compute; discriminate). nra. }
  { assert (0 <= L100 * L100)%Q by (vm_compute; discriminate). lra. }
  { assert (0 <= H100 * H100)%Q by (vm_compute; discriminate). lra. }
  apply near_bounds in Ht1. destruct Ht1 as [Ht1lo Ht1hi]. fold vp va in Ht1lo, Ht1hi.
  set (t1 := (p * a)%float) in *. set (v1 := F2Q t1) in *.
  assert ((1 # 2) * (vp * va) <= v1)%Q as Hv1lo.
  { assert (0 <= ((1 # 2) - u) * (vp * va))%Q by (apply Qmult_le_0_compat; lra). lra. }
  assert (v1 <= 2 * (vp * va))%Q as Hv1hi.
  { assert (0 <= (1 - u) * (vp * va))%Q by (apply Qmult_le_0_compat; lra). lra. }
  (* ... * 24 *)
  destruct (mul_correct t1 c Ht1f H24f) as [Ht2f Ht2]; fold v1.
  { lra. }
  { rewrite H24. lra. }
  { rewrite H24. lra. }
  apply near_bounds in Ht2. destruct Ht2 as [Ht2lo Ht2hi]. fold v1 in Ht2lo, Ht2hi.
  set (t2 := (t1 * c)%float) in *. set (v2 := F2Q t2) in *.
  assert ((1 - 2 * u) * (24 * (vp * va)) <= v2)%Q as Hv2lo.
  { setoid_replace (1 - 2 * u)%Q with (1 - (u + u))%Q by ring.
    apply (round_lo u _ (v1 * F2Q c)); try lra.
    rewrite H24. lra. }
  assert (v2 <= (1 + 4 * u) * (24 * (vp * va)))%Q as Hv2hi.
  { setoid_replace (1 + 4 * u)%Q with (1 + 2 * (u + u))%Q by ring.
    apply (round_hi u _ (v1 * F2Q c)); try lra.
    rewrite H24.
    assert (0 <= u * (vp * va))%Q by (apply Qmult_le_0_compat; lra). lra. }
  assert (12 * (vp * va) <= v2)%Q as Hv2lo'.
  { assert (0 <= ((1 # 2) - 2 * u) * (24 * (vp * va)))%Q by (apply Qmult_le_0_compat; lra).
    lra. }
  assert (v2 <= 32 * (vp * va))%Q as Hv2hi'.
  { assert (0 <= ((1 # 3) - 4 * u) * (24 * (vp * va)))%Q by (apply Qmult_le_0_compat; lra).
    lra. }
  (* ... / p *)
  destruct (div_correct t2 p Ht2f Hpf) as [Hrf Hr]; fold v2 vp; try lra.
  apply near_bounds in Hr. destruct Hr as [Hrlo Hrhi]. fold v2 vp in Hrlo, Hrhi.
  set (r := (t2 / p)%float) in *. set (vr := F2Q r) in *.
  assert (0 < vp)%Q as Hvp0 by lra. assert (0 < va)%Q as Hva0 by lra.
  assert ((1 - 2 * u) * (24 * va) <= v2 / vp)%Q as Hq1.
  { apply Qle_shift_div_l; [exact Hvp0|]. lra. }
  assert (v2 / vp <= (1 + 4 * u) * (24 * va))%Q as Hq2.
  { apply Qle_shift_div_r; [exact Hvp0|]. lra. }
  assert ((1 - 3 * u) * (24 * va) <= vr)%Q as Hvrlo.
  { setoid_replace (1 - 3 * u)%Q with (1 - (2 * u + u))%Q by ring.
    apply (round_lo (2 * u) _ (v2 / vp)); lra. }
  assert (vr <= (1 + 6 * u) * (24 * va))%Q as Hvrhi.
  { setoid_replace (1 + 6 * u)%Q with (1 + 2 * (2 * u + u))%Q by ring.
    apply (round_hi (2 * u) _ (v2 / vp)); lra. }
  assert (12 * va <= vr)%Q as Hvrlo'.
  { assert (0 <= ((1 # 2) - 3 * u) * (24 * va))%Q by (apply Qmult_le_0_compat; lra). lra. }
  assert (vr <= 32 * va)%Q as Hvrhi'.
  { assert (0 <= ((1 # 3) - 6 * u) * (24 * va))%Q by (apply Qmult_le_0_compat; lra). lra. }
  (* ... / a *)
  destruct (div_correct r a Hrf Haf) as [Hef He]; fold vr va; try lra.
  apply near_bounds in He. destruct He as [Helo Hehi]. fold vr va in Helo, Hehi.
  assert ((1 - 3 * u) * 24 <= vr / va)%Q as Hq3.
  { apply Qle_shift_div_l; [exact Hva0|]. lra. }
  assert (vr / va <= (1 + 6 * u) * 24)%Q as Hq4.
  { apply Qle_shift_div_r; [exact Hva0|]. lra. }
  repeat split; try assumption.
  - setoid_replace (1 - 4 * u)%Q with (1 - (3 * u + u))%Q by ring.
    apply (round_lo (3 * u) _ (vr / va)); lra.
  - setoid_replace (1 + 8 * u)%Q with (1 + 2 * (3 * u + u))%Q by ring.
    apply (round_hi (3 * u) _ (vr / va)); lra.
Qed.



(** ** The probabilities of the analyzer, in binary64 *)

(** The weight of a block is one of eleven constants: 1 for a block that
    did not win, about 0.01 for the latest winner and between about 0.02
    and 0.7 for the others. *)
Lemma tier_weight64 (f15 f25 : list nat) (r25 : list Winner) (k : nat) :
  let w := @weight float _ f15 f25 r25 k in
  within (1 # 128) 1 w /\
  (w = 1%float \/ (F2Q w <= 7001 # 10000)%Q) /\
  (nth k f25 O = O -> w = 1%float) /\
  (nth k f25 O <> O -> mostRecentPosition r25 (Z.of_nat k) = 0 ->
   (F2Q w <= 101 # 10000)%Q) /\
  (mostRecentPosition r25 (Z.of_nat k) <> 0 -> (199 # 10000 <= F2Q w)%Q).
Proof.
  unfold weight. cbn zeta.
  destruct (Nat.eqb_spec (nth k f25 O) 0) as [E0|E0].
  - split; [split; [eexists _, _; reflexivity | split; vm_compute; discriminate]|].
    split; [left; reflexivity|].
    split; [reflexivity|]. split; [contradiction|].
    intros _. vm_compute. discriminate.
  - destruct (Z.eqb_spec (mostRecentPosition r25 (Z.of_nat k)) 0) as [Ep|Ep].
    + split; [split; [eexists _, _; reflexivity | split; vm_compute; discriminate]|].
      split; [right; vm_compute; discriminate|].
      split; [contradiction|]. split; [|contradiction].
      intros _ _. vm_compute. discriminate.
    + destruct (mostRecentPosition r25 (Z.of_nat k) <=? 2);
        [|destruct (mostRecentPosition r25 (Z.of_nat k) <=? 5);
          [|destruct (mostRecentPosition r25 (Z.of_nat k) <=? 10);
            [|destruct (mostRecentPosition r25 (Z.of_nat k) <=? 15)]]];
        destruct (2 <=? nth k f15 O)%nat;
        (split; [split; [eexists _, _; reflexivity | split; vm_compute; discriminate]|];
         split; [right; vm_compute; discriminate|];
         split; [contradiction|]; split; [contradiction|];
         intros _; vm_compute; discriminate).
Qed.

(** The main loop leaves the 25 weights, block by block. *)
Lemma weights64 (ws : list Winner) :
  let r15 := firstn 15 (sortedWinners ws) in
  let r25 := firstn 25 (sortedWinners ws) in
  @weights float _ ws = List.map (weight (frequency r15) (frequency r25) r25) (seq 0 25).
Proof.
  unfold weights. cbn zeta.
  change 25 with (Z.of_nat 25). change 15 with (Z.of_nat 15).
  rewrite !slice0_firstn.
  apply fold_set_nth_map, repeat_length.
Qed.

(** The normalisation divides every weight by their rounded sum. *)
Lemma normalize64 (W : list float) :
  Forall (within (1 # 128) 1) W -> length W = 25%nat ->
  exists S : float,
    normalize W = List.map (fun p => (p / S)%float) W /\
    pfinite S /\
    ((1 - 25 * u) * SmartPicks.sumQ (List.map F2Q W) <= F2Q S)%Q /\
    (F2Q S <= (1 + 50 * u) * SmartPicks.sumQ (List.map F2Q W))%Q /\
    (SmartPicks.sumQ (List.map F2Q W) <= 25)%Q.
Proof.
  intros HW Hlen. unfold normalize. cbn zeta.
  change (@num_add float _) with PrimFloat.add.
  assert (SmartPicks.sumQ (List.map F2Q W) <= 25)%Q as Hbig.
  { pose proof (sumQ_le_length 1 (List.map F2Q W)) as H.
    rewrite length_map, Hlen in H. change (inject_Z (Z.of_nat 25)) with 25%Q in H.
    assert (25 * 1 == 25)%Q as E by reflexivity.
    rewrite <- E. apply H. apply Forall_forall. intros v Hv.
    apply in_map_iff in Hv. destruct Hv as (y & <- & Hy).
    rewrite Forall_forall in HW. now destruct (HW y Hy) as (_ & _ & ?). }
  destruct (sum_from_zero (1 # 128) 1 W (num_of_nat 0)) as (HSf & HSlo & HShi).
  - exact zero_pzero.
  - vm_compute. discriminate.
  - exact HW.
  - intros E. rewrite E in Hlen. discriminate Hlen.
  - lia.
  - assert (25 <= pow2 400)%Q by (vm_compute; discriminate). lra.
  - set (S := fold_left PrimFloat.add W (num_of_nat 0)) in *.
    rewrite Hlen in HSlo, HShi. change (inject_Z (Z.of_nat 25)) with 25%Q in HSlo, HShi.
    exists S. split; [|split; [exact HSf|]].
    + change (@num_gt float _ S (num_of_nat 0)) with (PrimFloat.ltb (num_of_nat 0) S).
      now rewrite (ltb_zero S (num_of_nat 0) zero_pzero HSf).
    + split; [|split; [|exact Hbig]].
      * exact HSlo.
      * assert ((1 + 2 * (25 * u)) * SmartPicks.sumQ (List.map F2Q W)
                == (1 + 50 * u) * SmartPicks.sumQ (List.map F2Q W))%Q as E by ring.
        rewrite <- E. exact HShi.
Qed.

Lemma ltb_refl_false (x : float) : pfinite x -> PrimFloat.ltb x x = false.
Proof.
  intros Hx. destruct (PrimFloat.ltb x x) eqn:E; [|reflexivity].
  apply (ltb_correct x x Hx Hx) in E. lra.
Qed.

Lemma ltb_false_of_le (x y : float) :
  pfinite x -> pfinite y -> (F2Q y <= F2Q x)%Q -> PrimFloat.ltb x y = false.
Proof.
  intros Hx Hy Hle. destruct (PrimFloat.ltb x y) eqn:E; [|reflexivity].
  apply (ltb_correct x y Hx Hy) in E. lra.
Qed.

Lemma quot_lt (x y c : Q) : (0 < c)%Q -> (x < y)%Q -> (x / c < y / c)%Q.
Proof.
  intros Hc Hxy. unfold Qdiv. apply Qmult_lt_compat_r; [|exact Hxy].
  apply Qinv_lt_0_compat, Hc.
Qed.

(** Two weights that are far enough apart keep their order through the
    division by the total. *)
Lemma shares_ordered (x y S : float) (cx cy : Q) :
  pfinite S ->
  ((1 - u) * (F2Q y / F2Q S) <= F2Q (y / S)%float)%Q ->
  (F2Q (x / S)%float <= (1 + u) * (F2Q x / F2Q S))%Q ->
  (F2Q x <= cx)%Q -> (cy <= F2Q y)%Q -> (0 <= cx)%Q -> (0 < cy)%Q ->
  (101 * cx <= 100 * cy)%Q ->
  (F2Q (x / S)%float < F2Q (y / S)%float)%Q.
Proof.
  intros HS Hy Hx Hxc Hyc Hcx Hcy Hc. destruct u_bounds as [Hu0 Hu1].
  pose proof (pfinite_pos S HS) as HSpos.
  assert ((1 + u) * F2Q x <= (1 + u) * cx)%Q as H1 by (apply Qmult_le_l_weak; lra).
  assert ((1 - u) * cy <= (1 - u) * F2Q y)%Q as H2 by (apply Qmult_le_l_weak; lra).
  assert (u * cx <= (1 # 1000000) * cx)%Q as H4 by (apply scale_le; lra).
  assert (u * cy <= (1 # 1000000) * cy)%Q as H5 by (apply scale_le; lra).
  assert ((1 + u) * F2Q x < (1 - u) * F2Q y)%Q as Hlt by lra.
  apply (quot_lt _ _ (F2Q S) HSpos) in Hlt.
  assert ((1 + u) * F2Q x / F2Q S == (1 + u) * (F2Q x / F2Q S))%Q as E1
    by (unfold Qdiv; ring).
  assert ((1 - u) * F2Q y / F2Q S == (1 - u) * (F2Q y / F2Q S))%Q as E2
    by (unfold Qdiv; ring).
  lra.
Qed.

(** The distribution a fresh analyzer computes from a history that is not
    empty, in binary64: 25 positive finite probabilities whose exact sum is
    1 up to 51 units of roundoff below and 27 above.  The block that won
    the latest round, when it is one of the 25, gets a probability below
    that of every other block; and a block with no win among the 25 latest
    rounds gets a probability that no other block exceeds. *)
Theorem probabilities_near_distribution (ws : list Winner) :
  ws <> [] ->
  exists ps : list float,
    probabilities (@calculateProbabilities float _ (with_winners new_analyzer ws)) = ps /\
    length ps = 25%nat /\
    Forall pfinite ps /\
    (1 - 51 * u <= SmartPicks.sumQ (List.map F2Q ps))%Q /\
    (SmartPicks.sumQ (List.map F2Q ps) <= 1 + 27 * u)%Q /\
    (forall latest : Winner,
       nth_error (sortedWinners ws) 0 = Some latest ->
       1 <= w_blockNumber latest <= 25 ->
       forall k : nat, (k < 25)%nat -> Z.of_nat k + 1 <> w_blockNumber latest ->
       PrimFloat.ltb (nth (Z.to_nat (w_blockNumber latest - 1)) ps 0%float)
                     (nth k ps 0%float) = true) /\
    (forall k : nat, (k < 25)%nat ->
       (forall i, (i < 25)%nat -> won_at ws (Z.of_nat k + 1) i = false) ->
       forall j : nat, (j < 25)%nat ->
       PrimFloat.ltb (nth k ps 0%float) (nth j ps 0%float) = false).
Proof.
  intros Hne. destruct u_bounds as [Hu0 Hu1].
  unfold calculateProbabilities.
  cbn [with_winners new_analyzer winners probabilities lastCalculationHash andb].
  destruct ws as [|w0 ws'] eqn:Ews; [congruence|]. cbn [length Nat.eqb].
  rewrite <- Ews in *. clear Hne.
  rewrite weights64. cbn zeta.
  set (r15 := firstn 15 (sortedWinners ws)). set (r25 := firstn 25 (sortedWinners ws)).
  set (g := @weight float _ (frequency r15) (frequency r25) r25).
  set (W := List.map g (seq 0 25)).
  assert (length W = 25%nat) as HlenW by (subst W; now rewrite length_map, length_seq).
  assert (Forall (within (1 # 128) 1) W) as HW.
  { apply Forall_forall. intros y Hy. apply in_map_iff in Hy. destruct Hy as (k & <- & _).
    exact (proj1 (tier_weight64 (frequency r15) (frequency r25) r25 k)). }
  destruct (normalize64 W HW HlenW) as (S & -> & HSf & HSlo & HShi & Hbig).
  set (Sigma := SmartPicks.sumQ (List.map F2Q W)) in *.
  assert (W <> []) as HWne by (intros E; rewrite E in HlenW; discriminate).
  assert (0 < Sigma)%Q as HSigma
    by (apply (sumQ_pos_within (1 # 128) 1 W); [reflexivity | exact HW | exact HWne]).
  pose proof (pfinite_pos S HSf) as HSpos.
  assert (pow2 (-500) <= 1 # 256)%Q as P500 by (vm_compute; discriminate).
  assert (50 <= pow2 500)%Q as B500 by (vm_compute; discriminate).
  assert ((1 # 2) * Sigma <= F2Q S)%Q as HShalf.
  { assert (0 <= ((1 # 2) - 25 * u) * Sigma)%Q by (apply Qmult_le_0_compat; lra). lra. }
  assert (F2Q S <= 2 * Sigma)%Q as HStwice.
  { assert (0 <= (1 - 50 * u) * Sigma)%Q by (apply Qmult_le_0_compat; lra). lra. }
  assert (forall y, In y W ->
            pfinite (y / S)%float /\
            ((1 - u) * (F2Q y / F2Q S) <= F2Q (y / S)%float)%Q /\
            (F2Q (y / S)%float <= (1 + u) * (F2Q y / F2Q S))%Q) as Hout.
  { intros y Hy. pose proof HW as HW0. rewrite Forall_forall in HW0.
    destruct (HW0 y Hy) as (Hyf & Hylo & Hyhi).
    assert (0 <= 1 # 128)%Q as H0 by discriminate.
    pose proof (sumQ_ge_in (1 # 128) 1 W y H0 HW Hy) as Hle. fold Sigma in Hle.
    destruct (div_correct y S Hyf HSf) as [Hf Hnear]; [lra | lra | lra | lra |].
    apply near_bounds in Hnear. split; [exact Hf | exact Hnear]. }
  set (ps := List.map (fun p => (p / S)%float) W).
  destruct (sumQ_div_bounds W S (F2Q S)) as [Hsumlo Hsumhi];
    [intros y Hy; exact (proj2 (Hout y Hy))|].
  fold ps Sigma in Hsumlo, Hsumhi.
  destruct (ratio_bounds Sigma (F2Q S) HSigma HSlo HShi) as [Rlo Rhi].
  assert (forall k, (k < 25)%nat -> nth k ps 0%float = (g k / S)%float) as Hnth.
  { intros k Hk. subst ps W.
    rewrite (nth_map_in _ _ k 0%float) by (rewrite length_map, length_seq; exact Hk).
    rewrite (nth_map_in _ _ k 0%nat) by (rewrite length_seq; exact Hk).
    now rewrite seq_nth. }
  assert (forall k, (k < 25)%nat -> In (g k) W) as HinW.
  { intros k Hk. subst W. apply in_map, in_seq. lia. }
  exists ps. split; [reflexivity|].
  split; [subst ps; now rewrite length_map|].
  split.
  { apply Forall_forall. intros o Ho. apply in_map_iff in Ho. destruct Ho as (y & <- & Hy).
    exact (proj1 (Hout y Hy)). }
  split; [lra|]. split; [lra|]. split.
  - intros latest Hlatest Hrange k Hk Hother.
    set (b := Z.to_nat (w_blockNumber latest - 1)).
    assert (b < 25)%nat as Hb by (unfold b; lia).
    assert (Z.of_nat b = w_blockNumber latest - 1) as Eb by (unfold b; lia).
    rewrite (Hnth b Hb), (Hnth k Hk).
    assert (exists rest, r25 = latest :: rest) as (rest & Er).
    { subst r25. destruct (sortedWinners ws) as [|x l]; [discriminate|].
      cbn in Hlatest. injection Hlatest as ->. eexists. reflexivity. }
    destruct (tier_weight64 (frequency r15) (frequency r25) r25 b)
      as ((Hbf & Hb0 & _) & _ & _ & Hmin & _).
    destruct (tier_weight64 (frequency r15) (frequency r25) r25 k)
      as (_ & _ & _ & _ & Hrest).
    fold g in Hbf, Hb0, Hmin, Hrest.
    assert (F2Q (g b) <= 101 # 10000)%Q as Hb1.
    { apply Hmin.
      - rewrite frequency_nth by exact Hb. rewrite Er. cbn [filter].
        rewrite Eb, Z.eqb_refl. discriminate.
      - rewrite Er. unfold mostRecentPosition. cbn [mostRecentPosition_from].
        now rewrite Eb, Z.eqb_refl. }
    assert (199 # 10000 <= F2Q (g k))%Q as Hk2.
    { apply Hrest. rewrite Er. unfold mostRecentPosition. cbn [mostRecentPosition_from].
      destruct (Z.eqb_spec (w_blockNumber latest - 1) (Z.of_nat k)); [lia|].
      destruct (position_from rest (Z.of_nat k) (0 + 1)) as [H|H]; lia. }
    destruct (Hout (g b) (HinW b Hb)) as (Hpbf & _ & Hpb).
    destruct (Hout (g k) (HinW k Hk)) as (Hpkf & Hpk & _).
    apply (ltb_correct _ _ Hpbf Hpkf).
    apply (shares_ordered (g b) (g k) S (101 # 10000) (199 # 10000));
      try assumption; try reflexivity; discriminate.
  - intros k Hk Hnever j Hj.
    rewrite (Hnth j Hj), (Hnth k Hk).
    destruct (tier_weight64 (frequency r15) (frequency r25) r25 k)
      as (_ & _ & Hmax & _).
    destruct (tier_weight64 (frequency r15) (frequency r25) r25 j)
      as (_ & Hj1 & _).
    fold g in Hmax, Hj1.
    assert (g k = 1%float) as Hk1.
    { apply Hmax. rewrite frequency_nth by exact Hk.
      assert (forall w, In w r25 -> (w_blockNumber w - 1 =? Z.of_nat k) = false) as Hall.
      { intros w Hin. apply In_nth_error in Hin. destruct Hin as (i & Hi).
        assert (i < 25)%nat as Hi25.
        { assert (i < length r25)%nat by (apply nth_error_Some; congruence).
          subst r25. rewrite length_firstn in *. lia. }
        subst r25. rewrite nth_error_firstn_lt in Hi by exact Hi25.
        specialize (Hnever i Hi25). unfold won_at in Hnever. rewrite Hi in Hnever.
        apply Z.eqb_neq in Hnever. apply Z.eqb_neq. lia. }
      now apply filter_none. }
    destruct (Hout (g k) (HinW k Hk)) as (Hpkf & Hpk & _).
    destruct (Hout (g j) (HinW j Hj)) as (Hpjf & _ & Hpj).
    destruct Hj1 as [Hj1|Hj1].
    + rewrite Hj1, Hk1 in *. now apply ltb_refl_false.
    + apply ltb_false_of_le; [exact Hpkf | exact Hpjf|].
      apply Qlt_le_weak.
      apply (shares_ordered (g j) (g k) S (7001 # 10000) 1);
        try assumption; try reflexivity; try discriminate.
      rewrite Hk1. vm_compute. discriminate.
Qed.

(** A history of two rounds: block 2 won round 2 and block 9 round 1. *)
Lemma probabilities_near_distribution_witness :
  exists ps : list float,
    probabilities (@calculateProbabilities float _ (with_winners new_analyzer two_rounds))
    = ps /\
    length ps = 25%nat /\
    (1 - 51 * u <= SmartPicks.sumQ (List.map F2Q ps))%Q /\
    (SmartPicks.sumQ (List.map F2Q ps) <= 1 + 27 * u)%Q /\
    PrimFloat.ltb (nth 1 ps 0%float) (nth 8 ps 0%float) = true.
Proof.
  destruct (probabilities_near_distribution two_rounds)
    as (ps & E & Hl & _ & Hlo & Hhi & Hlatest & _).
  - discriminate.
  - exists ps. split; [exact E|]. split; [exact Hl|]. split; [exact Hlo|].
    split; [exact Hhi|].
    apply (Hlatest {| w_round := 2; w_blockNumber := 2 |}).
    + reflexivity.
    + cbn. lia.
    + lia.
    + cbn. lia.
Defined.

(** ** The allocation, in binary64 *)

Lemma sumQ_app (l1 l2 : list Q) :
  (SmartPicks.sumQ (l1 ++ l2) == SmartPicks.sumQ l1 + SmartPicks.sumQ l2)%Q.
Proof.
  induction l1 as [|x l1 IH]; cbn [app SmartPicks.sumQ]; [ring|]. rewrite IH. ring.
Qed.

Lemma amounts_same (recs : list (Efficiency float)) (f : Efficiency float -> Z)
  (g : Efficiency float -> Reason float) (per : float) :
  (SmartPicks.sumQ
     (amounts (List.map (fun rec => {| alloc_blockNumber := f rec;
                                       alloc_amount := per;
                                       alloc_reason := g rec |}) recs))
   == inject_Z (Z.of_nat (length recs)) * F2Q per)%Q.
Proof.
  unfold amounts. induction recs as [|rec recs IH].
  - cbn. ring.
  - cbn [List.map SmartPicks.sumQ alloc_amount length]. rewrite IH.
    rewrite Nat2Z.inj_succ. unfold Z.succ. rewrite inject_Z_plus. ring.
Qed.

(** An equal share of [x] for each of [n] picks: the shares add up to [x]
    up to one rounding. *)
Lemma share64 (x : float) (n : nat) :
  pfinite x -> (pow2 (-400) <= F2Q x)%Q -> (F2Q x <= pow2 400)%Q -> (1 <= n <= 25)%nat ->
  pfinite (x / @num_of_nat float _ n)%float /\
  ((1 - u) * F2Q x <= inject_Z (Z.of_nat n) * F2Q (x / @num_of_nat float _ n)%float)%Q /\
  (inject_Z (Z.of_nat n) * F2Q (x / @num_of_nat float _ n)%float <= (1 + u) * F2Q x)%Q.
Proof.
  intros Hx Hlo Hhi Hn. destruct (of_nat_exact n Hn) as [Hcf Hc].
  change (of_uint63 (of_Z (Z.of_nat n))) with (@num_of_nat float _ n) in Hcf, Hc.
  set (c := @num_of_nat float _ n) in *.
  assert (1 <= inject_Z (Z.of_nat n))%Q as Hn1
    by (change 1%Q with (inject_Z 1); rewrite <- Zle_Qle; lia).
  assert (inject_Z (Z.of_nat n) <= 25)%Q as Hn25
    by (change 25%Q with (inject_Z 25); rewrite <- Zle_Qle; lia).
  assert (pow2 (-500) <= pow2 (-400))%Q by (apply pow2_le; lia).
  assert (pow2 400 <= pow2 500)%Q by (apply pow2_le; lia).
  assert (pow2 (-500) <= 1)%Q by (vm_compute; discriminate).
  assert (25 <= pow2 500)%Q by (vm_compute; discriminate).
  destruct (div_correct x c Hx Hcf) as [Hf Hnear]; try lra.
  apply near_bounds in Hnear. rewrite Hc in Hnear. destruct Hnear as [Hl Hh].
  split; [exact Hf|].
  set (N := inject_Z (Z.of_nat n)) in *.
  assert (N * ((1 - u) * (F2Q x / N)) == (1 - u) * F2Q x)%Q as E1 by (field; lra).
  assert (N * ((1 + u) * (F2Q x / N)) == (1 + u) * F2Q x)%Q as E2 by (field; lra).
  split.
  - rewrite <- E1. apply Qmult_le_l_weak; lra.
  - rewrite <- E2. apply Qmult_le_l_weak; lra.
Qed.

(** One stage of the allocation: [n] picks share [budget], which is taken
    off what remains when there is a pick.  [B] is the scale of the
    amounts. *)
Lemma stage64 (rem budget : float) (n : nat) (B : Q) :
  (L100 <= B)%Q -> (B <= H100)%Q ->
  pfinite rem -> pfinite budget ->
  ((1 # 8) * B <= F2Q budget)%Q ->
  (F2Q budget + (1 # 8) * B <= F2Q rem)%Q ->
  (F2Q rem <= 2 * B)%Q ->
  (n <= 25)%nat ->
  let per := (budget / @num_of_nat float _ n)%float in
  let rem' := if (0 <? n)%nat then (rem - budget)%float else rem in
  let paid := (inject_Z (Z.of_nat n) * F2Q per)%Q in
  pfinite rem' /\
  ((0 < n)%nat -> pfinite per) /\
  (0 <= paid)%Q /\
  ((1 - u) * F2Q rem <= paid + F2Q rem')%Q /\
  (paid + F2Q rem' <= (1 + u) * F2Q rem)%Q /\
  ((1 - u) * (F2Q rem - F2Q budget) <= F2Q rem')%Q /\
  (F2Q rem' <= F2Q rem)%Q.
Proof.
  intros HB1 HB2 Hrf Hbf Hb1 Hb2 Hr2 Hn. cbn zeta.
  destruct u_bounds as [Hu0 Hu1].
  assert (0 < L100)%Q as HL0 by reflexivity.
  set (R := F2Q rem) in *. set (b := F2Q budget) in *.
  assert (0 <= u * R)%Q as HuR by (apply Qmult_le_0_compat; lra).
  assert (0 <= u * b)%Q as Hub by (apply Qmult_le_0_compat; lra).
  assert (u * R <= (1 # 1000000) * R)%Q as HuR' by (apply scale_le; lra).
  assert (u * b <= (1 # 1000000) * b)%Q as Hub' by (apply scale_le; lra).
  destruct (Nat.ltb_spec 0 n) as [Hn0|Hn0].
  - assert (pow2 (-400) <= (1 # 8) * L100)%Q as P400 by (vm_compute; discriminate).
    assert (2 * H100 <= pow2 400)%Q as B400 by (vm_compute; discriminate).
    assert (pow2 (-1022) <= (1 # 8) * L100)%Q as P1022 by (vm_compute; discriminate).
    assert (2 * H100 < pow2 1023)%Q as B1023 by (vm_compute; reflexivity).
    destruct (share64 budget n Hbf) as (Hpf & Hplo & Hphi); fold b; try lra; try lia.
    fold b in Hplo, Hphi.
    destruct (sub_correct rem budget Hrf Hbf) as [Hsf Hs]; fold R b; try lra.
    apply near_bounds in Hs. fold R b in Hs. destruct Hs as [Hslo Hshi].
    split; [exact Hsf|]. split; [intros _; exact Hpf|].
    split; [lra|]. split; [lra|]. split; [lra|]. split; [exact Hslo | lra].
  - assert (n = 0%nat) as -> by lia. change (inject_Z (Z.of_nat 0)) with 0%Q. fold R.
    split; [exact Hrf|]. split; [lia|]. split; [lra|]. split; [lra|]. split; [lra|].
    split; lra.
Qed.

(** The allocation is the three lists of picks one after the other, each
    pick with the share of its list; the contrarian picks are there when
    something remains. *)
Lemma allocation_stages (b : float) (advice : Advice float) :
  let np := length (primary advice) in
  let nn := length (neverWon advice) in
  let nc := length (contrarian advice) in
  let pb := (b * num_0_6)%float in
  let nwb := (b * @decimal float _ 25 100)%float in
  let rem1 := if (0 <? np)%nat then (b - pb)%float else b in
  let rem2 := if (0 <? nn)%nat then (rem1 - nwb)%float else rem1 in
  calculateOptimalAllocation b advice
  = List.map (fun rec => {| alloc_blockNumber := eff_blockNumber rec;
                            alloc_amount := (pb / @num_of_nat float _ np)%float;
                            alloc_reason := HighEfficiency (eff_efficiency rec) |})
             (primary advice)
    ++ List.map (fun rec => {| alloc_blockNumber := eff_blockNumber rec;
                               alloc_amount := (nwb / @num_of_nat float _ nn)%float;
                               alloc_reason := NeverWonBonus (eff_efficiency rec) |})
                (neverWon advice)
    ++ (if PrimFloat.ltb (@num_of_nat float _ 0) rem2
        then List.map (fun rec => {| alloc_blockNumber := eff_blockNumber rec;
                                     alloc_amount := (rem2 / @num_of_nat float _ nc)%float;
                                     alloc_reason := Contrarian (eff_participants rec) |})
                      (contrarian advice)
        else []).
Proof.
  cbn zeta. unfold calculateOptimalAllocation. cbn zeta.
  change (@num_mul float _) with PrimFloat.mul.
  change (@num_sub float _) with PrimFloat.sub.
  change (@num_div float _) with PrimFloat.div.
  change (@num_gt float _) with (fun x y => PrimFloat.ltb y x). cbv beta.
  destruct (primary advice) as [|p ps]; destruct (neverWon advice) as [|q qs];
    destruct (contrarian advice) as [|c cs]; cbn [length Nat.ltb Nat.leb andb app List.map];
    rewrite ?app_nil_r; try reflexivity;
    try (destruct (PrimFloat.ltb _ _); reflexivity);
    try (rewrite <- ?app_assoc; cbn [app]; destruct (PrimFloat.ltb _ _);
         rewrite ?app_nil_r; reflexivity).
Qed.

Lemma amounts_app (l1 l2 : list (Allocation float)) :
  (SmartPicks.sumQ (amounts (l1 ++ l2))
   == SmartPicks.sumQ (amounts l1) + SmartPicks.sumQ (amounts l2))%Q.
Proof. unfold amounts. rewrite map_app. apply sumQ_app. Qed.

Lemma amounts_finite (recs : list (Efficiency float)) (f : Efficiency float -> Z)
  (g : Efficiency float -> Reason float) (per : float) :
  ((0 < length recs)%nat -> pfinite per) ->
  Forall (fun a => pfinite (alloc_amount a))
         (List.map (fun rec => {| alloc_blockNumber := f rec;
                                  alloc_amount := per;
                                  alloc_reason := g rec |}) recs).
Proof.
  intros H. destruct recs as [|rec recs]; [constructor|].
  specialize (H ltac:(cbn; lia)).
  apply Forall_forall. intros a Ha. apply in_map_iff in Ha.
  destruct Ha as (r & <- & _). exact H.
Qed.

Lemma cube_hi (B : Q) : (0 <= B)%Q -> ((1 + u) * ((1 + u) * ((1 + u) * B)) <= (1 + 4 * u) * B)%Q.
Proof.
  intros HB. destruct u_bounds as [Hu0 Hu1].
  assert (0 <= u * B)%Q as H1 by (apply Qmult_le_0_compat; lra).
  assert (0 <= u * (u * B))%Q as H2 by (apply Qmult_le_0_compat; lra).
  assert (u * (u * B) <= (1 # 1000000) * (u * B))%Q as H3 by (apply scale_le; lra).
  assert (0 <= u * (u * (u * B)))%Q as H4 by (apply Qmult_le_0_compat; lra).
  assert (u * (u * (u * B)) <= (1 # 1000000) * (u * (u * B)))%Q as H5 by (apply scale_le; lra).
  lra.
Qed.

Lemma cube_lo (B : Q) : (0 <= B)%Q -> ((1 - 3 * u) * B <= (1 - u) * ((1 - u) * ((1 - u) * B)))%Q.
Proof.
  intros HB. destruct u_bounds as [Hu0 Hu1].
  assert (0 <= u * B)%Q as H1 by (apply Qmult_le_0_compat; lra).
  assert (0 <= u * (u * B))%Q as H2 by (apply Qmult_le_0_compat; lra).
  assert (u * (u * B) <= (1 # 1000000) * (u * B))%Q as H3 by (apply scale_le; lra).
  assert (0 <= u * (u * (u * B)))%Q as H4 by (apply Qmult_le_0_compat; lra).
  assert (u * (u * (u * B)) <= (1 # 1000000) * (u * (u * B)))%Q as H5 by (apply scale_le; lra).
  lra.
Qed.

(** In binary64, for a budget between [2^-100] and [2^100] and at most 25
    picks in each list: [calculateOptimalAllocation] returns one entry per
    recommended pick, every amount is a positive finite number, and the
    amounts add up, exactly, to at most the budget and four units of
    roundoff; with a contrarian pick they add up to at least the budget
    less three units of roundoff. *)
Theorem allocation_near_budget (b : float) (advice : Advice float) :
  within L100 H100 b ->
  (length (primary advice) <= 25)%nat ->
  (length (neverWon advice) <= 25)%nat ->
  (length (contrarian advice) <= 25)%nat ->
  let allocation := calculateOptimalAllocation b advice in
  length allocation
  = (length (primary advice) + length (neverWon advice) + length (contrarian advice))%nat /\
  Forall (fun a => pfinite (alloc_amount a)) allocation /\
  (SmartPicks.sumQ (amounts allocation) <= (1 + 4 * u) * F2Q b)%Q /\
  (contrarian advice <> [] ->
   ((1 - 3 * u) * F2Q b <= SmartPicks.sumQ (amounts allocation))%Q).
Proof.
  intros (Hbf & Hb1 & Hb2) Hnp Hnn Hnc. cbn zeta.
  rewrite allocation_stages. cbn zeta.
  set (np := length (primary advice)) in *.
  set (nn := length (neverWon advice)) in *.
  set (nc := length (contrarian advice)) in *.
  set (pb := (b * num_0_6)%float).
  set (nwb := (b * @decimal float _ 25 100)%float).
  set (rem1 := if (0 <? np)%nat then (b - pb)%float else b).
  set (rem2 := if (0 <? nn)%nat then (rem1 - nwb)%float else rem1).
  destruct u_bounds as [Hu0 Hu1]. set (B := F2Q b) in *.
  assert (0 < L100)%Q as HL0 by reflexivity.
  assert (0 <= u * B)%Q as HuB by (apply Qmult_le_0_compat; lra).
  assert (u * B <= (1 # 1000000) * B)%Q as HuB' by (apply scale_le; lra).
  assert (pow2 (-1022) <= (1 # 8) * L100)%Q as P1022 by (vm_compute; discriminate).
  assert (2 * H100 < pow2 1023)%Q as B1023 by (vm_compute; reflexivity).
  assert (pow2 (-400) <= (1 # 8) * L100)%Q as P400 by (vm_compute; discriminate).
  assert (2 * H100 <= pow2 400)%Q as B400 by (vm_compute; discriminate).
  (* the two budgets *)
  destruct c6_value as (H6f & H6lo & H6hi).
  set (c6 := F2Q (@num_0_6 float _)) in *.
  assert ((599 # 1000) * B <= B * c6)%Q as Hc6lo.
  { assert (B * (599 # 1000) <= B * c6)%Q by (apply Qmult_le_l_weak; lra). lra. }
  assert (B * c6 <= (6 # 10) * B)%Q as Hc6hi.
  { assert (B * c6 <= B * (6 # 10))%Q by (apply Qmult_le_l_weak; lra). lra. }
  destruct (mul_correct b num_0_6 Hbf H6f) as [Hpbf Hpb]; fold B c6; try lra.
  apply near_bounds in Hpb. fold B c6 pb in Hpb. destruct Hpb as [Hpblo Hpbhi].
  set (PB := F2Q pb) in *.
  assert (0 <= u * (B * c6))%Q as Hu6 by (apply Qmult_le_0_compat; lra).
  assert (u * (B * c6) <= (1 # 1000000) * (B * c6))%Q as Hu6' by (apply scale_le; lra).
  assert (pfinite (@decimal float _ 25 100)) as H25f by (eexists _, _; reflexivity).
  assert (F2Q (@decimal float _ 25 100) == 1 # 4)%Q as H25 by reflexivity.
  destruct (mul_correct b (@decimal float _ 25 100) Hbf H25f) as [Hnwf Hnw];
    fold B; rewrite ?H25; try lra.
  apply near_bounds in Hnw. fold B nwb in Hnw. rewrite H25 in Hnw.
  destruct Hnw as [Hnwlo Hnwhi]. set (NW := F2Q nwb) in *.
  (* the primary picks *)
  destruct (stage64 b pb np B Hb1 Hb2 Hbf Hpbf) as (Hr1f & Hper1 & HP1 & HS1lo & HS1hi & HR1lo & HR1hi);
    fold B PB; try lra; try lia.
  fold B PB rem1 in Hr1f, HS1lo, HS1hi, HR1lo, HR1hi.
  set (P1 := (inject_Z (Z.of_nat np) * F2Q (pb / @num_of_nat float _ np)%float)%Q) in *.
  set (R1 := F2Q rem1) in *.
  assert (0 <= u * PB)%Q as HuPB by (apply Qmult_le_0_compat; lra).
  assert (u * PB <= (1 # 1000000) * PB)%Q as HuPB' by (apply scale_le; lra).
  (* the picks that never won *)
  destruct (stage64 rem1 nwb nn B Hb1 Hb2 Hr1f Hnwf) as (Hr2f & Hper2 & HP2 & HS2lo & HS2hi & HR2lo & HR2hi);
    fold R1 NW; try lra; try lia.
  fold R1 NW rem2 in Hr2f, HS2lo, HS2hi, HR2lo, HR2hi.
  set (P2 := (inject_Z (Z.of_nat nn) * F2Q (nwb / @num_of_nat float _ nn)%float)%Q) in *.
  set (R2 := F2Q rem2) in *.
  assert (0 <= u * R1)%Q as HuR1 by (apply Qmult_le_0_compat; lra).
  assert (u * R1 <= (1 # 1000000) * R1)%Q as HuR1' by (apply scale_le; lra).
  assert (0 <= u * NW)%Q as HuNW by (apply Qmult_le_0_compat; lra).
  assert (u * NW <= (1 # 1000000) * NW)%Q as HuNW' by (apply scale_le; lra).
  assert ((1 # 8) * B <= R2)%Q as HR2pos by lra.
  (* the contrarian picks *)
  rewrite (ltb_zero rem2 _ zero_pzero Hr2f).
  set (per3 := (rem2 / @num_of_nat float _ nc)%float).
  set (C := (inject_Z (Z.of_nat nc) * F2Q per3)%Q).
  assert (((0 < nc)%nat -> pfinite per3) /\ (0 <= C)%Q /\ (C <= (1 + u) * R2)%Q /\
          ((0 < nc)%nat -> ((1 - u) * R2 <= C)%Q)) as (Hper3 & HC0 & HChi & HClo).
  { assert (0 <= u * R2)%Q as HuR2 by (apply Qmult_le_0_compat; lra).
    assert (u * R2 <= (1 # 1000000) * R2)%Q as HuR2' by (apply scale_le; lra).
    destruct (Nat.eq_dec nc 0) as [E|E].
    - subst C. rewrite E. change (inject_Z (Z.of_nat 0)) with 0%Q.
      split; [lia|]. split; [lra|]. split; [lra | lia].
    - destruct (share64 rem2 nc Hr2f) as (Hf & Hlo & Hhi); fold R2; try lra; try lia.
      fold R2 per3 C in Hf, Hlo, Hhi.
      split; [intros _; exact Hf|]. split; [lra|]. split; [exact Hhi | intros _; exact Hlo]. }
  split.
  { rewrite !length_app, !length_map. fold np nn nc. lia. }
  split.
  { apply Forall_app. split; [now apply amounts_finite|].
    apply Forall_app. split; now apply amounts_finite. }
  rewrite !amounts_app, !amounts_same. fold np nn nc P1 P2 per3 C.
  assert (0 <= u * P2)%Q as HuP2 by (apply Qmult_le_0_compat; lra).
  assert (0 <= u * P1)%Q as HuP1 by (apply Qmult_le_0_compat; lra).
  assert (0 <= u * (u * P1))%Q as HuuP1 by (apply Qmult_le_0_compat; lra).
  split.
  - assert (P2 + C <= (1 + u) * (P2 + R2))%Q as Ha by lra.
    assert ((1 + u) * (P2 + R2) <= (1 + u) * ((1 + u) * R1))%Q as Hb
      by (apply Qmult_le_l_weak; lra).
    assert (P1 + (1 + u) * ((1 + u) * R1) <= (1 + u) * ((1 + u) * (P1 + R1)))%Q as Hc by lra.
    assert ((1 + u) * ((1 + u) * (P1 + R1)) <= (1 + u) * ((1 + u) * ((1 + u) * B)))%Q as Hd.
    { apply Qmult_le_l_weak; [lra|]. apply Qmult_le_l_weak; lra. }
    pose proof (cube_hi B ltac:(lra)) as He. lra.
  - intros Hne.
    assert (0 < nc)%nat as Hnc0.
    { subst nc. destruct (contrarian advice); [congruence | cbn; lia]. }
    specialize (HClo Hnc0).
    assert ((1 - u) * (P2 + R2) <= P2 + C)%Q as Ha by lra.
    assert ((1 - u) * ((1 - u) * R1) <= (1 - u) * (P2 + R2))%Q as Hb
      by (apply Qmult_le_l_weak; lra).
    assert (u * (u * P1) <= (1 # 1000000) * (u * P1))%Q as HuuP1' by (apply scale_le; lra).
    assert ((1 - u) * ((1 - u) * (P1 + R1)) <= P1 + (1 - u) * ((1 - u) * R1))%Q as Hc by lra.
    assert ((1 - u) * ((1 - u) * ((1 - u) * B)) <= (1 - u) * ((1 - u) * (P1 + R1)))%Q as Hd.
    { apply Qmult_le_l_weak; [lra|]. apply Qmult_le_l_weak; lra. }
    pose proof (cube_lo B ltac:(lra)) as He. lra.
Qed.

(** A budget of 0.3 SOL on an advice of three primary picks, two that
    never won and two contrarian ones: seven entries, whose amounts add up,
    in the arithmetic of the script, to more than the budget. *)
Lemma allocation_near_budget_witness :
  length (calculateOptimalAllocation small_budget full_advice) = 7%nat /\
  (SmartPicks.sumQ (amounts (calculateOptimalAllocation small_budget full_advice))
   <= (1 + 4 * u) * F2Q small_budget)%Q /\
  ((1 - 3 * u) * F2Q small_budget
   <= SmartPicks.sumQ (amounts (calculateOptimalAllocation small_budget full_advice)))%Q /\
  PrimFloat.ltb small_budget
    (total_allocated (calculateOptimalAllocation small_budget full_advice)) = true.
Proof.
  destruct (allocation_near_budget small_budget full_advice) as (Hlen & _ & Hhi & Hlo).
  - split; [eexists _, _; reflexivity | split; vm_compute; discriminate].
  - cbn. lia.
  - cbn. lia.
  - cbn. lia.
  - split; [exact Hlen|]. split; [exact Hhi|]. split; [apply Hlo; discriminate|].
    vm_compute. reflexivity.
Defined.

End Analyzer64.
